(** * The nogil cycle collector and its locks: a shallow embedding

    This development embeds in Rocq the parts of [Python/lock.c] and
    [Modules/gcmodule.c] that the specification of the collector talks
    about, and proves (or refutes) the specification's statements on them.

    Conventions.
    - A [uintptr_t] is a [Z] in [0, 2^64); pointers are such numbers, [0]
      is [NULL].  [Py_ssize_t] is the signed reading of the same 64 bits.
    - C [assert]s are compiled out (release build); where an assertion
      documents a precondition it appears as a hypothesis of the theorem.
    - [Py_FatalError] aborts the process: a function that reaches it
      yields [Fatal msg].
    - What other threads do between two atomic operations of the modelled
      thread is given explicitly, as a list of interferences. *)

From Stdlib Require Import ZArith Lia List Bool QArith Qround.
From stdpp Require Import base tactics option list gmap strings pretty relations.

Local Open Scope Z_scope.
#[local] Set Warnings "-clear-no-such-hyp".

(** ** Machine words *)

Definition wrap64 (z : Z) : Z := z mod 2 ^ 64.
Definition wrap32 (z : Z) : Z := z mod 2 ^ 32.

(** The signed reading ([(Py_ssize_t)x], [(int32_t)x]) of an unsigned word. *)
Definition signed64 (z : Z) : Z := if z <? 2 ^ 63 then z else z - 2 ^ 64.
Definition signed32 (z : Z) : Z := if z <? 2 ^ 31 then z else z - 2 ^ 32.

(** A [W]-bit word with a signed counter above [S] low flag bits: the
    shape of [_gc_prev] during a collection and of [ob_ref_shared]. *)
Definition signedW (W z : Z) : Z := if z <? 2 ^ (W - 1) then z else z - 2 ^ W.
Definition pack (W S c f : Z) : Z := (c * 2 ^ S + f) mod 2 ^ W.

(** How a modelled C function ends. *)
Inductive outcome (A : Type) : Type :=
| Done (a : A)                     (* returned normally *)
| Fatal (msg : string) (a : A)     (* Py_FatalError: the process aborts *)
| Blocked (a : A)                  (* parked or waiting, never woken *)
| OutOfFuel.                       (* a loop was cut off by the model's bound *)
Arguments Done {A} a.
Arguments Fatal {A} msg a.
Arguments Blocked {A} a.
Arguments OutOfFuel {A}.

(** Sequencing of steps on one state. *)
Definition and_then {A} (o : outcome A) (k : A -> outcome A) : outcome A :=
  match o with
  | Done a => k a
  | other => other
  end.

Definition is_fatal {A} (o : outcome A) : bool :=
  match o with Fatal _ _ => true | _ => false end.

(** * Python/lock.c *)
Module Lock.

(** Modelled from the spec: the state constants of lock.h, which is not part
    of the sources at hand ("UNLOCKED=0, LOCKED=1"; the code itself tests
    [(v & 2) == HAS_PARKED]). *)
Definition UNLOCKED : Z := 0.
Definition LOCKED : Z := 1.
Definition HAS_PARKED : Z := 2.

(** Return codes of the parking lot. *)
Inductive park_result := PY_PARK_OK | PY_PARK_AGAIN | PY_PARK_TIMEOUT | PY_PARK_INTR.

(** What a lock operation can be seen to do besides changing the word. *)
Inductive event :=
| SemaphoreSignal (waiter : Z)     (* _PySemaphore_Signal(waiter->os, ...) *)
| UnparkAll (addr_word : Z)        (* _PyParkingLot_UnparkAll(&o->v) *)
| Park (expected : Z).             (* _PyParkingLot_Park(&m->v, expected, ...) *)

(** One word-sized primitive ([_PyRawMutex], [_PyRawEvent], [_PyEvent]),
    together with the memory the slow paths read ([tstate->os->next_waiter])
    and the events emitted so far. *)
Record prim := {
  v : Z;
  next_waiter : Z -> Z;
  events : list event
}.

Definition set_v (x : Z) (p : prim) : prim :=
  {| v := x; next_waiter := next_waiter p; events := events p |}.
Definition emit (e : event) (p : prim) : prim :=
  {| v := v p; next_waiter := next_waiter p; events := events p ++ [e] |}.

(** [_PyRawMutex_unlock_slow].  Each element of [env] is the value another
    thread has stored into [m->v] between this thread's load and its
    compare-exchange; with no interference left the compare-exchange
    succeeds.  A failed compare-exchange goes round the [for (;;)] loop. *)
Fixpoint _PyRawMutex_unlock_slow (env : list Z) (m : prim) : outcome prim :=
  let v0 := v m in
  if Z.land v0 1 =? UNLOCKED then
    Fatal "unlocking mutex that is not locked" m
  else
    let waiter := Z.land v0 (Z.lnot 1) in
    let success :=
      if negb (waiter =? 0) then
        Done (emit (SemaphoreSignal waiter) (set_v (next_waiter m waiter) m))
      else Done (set_v UNLOCKED m) in
    match env with
    | [] => success
    | cur :: env' =>
        if cur =? v0 then success
        else _PyRawMutex_unlock_slow env' (set_v cur m)
    end.

(** [_PyRawEvent_Notify]: one atomic exchange, then a three-way branch. *)
Definition _PyRawEvent_Notify (o : prim) : outcome prim :=
  let v0 := v o in
  let o' := set_v LOCKED o in
  if v0 =? UNLOCKED then Done o'
  else if v0 =? LOCKED then Fatal "_PyRawEvent: duplicate notifications" o'
  else Done (emit (SemaphoreSignal v0) o').

(** [_PyRawEvent_Reset]. *)
Definition _PyRawEvent_Reset (o : prim) : prim := set_v UNLOCKED o.

(** [_PyEvent_Notify]: the same exchange; the duplicate-notification
    [Py_FatalError] is commented out in the source and replaced by [return]. *)
Definition _PyEvent_Notify (o : prim) : outcome prim :=
  let v0 := v o in
  let o' := set_v LOCKED o in
  if v0 =? UNLOCKED then Done o'
  else if v0 =? LOCKED then Done o'
  else Done (emit (UnparkAll v0) o').

(** *** The recursive mutex *)

Record rmutex := {
  rm_v : Z;                 (* m->v: owner thread id | HAS_PARKED | LOCKED *)
  recursions : Z;           (* m->recursions *)
  rm_events : list event
}.

Definition rm_set_v (x : Z) (m : rmutex) : rmutex :=
  {| rm_v := x; recursions := recursions m; rm_events := rm_events m |}.
Definition rm_emit (e : event) (m : rmutex) : rmutex :=
  {| rm_v := rm_v m; recursions := recursions m; rm_events := rm_events m ++ [e] |}.
Definition rm_recurse (m : rmutex) : rmutex :=
  {| rm_v := rm_v m; recursions := wrap64 (recursions m + 1);
     rm_events := rm_events m |}.

(** The calling thread, and the runtime field the slow path consults. *)
Record thread := {
  thread_id : Z;            (* _Py_ThreadId() *)
  tstate : Z;               (* _PyThreadState_GET() *)
  finalizing : Z            (* _PyRuntime.finalizing *)
}.

(** What the rest of the system does during one round of the lock loop. *)
Record round := {
  interfere : option Z;       (* a store landing between our load and our CAS *)
  park_ret : park_result;     (* what _PyParkingLot_Park returns *)
  handoff_elem : bool;        (* tstate->handoff_elem when we wake *)
  wake_v : Z                  (* m->v when we wake *)
}.

Definition park_then (k : rmutex -> outcome rmutex) (e : round)
    (expected : Z) (m : rmutex) : outcome rmutex :=
  let m' := rm_set_v (wake_v e) (rm_emit (Park expected) m) in
  match park_ret e with
  | PY_PARK_OK => if handoff_elem e then Done m' else k m'
  | _ => k m'
  end.

(** The [for (;;)] loop.  With no round left nothing else happens in the
    system: a compare-exchange succeeds and a park is never ended. *)
Fixpoint lock_loop (env : list round) (tid : Z) (m : rmutex) : outcome rmutex :=
  match env with
  | [] =>
      let v0 := rm_v m in
      if Z.land v0 1 =? UNLOCKED then
        Done (rm_set_v (Z.lor (Z.lor tid (Z.land v0 HAS_PARKED)) LOCKED) m)
      else if Z.land v0 HAS_PARKED =? 0 then
        let newv := Z.lor v0 HAS_PARKED in
        Blocked (rm_emit (Park newv) (rm_set_v newv m))
      else Blocked (rm_emit (Park v0) m)
  | e :: env' =>
      let v0 := rm_v m in
      let cur := default v0 (interfere e) in
      if Z.land v0 1 =? UNLOCKED then
        let newv := Z.lor (Z.lor tid (Z.land v0 HAS_PARKED)) LOCKED in
        if cur =? v0 then Done (rm_set_v newv m)
        else lock_loop env' tid (rm_set_v cur m)
      else if Z.land v0 HAS_PARKED =? 0 then
        let newv := Z.lor v0 HAS_PARKED in
        if cur =? v0 then park_then (lock_loop env' tid) e newv (rm_set_v newv m)
        else lock_loop env' tid (rm_set_v cur m)
      else park_then (lock_loop env' tid) e v0 m
  end.

(** [_PyRecursiveMutex_lock_slow]. *)
Definition _PyRecursiveMutex_lock_slow (env : list round) (t : thread)
    (m : rmutex) : outcome rmutex :=
  let v0 := rm_v m in
  if Z.land v0 (Z.lnot 3) =? thread_id t then Done (rm_recurse m)
  else if finalizing t =? tstate t then Done (rm_recurse m)
  else lock_loop env (thread_id t) m.

End Lock.

(** * Modules/gcmodule.c *)
Module GC.

(** ** Header and reference-count layout

    pycore_gc.h, pycore_refcnt.h and object.h are not among the sources at
    hand, so the positions of the flag bits and the widths of the shifts are
    parameters.  The specification fixes their shape: the low bits of
    [_gc_prev] hold TRACKED, FINALIZED and UNREACHABLE, the remaining bits
    hold the shifted [gc_refs] counter or the back pointer;
    [ob_ref_local] is [(count << shift) | immortal] and [ob_ref_shared] is
    [(count << shift) | merged | queued]. *)
Class Layout := {
  _PyGC_PREV_SHIFT : Z;
  FINALIZED_BIT : Z;
  UNREACHABLE_BIT : Z;
  TRACKED_BIT : Z;
  _Py_REF_LOCAL_SHIFT : Z;
  _Py_REF_SHARED_SHIFT : Z;
  IMMORTAL_BIT : Z;
  MERGED_BIT : Z
}.

Section WithLayout.
Context `{Layout}.

(** The flag bits lie below the shifts and are distinct. *)
Record layout_ok : Prop := {
  prev_shift_range : 0 < _PyGC_PREV_SHIFT < 63;
  finalized_range : 0 <= FINALIZED_BIT < _PyGC_PREV_SHIFT;
  unreachable_range : 0 <= UNREACHABLE_BIT < _PyGC_PREV_SHIFT;
  tracked_range : 0 <= TRACKED_BIT < _PyGC_PREV_SHIFT;
  finalized_unreachable : FINALIZED_BIT <> UNREACHABLE_BIT;
  finalized_tracked : FINALIZED_BIT <> TRACKED_BIT;
  unreachable_tracked : UNREACHABLE_BIT <> TRACKED_BIT;
  local_shift_range : 0 < _Py_REF_LOCAL_SHIFT < 32;
  shared_shift_range : 0 < _Py_REF_SHARED_SHIFT < 31;
  immortal_range : 0 <= IMMORTAL_BIT < _Py_REF_LOCAL_SHIFT;
  merged_range : 0 <= MERGED_BIT < _Py_REF_SHARED_SHIFT
}.

Definition _PyGC_PREV_MASK_FINALIZED : Z := 2 ^ FINALIZED_BIT.
Definition _PyGC_PREV_MASK_UNREACHABLE : Z := 2 ^ UNREACHABLE_BIT.
Definition _PyGC_PREV_MASK_TRACKED : Z := 2 ^ TRACKED_BIT.
(** [((uintptr_t) -1) << _PyGC_PREV_SHIFT] *)
Definition _PyGC_PREV_MASK : Z := wrap64 (Z.shiftl (-1) _PyGC_PREV_SHIFT).
(** The second body of [gc_list_clear] and the final heap validation use
    the names [GC_TRACKED_MASK], [GC_FINALIZED_MASK], [GC_UNREACHABLE_MASK]
    for the same three bits. *)
Definition GC_TRACKED_MASK : Z := _PyGC_PREV_MASK_TRACKED.
Definition GC_FINALIZED_MASK : Z := _PyGC_PREV_MASK_FINALIZED.
Definition GC_UNREACHABLE_MASK : Z := _PyGC_PREV_MASK_UNREACHABLE.

Definition _Py_REF_IMMORTAL_MASK : Z := 2 ^ IMMORTAL_BIT.
Definition _Py_REF_MERGED_MASK : Z := 2 ^ MERGED_BIT.

(** ** Objects and their reference counts *)

(** The fields of a [PyObject] the collector reads, with what its type
    object says about it. [ob_ref_local] and [ob_ref_shared] are 32-bit
    unsigned (they are printed with [%x]). *)
Record PyObject := {
  ob_tid : Z;
  ob_ref_local : Z;
  ob_ref_shared : Z;
  ob_is_gc : bool;              (* _PyObject_IS_GC(op) *)
  ob_exact_container : bool;    (* PyTuple_CheckExact(op) || PyDict_CheckExact(op) *)
  ob_referents : list Z;        (* the objects Py_TYPE(op)->tp_traverse visits *)
  tp_finalize : bool;           (* Py_TYPE(op)->tp_finalize != NULL *)
  tp_del : bool                 (* Py_TYPE(op)->tp_del != NULL *)
}.

(** [_PyRef_UnpackLocal(bits, &refcount, &immortal)] *)
Definition _PyRef_UnpackLocal (bits : Z) : Z * bool :=
  (Z.shiftr bits _Py_REF_LOCAL_SHIFT,
   negb (Z.land bits _Py_REF_IMMORTAL_MASK =? 0)).

(** [_PyRef_UnpackShared(bits, &refcount, NULL, NULL)]: the shared count is
    signed, other threads may have decremented it below zero. *)
Definition _PyRef_UnpackShared (bits : Z) : Z :=
  Z.shiftr (signed32 bits) _Py_REF_SHARED_SHIFT.

Definition is_merged (op : PyObject) : bool :=
  negb (Z.land (ob_ref_shared op) _Py_REF_MERGED_MASK =? 0).
Definition is_immortal (op : PyObject) : bool :=
  snd (_PyRef_UnpackLocal (ob_ref_local op)).

(** [_Py_GC_REFCNT]: the logical reference count. *)
Definition _Py_GC_REFCNT (op : PyObject) : Z :=
  let local := fst (_PyRef_UnpackLocal (ob_ref_local op)) in
  let shared := _PyRef_UnpackShared (ob_ref_shared op) in
  local + shared.

Definition set_refs (tid loc sh : Z) (op : PyObject) : PyObject :=
  {| ob_tid := tid; ob_ref_local := loc; ob_ref_shared := sh;
     ob_is_gc := ob_is_gc op; ob_exact_container := ob_exact_container op;
     ob_referents := ob_referents op;
     tp_finalize := tp_finalize op; tp_del := tp_del op |}.

(** [incref_merge]: adds one to the refcount and merges the local and
    shared fields. *)
Definition incref_merge (op : PyObject) : PyObject :=
  let local_refcount := fst (_PyRef_UnpackLocal (ob_ref_local op)) in
  let sh1 := wrap32 (ob_ref_shared op
                     + Z.shiftl (local_refcount + 1) _Py_REF_SHARED_SHIFT) in
  let sh2 := Z.lor sh1 _Py_REF_MERGED_MASK in
  set_refs 0 0 sh2 op.

End WithLayout.

(** A concrete layout that meets [layout_ok], for running the definitions
    on examples: FINALIZED, UNREACHABLE and TRACKED are bits 0, 1 and 2 of
    [_gc_prev], the counter starts at bit 3; the reference counts start at
    bit 2, above the immortal bit (bit 0 of the local field) and the queued
    and merged bits (bits 0 and 1 of the shared field). *)
Definition example_layout : Layout :=
  {| _PyGC_PREV_SHIFT := 3;
     FINALIZED_BIT := 0;
     UNREACHABLE_BIT := 1;
     TRACKED_BIT := 2;
     _Py_REF_LOCAL_SHIFT := 2;
     _Py_REF_SHARED_SHIFT := 2;
     IMMORTAL_BIT := 0;
     MERGED_BIT := 1 |}.

(** ** GC headers and the intrusive lists

    A [PyGC_Head] sits in front of every collectable object; the list heads
    of [collect] ([young], [unreachable], ...) are [PyGC_Head]s on the C
    stack.  The memory of all of them is a finite map from addresses. *)
Record PyGC_Head := { _gc_next : Z; _gc_prev : Z }.

Definition head_at (h : gmap Z PyGC_Head) (g : Z) : PyGC_Head :=
  default {| _gc_next := 0; _gc_prev := 0 |} (h !! g).
Definition store_next (g x : Z) (h : gmap Z PyGC_Head) : gmap Z PyGC_Head :=
  <[g := {| _gc_next := x; _gc_prev := _gc_prev (head_at h g) |}]> h.
Definition store_prev (g x : Z) (h : gmap Z PyGC_Head) : gmap Z PyGC_Head :=
  <[g := {| _gc_next := _gc_next (head_at h g); _gc_prev := x |}]> h.

(** [AS_GC(o)] is [(PyGC_Head * )(o) - 1], [FROM_GC] its inverse; a
    [PyGC_Head] is two words. *)
Definition AS_GC (o : Z) : Z := o - 16.
Definition FROM_GC (g : Z) : Z := g + 16.

(** The objects behind the headers, by address.  An address without an
    entry is not an object of a collectable type. *)
Definition no_object : PyObject :=
  {| ob_tid := 0; ob_ref_local := 0; ob_ref_shared := 0; ob_is_gc := false;
     ob_exact_container := false;
     ob_referents := []; tp_finalize := false; tp_del := false |}.
Definition object_at (objs : gmap Z PyObject) (op : Z) : PyObject :=
  default no_object (objs !! op).
Definition _PyObject_IS_GC (objs : gmap Z PyObject) (op : Z) : bool :=
  ob_is_gc (object_at objs op).

Section Heads.
Context `{Layout}.

(** Modelled from the spec: the accessor macros of pycore_gc.h
    ("implement as a tagged integer with explicit masked accessors"). *)
Definition GC_NEXT (h : gmap Z PyGC_Head) (g : Z) : Z := _gc_next (head_at h g).
Definition GC_PREV (h : gmap Z PyGC_Head) (g : Z) : Z :=
  Z.land (_gc_prev (head_at h g)) _PyGC_PREV_MASK.
Definition _PyGCHead_SET_NEXT (g p : Z) (h : gmap Z PyGC_Head) := store_next g p h.
Definition _PyGCHead_SET_PREV (g p : Z) (h : gmap Z PyGC_Head) :=
  store_prev g (Z.lor (Z.ldiff (_gc_prev (head_at h g)) _PyGC_PREV_MASK) p) h.
Definition _PyGC_TRACKED (h : gmap Z PyGC_Head) (g : Z) : bool :=
  negb (Z.land (_gc_prev (head_at h g)) _PyGC_PREV_MASK_TRACKED =? 0).
Definition _PyGCHead_FINALIZED (h : gmap Z PyGC_Head) (g : Z) : bool :=
  negb (Z.land (_gc_prev (head_at h g)) _PyGC_PREV_MASK_FINALIZED =? 0).
Definition _PyGCHead_SET_FINALIZED (g : Z) (h : gmap Z PyGC_Head) :=
  store_prev g (Z.lor (_gc_prev (head_at h g)) _PyGC_PREV_MASK_FINALIZED) h.
Definition _PyObject_GC_UNTRACK (op : Z) (h : gmap Z PyGC_Head) :=
  store_prev (AS_GC op)
    (Z.ldiff (_gc_prev (head_at h (AS_GC op))) _PyGC_PREV_MASK_TRACKED) h.

Definition gc_set_unreachable (g : Z) (h : gmap Z PyGC_Head) :=
  store_prev g (Z.lor (_gc_prev (head_at h g)) _PyGC_PREV_MASK_UNREACHABLE) h.
Definition gc_is_unreachable (h : gmap Z PyGC_Head) (g : Z) : bool :=
  negb (Z.land (_gc_prev (head_at h g)) _PyGC_PREV_MASK_UNREACHABLE =? 0).
Definition gc_clear_unreachable (g : Z) (h : gmap Z PyGC_Head) :=
  store_prev g (Z.ldiff (_gc_prev (head_at h g)) _PyGC_PREV_MASK_UNREACHABLE) h.

Definition gc_get_refs (h : gmap Z PyGC_Head) (g : Z) : Z :=
  Z.shiftr (signed64 (_gc_prev (head_at h g))) _PyGC_PREV_SHIFT.
Definition gc_set_refs (g refs : Z) (h : gmap Z PyGC_Head) :=
  store_prev g
    (Z.lor (Z.ldiff (_gc_prev (head_at h g)) _PyGC_PREV_MASK)
           (wrap64 (Z.shiftl (wrap64 refs) _PyGC_PREV_SHIFT))) h.
Definition gc_add_refs (g refs : Z) (h : gmap Z PyGC_Head) :=
  store_prev g (wrap64 (_gc_prev (head_at h g) + Z.shiftl refs _PyGC_PREV_SHIFT)) h.
Definition gc_decref (g : Z) (h : gmap Z PyGC_Head) :=
  store_prev g (wrap64 (_gc_prev (head_at h g) - Z.shiftl 1 _PyGC_PREV_SHIFT)) h.

(** *** list functions *)

Definition gc_list_init (list : Z) (h : gmap Z PyGC_Head) : gmap Z PyGC_Head :=
  <[list := {| _gc_next := list; _gc_prev := list |}]> h.

Definition gc_list_is_empty (h : gmap Z PyGC_Head) (list : Z) : bool :=
  _gc_next (head_at h list) =? list.

Definition gc_list_append (node list : Z) (h : gmap Z PyGC_Head) :=
  let last := _gc_prev (head_at h list) in
  let h := _PyGCHead_SET_PREV node last h in
  let h := _PyGCHead_SET_NEXT last node h in
  let h := _PyGCHead_SET_NEXT node list h in
  store_prev list node h.

Definition gc_list_move (node list : Z) (h : gmap Z PyGC_Head) :=
  let from_prev := GC_PREV h node in
  let from_next := GC_NEXT h node in
  let h := _PyGCHead_SET_NEXT from_prev from_next h in
  let h := _PyGCHead_SET_PREV from_next from_prev h in
  let to_prev := _gc_prev (head_at h list) in
  let h := _PyGCHead_SET_PREV node to_prev h in
  let h := _PyGCHead_SET_NEXT to_prev node h in
  let h := store_prev list node h in
  _PyGCHead_SET_NEXT node list h.

(** [chain_from h gc l e]: starting at [gc] and following [_gc_next], one
    walks through the nodes [l] and then arrives at [e]. A list with head
    [list] holds the nodes [l] when the walk from [GC_NEXT(list)] through
    [l] comes back to [list]. *)
Fixpoint chain_from (h : gmap Z PyGC_Head) (gc : Z) (l : list Z) (e : Z) : Prop :=
  match l with
  | [] => gc = e
  | x :: l' => gc = x /\ chain_from h (GC_NEXT h x) l' e
  end.
Definition is_gc_list (h : gmap Z PyGC_Head) (head : Z) (l : list Z) : Prop :=
  chain_from h (GC_NEXT h head) l head /\ NoDup (head :: l).

(** The loop shared by the two bodies of [gc_list_clear]; [keep] is what is
    done to [_gc_prev]. *)
Fixpoint gc_list_clear_loop (fuel : nat) (keep : Z -> Z) (list gc : Z)
    (h : gmap Z PyGC_Head) : outcome (gmap Z PyGC_Head) :=
  match fuel with
  | O => OutOfFuel
  | S fuel =>
      if gc =? list then Done (gc_list_init list h)
      else
        let next := GC_NEXT h gc in
        let h := <[gc := {| _gc_next := 0;
                            _gc_prev := keep (_gc_prev (head_at h gc)) |}]> h in
        gc_list_clear_loop fuel keep list next h
  end.

(** The first body of [gc_list_clear] in the file:
    [gc->_gc_prev &= ~_PyGC_PREV_MASK]. *)
Definition gc_list_clear_first (fuel : nat) (list : Z) (h : gmap Z PyGC_Head) :=
  gc_list_clear_loop fuel (fun p => Z.ldiff p _PyGC_PREV_MASK) list (GC_NEXT h list) h.

(** The second body, the one that stands last:
    [gc->_gc_prev &= (GC_TRACKED_MASK | GC_FINALIZED_MASK)]. *)
Definition gc_list_clear (fuel : nat) (list : Z) (h : gmap Z PyGC_Head) :=
  gc_list_clear_loop fuel (fun p => Z.land p (Z.lor GC_TRACKED_MASK GC_FINALIZED_MASK))
    list (GC_NEXT h list) h.

Fixpoint gc_list_size_loop (fuel : nat) (list gc : Z) (h : gmap Z PyGC_Head)
    (n : Z) : outcome Z :=
  match fuel with
  | O => OutOfFuel
  | S fuel =>
      if gc =? list then Done n
      else gc_list_size_loop fuel list (GC_NEXT h gc) h (n + 1)
  end.
Definition gc_list_size (fuel : nat) (list : Z) (h : gmap Z PyGC_Head) : outcome Z :=
  gc_list_size_loop fuel list (GC_NEXT h list) h 0.

End Heads.

(** ** Marking: reference subtraction and [move_unreachable] *)

Section Marking.
Context `{Layout}.
(** The objects (their reference counts and what their types' [tp_traverse]
    visits do not change while the world is stopped). *)
Variable objs : gmap Z PyObject.

(** [Py_TYPE(op)->tp_traverse(op, visit, arg)] *)
Definition tp_traverse (op : Z)
    (visit : Z -> gmap Z PyGC_Head -> gmap Z PyGC_Head)
    (h : gmap Z PyGC_Head) : gmap Z PyGC_Head :=
  fold_left (fun h r => visit r h) (ob_referents (object_at objs op)) h.

(** The same for a visitor that can abort the process. *)
Definition tp_traverse_checked (op : Z)
    (visit : Z -> gmap Z PyGC_Head -> outcome (gmap Z PyGC_Head))
    (h : gmap Z PyGC_Head) : outcome (gmap Z PyGC_Head) :=
  fold_left (fun o r => and_then o (visit r)) (ob_referents (object_at objs op)) (Done h).

(** [visit_decref] *)
Definition visit_decref (op : Z) (h : gmap Z PyGC_Head) : gmap Z PyGC_Head :=
  if _PyObject_IS_GC objs op then
    let gc := AS_GC op in
    if _PyGC_TRACKED h gc then gc_decref gc h else h
  else h.

(** [visit_incref] *)
Definition visit_incref (op : Z) (h : gmap Z PyGC_Head) : gmap Z PyGC_Head :=
  if _PyObject_IS_GC objs op then
    let gc := AS_GC op in
    if _PyGC_TRACKED h gc then gc_add_refs gc 1 h else h
  else h.

(** [_PyTuple_MaybeUntrack] and [_PyDict_MaybeUntrack] are not among the
    sources: whether they untrack [op] in the heap [h] is a parameter. *)
Variable wants_untrack : Z -> gmap Z PyGC_Head -> bool.

Definition maybe_untrack (op : Z) (h : gmap Z PyGC_Head) : gmap Z PyGC_Head :=
  if wants_untrack op h then _PyObject_GC_UNTRACK op h else h.

(** [update_refs], the visitor of the heap walk that seeds [young]. *)
Definition update_refs (gc list : Z) (h : gmap Z PyGC_Head) : gmap Z PyGC_Head :=
  let op := FROM_GC gc in
  let h := if ob_exact_container (object_at objs op) then maybe_untrack op h else h in
  if ob_exact_container (object_at objs op) && negb (_PyGC_TRACKED h gc) then
    store_prev gc (Z.ldiff (_gc_prev (head_at h gc)) _PyGC_PREV_MASK_FINALIZED) h
  else
    let refcount := _Py_GC_REFCNT (object_at objs op) in
    let h := gc_add_refs gc refcount h in
    let h := tp_traverse op visit_decref h in
    let prev := _gc_prev (head_at h list) in
    let h := store_next prev gc h in
    let h := store_next gc list h in
    store_prev list gc h.

(** [visit_heap(visitor, arg)]: the allocator's pages are walked block by
    block; [blocks] are the headers of the blocks in use, in the order of
    the walk. *)
Definition visit_heap (visitor : Z -> gmap Z PyGC_Head -> gmap Z PyGC_Head)
    (blocks : list Z) (h : gmap Z PyGC_Head) : gmap Z PyGC_Head :=
  fold_left (fun h gc => if _PyGC_TRACKED h gc then visitor gc h else h) blocks h.

(** [visit_reachable] *)
Definition visit_reachable (reachable op : Z) (h : gmap Z PyGC_Head)
    : outcome (gmap Z PyGC_Head) :=
  if negb (_PyObject_IS_GC objs op) then Done h
  else
    let gc := AS_GC op in
    if _gc_next (head_at h gc) =? 0 then Done h
    else
      let gc_refs := gc_get_refs h gc in
      if gc_refs <? 0 then Fatal "refcount is too small" h
      else if gc_is_unreachable h gc then
        let prev := GC_PREV h gc in
        let next := _gc_next (head_at h gc) in
        let h := store_next prev (_gc_next (head_at h gc)) h in
        let h := _PyGCHead_SET_PREV next prev h in
        let h := gc_list_append gc reachable h in
        let h := gc_set_refs gc 1 h in
        Done (gc_clear_unreachable gc h)
      else if gc_refs =? 0 then Done (gc_set_refs gc 1 h)
      else Done h.

(** The [while (gc != young)] loop of [move_unreachable]. *)
Fixpoint move_unreachable_loop (fuel : nat) (young unreachable prev gc : Z)
    (h : gmap Z PyGC_Head) : outcome (gmap Z PyGC_Head) :=
  match fuel with
  | O => OutOfFuel
  | S fuel =>
      if gc =? young then Done (store_prev young prev h)
      else
        let op := FROM_GC gc in
        if gc_get_refs h gc <? 0 then Fatal "refcount is too small" h
        else if negb (gc_get_refs h gc =? 0) then
          and_then (tp_traverse_checked op (visit_reachable young) h)
            (fun h =>
               let h := _PyGCHead_SET_PREV gc prev h in
               move_unreachable_loop fuel young unreachable gc
                 (_gc_next (head_at h gc)) h)
        else
          let h := store_next prev (_gc_next (head_at h gc)) h in
          let last := GC_PREV h unreachable in
          let h := store_next last gc h in
          let h := _PyGCHead_SET_PREV gc last h in
          let h := store_next gc unreachable h in
          let h := store_prev unreachable gc h in
          let h := gc_set_unreachable gc h in
          move_unreachable_loop fuel young unreachable prev
            (_gc_next (head_at h prev)) h
  end.

(** [move_unreachable] *)
Definition move_unreachable (fuel : nat) (young unreachable : Z)
    (h : gmap Z PyGC_Head) : outcome (gmap Z PyGC_Head) :=
  move_unreachable_loop fuel young unreachable young (GC_NEXT h young) h.

(** [deduce_unreachable] *)
Definition deduce_unreachable (fuel : nat) (base unreachable : Z)
    (h : gmap Z PyGC_Head) : outcome (gmap Z PyGC_Head) :=
  move_unreachable fuel base unreachable (gc_list_init unreachable h).

(** The start of the mark phase in [collect]: [gc_list_init(&young)],
    the heap walk with [update_refs], [deduce_unreachable]. *)
Definition seed_young (blocks : list Z) (young : Z) (h : gmap Z PyGC_Head)
    : gmap Z PyGC_Head :=
  visit_heap (fun gc h => update_refs gc young h) blocks (gc_list_init young h).

End Marking.

(** ** Finalizers *)

(** The headers, and the calls of [tp_finalize] made so far: the object, and
    whether its FINALIZED bit was set when the finalizer was entered. *)
Record fin_state := {
  fin_heads : gmap Z PyGC_Head;
  fin_calls : list (Z * bool)
}.

Section Finalizers.
Context `{Layout}.
(** The objects with their types, and what running the finalizer of the
    object at [op] does to the headers (user code: unconstrained here). *)
Variable objs : gmap Z PyObject.
Variable run_finalizer : Z -> gmap Z PyGC_Head -> gmap Z PyGC_Head.

(** The body of the [for] loop of [finalize_garbage]. *)
Definition finalize_one (gc : Z) (s : fin_state) : fin_state :=
  let op := FROM_GC gc in
  if negb (_PyGCHead_FINALIZED (fin_heads s) gc)
     && tp_finalize (object_at objs op) then
    let h := _PyGCHead_SET_FINALIZED gc (fin_heads s) in
    {| fin_heads := run_finalizer op h;
       fin_calls := fin_calls s ++ [(op, _PyGCHead_FINALIZED h gc)] |}
  else s.

Fixpoint finalize_garbage_loop (fuel : nat) (collectable gc : Z) (s : fin_state)
    : outcome fin_state :=
  match fuel with
  | O => OutOfFuel
  | S fuel =>
      if gc =? collectable then Done s
      else
        let s := finalize_one gc s in
        finalize_garbage_loop fuel collectable (GC_NEXT (fin_heads s) gc) s
  end.

(** [finalize_garbage] *)
Definition finalize_garbage (fuel : nat) (collectable : Z) (s : fin_state)
    : outcome fin_state :=
  finalize_garbage_loop fuel collectable (GC_NEXT (fin_heads s) collectable) s.

(** What happens to the headers over time: runs of [finalize_garbage], in
    this collection and in later ones, and everything in between (the
    resurrection phase, the rest of a collection, the mutators). *)
Inductive activity :=
| RunFinalizers (fuel : nat) (collectable : Z)
| Elsewhere (f : gmap Z PyGC_Head -> gmap Z PyGC_Head).

Fixpoint run_activities (acts : list activity) (s : fin_state) : outcome fin_state :=
  match acts with
  | [] => Done s
  | RunFinalizers fuel collectable :: acts =>
      and_then (finalize_garbage fuel collectable s) (run_activities acts)
  | Elsewhere f :: acts =>
      run_activities acts {| fin_heads := f (fin_heads s); fin_calls := fin_calls s |}
  end.

(** A step that never clears the FINALIZED bit of an object whose type has
    a finalizer. *)
Definition keeps_finalized (f : gmap Z PyGC_Head -> gmap Z PyGC_Head) : Prop :=
  forall h g,
    tp_finalize (object_at objs (FROM_GC g)) = true ->
    _PyGCHead_FINALIZED h g = true -> _PyGCHead_FINALIZED (f h) g = true.

Definition activity_keeps_finalized (a : activity) : Prop :=
  match a with
  | RunFinalizers _ _ => True
  | Elsewhere f => keeps_finalized f
  end.

(** What holds of the calls made so far: no object twice, every finalizer
    entered with the bit already set, and the bit still set. *)
Definition finalized_once (s : fin_state) : Prop :=
  NoDup (map fst (fin_calls s))
  /\ Forall (fun c => snd c = true
                      /\ tp_finalize (object_at objs (fst c)) = true
                      /\ _PyGCHead_FINALIZED (fin_heads s) (AS_GC (fst c)) = true)
            (fin_calls s).

End Finalizers.

(** An object with a finalizer, by itself on the list whose head is at 256;
    its header is at 4096, the object at 4112. *)
Definition finalizable_object : PyObject :=
  {| ob_tid := 0; ob_ref_local := 0; ob_ref_shared := 4; ob_is_gc := true;
     ob_exact_container := false; ob_referents := [];
     tp_finalize := true; tp_del := false |}.
Definition one_finalizable : gmap Z PyObject := {[ 4112 := finalizable_object ]}.
Definition one_on_list : gmap Z PyGC_Head :=
  <[256 := {| _gc_next := 4096; _gc_prev := 4096 |}]>
  (<[4096 := {| _gc_next := 256; _gc_prev := 256 + 4 |}]> ∅).

(** ** Collector state *)

Inductive _PyGC_Reason := GC_REASON_HEAP | GC_REASON_SHUTDOWN | GC_REASON_MANUAL.

Definition DEBUG_STATS : Z := 1.
Definition DEBUG_COLLECTABLE : Z := 2.
Definition DEBUG_UNCOLLECTABLE : Z := 4.
Definition DEBUG_SAVEALL : Z := 32.

Record gc_generation_stats := {
  collections : Z;
  collected : Z;
  uncollectable : Z
}.

(** [struct _gc_runtime_state], the fields gcmodule.c uses. *)
Record GCState := {
  enabled : Z;
  debug : Z;
  collecting : Z;
  gc_live : Z;
  gc_threshold : Z;
  gc_scale : Z;
  stats : gc_generation_stats;
  callbacks : option (list Z)      (* gc.callbacks; None before PyInit_gc *)
}.

Definition with_collecting (c : Z) (g : GCState) : GCState :=
  {| enabled := enabled g; debug := debug g; collecting := c;
     gc_live := gc_live g; gc_threshold := gc_threshold g;
     gc_scale := gc_scale g; stats := stats g; callbacks := callbacks g |}.
Definition with_threshold (t : Z) (g : GCState) : GCState :=
  {| enabled := enabled g; debug := debug g; collecting := collecting g;
     gc_live := gc_live g; gc_threshold := t;
     gc_scale := gc_scale g; stats := stats g; callbacks := callbacks g |}.
Definition with_stats (s : gc_generation_stats) (g : GCState) : GCState :=
  {| enabled := enabled g; debug := debug g; collecting := collecting g;
     gc_live := gc_live g; gc_threshold := gc_threshold g;
     gc_scale := gc_scale g; stats := s; callbacks := callbacks g |}.

(** [_PyGC_InitState].  [_Py_GetEnv] and [_Py_str_to_int] are not among
    the sources: [pythongc] is the number the latter stores into
    [gc_scale] when PYTHONGC is set and parses, [None] when it stores
    nothing. *)
Definition _PyGC_InitState (pythongc : option Z) (g : GCState) : GCState :=
  {| enabled := 1; debug := debug g; collecting := collecting g;
     gc_live := gc_live g; gc_threshold := 7000;
     gc_scale := default 100 pythongc;
     stats := stats g; callbacks := callbacks g |}.

(** [Py_ssize_t] arithmetic: the 64-bit result, read as signed; division
    truncates towards zero. *)
Definition ssize (z : Z) : Z := signed64 (wrap64 z).

(** [update_gc_threshold] *)
Definition update_gc_threshold (g : GCState) : GCState :=
  let live := gc_live g in
  let threshold := ssize (live + Z.quot (ssize (live * gc_scale g)) 100) in
  let threshold := if threshold <? 7000 then 7000 else threshold in
  with_threshold threshold g.

(** The threshold as the specification writes it,
    [max(7000, live * (1 + gc_scale/100))], the product taken in the
    rationals and rounded down to an integer. *)
Definition spec_threshold (live scale : Z) : Z :=
  Z.max 7000 (Qfloor (inject_Z live * (1 + inject_Z scale / inject_Z 100))%Q).

(** What [update_gc_threshold] computes, in unbounded integers: the
    increment [live * gc_scale / 100] is truncated towards zero. *)
Definition code_threshold (live scale : Z) : Z :=
  Z.max 7000 (live + Z.quot (live * scale) 100).

(** A Python integer that fits a C [int] (format "i" of
    [PyArg_ParseTuple]). *)
Definition fits_int (z : Z) : bool := (- 2 ^ 31 <=? z) && (z <? 2 ^ 31).

(** [gc_set_threshold]: [args] are the call's arguments, integers.
    [PyArg_ParseTuple(args, "i|ii:set_threshold", ...)] wants one to
    three of them, each a C [int]; when it fails the function returns
    NULL with the exception set and nothing is stored.  Only
    [threshold0] is stored. *)
Definition gc_set_threshold (args : list Z) (g : GCState)
    : option string * GCState :=
  match args with
  | [] => (Some "TypeError", g)
  | threshold0 :: rest =>
      if (2 <? length rest)%nat then (Some "TypeError", g)
      else if forallb fits_int args then (None, with_threshold threshold0 g)
      else (Some "OverflowError", g)
  end.

(** Modelled from the spec: [_PyGC_ShouldCollect] of pycore_gc.h, which is
    not among the sources: a heap-triggered collection is due when "the
    live-object count has reached gc_threshold". *)
Definition _PyGC_ShouldCollect (g : GCState) : bool :=
  gc_threshold g <=? gc_live g.

(** [gc_reason_is_valid] *)
Definition gc_reason_is_valid (g : GCState) (reason : _PyGC_Reason) : bool :=
  match reason with
  | GC_REASON_HEAP => _PyGC_ShouldCollect g
  | _ => true
  end.

(** ** The collection driver *)

(** What a collection can be seen to do from outside. *)
Inductive gc_event :=
| EvCallback (cb : Z) (phase : string) (n_collected n_uncollectable : Z)
| EvStopTheWorld
| EvStartTheWorld
| EvUnraisable (msg : string)
| EvUnraisableIn (obj : option Z).   (* PyErr_WriteUnraisable(obj) *)

(** The runtime around one call of [collect] on one thread. *)
Record World := {
  gcstate : GCState;                (* tstate->interp->gc *)
  stoptheworld_mutex : bool;        (* _PyRuntime.stoptheworld_mutex is held *)
  stop_the_world : bool;            (* the other threads are stopped *)
  cant_stop_wont_stop : Z;          (* tstate->cant_stop_wont_stop *)
  curexc : option string;           (* the thread's pending exception *)
  log : list gc_event
}.

Definition with_gcstate (g : GCState) (w : World) : World :=
  {| gcstate := g; stoptheworld_mutex := stoptheworld_mutex w;
     stop_the_world := stop_the_world w;
     cant_stop_wont_stop := cant_stop_wont_stop w;
     curexc := curexc w; log := log w |}.
Definition with_mutex (b : bool) (w : World) : World :=
  {| gcstate := gcstate w; stoptheworld_mutex := b;
     stop_the_world := stop_the_world w;
     cant_stop_wont_stop := cant_stop_wont_stop w;
     curexc := curexc w; log := log w |}.
Definition with_stopped (b : bool) (w : World) : World :=
  {| gcstate := gcstate w; stoptheworld_mutex := stoptheworld_mutex w;
     stop_the_world := b;
     cant_stop_wont_stop := cant_stop_wont_stop w;
     curexc := curexc w; log := log w |}.
Definition with_curexc (e : option string) (w : World) : World :=
  {| gcstate := gcstate w; stoptheworld_mutex := stoptheworld_mutex w;
     stop_the_world := stop_the_world w;
     cant_stop_wont_stop := cant_stop_wont_stop w;
     curexc := e; log := log w |}.
Definition record (e : gc_event) (w : World) : World :=
  {| gcstate := gcstate w; stoptheworld_mutex := stoptheworld_mutex w;
     stop_the_world := stop_the_world w;
     cant_stop_wont_stop := cant_stop_wont_stop w;
     curexc := curexc w; log := log w ++ [e] |}.

(** How a call of the driver ends: it returns a number, or it waits for a
    mutex that nobody is going to release, or its loop over gc.callbacks
    goes on beyond what the model follows. *)
Inductive returns :=
| Return (r : Z) (w : World)
| Deadlock (w : World)
| Unfinished (w : World).

(** [_PyMutex_lock] on the stop-the-world mutex, seen from the one thread
    that is modelled: a free mutex is taken, a held one is never released
    while this thread waits. *)
Definition _PyMutex_lock (w : World) : option World :=
  if stoptheworld_mutex w then None else Some (with_mutex true w).
Definition _PyMutex_unlock (w : World) : World := with_mutex false w.

Definition _PyRuntimeState_StopTheWorld (w : World) : World :=
  record EvStopTheWorld (with_stopped true w).
Definition _PyRuntimeState_StartTheWorld (w : World) : World :=
  record EvStartTheWorld (with_stopped false w).

(** The heap work of one cycle, which [collect] strings together, and
    what the interpreter and the user's code do when a callback is called.
    The list algorithms among the heap work are embedded one by one
    further down; the driver only needs them as state transformers. *)
Record cycle_phases := {
  (* merge_queued_objects ... clear_weakrefs, world stopped *)
  mark_phase : World -> World;
  (* dealloc_non_gc, call_weakref_callbacks, finalize_garbage, world running *)
  finalize_phase : World -> World;
  (* handle_resurrected_objects, world stopped *)
  resurrect_phase : World -> World;
  (* gc_list_size(&final_unreachable), delete_garbage, the count of
     [finalizers], handle_legacy_finalizers: yields m, n_collected and
     n_uncollectable *)
  sweep_phase : World -> Z * Z * Z * World;
  remove_deferred_reference_counts : World -> World;
  (* Py_BuildValue("{sisnsn}", ...) returns NULL *)
  info_fails : World -> bool;
  (* PyObject_CallFunction(cb, "sO", phase, info): the callee is user
     code and may change anything it can reach; [false] when it raised *)
  call_callback : Z -> string -> Z -> Z -> World -> World * bool;
  (* how many calls one [invoke_gc_callback] is followed for *)
  callback_bound : nat
}.

(** The [for] loop of [invoke_gc_callback]: the list is read again at each
    turn, so callbacks that the callees add or remove count. *)
Fixpoint callbacks_loop (P : cycle_phases) (fuel : nat) (i : nat) (phase : string)
    (n_collected n_uncollectable : Z) (w : World) : option World :=
  match callbacks (gcstate w) with
  | None => Some w
  | Some cbs =>
      match nth_error cbs i with
      | None => Some w
      | Some cb =>
          match fuel with
          | O => None
          | S fuel =>
              let w := record (EvCallback cb phase n_collected n_uncollectable) w in
              let '(w, ok) := call_callback P cb phase n_collected n_uncollectable w in
              let w := if ok then w
                       else record (EvUnraisableIn (Some cb)) (with_curexc None w) in
              callbacks_loop P fuel (S i) phase n_collected n_uncollectable w
          end
      end
  end.

(** [invoke_gc_callback]; [None] when the loop was cut off. *)
Definition invoke_gc_callback (P : cycle_phases) (phase : string)
    (n_collected n_uncollectable : Z) (w : World) : option World :=
  match callbacks (gcstate w) with
  | None => Some w
  | Some cbs =>
      if negb (length cbs =? 0)%nat && info_fails P w then
        Some (record (EvUnraisableIn None) (with_curexc None w))
      else
        callbacks_loop P (callback_bound P) 0 phase n_collected n_uncollectable w
  end.

(** [if (reason != GC_REASON_SHUTDOWN) invoke_gc_callback(...)], and then
    the rest of the function. *)
Definition after_callbacks (P : cycle_phases) (reason : _PyGC_Reason)
    (phase : string) (n_collected n_uncollectable : Z) (w : World)
    (rest : World -> returns) : returns :=
  match reason with
  | GC_REASON_SHUTDOWN => rest w
  | _ =>
      match invoke_gc_callback P phase n_collected n_uncollectable w with
      | Some w => rest w
      | None => Unfinished w
      end
  end.

(** The end of [collect] up to the second [update_gc_threshold]: pending
    error, statistics, thresholds. *)
Definition collect_account (P : cycle_phases) (reason : _PyGC_Reason)
    (n_collected n_uncollectable : Z) (w : World) : World :=
  let w :=
    match curexc w with
    | Some _ =>
        match reason with
        | GC_REASON_SHUTDOWN => with_curexc None w
        | _ => record (EvUnraisable "in garbage collection") (with_curexc None w)
        end
    | None => w
    end in
  let st := stats (gcstate w) in
  let st := {| collections := ssize (collections st + 1);
               collected := ssize (collected st + n_collected);
               uncollectable := ssize (uncollectable st + n_uncollectable) |} in
  let w := with_gcstate (with_stats st (gcstate w)) w in
  let w := with_gcstate (update_gc_threshold (gcstate w)) w in
  let w := remove_deferred_reference_counts P w in
  with_gcstate (update_gc_threshold (gcstate w)) w.

(** The end of [collect]: [collect_account], the "stop" callbacks, release
    of [collecting]. *)
Definition collect_finish (P : cycle_phases) (reason : _PyGC_Reason)
    (m n n_collected n_uncollectable : Z) (w : World) : returns :=
  let w := collect_account P reason n_collected n_uncollectable w in
  after_callbacks P reason "stop" m n w (fun w =>
    Return (ssize (n + m)) (with_gcstate (with_collecting 0 (gcstate w)) w)).

(** The middle of [collect], from [merge_queued_objects] on. *)
Definition collect_cycle (P : cycle_phases) (reason : _PyGC_Reason)
    (w : World) : returns :=
  let w := mark_phase P w in
  let w := _PyMutex_unlock (_PyRuntimeState_StartTheWorld w) in
  let w := finalize_phase P w in
  match _PyMutex_lock w with
  | None => Deadlock w
  | Some w =>
      let w := _PyRuntimeState_StopTheWorld w in
      let w := resurrect_phase P w in
      let w := _PyMutex_unlock (_PyRuntimeState_StartTheWorld w) in
      let '(m, n_collected, n_uncollectable, w) := sweep_phase P w in
      (* [n] is declared with value 0 and never assigned *)
      collect_finish P reason m 0 n_collected n_uncollectable w
  end.

(** [collect], statement by statement. *)
Definition collect (P : cycle_phases) (reason : _PyGC_Reason) (w : World)
    : returns :=
  if negb (collecting (gcstate w) =? 0) then Return 0 w
  else if negb (cant_stop_wont_stop w =? 0) then Return 0 w
  else
    match _PyMutex_lock w with
    | None => Deadlock w
    | Some w =>
        if negb (gc_reason_is_valid (gcstate w) reason) then
          Return 0 (_PyMutex_unlock w)
        else
          let w := _PyRuntimeState_StopTheWorld w in
          let w := with_gcstate (with_collecting 1 (gcstate w)) w in
          after_callbacks P reason "start" 0 0 w (fun w =>
          if negb (cant_stop_wont_stop w =? 0) then Return 0 w
          else if negb (collecting (gcstate w) =? 0) then
            (* _Py_atomic_compare_exchange_int(&collecting, 0, 1) failed *)
            Return 0 w
          else
            let w := with_gcstate (with_collecting 1 (gcstate w)) w in
            if negb (gc_reason_is_valid (gcstate w) reason) then
              Return 0 (with_gcstate (with_collecting 0 (gcstate w)) w)
            else
              match _PyMutex_lock w with
              | None => Deadlock w
              | Some w =>
                  let w := _PyRuntimeState_StopTheWorld w in
                  after_callbacks P reason "start" 0 0 w (collect_cycle P reason)
              end)
    end.

(** [_PyGC_Collect] *)
Definition _PyGC_Collect (P : cycle_phases) (w : World) : returns :=
  collect P GC_REASON_HEAP w.

(** [gc_collect_impl], the body of [gc.collect(generation)].  A result of
    [-1] with an exception set is how the call fails. *)
Definition gc_collect_impl (P : cycle_phases) (generation : Z) (w : World)
    : returns :=
  if (generation <? 0) || (3 <=? generation) then
    Return (-1) (with_curexc (Some "ValueError: invalid generation") w)
  else collect P GC_REASON_MANUAL w.

(** A heap in which a cycle finds nothing to do, and callbacks that
    return without touching anything. *)
Definition idle_phases : cycle_phases :=
  {| mark_phase := fun w => w;
     finalize_phase := fun w => w;
     resurrect_phase := fun w => w;
     sweep_phase := fun w => (0, 0, 0, w);
     remove_deferred_reference_counts := fun w => w;
     info_fails := fun _ => false;
     call_callback := fun _ _ _ _ w => (w, true);
     callback_bound := 16 |}.

(** The same with callbacks that call [gc.set_threshold(5)]. *)
Definition tuning_phases : cycle_phases :=
  {| mark_phase := fun w => w;
     finalize_phase := fun w => w;
     resurrect_phase := fun w => w;
     sweep_phase := fun w => (0, 0, 0, w);
     remove_deferred_reference_counts := fun w => w;
     info_fails := fun _ => false;
     call_callback := fun _ _ _ _ w =>
       (with_gcstate (snd (gc_set_threshold [5] (gcstate w))) w, true);
     callback_bound := 16 |}.

(** A collection has run to its end when the statistics count one more:
    [stats->collections++] is executed on that path of [collect] only. *)
Definition completed_collection (w : World) (res : returns) : Prop :=
  exists r w', res = Return r w'
    /\ collections (stats (gcstate w'))
       = ssize (collections (stats (gcstate w)) + 1).

(** A runtime at rest: no collection running, the mutex free, the threads
    running, ten live objects. *)
Definition quiet_world : World :=
  {| gcstate := {| enabled := 1; debug := 0; collecting := 0; gc_live := 10;
                   gc_threshold := 7000; gc_scale := 100;
                   stats := {| collections := 0; collected := 0;
                               uncollectable := 0 |};
                   callbacks := Some [] |};
     stoptheworld_mutex := false; stop_the_world := false;
     cant_stop_wont_stop := 0; curexc := None; log := [] |}.

(** The same runtime seen from code that runs while a collection is in
    progress (a finalizer, a weakref callback). *)
Definition busy_world : World :=
  with_gcstate (with_collecting 1 (gcstate quiet_world)) quiet_world.

(** No callback is registered: [gc.callbacks] is not there yet, or empty. *)
Definition no_callbacks (g : GCState) : Prop :=
  callbacks g = None \/ callbacks g = Some [].

(** Callbacks that do not store a threshold (none of them calls
    [gc.set_threshold]) and leave the list [gc.callbacks] as it is. *)
Definition callbacks_keep_threshold (P : cycle_phases) : Prop :=
  forall (cb : Z) (phase : string) (a b : Z) (w : World),
    let g' := gcstate (fst (call_callback P cb phase a b w)) in
    gc_threshold g' = gc_threshold (gcstate w)
    /\ callbacks g' = callbacks (gcstate w).

(** [collect] past its two prologues, at the call of
    [merge_queued_objects]: [collecting] is 1, the mutex is held, the
    threads are stopped; one callback, the object 101, is registered. *)
Definition collecting_world : World :=
  {| gcstate := {| enabled := 1; debug := 0; collecting := 1; gc_live := 10;
                   gc_threshold := 7000; gc_scale := 100;
                   stats := {| collections := 0; collected := 0;
                               uncollectable := 0 |};
                   callbacks := Some [101] |};
     stoptheworld_mutex := true; stop_the_world := true;
     cant_stop_wont_stop := 0; curexc := None; log := [] |}.

(** The collector's state of a process started with PYTHONGC=-1 that has
    10001 live objects. *)
Definition shrinking_state : GCState :=
  {| enabled := 1; debug := 0; collecting := 0; gc_live := 10001;
     gc_threshold := 7000; gc_scale := -1;
     stats := {| collections := 0; collected := 0; uncollectable := 0 |};
     callbacks := Some [] |}.

(** ** The mark phase: what the lists and the counters hold

    The predicates below describe the headers in the middle of the heap
    walk with [update_refs] and of [move_unreachable]; the theorems on the
    mark phase are stated with them. *)

Section MarkWords.
Context {L : Layout}.

(** The address of a [PyGC_Head]: below [2^63] and with the flag bits of
    [_gc_prev] free. *)
Definition aligned_address (a : Z) : Prop :=
  0 < a < 2 ^ 63 /\ a mod 2 ^ _PyGC_PREV_SHIFT = 0.

Definition valid_word (x : Z) : Prop := 0 <= x < 2 ^ 64.

(** [gc_get_refs] of a header whose [_gc_prev] is [x]. *)
Definition word_refs (x : Z) : Z := Z.shiftr (signed64 x) _PyGC_PREV_SHIFT.

(** Each node of [l] points to the one after it, the last to [e]. *)
Fixpoint links (h : gmap Z PyGC_Head) (l : list Z) (e : Z) : Prop :=
  match l with
  | [] => True
  | x :: l' => _gc_next (head_at h x) = hd e l' /\ links h l' e
  end.

(** The back pointer of each node of [l] is the node before it, [p] for
    the first. *)
Fixpoint plinks (h : gmap Z PyGC_Head) (p : Z) (l : list Z) : Prop :=
  match l with
  | [] => True
  | x :: l' => GC_PREV h x = p /\ plinks h x l'
  end.

End MarkWords.

Section Inv.
Context {L : Layout}.
Variable objs : gmap Z PyObject.
Variables young unreachable : Z.
Variable W : list Z.

(** Where the heads and the nodes lie. *)
Record placed : Prop := {
  pl_nodup : NoDup (young :: unreachable :: W);
  pl_addr : forall a, a ∈ young :: unreachable :: W -> aligned_address a;
  pl_gc : forall g, g ∈ W -> ob_is_gc (object_at objs (FROM_GC g)) = true;
  pl_heads : forall op, ob_is_gc (object_at objs op) = true ->
             AS_GC op <> young /\ AS_GC op <> unreachable
}.

(** The state of the lists in the middle of [move_unreachable]: [scanned]
    are the nodes of [young] to the left of the cursor, [todo] those from
    the cursor on, [unreach] the nodes of [unreachable]. *)
Record mu_lists (scanned todo unreach : list Z) (h : gmap Z PyGC_Head) : Prop := {
  ml_perm : scanned ++ todo ++ unreach ≡ₚ W;
  ml_young : links h (young :: scanned ++ todo) young;
  ml_unreach : links h (unreachable :: unreach) unreachable;
  ml_scanned_prev : plinks h young scanned;
  ml_unreach_prev : plinks h unreachable unreach;
  ml_unreach_last : _gc_prev (head_at h unreachable) = List.last unreach unreachable;
  ml_young_last : todo <> [] ->
                  _gc_prev (head_at h young) = List.last (scanned ++ todo) young;
  ml_words : forall a, a ∈ W -> valid_word (_gc_prev (head_at h a));
  ml_young_flag : forall a, a ∈ scanned ++ todo -> gc_is_unreachable h a = false;
  ml_unreach_flag : forall a, a ∈ unreach -> gc_is_unreachable h a = true;
  ml_todo_refs : forall a, a ∈ todo -> 0 <= gc_get_refs h a;
  ml_outside : forall op, ob_is_gc (object_at objs op) = true -> AS_GC op ∉ W ->
               _gc_next (head_at h (AS_GC op)) = 0
}.

End Inv.

Section GraphDefs.
Context {L : Layout}.
Variable objs : gmap Z PyObject.
Variable W : list Z.

(** The object of header [a] refers to the object of header [b]. *)
Definition points_to (a b : Z) : Prop :=
  FROM_GC b ∈ ob_referents (object_at objs (FROM_GC a)).

(** [g] can be reached, along references between objects of the working
    set, from an object of the working set whose count in [h0] is positive
    (an object referenced from outside). *)
Definition reachable_from_outside (h0 : gmap Z PyGC_Head) (g : Z) : Prop :=
  exists r, r ∈ W /\ 0 < gc_get_refs h0 r
            /\ rtc (fun a b => a ∈ W /\ b ∈ W /\ points_to a b) r g.

(** A node that [move_unreachable] will keep: already scanned, or waiting
    with a positive count. *)
Definition settled (sc td : list Z) (h : gmap Z PyGC_Head) (b : Z) : Prop :=
  b ∈ sc \/ (b ∈ td /\ 0 < gc_get_refs h b).

Record mu_graph (h0 : gmap Z PyGC_Head) (sc td : list Z) (h : gmap Z PyGC_Head) : Prop := {
  mg_scanned : forall a, a ∈ sc -> reachable_from_outside h0 a;
  mg_todo : forall a, a ∈ td -> 0 < gc_get_refs h a -> reachable_from_outside h0 a;
  mg_closed : forall a b, a ∈ sc -> b ∈ W -> points_to a b -> settled sc td h b;
  mg_roots : forall r, r ∈ W -> 0 < gc_get_refs h0 r -> settled sc td h r
}.

(** What is left to do. *)
Definition zero_count (h : gmap Z PyGC_Head) (td : list Z) : nat :=
  length (filter (fun a => gc_get_refs h a = 0) td).
Definition mu_measure (td un : list Z) (h : gmap Z PyGC_Head) : nat :=
  (2 * length un + 2 * zero_count h td + length td)%nat.

End GraphDefs.

Section VisitPost.
Context {L : Layout}.
Variable objs : gmap Z PyObject.
Variables young unreachable : Z.
Variable W : list Z.

(** What one call of [visit_reachable] on [op] establishes. *)
Definition visit_post (sc td un : list Z) (h : gmap Z PyGC_Head) (ops : list Z)
    (td' un' : list Z) (h' : gmap Z PyGC_Head) : Prop :=
  mu_lists objs young unreachable W sc td' un' h'
  /\ (exists l, td' = td ++ l)
  /\ (forall a, settled sc td h a -> settled sc td' h' a)
  /\ (forall a, a ∈ td' -> 0 < gc_get_refs h' a ->
        (a ∈ td /\ 0 < gc_get_refs h a) \/ FROM_GC a ∈ ops)
  /\ (mu_measure td' un' h' <= mu_measure td un h)%nat.

End VisitPost.

Section FinalDefs.
Context {L : Layout}.
Variable objs : gmap Z PyObject.
Variables young unreachable : Z.
Variable W : list Z.

(** What [move_unreachable] leaves: the two lists partition the working
    set; [young] holds the reachable nodes, [unreachable] the others. *)
Definition mu_final (h0 h' : gmap Z PyGC_Head) : Prop :=
  exists Y U,
    is_gc_list h' young Y /\ is_gc_list h' unreachable U
    /\ Y ++ U ≡ₚ W
    /\ plinks h' young Y /\ GC_PREV h' young = List.last Y young
    /\ (forall a, a ∈ Y -> reachable_from_outside objs W h0 a
                          /\ gc_is_unreachable h' a = false)
    /\ (forall a, a ∈ U -> ~ reachable_from_outside objs W h0 a
                          /\ gc_is_unreachable h' a = true).
End FinalDefs.

Section PassDefs.
Context {L : Layout}.
Variable objs : gmap Z PyObject.
Variable wants_untrack : Z -> gmap Z PyGC_Head -> bool.

(** How many times the object of header [w] refers to the object [op]. *)
Definition references_to (op w : Z) : Z :=
  Z.of_nat (count_occ Z.eq_dec (ob_referents (object_at objs (FROM_GC w))) op).

(** The references to the object of header [g] held by the objects of [Wl]. *)
Definition references_from (Wl : list Z) (g : Z) : Z :=
  fold_right (fun w n => references_to (FROM_GC g) w + n) 0 Wl.

(** The references to the object of header [g] that the objects of [Wl] do
    not account for: its reference count, and the references from thread
    stacks that [visit_thread_stacks] has counted into [gc_refs] before
    the heap walk, less the references from [Wl]. *)
Definition outside_references (h : gmap Z PyGC_Head) (Wl : list Z) (g : Z) : Z :=
  gc_get_refs h g + _Py_GC_REFCNT (object_at objs (FROM_GC g)) - references_from Wl g.

(** Whether [update_refs] appends [gc] to the list (it returns early when
    the tuple or dict has just been untracked). *)
Definition update_refs_keeps (gc : Z) (h : gmap Z PyGC_Head) : bool :=
  let op := FROM_GC gc in
  let h := if ob_exact_container (object_at objs op)
           then maybe_untrack wants_untrack op h else h in
  negb (ob_exact_container (object_at objs op) && negb (_PyGC_TRACKED h gc)).

(** The working set: the blocks the heap walk with [update_refs] appends
    to [young], in order. *)
Fixpoint working_set (blocks : list Z) (young : Z) (h : gmap Z PyGC_Head) : list Z :=
  match blocks with
  | [] => []
  | gc :: bs =>
      if _PyGC_TRACKED h gc then
        (if update_refs_keeps gc h then [gc] else [])
          ++ working_set bs young (update_refs objs wants_untrack gc young h)
      else working_set bs young h
  end.

(** The heap when the mark phase starts: the list heads and the blocks lie
    at distinct aligned addresses, the blocks hold collectable objects, no
    object is on a list, the headers are words and no tracked block
    carries the UNREACHABLE flag. *)
Record heap_at_rest (blocks : list Z) (young unreachable : Z)
    (h : gmap Z PyGC_Head) : Prop := {
  hr_nodup : NoDup (young :: unreachable :: blocks);
  hr_addr : forall a, a ∈ young :: unreachable :: blocks -> aligned_address a;
  hr_gc : forall b, b ∈ blocks -> ob_is_gc (object_at objs (FROM_GC b)) = true;
  hr_heads : forall op, ob_is_gc (object_at objs op) = true ->
             AS_GC op <> young /\ AS_GC op <> unreachable;
  hr_next : forall op, ob_is_gc (object_at objs op) = true ->
            _gc_next (head_at h (AS_GC op)) = 0;
  hr_words : forall b, b ∈ blocks -> valid_word (_gc_prev (head_at h b));
  hr_flags : forall b, b ∈ blocks -> _PyGC_TRACKED h b = true ->
             gc_is_unreachable h b = false
}.

(** The reference counts cover the references held inside the working set
    and fit the counter of [_gc_prev]. *)
Definition counts_consistent (h : gmap Z PyGC_Head) (Wl : list Z) : Prop :=
  forall g, g ∈ Wl ->
    0 <= outside_references h Wl g < 2 ^ (63 - _PyGC_PREV_SHIFT).

End PassDefs.

Section PassInvDef.
Context {L : Layout}.
Variable objs : gmap Z PyObject.
Variable blocks : list Z.
Variable young : Z.
Variable h0 : gmap Z PyGC_Head.

(** The heap walk with [update_refs], after it has appended [Wd]. *)
Record pass_inv (Wd : list Z) (h : gmap Z PyGC_Head) : Prop := {
  pi_links : links h (young :: Wd) young;
  pi_last : _gc_prev (head_at h young) = List.last Wd young;
  pi_sub : forall a, a ∈ Wd -> a ∈ blocks;
  pi_nodup : NoDup Wd;
  pi_next : forall op, ob_is_gc (object_at objs op) = true -> AS_GC op ∉ Wd ->
            _gc_next (head_at h (AS_GC op)) = 0;
  pi_count : forall b, b ∈ blocks -> _PyGC_TRACKED h b = true ->
             _gc_prev (head_at h b)
             = pack 64 _PyGC_PREV_SHIFT
                 (gc_get_refs h0 b
                  + (if decide (b ∈ Wd)
                     then _Py_GC_REFCNT (object_at objs (FROM_GC b)) else 0)
                  - references_from objs Wd b)
                 (_gc_prev (head_at h0 b) mod 2 ^ _PyGC_PREV_SHIFT);
  pi_tracked : forall b, b ∈ Wd -> _PyGC_TRACKED h b = true
}.
End PassInvDef.

(** Four tracked objects: A is held from outside and refers to B; C and D
    refer to each other and nothing else refers to them.  B lies before A
    in the heap. *)
Definition counted_object (refs : list Z) : PyObject :=
  {| ob_tid := 0; ob_ref_local := 4; ob_ref_shared := 0; ob_is_gc := true;
     ob_exact_container := false; ob_referents := refs;
     tp_finalize := false; tp_del := false |}.
Definition four_objects : gmap Z PyObject :=
  <[4112 := counted_object []]>
  (<[4144 := counted_object [4112]]>
  (<[4176 := counted_object [4208]]>
  (<[4208 := counted_object [4176]]> ∅))).
Definition four_blocks : list Z := [4096; 4128; 4160; 4192].
Definition four_heads : gmap Z PyGC_Head :=
  <[4096 := {| _gc_next := 0; _gc_prev := 4 |}]>
  (<[4128 := {| _gc_next := 0; _gc_prev := 4 |}]>
  (<[4160 := {| _gc_next := 0; _gc_prev := 4 |}]>
  (<[4192 := {| _gc_next := 0; _gc_prev := 4 |}]> ∅))).
Definition never_untrack (op : Z) (h : gmap Z PyGC_Head) : bool := false.

End GC.

(** * Python/lock.c: the other slow paths *)
Module Sync.
Import Lock.

(** [tstate->os->next_waiter = x] *)
Definition set_next_waiter (tstate x : Z) (m : prim) : prim :=
  {| v := v m;
     next_waiter := fun w => if w =? tstate then x else next_waiter m w;
     events := events m |}.

(** An idle primitive: the word is 0, nobody is queued, nothing has been
    signalled. *)
Definition idle_prim : prim :=
  {| v := UNLOCKED; next_waiter := fun _ => 0; events := [] |}.

(** A store into the word by another thread, if there is one. *)
Definition store_by_other (x : option Z) (o : prim) : prim :=
  match x with
  | Some y => set_v y o
  | None => o
  end.

Definition is_park_ok (r : park_result) : bool :=
  match r with PY_PARK_OK => true | _ => false end.

(** *** The raw mutex *)

(** What the rest of the system does during one round of the loop of
    [_PyRawMutex_lock_slow]. *)
Record raw_round := {
  raw_interfere : option Z;   (* a store landing between our load and our CAS *)
  raw_wake : option Z         (* m->v when our semaphore is signalled; None: it never is *)
}.

(** The state in which [tstate] waits: its [next_waiter] holds the old
    head of the waiter list, the word holds [tstate | LOCKED]. *)
Definition raw_enqueue (tstate : Z) (m : prim) : prim :=
  set_v (Z.lor tstate LOCKED)
        (set_next_waiter tstate (Z.land (v m) (Z.lnot 1)) m).

(** [_PyRawMutex_lock_slow]; [_PyMutex_lock_slow] has the same body. *)
Fixpoint _PyRawMutex_lock_slow (env : list raw_round) (tstate : Z) (m : prim)
    : outcome prim :=
  match env with
  | [] => OutOfFuel
  | e :: env' =>
      let v0 := v m in
      let cur := default v0 (raw_interfere e) in
      if Z.land v0 1 =? UNLOCKED then
        if cur =? v0 then Done (set_v (Z.lor v0 LOCKED) m)
        else _PyRawMutex_lock_slow env' tstate (set_v cur m)
      else
        if cur =? v0 then
          match raw_wake e with
          | None => Blocked (raw_enqueue tstate m)
          | Some w => _PyRawMutex_lock_slow env' tstate (set_v w (raw_enqueue tstate m))
          end
        else
          _PyRawMutex_lock_slow env' tstate
            (set_v cur (set_next_waiter tstate (Z.land v0 (Z.lnot 1)) m))
  end.

(** *** Waiting for events *)

(** How a call that returns an [int] ends. *)
Inductive waited :=
| Returned (r : Z) (o : prim)
| Aborted (msg : string) (o : prim)     (* Py_FatalError *)
| Hangs (o : prim)                      (* waits, and is never woken *)
| Unfinished.                           (* the loop was cut off *)

Record wait_env := {
  sem_first : option park_result;  (* what the first _PySemaphore_Wait returns, if it returns *)
  stored_meanwhile : option Z;     (* a store into o->v after our first compare-exchange *)
  stored_late : option Z;          (* a store between the failed removal and the load *)
  sem_later : list park_result     (* the returns of the waits that grab the notification *)
}.

(** [_PyRawEvent_TimedWait] *)
Definition _PyRawEvent_TimedWait (e : wait_env) (tstate : Z) (o : prim) : waited :=
  if v o =? UNLOCKED then
    let o := store_by_other (stored_meanwhile e) (set_v tstate o) in
    match sem_first e with
    | None => Hangs o
    | Some PY_PARK_OK => Returned 1 o
    | Some _ =>
        if v o =? tstate then Returned 0 (set_v UNLOCKED o)
        else
          let o := store_by_other (stored_late e) o in
          if v o =? LOCKED then
            if existsb is_park_ok (sem_later e) then Returned 1 o else Hangs o
          else Aborted "_PyRawEvent: invalid state" o
    end
  else
    let o := store_by_other (stored_meanwhile e) o in
    if v o =? LOCKED then Returned 1 o
    else Aborted "_PyRawEvent: duplicate waiter" o.

(** What happens around one [_PyParkingLot_Park]. *)
Record park_env := {
  before_cas : option Z;     (* a store between our load and our compare-exchange *)
  before_park : option Z;    (* a store between the compare-exchange and the park *)
  park_wake : option Z       (* o->v when the park is ended by an unpark; None: it is not *)
}.

(** [_PyEvent_TimedWait]; [ns < 0] waits without a deadline.
    [_PyParkingLot_Park(addr, expected, ...)] blocks only if the word at
    [addr] is [expected]. *)
Definition _PyEvent_TimedWait (e : park_env) (ns : Z) (o : prim) : waited :=
  let v0 := v o in
  if v0 =? LOCKED then Returned 1 o
  else
    let o := store_by_other (before_cas e) o in
    let o := if (v0 =? UNLOCKED) && (v o =? UNLOCKED) then set_v HAS_PARKED o else o in
    let o := store_by_other (before_park e) o in
    let o := emit (Park HAS_PARKED) o in
    if v o =? HAS_PARKED then
      match park_wake e with
      | Some x => Returned (if x =? LOCKED then 1 else 0) (set_v x o)
      | None => if ns <? 0 then Hangs o else Returned 0 o
      end
    else Returned (if v o =? LOCKED then 1 else 0) o.

(** [_PyEvent_Wait] *)
Fixpoint _PyEvent_Wait (env : list park_env) (o : prim) : outcome prim :=
  match env with
  | [] => OutOfFuel
  | e :: env' =>
      match _PyEvent_TimedWait e (-1) o with
      | Returned r o' => if r =? 0 then _PyEvent_Wait env' o' else Done o'
      | Aborted msg o' => Fatal msg o'
      | Hangs o' => Blocked o'
      | Unfinished => OutOfFuel
      end
  end.

(** *** The once flag *)

Section Once.
(** lock.h is not among the sources: the value of [ONCE_INITIALIZED] is a
    parameter. *)
Variable ONCE_INITIALIZED : Z.

Record once_round := {
  once_cas1 : option Z;   (* a store before the compare-exchange from UNLOCKED *)
  once_cas2 : option Z;   (* a store before the compare-exchange to LOCKED|HAS_PARKED *)
  once_wake : option Z    (* o->v when the park ends; None: it never does *)
}.

(** [_PyBeginOnce_slow] *)
Fixpoint _PyBeginOnce_slow (env : list once_round) (o : prim) : waited :=
  match env with
  | [] => Unfinished
  | e :: env' =>
      let v0 := v o in
      let o1 := store_by_other (once_cas1 e) o in
      if (v0 =? UNLOCKED) && (v o1 =? UNLOCKED) then Returned 1 (set_v LOCKED o1)
      else if v0 =? ONCE_INITIALIZED then Returned 0 o1
      else
        let newv := Z.lor LOCKED HAS_PARKED in
        let o2 := store_by_other (once_cas2 e) o1 in
        if v o2 =? v0 then
          let o3 := emit (Park newv) (set_v newv o2) in
          match once_wake e with
          | None => Hangs o3
          | Some w => _PyBeginOnce_slow env' (set_v w o3)
          end
        else _PyBeginOnce_slow env' o2
  end.

(** [_PyEndOnce] and [_PyEndOnceFailed] *)
Definition _PyEndOnce (o : prim) : prim :=
  let v0 := v o in
  let o := set_v ONCE_INITIALIZED o in
  if negb (Z.land v0 HAS_PARKED =? 0) then emit (UnparkAll v0) o else o.

Definition _PyEndOnceFailed (o : prim) : prim :=
  let v0 := v o in
  let o := set_v UNLOCKED o in
  if negb (Z.land v0 HAS_PARKED =? 0) then emit (UnparkAll v0) o else o.

End Once.

(** *** Unlocking the recursive mutex *)

(** The thread [_PyParkingLot_BeginUnpark] picks, if any, and what it
    reports. *)
Record parked := { p_tstate : Z; p_fast_thread_id : Z }.
Record unpark_env := {
  first_parked : option parked;
  more_waiters : bool;
  should_be_fair : bool
}.

(** The mutex after the unlock, and the thread handed to
    [_PyParkingLot_FinishUnpark] with its [handoff_elem]. *)
Record unlocked := {
  u_mutex : rmutex;
  u_woken : option (Z * bool)
}.

Definition rm_unlock_recursion (m : rmutex) : rmutex :=
  {| rm_v := rm_v m; recursions := recursions m - 1; rm_events := rm_events m |}.

Fixpoint rm_unlock_loop (env : list Z) (u : unpark_env) (m : rmutex)
    : outcome unlocked :=
  let v0 := rm_v m in
  if Z.land v0 1 =? UNLOCKED then
    Fatal "unlocking mutex that is not locked" {| u_mutex := m; u_woken := None |}
  else if Z.land v0 2 =? HAS_PARKED then
    let v1 :=
      match first_parked u with
      | None => 0
      | Some p =>
          let x := if should_be_fair u
                   then Z.lor (Z.lor 0 (p_fast_thread_id p)) LOCKED else 0 in
          if more_waiters u then Z.lor x HAS_PARKED else x
      end in
    Done {| u_mutex := rm_set_v v1 m;
            u_woken := option_map (fun p => (p_tstate p, should_be_fair u))
                                  (first_parked u) |}
  else
    let released := Done {| u_mutex := rm_set_v UNLOCKED m; u_woken := None |} in
    match env with
    | [] => released
    | cur :: env' =>
        if cur =? v0 then released
        else rm_unlock_loop env' u (rm_set_v cur m)
    end.

(** [_PyRecursiveMutex_unlock_slow] *)
Definition _PyRecursiveMutex_unlock_slow (env : list Z) (u : unpark_env)
    (m : rmutex) : outcome unlocked :=
  if 0 <? recursions m then
    Done {| u_mutex := rm_unlock_recursion m; u_woken := None |}
  else rm_unlock_loop env u m.

End Sync.

(** * Modules/gcmodule.c: lists after the mark phase *)
Module Lists.
Import GC.

Section WithLayout.
Context {L : Layout}.

(** A doubly linked gc list, as the list functions expect it: [head] is a
    list head without flag bits, [l] are its nodes in order; the nodes
    carry their flags in the low bits of [_gc_prev]. *)
Record dlist (h : gmap Z PyGC_Head) (head : Z) (l : list Z) : Prop := {
  dl_nodup : NoDup (head :: l);
  dl_addr : forall a, a ∈ head :: l -> aligned_address a;
  dl_next : links h (head :: l) head;
  dl_prev : plinks h head l;
  dl_last : _gc_prev (head_at h head) = List.last l head;
  dl_words : forall a, a ∈ l -> valid_word (_gc_prev (head_at h a))
}.

(** The flag bits of a header. *)
Definition flags_of (h : gmap Z PyGC_Head) (a : Z) : Z :=
  _gc_prev (head_at h a) mod 2 ^ _PyGC_PREV_SHIFT.

(** [clear_unreachable_mask] *)
Fixpoint clear_unreachable_loop (fuel : nat) (unreachable gc : Z)
    (h : gmap Z PyGC_Head) : outcome (gmap Z PyGC_Head) :=
  match fuel with
  | O => OutOfFuel
  | S fuel =>
      if gc =? unreachable then Done h
      else
        let h := gc_clear_unreachable gc h in
        let next := _gc_next (head_at h gc) in
        clear_unreachable_loop fuel unreachable next h
  end.
Definition clear_unreachable_mask (fuel : nat) (unreachable : Z)
    (h : gmap Z PyGC_Head) : outcome (gmap Z PyGC_Head) :=
  clear_unreachable_loop fuel unreachable (GC_NEXT h unreachable) h.

Section WithObjects.
Variable objs : gmap Z PyObject.

(** [has_legacy_finalizer] *)
Definition has_legacy_finalizer (op : Z) : bool := tp_del (object_at objs op).

(** [move_legacy_finalizers] *)
Fixpoint move_legacy_finalizers_loop (fuel : nat) (unreachable finalizers gc : Z)
    (h : gmap Z PyGC_Head) : outcome (gmap Z PyGC_Head) :=
  match fuel with
  | O => OutOfFuel
  | S fuel =>
      if gc =? unreachable then Done h
      else
        let op := FROM_GC gc in
        let next := _gc_next (head_at h gc) in
        let h :=
          if has_legacy_finalizer op then
            gc_clear_unreachable gc (gc_list_move gc finalizers h)
          else h in
        move_legacy_finalizers_loop fuel unreachable finalizers next h
  end.
Definition move_legacy_finalizers (fuel : nat) (unreachable finalizers : Z)
    (h : gmap Z PyGC_Head) : outcome (gmap Z PyGC_Head) :=
  move_legacy_finalizers_loop fuel unreachable finalizers (GC_NEXT h unreachable) h.

(** [visit_move] *)
Definition visit_move (tolist op : Z) (h : gmap Z PyGC_Head) : gmap Z PyGC_Head :=
  if _PyObject_IS_GC objs op then
    let gc := AS_GC op in
    if gc_is_unreachable h gc then
      gc_clear_unreachable gc (gc_list_move gc tolist h)
    else h
  else h.

(** [move_legacy_finalizer_reachable] *)
Fixpoint move_legacy_finalizer_reachable_loop (fuel : nat) (finalizers gc : Z)
    (h : gmap Z PyGC_Head) : outcome (gmap Z PyGC_Head) :=
  match fuel with
  | O => OutOfFuel
  | S fuel =>
      if gc =? finalizers then Done h
      else
        let h := tp_traverse objs (FROM_GC gc) (visit_move finalizers) h in
        move_legacy_finalizer_reachable_loop fuel finalizers (GC_NEXT h gc) h
  end.
Definition move_legacy_finalizer_reachable (fuel : nat) (finalizers : Z)
    (h : gmap Z PyGC_Head) : outcome (gmap Z PyGC_Head) :=
  move_legacy_finalizer_reachable_loop fuel finalizers (GC_NEXT h finalizers) h.

(** The lines of [collect] that fill [finalizers]:
    [gc_list_init(&finalizers)], [move_legacy_finalizers],
    [move_legacy_finalizer_reachable]. *)
Definition collect_finalizers (fuel : nat) (unreachable finalizers : Z)
    (h : gmap Z PyGC_Head) : outcome (gmap Z PyGC_Head) :=
  and_then (move_legacy_finalizers fuel unreachable finalizers
              (gc_list_init finalizers h))
           (move_legacy_finalizer_reachable fuel finalizers).

(** What [move_legacy_finalizer_reachable] relies on: the two lists are
    well formed and apart, and the headers flagged unreachable are those
    of the collectable objects on [unreachable]. *)
Record finalizer_lists (unreachable finalizers : Z) (U F : list Z)
    (h : gmap Z PyGC_Head) : Prop := {
  fl_unreachable : dlist h unreachable U;
  fl_finalizers : dlist h finalizers F;
  fl_apart : NoDup (unreachable :: finalizers :: U ++ F);
  fl_flagged : forall a, a ∈ U ->
    _PyObject_IS_GC objs (FROM_GC a) = true /\ gc_is_unreachable h a = true;
  fl_only : forall a,
    _PyObject_IS_GC objs (FROM_GC a) = true -> gc_is_unreachable h a = true -> a ∈ U
}.

(** [b] is on the list [U] and an object [tp_traverse] of [a] visits. *)
Definition refers_into (U : list Z) (a b : Z) : Prop :=
  points_to objs a b /\ b ∈ U.

End WithObjects.
End WithLayout.

(** Three unreachable objects on the list at 2000, under the layout
    [example_layout]: X has [tp_del] and refers to Y, Z stands alone.
    Their headers are tracked and flagged UNREACHABLE.  The list at 3000
    is empty; the block at 4256 is on no list. *)
Definition trash_object (legacy : bool) (refs : list Z) : PyObject :=
  {| ob_tid := 0; ob_ref_local := 4; ob_ref_shared := 0; ob_is_gc := true;
     ob_exact_container := false; ob_referents := refs;
     tp_finalize := false; tp_del := legacy |}.
Definition trash_objects : gmap Z PyObject :=
  <[4176 := trash_object true [4208]]>
  (<[4208 := trash_object false []]>
  (<[4240 := trash_object false []]> ∅)).
Definition trash_heads : gmap Z PyGC_Head :=
  <[2000 := {| _gc_next := 4160; _gc_prev := 4224 |}]>
  (<[3000 := {| _gc_next := 3000; _gc_prev := 3000 |}]>
  (<[4160 := {| _gc_next := 4192; _gc_prev := 2000 + 6 |}]>
  (<[4192 := {| _gc_next := 4224; _gc_prev := 4160 + 6 |}]>
  (<[4224 := {| _gc_next := 2000; _gc_prev := 4192 + 6 |}]> ∅)))).
(** The same after [move_legacy_finalizers]: X is on the list at 3000. *)
Definition split_heads : gmap Z PyGC_Head :=
  <[2000 := {| _gc_next := 4192; _gc_prev := 4224 |}]>
  (<[3000 := {| _gc_next := 4160; _gc_prev := 4160 |}]>
  (<[4160 := {| _gc_next := 3000; _gc_prev := 3000 + 4 |}]>
  (<[4192 := {| _gc_next := 4224; _gc_prev := 2000 + 6 |}]>
  (<[4224 := {| _gc_next := 2000; _gc_prev := 4192 + 6 |}]> ∅)))).

End Lists.

(** * Modules/gcmodule.c: walks over the whole heap *)
Module Heap.
Import GC Lists.

(** A list object: its address and its items. *)
Record PyList := { list_at : Z; ob_item : list Z }.
(** The argument tuple of a call. *)
Record PyTuple := { tuple_at : Z; tuple_item : list Z }.

(** What the interpreter does for the calls made on the way:
    [PySys_Audit] (the exception an audit hook raises, if one does),
    [PyList_New(0)] (the address of the new list, or NULL) and
    [PyList_Append] (whether there is memory to append to a list with
    these items). *)
Record api_env := {
  audit_raises : option string;
  new_list : option Z;
  append_ok : list Z -> bool
}.

(** What a function of the gc module returns: an exception or a list. *)
Inductive py_return :=
| Raises (exc : string)
| Returns (l : PyList).

(** [PyList_Append(list, x)] *)
Definition PyList_Append (env : api_env) (l : PyList) (x : Z) : Z * PyList :=
  if append_ok env (ob_item l)
  then (0, {| list_at := list_at l; ob_item := ob_item l ++ [x] |})
  else (-1, l).

(** [tp_traverse] with a visitor that can return nonzero: the traversal
    stops at the first visit that does, and returns what it returned. *)
Fixpoint tp_traverse_until {A : Type} (visit : Z -> A -> bool * A) (rs : list Z)
    (arg : A) : bool * A :=
  match rs with
  | [] => (false, arg)
  | r :: rs' =>
      let '(stop, arg') := visit r arg in
      if stop then (true, arg') else tp_traverse_until visit rs' arg'
  end.

(** Sequencing of two steps on different states; [f] says what the whole
    state is when the first step does not return. *)
Definition continue_with {A B : Type} (o : outcome A) (f : A -> B)
    (k : A -> outcome B) : outcome B :=
  match o with
  | Done a => k a
  | Fatal msg a => Fatal msg (f a)
  | Blocked a => Blocked (f a)
  | OutOfFuel => OutOfFuel
  end.

Section WithLayout.
Context {L : Layout}.

(** [visit_heap(visitor, arg)] for a visitor that works on its argument and
    leaves the headers alone.  [visit_page] calls the visitor on each
    tracked block and drops what it returns; [visit_heap] returns [err],
    which is never assigned after [int err = 0]. *)
Definition visit_page_arg {A : Type} (visitor : Z -> A -> Z * A)
    (h : gmap Z PyGC_Head) (blocks : list Z) (arg : A) : A :=
  fold_left (fun a gc => if _PyGC_TRACKED h gc then snd (visitor gc a) else a)
            blocks arg.
Definition visit_heap_arg {A : Type} (visitor : Z -> A -> Z * A)
    (blocks : list Z) (h : gmap Z PyGC_Head) (arg : A) : Z * A :=
  (0, visit_page_arg visitor h blocks arg).

(** [find_object] *)
Record find_object_args := { fo_op : Z; fo_found : Z }.
Definition find_object_visitor (gc : Z) (args : find_object_args)
    : Z * find_object_args :=
  (0, if FROM_GC gc =? fo_op args
      then {| fo_op := fo_op args; fo_found := 1 |} else args).
Definition find_object (blocks : list Z) (h : gmap Z PyGC_Head) (op : Z) : Z :=
  fo_found (snd (visit_heap_arg find_object_visitor blocks h
                   {| fo_op := op; fo_found := 0 |})).

(** [_PyGC_ResetHeap] *)
Definition reset_heap_visitor (gc : Z) (h : gmap Z PyGC_Head) : gmap Z PyGC_Head :=
  store_prev gc 0 h.
Definition _PyGC_ResetHeap (blocks : list Z) (h : gmap Z PyGC_Head)
    : gmap Z PyGC_Head :=
  visit_heap reset_heap_visitor blocks h.

Section WithObjects.
Variable objs : gmap Z PyObject.
Variable env : api_env.

(** The list after a walk that appends the blocks chosen by [P]. *)
Definition collected (P : Z -> bool) (blocks : list Z) (l : PyList) : PyList :=
  fold_left (fun l gc => if P gc then snd (PyList_Append env l (FROM_GC gc)) else l)
            blocks l.

(** [gc.get_referrers] *)
Definition referrersvisit (obj : Z) (args : PyTuple) : bool :=
  existsb (fun item => item =? obj) (tuple_item args).

(** Whether [tp_traverse] of [x] visits one of the items of [args]. *)
Definition refers_to_one_of (args : PyTuple) (x : Z) : bool :=
  existsb (fun r => referrersvisit r args) (ob_referents (object_at objs x)).

Record gc_referrers_arg := { ra_objs : PyTuple; ra_resultlist : PyList }.

Definition gc_referrers_visitor (gc : Z) (arg : gc_referrers_arg)
    : Z * gc_referrers_arg :=
  let obj := FROM_GC gc in
  if (obj =? tuple_at (ra_objs arg)) || (obj =? list_at (ra_resultlist arg))
  then (0, arg)
  else if fst (tp_traverse_until (fun r a => (referrersvisit r a, a))
                 (ob_referents (object_at objs obj)) (ra_objs arg))
  then
    let '(rc, l) := PyList_Append env (ra_resultlist arg) obj in
    let arg := {| ra_objs := ra_objs arg; ra_resultlist := l |} in
    if rc <? 0 then (-1, arg) else (0, arg)
  else (0, arg).

Definition gc_get_referrers (blocks : list Z) (h : gmap Z PyGC_Head)
    (args : PyTuple) : py_return :=
  match audit_raises env with
  | Some exc => Raises exc
  | None =>
      match new_list env with
      | None => Raises "MemoryError"
      | Some a =>
          let arg := {| ra_objs := args;
                        ra_resultlist := {| list_at := a; ob_item := [] |} |} in
          let '(rc, arg) := visit_heap_arg gc_referrers_visitor blocks h arg in
          if rc <? 0 then Raises "MemoryError" else Returns (ra_resultlist arg)
      end
  end.

(** [gc.get_objects]; NUM_GENERATIONS comes from a header that is not
    among the sources. *)
Variable NUM_GENERATIONS : Z.

(** The conversion "%i" of [PyErr_Format]: the decimal digits of an
    [int]. *)
Definition format_int (z : Z) : string := pretty z.

Record gc_get_objects_arg := { oa_py_list : PyList; oa_generation : Z }.

Definition gc_get_objects_visitor (gc : Z) (arg : gc_get_objects_arg)
    : Z * gc_get_objects_arg :=
  let op := FROM_GC gc in
  if op =? list_at (oa_py_list arg) then (0, arg)
  else
    let '(rc, l) := PyList_Append env (oa_py_list arg) op in
    let arg := {| oa_py_list := l; oa_generation := oa_generation arg |} in
    if negb (rc =? 0) then (-1, arg) else (0, arg).

Definition gc_get_objects_impl (blocks : list Z) (h : gmap Z PyGC_Head)
    (generation : Z) : py_return :=
  match audit_raises env with
  | Some exc => Raises exc
  | None =>
      match new_list env with
      | None => Raises "MemoryError"
      | Some a =>
          if NUM_GENERATIONS <=? generation then
            Raises ("ValueError: generation parameter must be less than the number of available generations ("
                    +:+ format_int NUM_GENERATIONS +:+ ")")
          else if generation <? -1 then
            Raises "ValueError: generation parameter cannot be negative"
          else
            let arg := {| oa_py_list := {| list_at := a; ob_item := [] |};
                          oa_generation := generation + 1 |} in
            let '(rc, arg) := visit_heap_arg gc_get_objects_visitor blocks h arg in
            if rc <? 0 then Raises "MemoryError" else Returns (oa_py_list arg)
      end
  end.

(** [handle_legacy_finalizers]; [garbage] is [gcstate->garbage], NULL
    before the first use. *)
Fixpoint garbage_loop (fuel : nat) (saveall : bool) (finalizers gc : Z)
    (h : gmap Z PyGC_Head) (garbage : PyList) : outcome PyList :=
  match fuel with
  | O => OutOfFuel
  | S fuel =>
      if gc =? finalizers then Done garbage
      else
        let op := FROM_GC gc in
        if saveall || has_legacy_finalizer objs op then
          let '(rc, garbage) := PyList_Append env garbage op in
          if rc <? 0 then Done garbage     (* _PyErr_Clear(tstate); break *)
          else garbage_loop fuel saveall finalizers (GC_NEXT h gc) h garbage
        else garbage_loop fuel saveall finalizers (GC_NEXT h gc) h garbage
  end.

Definition handle_legacy_finalizers (fuel : nat) (g : GCState)
    (garbage : option PyList) (finalizers : Z) (h : gmap Z PyGC_Head)
    : outcome (option PyList * gmap Z PyGC_Head) :=
  let gc := GC_NEXT h finalizers in
  let saveall := negb (Z.land (debug g) DEBUG_SAVEALL =? 0) in
  let clear garbage :=
    continue_with (gc_list_clear fuel finalizers h) (fun h => (garbage, h))
                  (fun h => Done (garbage, h)) in
  let run l :=
    continue_with (garbage_loop fuel saveall finalizers gc h l)
                  (fun l => (Some l, h)) (fun l => clear (Some l)) in
  match garbage with
  | Some l => run l
  | None =>
      if negb (gc =? finalizers) then
        match new_list env with
        | None => Fatal "gc couldn't create gc.garbage list" (None, h)
        | Some a => run {| list_at := a; ob_item := [] |}
        end
      else clear None
  end.

End WithObjects.
End WithLayout.

(** An interpreter in which the audit passes, the new list lies at 9000
    and every append succeeds. *)
Definition plain_env : api_env :=
  {| audit_raises := None; new_list := Some 9000; append_ok := fun _ => true |}.

End Heap.

(** * Theorems *)

(** ** Python/lock.c *)
Section LockTheorems.
Import Lock.

(** The slow unlock aborts exactly when the word it loads first is
    unlocked. *)
Lemma raw_unlock_unlocked (env : list Z) (m : prim) :
  Z.land (v m) 1 = UNLOCKED ->
  _PyRawMutex_unlock_slow env m = Fatal "unlocking mutex that is not locked" m.
Proof.
  intros Hv. destruct env; simpl; rewrite Hv; reflexivity.
Qed.

(** While this thread holds the mutex, other threads can only push
    themselves as waiters, which keeps the LOCKED bit: then the loop ends
    in a return, whatever the interference. *)
Lemma raw_unlock_locked (env : list Z) :
  forall m : prim,
  Z.land (v m) 1 = LOCKED ->
  Forall (fun cur => Z.land cur 1 = LOCKED) env ->
  exists m', _PyRawMutex_unlock_slow env m = Done m'.
Proof.
  induction env as [|cur env IH]; intros m Hv Henv; simpl; rewrite Hv; simpl.
  - destruct (Z.land (v m) (Z.lnot 1) =? 0); simpl; eauto.
  - inversion Henv as [|? ? Hcur Henv']; subst.
    destruct (cur =? v m).
    + destruct (Z.land (v m) (Z.lnot 1) =? 0); simpl; eauto.
    + apply IH; [exact Hcur | exact Henv'].
Qed.

Lemma raw_notify_locked (o : prim) :
  v o = LOCKED ->
  _PyRawEvent_Notify o
  = Fatal "_PyRawEvent: duplicate notifications" (set_v LOCKED o).
Proof. intros Hv. unfold _PyRawEvent_Notify. rewrite Hv. reflexivity. Qed.

Lemma raw_notify_not_locked (o : prim) :
  v o <> LOCKED ->
  exists o', _PyRawEvent_Notify o = Done o' /\ v o' = LOCKED.
Proof.
  intros Hv. unfold _PyRawEvent_Notify.
  destruct (v o =? UNLOCKED); [eauto|].
  destruct (Z.eqb_spec (v o) LOCKED) as [E|_]; [contradiction|].
  eexists; split; reflexivity.
Qed.

(** C8: the slow unlock of a raw mutex whose word is UNLOCKED, and the
    notification of a raw event that is already LOCKED (notified), reach
    [Py_FatalError]; when the mutex is locked (and stays so under the
    interference of other threads), respectively when the event has not
    been notified yet, they return and the fatal branch is not taken. *)
Theorem C8_raw_fatal_branches :
  (forall env m, Z.land (v m) 1 = UNLOCKED ->
     is_fatal (_PyRawMutex_unlock_slow env m) = true)
  /\ (forall o, v o = LOCKED -> is_fatal (_PyRawEvent_Notify o) = true)
  /\ (forall env m, Z.land (v m) 1 = LOCKED ->
        Forall (fun cur => Z.land cur 1 = LOCKED) env ->
        is_fatal (_PyRawMutex_unlock_slow env m) = false
        /\ exists m', _PyRawMutex_unlock_slow env m = Done m')
  /\ (forall o, v o <> LOCKED ->
        is_fatal (_PyRawEvent_Notify o) = false
        /\ exists o', _PyRawEvent_Notify o = Done o' /\ v o' = LOCKED).
Proof.
  split; [|split; [|split]].
  - intros env m Hv. rewrite raw_unlock_unlocked by exact Hv. reflexivity.
  - intros o Hv. rewrite raw_notify_locked by exact Hv. reflexivity.
  - intros env m Hv Henv.
    destruct (raw_unlock_locked env m Hv Henv) as [m' E].
    rewrite E. split; [reflexivity | eauto].
  - intros o Hv.
    destruct (raw_notify_not_locked o Hv) as [o' [E Hl]].
    rewrite E. split; [reflexivity | eauto].
Qed.

(** A mutex with two waiters (thread states at 4096 and 8192) is unlocked
    while a third thread (at 12288) pushes itself; an event with a waiter
    is notified. *)
Lemma C8_raw_fatal_branches_witness :
  let m := {| v := 4097; next_waiter := fun t => if t =? 4096 then 8193 else 1;
              events := [] |} in
  let o := {| v := 4096; next_waiter := fun _ => 0; events := [] |} in
  (exists m', _PyRawMutex_unlock_slow [12289] m = Done m')
  /\ (exists o', _PyRawEvent_Notify o = Done o' /\ v o' = LOCKED)
  /\ is_fatal (_PyRawMutex_unlock_slow [] (set_v 0 m)) = true
  /\ is_fatal (_PyRawEvent_Notify (set_v 1 o)) = true.
Proof.
  intros m o.
  destruct C8_raw_fatal_branches as (Hfu & Hfn & Hu & Hn).
  split; [|split; [|split]].
  - apply (Hu [12289] m); [reflexivity|].
    constructor; [reflexivity | constructor].
  - apply (Hn o). vm_compute. discriminate.
  - apply Hfu. reflexivity.
  - apply Hfn. reflexivity.
Defined.

(** C9: when the calling thread is the finalizing thread, the slow path
    only increments the recursion counter: it returns at once, [m->v] is
    as before (no LOCKED bit set, no owner recorded) and the thread has
    not parked.  This holds whether or not the word names the thread as
    owner. *)
Theorem C9_finalizing_thread_only_recurses (env : list round) (t : thread)
    (m : rmutex) :
  finalizing t = tstate t ->
  exists m',
    _PyRecursiveMutex_lock_slow env t m = Done m'
    /\ rm_v m' = rm_v m
    /\ recursions m' = wrap64 (recursions m + 1)
    /\ rm_events m' = rm_events m.
Proof.
  intros Hfin. exists (rm_recurse m). split; [|repeat split].
  unfold _PyRecursiveMutex_lock_slow.
  destruct (Z.land (rm_v m) (Z.lnot 3) =? thread_id t); [reflexivity|].
  rewrite Hfin, Z.eqb_refl. reflexivity.
Qed.

(** The mutex is held by thread 4096 with waiters parked; the finalizing
    thread 8192 enters the slow path. *)
Lemma C9_finalizing_thread_only_recurses_witness :
  exists m',
    _PyRecursiveMutex_lock_slow []
      {| thread_id := 8192; tstate := 20480; finalizing := 20480 |}
      {| rm_v := 4099; recursions := 0; rm_events := [] |} = Done m'
    /\ rm_v m' = 4099 /\ recursions m' = wrap64 (0 + 1) /\ rm_events m' = [].
Proof.
  apply (C9_finalizing_thread_only_recurses []
           {| thread_id := 8192; tstate := 20480; finalizing := 20480 |}
           {| rm_v := 4099; recursions := 0; rm_events := [] |}).
  reflexivity.
Defined.

(** Without the finalizing exemption the same call parks. *)
Example lock_slow_other_thread_parks :
  _PyRecursiveMutex_lock_slow []
    {| thread_id := 8192; tstate := 20480; finalizing := 0 |}
    {| rm_v := 4099; recursions := 0; rm_events := [] |}
  = Blocked {| rm_v := 4099; recursions := 0; rm_events := [Park 4099] |}.
Proof. reflexivity. Qed.

(** C10: notifying a parking-lot event that is already LOCKED returns
    normally, leaves the word LOCKED and wakes nobody; the raw event aborts
    in the same situation. *)
Theorem C10_event_duplicate_notify_is_noop (o : prim) :
  v o = LOCKED ->
  _PyEvent_Notify o = Done o
  /\ is_fatal (_PyRawEvent_Notify o) = true.
Proof.
  intros Hv. split.
  - unfold _PyEvent_Notify. rewrite Hv. simpl.
    destruct o as [v0 nw ev]; simpl in *; subst; reflexivity.
  - rewrite raw_notify_locked by exact Hv. reflexivity.
Qed.

Lemma C10_event_duplicate_notify_is_noop_witness :
  let o := {| v := 1; next_waiter := fun _ => 0; events := [] |} in
  _PyEvent_Notify o = Done o /\ is_fatal (_PyRawEvent_Notify o) = true.
Proof.
  intros o. apply (C10_event_duplicate_notify_is_noop o). reflexivity.
Defined.

End LockTheorems.

(** ** Words with a counter above flag bits *)
Section Fields.
Variables W S : Z.
Hypothesis HS : 0 < S < W.

Local Abbreviation pack := (pack W S).
Local Abbreviation signedW := (signedW W).

Lemma pow_split : 2 ^ W = 2 ^ (W - S) * 2 ^ S.
Proof. rewrite <- Z.pow_add_r by lia. f_equal. lia . Qed.

Lemma pow_W_half : 2 ^ W = 2 * 2 ^ (W - 1).
Proof. rewrite <- Z.pow_succ_r by lia. f_equal. lia. Qed.

Lemma pow_half_split : 2 ^ (W - 1) = 2 ^ (W - 1 - S) * 2 ^ S.
Proof. rewrite <- Z.pow_add_r by lia. f_equal. lia. Qed.

Lemma pack_unfold (c f : Z) :
  0 <= f < 2 ^ S ->
  pack c f = (c mod 2 ^ (W - S)) * 2 ^ S + f.
Proof.
  intros Hf. unfold pack.
  assert (HpS : 0 < 2 ^ S) by (apply Z.pow_pos_nonneg; lia).
  assert (HpWS : 0 < 2 ^ (W - S)) by (apply Z.pow_pos_nonneg; lia).
  rewrite pow_split.
  pose proof (Z.mod_pos_bound c (2 ^ (W - S)) HpWS) as Hc.
  rewrite (Z.div_mod c (2 ^ (W - S))) at 1 by lia.
  replace ((2 ^ (W - S) * (c / 2 ^ (W - S)) + c mod 2 ^ (W - S)) * 2 ^ S + f)
    with ((c mod 2 ^ (W - S) * 2 ^ S + f) + (c / 2 ^ (W - S)) * (2 ^ (W - S) * 2 ^ S))
    by ring.
  rewrite Z.mod_add by lia.
  apply Z.mod_small. nia.
Qed.

Lemma pack_range (c f : Z) : 0 <= pack c f < 2 ^ W.
Proof. apply Z.mod_pos_bound. apply Z.pow_pos_nonneg; lia. Qed.

Lemma testbit_hi_lo (a f n : Z) :
  0 <= f < 2 ^ S -> 0 <= n ->
  Z.testbit (a * 2 ^ S + f) n
  = if n <? S then Z.testbit f n else Z.testbit a (n - S).
Proof.
  intros Hf Hn.
  assert (HpS : 0 < 2 ^ S) by (apply Z.pow_pos_nonneg; lia).
  destruct (Z.ltb_spec n S).
  - rewrite <- (Z.mod_pow2_bits_low (a * 2 ^ S + f) S n) by lia.
    rewrite Z.add_comm, Z.mod_add by lia. rewrite Z.mod_small by lia. reflexivity.
  - replace n with ((n - S) + S) at 1 by lia.
    rewrite <- Z.div_pow2_bits by lia.
    rewrite Z.div_add_l by lia. rewrite Z.div_small by lia.
    rewrite Z.add_0_r. reflexivity.
Qed.

Lemma low_bits_bound (f n : Z) : 0 <= f < 2 ^ S -> S <= n -> Z.testbit f n = false.
Proof.
  intros Hf Hn. destruct (Z.eq_dec f 0) as [->|Hne]; [apply Z.bits_0|].
  apply Z.bits_above_log2; [lia|].
  apply Z.lt_le_trans with S; [|lia]. apply Z.log2_lt_pow2; lia.
Qed.

Lemma bounded_of_bits (x : Z) :
  0 <= x -> (forall n, S <= n -> Z.testbit x n = false) -> x < 2 ^ S.
Proof.
  intros Hx Hb. destruct (Z_lt_le_dec x (2 ^ S)) as [|Hge]; [assumption|exfalso].
  assert (HpS : 0 < 2 ^ S) by (apply Z.pow_pos_nonneg; lia).
  assert (Hl : S <= Z.log2 x) by (apply Z.log2_le_pow2; lia).
  specialize (Hb (Z.log2 x) Hl). rewrite Z.bit_log2 in Hb by lia. discriminate.
Qed.

Lemma lor_low_range (f m : Z) : 0 <= f < 2 ^ S -> 0 <= m < 2 ^ S -> 0 <= Z.lor f m < 2 ^ S.
Proof.
  intros Hf Hm. assert (H0 : 0 <= Z.lor f m) by (apply Z.lor_nonneg; lia).
  split; [exact H0|]. apply bounded_of_bits; [exact H0|].
  intros n Hn. rewrite Z.lor_spec, !low_bits_bound by assumption. reflexivity.
Qed.

Lemma ldiff_low_range (f m : Z) : 0 <= f < 2 ^ S -> 0 <= Z.ldiff f m < 2 ^ S.
Proof.
  intros Hf. assert (H0 : 0 <= Z.ldiff f m) by (apply Z.ldiff_nonneg; lia).
  split; [exact H0|]. apply bounded_of_bits; [exact H0|].
  intros n Hn. rewrite Z.ldiff_spec, low_bits_bound by assumption. reflexivity.
Qed.

Lemma pack_lor (c f m : Z) :
  0 <= f < 2 ^ S -> 0 <= m < 2 ^ S ->
  Z.lor (pack c f) m = pack c (Z.lor f m).
Proof.
  intros Hf Hm. pose proof (lor_low_range f m Hf Hm) as Hfm.
  rewrite !pack_unfold by assumption.
  apply Z.bits_inj'. intros n Hn.
  rewrite Z.lor_spec, !testbit_hi_lo by assumption.
  destruct (Z.ltb_spec n S).
  - rewrite Z.lor_spec. reflexivity.
  - rewrite (low_bits_bound m n) by assumption. apply orb_false_r.
Qed.

Lemma pack_ldiff (c f m : Z) :
  0 <= f < 2 ^ S -> 0 <= m < 2 ^ S ->
  Z.ldiff (pack c f) m = pack c (Z.ldiff f m).
Proof.
  intros Hf Hm. pose proof (ldiff_low_range f m Hf) as Hfm.
  rewrite !pack_unfold by assumption.
  apply Z.bits_inj'. intros n Hn.
  rewrite Z.ldiff_spec, !testbit_hi_lo by assumption.
  destruct (Z.ltb_spec n S).
  - rewrite Z.ldiff_spec. reflexivity.
  - rewrite (low_bits_bound m n) by assumption. simpl. apply andb_true_r.
Qed.

Lemma pack_land_low (c f m : Z) :
  0 <= f < 2 ^ S -> 0 <= m < 2 ^ S ->
  Z.land (pack c f) m = Z.land f m.
Proof.
  intros Hf Hm.
  rewrite !pack_unfold by assumption.
  apply Z.bits_inj'. intros n Hn.
  rewrite !Z.land_spec, !testbit_hi_lo by assumption.
  destruct (Z.ltb_spec n S).
  - reflexivity.
  - rewrite (low_bits_bound m n), (low_bits_bound f n) by assumption.
    rewrite andb_false_r. reflexivity.
Qed.

Lemma pack_add (c f k : Z) :
  (pack c f + k * 2 ^ S) mod 2 ^ W = pack (c + k) f.
Proof.
  unfold pack. rewrite Zplus_mod_idemp_l. f_equal. ring.
Qed.

Lemma pack_count (c f : Z) :
  - 2 ^ (W - 1 - S) <= c < 2 ^ (W - 1 - S) -> 0 <= f < 2 ^ S ->
  Z.shiftr (signedW (pack c f)) S = c.
Proof.
  intros Hc Hf.
  assert (HpS : 0 < 2 ^ S) by (apply Z.pow_pos_nonneg; lia).
  assert (Hp1 : 0 < 2 ^ (W - 1 - S)) by (apply Z.pow_pos_nonneg; lia).
  assert (Hsg : signedW (pack c f) = c * 2 ^ S + f).
  { unfold signedW, pack.
    pose proof pow_W_half as HW. pose proof pow_half_split as Hh.
    destruct (Z_lt_le_dec c 0).
    - replace ((c * 2 ^ S + f) mod 2 ^ W) with (c * 2 ^ S + f + 2 ^ W).
      + destruct (Z.ltb_spec (c * 2 ^ S + f + 2 ^ W) (2 ^ (W - 1))); nia.
      + symmetry. rewrite <- (Z.mod_add _ 1) by lia.
        rewrite Z.mul_1_l. apply Z.mod_small. nia.
    - rewrite Z.mod_small by nia.
      destruct (Z.ltb_spec (c * 2 ^ S + f) (2 ^ (W - 1))); nia. }
  rewrite Hsg, Z.shiftr_div_pow2 by lia.
  rewrite Z.div_add_l by lia. rewrite Z.div_small by lia. lia.
Qed.

Lemma pack_low (c f : Z) : 0 <= f < 2 ^ S -> pack c f mod 2 ^ S = f.
Proof.
  intros Hf. rewrite pack_unfold by assumption.
  rewrite Z.add_comm, Z.mod_add by lia. apply Z.mod_small; lia.
Qed.

Lemma pack_decompose (x : Z) :
  0 <= x < 2 ^ W ->
  x = pack (Z.shiftr (signedW x) S) (x mod 2 ^ S)
  /\ - 2 ^ (W - 1 - S) <= Z.shiftr (signedW x) S < 2 ^ (W - 1 - S)
  /\ 0 <= x mod 2 ^ S < 2 ^ S.
Proof.
  intros Hx.
  assert (HpS : 0 < 2 ^ S) by (apply Z.pow_pos_nonneg; lia).
  pose proof pow_W_half as HW. pose proof pow_half_split as Hh.
  pose proof (Z.mod_pos_bound x (2 ^ S) HpS) as Hm.
  assert (Hsm : signedW x mod 2 ^ S = x mod 2 ^ S).
  { unfold signedW. destruct (Z.ltb_spec x (2 ^ (W - 1))); [reflexivity|].
    rewrite pow_split. replace (x - 2 ^ (W - S) * 2 ^ S) with (x + (- 2 ^ (W - S)) * 2 ^ S) by ring.
    apply Z.mod_add. lia. }
  assert (Hsr : - 2 ^ (W - 1) <= signedW x < 2 ^ (W - 1)).
  { unfold signedW. destruct (Z.ltb_spec x (2 ^ (W - 1))); lia. }
  assert (Hsx : signedW x mod 2 ^ W = x).
  { unfold signedW. destruct (Z.ltb_spec x (2 ^ (W - 1))).
    - apply Z.mod_small; lia.
    - rewrite <- (Z.mod_add _ 1) by lia. rewrite Z.mul_1_l.
      replace (x - 2 ^ W + 2 ^ W) with x by ring. apply Z.mod_small; lia. }
  rewrite Z.shiftr_div_pow2 by lia.
  pose proof (Z.div_mod (signedW x) (2 ^ S) ltac:(lia)) as Hdm.
  split; [|split].
  - unfold pack. rewrite <- Hsm.
    replace (signedW x / 2 ^ S * 2 ^ S + signedW x mod 2 ^ S) with (signedW x) by lia.
    symmetry. exact Hsx.
  - rewrite Hsm in Hdm. split.
    + apply Z.div_le_lower_bound; [lia|]. nia.
    + apply Z.div_lt_upper_bound; [lia|]. nia.
  - exact Hm.
Qed.

End Fields.

(** ** The reference-count fields *)
Section RefcountTheorems.
Import GC.
Context {L : Layout}.
Hypothesis LOK : layout_ok.

Lemma pow_bit_range (b s : Z) : 0 <= b < s -> 0 < 2 ^ b < 2 ^ s.
Proof.
  intros Hb. split; [apply Z.pow_pos_nonneg; lia|].
  apply Z.pow_lt_mono_r; lia.
Qed.

Lemma signed32_signedW (z : Z) : signed32 z = signedW 32 z.
Proof. reflexivity. Qed.

Lemma signed64_signedW (z : Z) : signed64 z = signedW 64 z.
Proof. reflexivity. Qed.

Lemma land_lor_same (f m : Z) : Z.land (Z.lor f m) m = m.
Proof.
  apply Z.bits_inj'. intros n _.
  rewrite Z.land_spec, Z.lor_spec. destruct (Z.testbit f n), (Z.testbit m n); reflexivity.
Qed.

(** C3: [incref_merge] zeroes [ob_ref_local] and [ob_tid], sets the merged
    flag of [ob_ref_shared], and the logical reference count
    [_Py_GC_REFCNT] (local count plus shared count) is one more than
    before.  The shared field is a 32-bit word and the new count must fit
    its signed counter; immortality plays no part in the computation, so
    the statement covers every non-immortal object. *)
Theorem C3_incref_merge (op : PyObject) :
  0 <= ob_ref_shared op < 2 ^ 32 ->
  - 2 ^ (31 - _Py_REF_SHARED_SHIFT) <= _Py_GC_REFCNT op + 1
     < 2 ^ (31 - _Py_REF_SHARED_SHIFT) ->
  let op' := incref_merge op in
  ob_ref_local op' = 0
  /\ ob_tid op' = 0
  /\ is_merged op' = true
  /\ _Py_GC_REFCNT op' = _Py_GC_REFCNT op + 1.
Proof.
  intros Hsh Hfit op'.
  pose proof (shared_shift_range LOK) as HS.
  pose proof (pow_bit_range _ _ (merged_range LOK)) as HM.
  assert (HS' : 0 < _Py_REF_SHARED_SHIFT < 32) by lia.
  destruct (pack_decompose 32 _ HS' (ob_ref_shared op) Hsh) as (Hdec & Hc & Hf).
  set (c := Z.shiftr (signedW 32 (ob_ref_shared op)) _Py_REF_SHARED_SHIFT) in *.
  set (f := ob_ref_shared op mod 2 ^ _Py_REF_SHARED_SHIFT) in *.
  set (l := Z.shiftr (ob_ref_local op) _Py_REF_LOCAL_SHIFT).
  assert (Hcnt : _Py_GC_REFCNT op = l + c) by reflexivity.
  assert (Hnew : ob_ref_shared op'
                 = pack 32 _Py_REF_SHARED_SHIFT (c + (l + 1))
                     (Z.lor f _Py_REF_MERGED_MASK)).
  { unfold op', incref_merge, set_refs; simpl. fold l.
    rewrite Z.shiftl_mul_pow2 by lia. unfold wrap32.
    rewrite Hdec at 1. rewrite (pack_add 32).
    apply (pack_lor 32 _ HS'); [assumption | unfold _Py_REF_MERGED_MASK; lia]. }
  assert (Hfm : 0 <= Z.lor f _Py_REF_MERGED_MASK < 2 ^ _Py_REF_SHARED_SHIFT).
  { apply (lor_low_range 32 _ HS'); [assumption | unfold _Py_REF_MERGED_MASK; lia]. }
  split; [reflexivity|]. split; [reflexivity|]. split.
  - unfold is_merged. rewrite Hnew.
    rewrite (pack_land_low 32 _ HS') by (try assumption; unfold _Py_REF_MERGED_MASK; lia).
    rewrite land_lor_same. unfold _Py_REF_MERGED_MASK.
    destruct (Z.eqb_spec (2 ^ MERGED_BIT) 0); [lia | reflexivity].
  - unfold _Py_GC_REFCNT at 1, _PyRef_UnpackShared.
    rewrite Hnew, signed32_signedW.
    replace (32 - 1 - _Py_REF_SHARED_SHIFT) with (31 - _Py_REF_SHARED_SHIFT) in Hc by lia.
    rewrite (pack_count 32 _ HS') by
      (try assumption; replace (32 - 1 - _Py_REF_SHARED_SHIFT)
         with (31 - _Py_REF_SHARED_SHIFT) by lia; lia).
    unfold op', incref_merge, set_refs; simpl.
    rewrite Z.shiftr_0_l. lia.
Qed.

End RefcountTheorems.

Lemma example_layout_ok : @GC.layout_ok GC.example_layout.
Proof. constructor; simpl; lia. Qed.

(** An object owned by thread 77 with local count 3 and shared count -1
    (one remote decrement): two references in all, three after the call. *)
Lemma C3_incref_merge_witness :
  let op := {| GC.ob_tid := 77; GC.ob_ref_local := 12;
               GC.ob_ref_shared := 2 ^ 32 - 4;
               GC.ob_is_gc := true; GC.ob_exact_container := false;
               GC.ob_referents := [];
               GC.tp_finalize := false; GC.tp_del := false |} in
  let op' := @GC.incref_merge GC.example_layout op in
  GC.ob_ref_local op' = 0
  /\ GC.ob_tid op' = 0
  /\ @GC.is_merged GC.example_layout op' = true
  /\ @GC._Py_GC_REFCNT GC.example_layout op'
     = @GC._Py_GC_REFCNT GC.example_layout op + 1.
Proof.
  intros op.
  apply (@C3_incref_merge GC.example_layout example_layout_ok op).
  - vm_compute. split; [discriminate | reflexivity].
  - vm_compute. split; [discriminate | reflexivity].
Defined.

Example incref_merge_example :
  @GC._Py_GC_REFCNT GC.example_layout
    (@GC.incref_merge GC.example_layout
       {| GC.ob_tid := 77; GC.ob_ref_local := 12; GC.ob_ref_shared := 2 ^ 32 - 4;
          GC.ob_is_gc := true; GC.ob_exact_container := false;
               GC.ob_referents := [];
          GC.tp_finalize := false; GC.tp_del := false |}) = 3.
Proof. reflexivity. Qed.

(** ** The threshold and the collection driver *)
Section DriverTheorems.
Import GC.

Lemma ssize_small (z : Z) : - 2 ^ 63 <= z < 2 ^ 63 -> ssize z = z.
Proof.
  intros Hz. unfold ssize, wrap64, signed64.
  destruct (Z_lt_le_dec z 0).
  - replace (z mod 2 ^ 64) with (z + 2 ^ 64).
    + destruct (Z.ltb_spec (z + 2 ^ 64) (2 ^ 63)); lia.
    + symmetry. rewrite <- (Z.mod_add _ 1) by lia. apply Z.mod_small. lia.
  - rewrite Z.mod_small by lia.
    destruct (Z.ltb_spec z (2 ^ 63)); lia.
Qed.

Lemma spec_threshold_floor (live scale : Z) :
  Qfloor (inject_Z live * (1 + inject_Z scale / inject_Z 100))%Q
  = live + live * scale / 100.
Proof.
  rewrite (Qfloor_comp _ (inject_Z (live * 100 + live * scale) / inject_Z 100)%Q).
  - rewrite <- Zdiv_Qdiv. rewrite Z.add_comm, Z.div_add by lia. lia.
  - rewrite inject_Z_plus, !inject_Z_mult. field.
Qed.

(** What [update_gc_threshold] stores, in integers. *)
Lemma update_gc_threshold_code (g : GCState) :
  - 2 ^ 63 <= gc_live g * gc_scale g < 2 ^ 63 ->
  - 2 ^ 63 <= gc_live g + Z.quot (gc_live g * gc_scale g) 100 < 2 ^ 63 ->
  gc_threshold (update_gc_threshold g)
  = code_threshold (gc_live g) (gc_scale g).
Proof.
  intros Hp Hs. unfold update_gc_threshold, code_threshold; simpl.
  rewrite (ssize_small (gc_live g * gc_scale g)) by assumption.
  rewrite ssize_small by assumption.
  destruct (Z.ltb_spec (gc_live g + Z.quot (gc_live g * gc_scale g) 100) 7000); lia.
Qed.

(** Truncation and rounding down agree when the product is not negative. *)
Lemma code_threshold_spec (live scale : Z) :
  0 <= live * scale -> code_threshold live scale = spec_threshold live scale.
Proof.
  intros Hp. unfold code_threshold, spec_threshold.
  rewrite spec_threshold_floor, Z.quot_div_nonneg by lia. reflexivity.
Qed.

Lemma update_gc_threshold_value (g : GCState) :
  0 <= gc_live g -> 0 <= gc_scale g ->
  gc_live g * (100 + gc_scale g) < 2 ^ 63 ->
  gc_threshold (update_gc_threshold g)
  = Z.max 7000 (gc_live g + gc_live g * gc_scale g / 100).
Proof.
  intros Hl Hs Hfit.
  assert (Hp : 0 <= gc_live g * gc_scale g) by nia.
  assert (Hd : 0 <= gc_live g * gc_scale g / 100 <= gc_live g * gc_scale g).
  { split; [apply Z.div_pos; lia|]. apply Z.div_le_upper_bound; lia. }
  rewrite update_gc_threshold_code.
  - unfold code_threshold. rewrite Z.quot_div_nonneg by lia. reflexivity.
  - lia.
  - rewrite Z.quot_div_nonneg by lia. lia.
Qed.

Lemma update_gc_threshold_spec (g : GCState) :
  0 <= gc_live g -> 0 <= gc_scale g ->
  gc_live g * (100 + gc_scale g) < 2 ^ 63 ->
  gc_threshold (update_gc_threshold g) = spec_threshold (gc_live g) (gc_scale g).
Proof.
  intros. unfold spec_threshold. rewrite spec_threshold_floor.
  apply update_gc_threshold_value; assumption.
Qed.

(** [update_gc_threshold] does not read the threshold it replaces. *)
Lemma update_gc_threshold_overwrites (t : Z) (g : GCState) :
  update_gc_threshold (with_threshold t g) = update_gc_threshold g.
Proof. reflexivity. Qed.

Lemma update_gc_threshold_twice (g : GCState) :
  update_gc_threshold (update_gc_threshold g) = update_gc_threshold g.
Proof. reflexivity. Qed.

(** [gc.set_threshold] with one to three C [int]s stores the first. *)
Lemma gc_set_threshold_stores (t0 : Z) (rest : list Z) (g : GCState) :
  (length rest <= 2)%nat -> forallb fits_int (t0 :: rest) = true ->
  gc_set_threshold (t0 :: rest) g = (None, with_threshold t0 g).
Proof.
  intros Hn Hfit. unfold gc_set_threshold.
  destruct (Nat.ltb_spec 2 (length rest)); [lia|].
  rewrite Hfit. reflexivity.
Qed.

(** A first argument that does not fit a C [int] stores nothing. *)
Lemma gc_set_threshold_overflow (t0 : Z) (rest : list Z) (g : GCState) :
  fits_int t0 = false -> snd (gc_set_threshold (t0 :: rest) g) = g
  /\ fst (gc_set_threshold (t0 :: rest) g) <> None.
Proof.
  intros Hfit. unfold gc_set_threshold.
  destruct (2 <? length rest)%nat; [split; [reflexivity|discriminate]|].
  cbn [forallb]. rewrite Hfit. simpl. split; [reflexivity|discriminate].
Qed.

(** With nothing registered [invoke_gc_callback] returns at once. *)
Lemma invoke_gc_callback_none (P : cycle_phases) (phase : string) (a b : Z)
    (w : World) :
  no_callbacks (gcstate w) -> invoke_gc_callback P phase a b w = Some w.
Proof.
  unfold invoke_gc_callback. intros [E|E]; rewrite E; [reflexivity|].
  simpl. destruct (callback_bound P); simpl; rewrite E; reflexivity.
Qed.

Lemma after_callbacks_none (P : cycle_phases) (reason : _PyGC_Reason)
    (phase : string) (a b : Z) (w : World) (rest : World -> returns) :
  no_callbacks (gcstate w) -> after_callbacks P reason phase a b w rest = rest w.
Proof.
  intros Hn. unfold after_callbacks.
  rewrite invoke_gc_callback_none by assumption. destruct reason; reflexivity.
Qed.

(** The loop over callbacks that keep the threshold and the list: it ends
    within as many calls as the list is long, on a state with the same
    threshold. *)
Lemma callbacks_loop_keeps (P : cycle_phases) (phase : string) (a b : Z) :
  callbacks_keep_threshold P ->
  forall (fuel i : nat) (w : World) (cbs : list Z),
    callbacks (gcstate w) = Some cbs -> (length cbs <= i + fuel)%nat ->
    exists w', callbacks_loop P fuel i phase a b w = Some w'
      /\ gc_threshold (gcstate w') = gc_threshold (gcstate w)
      /\ callbacks (gcstate w') = callbacks (gcstate w).
Proof.
  intros Hk fuel. induction fuel as [|fuel IH]; intros i w cbs Hc Hlen.
  - exists w. split; [|auto]. simpl. rewrite Hc.
    rewrite (proj2 (nth_error_None cbs i)) by lia. reflexivity.
  - simpl. rewrite Hc. destruct (nth_error cbs i) as [cb|] eqn:En.
    + specialize (Hk cb phase a b (record (EvCallback cb phase a b) w)).
      destruct (call_callback P cb phase a b (record (EvCallback cb phase a b) w))
        as [w1 ok] eqn:Ecall.
      simpl in Hk. destruct Hk as [Ht Hcb].
      set (w2 := if ok then w1 else record (EvUnraisableIn (Some cb)) (with_curexc None w1)).
      assert (Hg2 : gcstate w2 = gcstate w1) by (unfold w2; destruct ok; reflexivity).
      destruct (IH (S i) w2 cbs) as (w' & E & Ht' & Hc').
      * rewrite Hg2, Hcb. exact Hc.
      * lia.
      * exists w'. split; [exact E|]. rewrite Ht', Hc', Hg2, Hcb. auto.
    + exists w. auto.
Qed.

Lemma invoke_gc_callback_keeps (P : cycle_phases) (phase : string) (a b : Z)
    (w : World) :
  callbacks_keep_threshold P ->
  (forall cbs, callbacks (gcstate w) = Some cbs ->
               (length cbs <= callback_bound P)%nat) ->
  exists w', invoke_gc_callback P phase a b w = Some w'
    /\ gc_threshold (gcstate w') = gc_threshold (gcstate w).
Proof.
  intros Hk Hb. unfold invoke_gc_callback.
  destruct (callbacks (gcstate w)) as [cbs|] eqn:Ec; [|exists w; auto].
  destruct (negb (length cbs =? 0)%nat && info_fails P w).
  - eexists. split; reflexivity.
  - destruct (callbacks_loop_keeps P phase a b Hk (callback_bound P) 0 w cbs Ec)
      as (w' & E & Ht & _); [apply Hb; reflexivity|].
    exists w'. auto.
Qed.

(** C7 as stated fails, twice.  With a negative scale the quotient is
    truncated, not rounded down: 10001 live objects at scale -1 give the
    threshold 9901 where [max(7000, 10001 * (1 - 1/100))] is 9900 in
    integers.  And a collection that runs to its end with a "stop"
    callback that calls [gc.set_threshold(5)] returns with [gc_threshold]
    5, not [max(7000, 10 * (1 + 100/100))]: the callbacks are called
    after the last [update_gc_threshold]. *)
Lemma C7_threshold_after_collection_differs :
  (gc_threshold (update_gc_threshold shrinking_state) = 9901
   /\ spec_threshold (gc_live shrinking_state) (gc_scale shrinking_state) = 9900)
  /\ exists w',
       collect_cycle tuning_phases GC_REASON_MANUAL collecting_world = Return 0 w'
       /\ completed_collection collecting_world (Return 0 w')
       /\ gc_threshold (gcstate w') = 5
       /\ spec_threshold (gc_live (gcstate w')) (gc_scale (gcstate w')) = 7000.
Proof.
  split; [split; vm_compute; reflexivity|].
  eexists. split; [vm_compute; reflexivity|].
  split; [|split; vm_compute; reflexivity].
  eexists _, _. split; [reflexivity|vm_compute; reflexivity].
Qed.

(** C7, amended: [update_gc_threshold] stores
    [max(7000, live + live * gc_scale / 100)], computed in [Py_ssize_t]
    from the live count of that moment with the quotient truncated
    towards zero, which is [max(7000, live * (1 + gc_scale/100))] rounded
    down when [live * gc_scale] is not negative; it does not read the
    value it replaces, so what [gc.set_threshold] stored (a C [int]) is
    overwritten.  The end of a collection leaves the value so computed in
    [gc_threshold] when it calls the "stop" callbacks, and [collect]
    returns with it when the reason is shutdown, when no callback is
    registered, or when the callbacks store no threshold. *)
Theorem C7_threshold_recomputed :
  (forall g : GCState,
     - 2 ^ 63 <= gc_live g * gc_scale g < 2 ^ 63 ->
     - 2 ^ 63 <= gc_live g + Z.quot (gc_live g * gc_scale g) 100 < 2 ^ 63 ->
     gc_threshold (update_gc_threshold g)
     = Z.max 7000 (gc_live g + Z.quot (gc_live g * gc_scale g) 100)
     /\ (0 <= gc_live g * gc_scale g ->
         gc_threshold (update_gc_threshold g)
         = spec_threshold (gc_live g) (gc_scale g)))
  /\ (forall (g : GCState) (t0 : Z) (rest : list Z),
        (length rest <= 2)%nat -> forallb fits_int (t0 :: rest) = true ->
        fst (gc_set_threshold (t0 :: rest) g) = None
        /\ gc_threshold (snd (gc_set_threshold (t0 :: rest) g)) = t0
        /\ update_gc_threshold (snd (gc_set_threshold (t0 :: rest) g))
           = update_gc_threshold g)
  /\ (forall (P : cycle_phases) (reason : _PyGC_Reason)
        (m n n_collected n_uncollectable : Z) (w : World),
      let w1 := collect_account P reason n_collected n_uncollectable w in
      let live := gc_live (gcstate w1) in
      let scale := gc_scale (gcstate w1) in
      - 2 ^ 63 <= live * scale < 2 ^ 63 ->
      - 2 ^ 63 <= live + Z.quot (live * scale) 100 < 2 ^ 63 ->
      gc_threshold (gcstate w1) = Z.max 7000 (live + Z.quot (live * scale) 100)
      /\ (reason = GC_REASON_SHUTDOWN \/ no_callbacks (gcstate w1) ->
          collect_finish P reason m n n_collected n_uncollectable w
          = Return (ssize (n + m))
              (with_gcstate (with_collecting 0 (gcstate w1)) w1))
      /\ (callbacks_keep_threshold P ->
          (forall cbs, callbacks (gcstate w1) = Some cbs ->
                       (length cbs <= callback_bound P)%nat) ->
          exists w',
            collect_finish P reason m n n_collected n_uncollectable w
            = Return (ssize (n + m)) w'
            /\ gc_threshold (gcstate w')
               = Z.max 7000 (live + Z.quot (live * scale) 100))).
Proof.
  split; [|split].
  - intros g Hp Hs. rewrite update_gc_threshold_code by assumption.
    split; [reflexivity|]. apply code_threshold_spec.
  - intros g t0 rest Hn Hfit.
    rewrite gc_set_threshold_stores by assumption. auto.
  - intros P reason m n nc nu w w1 live scale Hp Hs.
    assert (H1 : gc_threshold (gcstate w1)
                 = Z.max 7000 (live + Z.quot (live * scale) 100)).
    { transitivity (gc_threshold (update_gc_threshold (gcstate w1)));
        [reflexivity|].
      apply update_gc_threshold_code; assumption. }
    split; [exact H1|]. split.
    + intros [-> | Hn]; [reflexivity|].
      unfold collect_finish. fold w1.
      rewrite after_callbacks_none by exact Hn. reflexivity.
    + intros Hk Hb. unfold collect_finish. fold w1. unfold after_callbacks.
      destruct (invoke_gc_callback_keeps P "stop" m n w1 Hk Hb) as (w' & E & Ht).
      rewrite E.
      destruct reason; eexists; (split; [reflexivity|]); simpl;
        rewrite <- ?H1; auto.
Qed.

Lemma C7_threshold_recomputed_witness :
  let g := {| enabled := 1; debug := 0; collecting := 1; gc_live := 20000;
              gc_threshold := 7000; gc_scale := 150;
              stats := {| collections := 0; collected := 0; uncollectable := 0 |};
              callbacks := Some [101] |} in
  (gc_threshold (update_gc_threshold g) = 50000
   /\ gc_threshold (update_gc_threshold g) = spec_threshold 20000 150)
  /\ gc_threshold (snd (gc_set_threshold [5] g)) = 5
  /\ update_gc_threshold (snd (gc_set_threshold [5] g)) = update_gc_threshold g
  /\ exists w',
       collect_finish idle_phases GC_REASON_MANUAL 3 0 3 0
         (with_gcstate (snd (gc_set_threshold [5] g)) collecting_world)
       = Return 3 w'
       /\ gc_threshold (gcstate w') = 50000.
Proof.
  intros g.
  destruct C7_threshold_recomputed as (Hvalue & Hset & Hend).
  split; [|split; [|split]].
  - destruct (Hvalue g) as [E1 E2]; [vm_compute; split; [discriminate|reflexivity] ..|].
    split; [exact E1|]. apply E2. vm_compute. discriminate.
  - apply (Hset g 5 []); [simpl; lia|reflexivity].
  - apply (Hset g 5 []); [simpl; lia|reflexivity].
  - destruct (Hend idle_phases GC_REASON_MANUAL 3 0 3 0
                (with_gcstate (snd (gc_set_threshold [5] g)) collecting_world))
      as (_ & _ & Hret); [vm_compute; split; [discriminate|reflexivity] ..|].
    destruct Hret as (w' & E & Ht).
    + intros cb phase a b w. split; reflexivity.
    + intros cbs Hc. vm_compute in Hc. inversion Hc; subst cbs. simpl. lia.
    + exists w'. split; [exact E|]. rewrite Ht. reflexivity.
Defined.

Example update_gc_threshold_example :
  gc_threshold (update_gc_threshold
    {| enabled := 1; debug := 0; collecting := 0; gc_live := 20000;
       gc_threshold := 5; gc_scale := 150;
       stats := {| collections := 0; collected := 0; uncollectable := 0 |};
       callbacks := None |}) = 50000.
Proof. reflexivity. Qed.

(** A process started with PYTHONGC=-1 has the scale of
    [shrinking_state]; without the variable the scale is 100. *)
Example _PyGC_InitState_scale :
  gc_scale (_PyGC_InitState (Some (-1)) (gcstate quiet_world))
  = gc_scale shrinking_state
  /\ gc_scale (_PyGC_InitState None shrinking_state) = 100
  /\ gc_threshold (_PyGC_InitState (Some (-1)) shrinking_state) = 7000.
Proof. repeat split. Qed.

(** [gc.set_threshold(2**31)] raises OverflowError and the threshold stays. *)
Example gc_set_threshold_overflow_example :
  gc_set_threshold [2 ^ 31] (gcstate quiet_world)
  = (Some "OverflowError", gcstate quiet_world).
Proof. reflexivity. Qed.

(** The guards at the head of [collect] return 0 and leave everything as it
    was: no mutex taken, no thread stopped, nothing recorded. *)
Lemma collect_guarded (P : cycle_phases) (reason : _PyGC_Reason) (w : World) :
  collecting (gcstate w) <> 0 \/ cant_stop_wont_stop w <> 0 ->
  collect P reason w = Return 0 w.
Proof.
  intros Hg. unfold collect.
  destruct (Z.eqb_spec (collecting (gcstate w)) 0) as [E1|N1]; simpl; [|reflexivity].
  destruct (Z.eqb_spec (cant_stop_wont_stop w) 0) as [E2|N2]; simpl; [|reflexivity].
  destruct Hg; contradiction.
Qed.

Lemma unlock_lock (w : World) :
  stoptheworld_mutex w = false -> _PyMutex_unlock (with_mutex true w) = w.
Proof. destruct w; simpl; intros ->; reflexivity. Qed.

(** A heap-triggered call below the threshold takes the mutex, gives it
    back and returns 0. *)
Lemma collect_below_threshold (P : cycle_phases) (w : World) :
  collecting (gcstate w) = 0 -> cant_stop_wont_stop w = 0 ->
  stoptheworld_mutex w = false ->
  gc_live (gcstate w) < gc_threshold (gcstate w) ->
  collect P GC_REASON_HEAP w = Return 0 w.
Proof.
  intros Hc Hs Hm Hl. unfold collect, _PyMutex_lock.
  rewrite Hc, Hs, Hm. simpl.
  unfold _PyGC_ShouldCollect.
  destruct (Z.leb_spec (gc_threshold (gcstate w)) (gc_live (gcstate w))); [lia|].
  simpl. rewrite unlock_lock by assumption. reflexivity.
Qed.

(** Past the guards [collect] sets [collecting] itself, so that its own
    compare-exchange on [collecting] fails: it returns 0 from there with
    the mutex held and the threads stopped, whatever the heap holds.
    Stated with no callback registered. *)
Lemma collect_returns_holding_mutex (P : cycle_phases) (reason : _PyGC_Reason)
    (w : World) :
  collecting (gcstate w) = 0 -> cant_stop_wont_stop w = 0 ->
  stoptheworld_mutex w = false ->
  gc_reason_is_valid (gcstate w) reason = true ->
  no_callbacks (gcstate w) ->
  exists w', collect P reason w = Return 0 w'
    /\ stoptheworld_mutex w' = true
    /\ stop_the_world w' = true
    /\ collecting (gcstate w') = 1
    /\ stats (gcstate w') = stats (gcstate w)
    /\ log w' = log w ++ [EvStopTheWorld].
Proof.
  intros Hc Hs Hm Hv Hn. unfold collect, _PyMutex_lock.
  rewrite Hc, Hs, Hm. simpl. rewrite Hv. simpl.
  rewrite after_callbacks_none by exact Hn.
  simpl. rewrite Hs. simpl. eexists. repeat split; reflexivity.
Qed.

(** The statistics count in [Py_ssize_t]: one more is never the same. *)
Lemma ssize_succ_neq (c : Z) : ssize (c + 1) <> c.
Proof.
  unfold ssize, wrap64, signed64. intros E.
  pose proof (Z.div_mod (c + 1) (2 ^ 64) ltac:(lia)) as D.
  destruct ((c + 1) mod 2 ^ 64 <? 2 ^ 63); lia.
Qed.

(** C2, the path on which the code departs from it: called at rest with
    reason MANUAL, [collect] reaches its compare-exchange on [collecting]
    after it has taken the stop-the-world mutex, the exchange fails, and
    the function returns 0 without a collection -- but with the mutex
    still held and the world still stopped. *)
Theorem C2_cas_return_keeps_mutex :
  exists w',
    collect idle_phases GC_REASON_MANUAL quiet_world = Return 0 w'
    /\ stoptheworld_mutex w' = true
    /\ stop_the_world w' = true
    /\ collecting (gcstate w') = 1
    /\ ~ completed_collection quiet_world
           (collect idle_phases GC_REASON_MANUAL quiet_world).
Proof.
  destruct (collect_returns_holding_mutex idle_phases GC_REASON_MANUAL quiet_world)
    as (w' & E & Hm & Hw & Hc & Hst & _); try reflexivity.
  { right. reflexivity. }
  exists w'. repeat split; try assumption.
  intros (r & w'' & E' & Hn). rewrite E in E'. inversion E'; subst w''.
  rewrite Hst in Hn. vm_compute in Hn. discriminate.
Qed.

(** The three returns the specification lists do leave the mutex free and
    the world running. *)
Example collect_guards_at_rest :
  collect idle_phases GC_REASON_MANUAL busy_world = Return 0 busy_world
  /\ collect idle_phases GC_REASON_HEAP quiet_world = Return 0 quiet_world.
Proof. split; reflexivity. Qed.

(** C6 on the code.  A generation below 0 or from 3 on makes [gc.collect]
    fail with ValueError (result -1, exception set) without calling
    [collect]: nothing but the pending exception changes.  With a valid
    generation, called at rest (no collection running, the thread free to
    stop, the mutex free) and with no callback registered, the call runs
    no collection: [collect] stores 1 into [collecting], its own
    compare-exchange of [collecting] from 0 to 1 then fails, and it
    returns 0 with the statistics as they were, the mutex held and the
    threads stopped. *)
Theorem C6_collect_at_rest_returns_zero (P : cycle_phases) (generation : Z)
    (w : World) :
  (generation < 0 \/ 3 <= generation ->
     gc_collect_impl P generation w
     = Return (-1) (with_curexc (Some "ValueError: invalid generation") w))
  /\ (0 <= generation < 3 ->
      collecting (gcstate w) = 0 -> cant_stop_wont_stop w = 0 ->
      stoptheworld_mutex w = false -> no_callbacks (gcstate w) ->
      exists w',
        gc_collect_impl P generation w = Return 0 w'
        /\ stats (gcstate w') = stats (gcstate w)
        /\ collecting (gcstate w') = 1
        /\ stoptheworld_mutex w' = true /\ stop_the_world w' = true
        /\ log w' = log w ++ [EvStopTheWorld]
        /\ ~ completed_collection w (gc_collect_impl P generation w)).
Proof.
  unfold gc_collect_impl. split.
  - intros Hbad.
    destruct (Z.ltb_spec generation 0); [reflexivity|].
    destruct (Z.leb_spec 3 generation); [reflexivity|]. lia.
  - intros Hok Hc Hs Hm Hn.
    destruct (Z.ltb_spec generation 0); [lia|].
    destruct (Z.leb_spec 3 generation); [lia|]. simpl.
    destruct (collect_returns_holding_mutex P GC_REASON_MANUAL w Hc Hs Hm eq_refl Hn)
      as (w' & E & Hm' & Hw' & Hc' & Hst & Hlog).
    exists w'. rewrite E. repeat split; try assumption.
    intros (r & w'' & E' & Hcount). inversion E'; subst w''.
    rewrite Hst in Hcount. symmetry in Hcount.
    exact (ssize_succ_neq _ Hcount).
Qed.

Lemma C6_collect_at_rest_returns_zero_witness :
  gc_collect_impl idle_phases 3 quiet_world
  = Return (-1) (with_curexc (Some "ValueError: invalid generation") quiet_world)
  /\ exists w',
       gc_collect_impl idle_phases 2 quiet_world = Return 0 w'
       /\ stats (gcstate w') = stats (gcstate quiet_world)
       /\ collecting (gcstate w') = 1
       /\ stoptheworld_mutex w' = true /\ stop_the_world w' = true
       /\ log w' = log quiet_world ++ [EvStopTheWorld]
       /\ ~ completed_collection quiet_world
            (gc_collect_impl idle_phases 2 quiet_world).
Proof.
  split.
  - apply (proj1 (C6_collect_at_rest_returns_zero idle_phases 3 quiet_world)).
    right. lia.
  - apply (proj2 (C6_collect_at_rest_returns_zero idle_phases 2 quiet_world));
      [lia|reflexivity|reflexivity|reflexivity|right; reflexivity].
Defined.

End DriverTheorems.

(** ** Header words *)
Section HeaderTheorems.
Import GC.
Context {L : Layout}.
Hypothesis LOK : layout_ok.

Lemma head_at_insert_eq (h : gmap Z PyGC_Head) (g : Z) (x : PyGC_Head) :
  head_at (<[g := x]> h) g = x.
Proof. unfold head_at. rewrite lookup_insert_eq. reflexivity. Qed.

Lemma head_at_insert_ne (h : gmap Z PyGC_Head) (g g' : Z) (x : PyGC_Head) :
  g <> g' -> head_at (<[g := x]> h) g' = head_at h g'.
Proof. intros Hne. unfold head_at. rewrite lookup_insert_ne by exact Hne. reflexivity. Qed.

Lemma prev_mask_bits (n : Z) :
  0 <= n ->
  Z.testbit _PyGC_PREV_MASK n = (_PyGC_PREV_SHIFT <=? n) && (n <? 64).
Proof.
  intros Hn. pose proof (prev_shift_range LOK) as HS.
  unfold _PyGC_PREV_MASK, wrap64.
  rewrite Z.testbit_mod_pow2 by lia. rewrite Z.shiftl_spec by lia.
  destruct (Z.leb_spec _PyGC_PREV_SHIFT n).
  - rewrite Z.bits_m1 by lia. rewrite andb_true_r. reflexivity.
  - rewrite Z.testbit_neg_r by lia. rewrite andb_false_r. reflexivity.
Qed.

Lemma land_pow2_testbit (x b : Z) :
  0 <= b -> (Z.land x (2 ^ b) =? 0) = negb (Z.testbit x b).
Proof.
  intros Hb. destruct (Z.testbit x b) eqn:E; simpl.
  - apply Z.eqb_neq. intros H0.
    assert (Ht : Z.testbit (Z.land x (2 ^ b)) b = true).
    { rewrite Z.land_spec, E, Z.pow2_bits_true by lia. reflexivity. }
    rewrite H0, Z.bits_0 in Ht. discriminate.
  - apply Z.eqb_eq. apply Z.bits_inj'. intros n Hn.
    rewrite Z.land_spec, Z.bits_0, Z.pow2_bits_eqb by lia.
    destruct (Z.eqb_spec b n); [subst; rewrite E; reflexivity | apply andb_false_r].
Qed.

(** The bits that the second body of [gc_list_clear] keeps. *)
Lemma kept_bits (x n : Z) :
  0 <= n ->
  Z.testbit (Z.land x (Z.lor GC_TRACKED_MASK GC_FINALIZED_MASK)) n
  = Z.testbit x n && ((TRACKED_BIT =? n) || (FINALIZED_BIT =? n)).
Proof.
  intros Hn. pose proof (tracked_range LOK). pose proof (finalized_range LOK).
  unfold GC_TRACKED_MASK, GC_FINALIZED_MASK, _PyGC_PREV_MASK_TRACKED,
    _PyGC_PREV_MASK_FINALIZED.
  rewrite Z.land_spec, Z.lor_spec, !Z.pow2_bits_eqb by lia. reflexivity.
Qed.

Lemma kept_range (x : Z) :
  0 <= Z.land x (Z.lor GC_TRACKED_MASK GC_FINALIZED_MASK) < 2 ^ _PyGC_PREV_SHIFT.
Proof.
  pose proof (prev_shift_range LOK) as HS.
  pose proof (pow_bit_range _ _ (tracked_range LOK)) as HT.
  pose proof (pow_bit_range _ _ (finalized_range LOK)) as HF.
  assert (H0 : 0 <= Z.land x (Z.lor GC_TRACKED_MASK GC_FINALIZED_MASK)).
  { apply Z.land_nonneg. right. apply Z.lor_nonneg.
    unfold GC_TRACKED_MASK, GC_FINALIZED_MASK, _PyGC_PREV_MASK_TRACKED,
      _PyGC_PREV_MASK_FINALIZED. lia. }
  split; [exact H0|].
  apply (bounded_of_bits 64 _PyGC_PREV_SHIFT); [lia | exact H0 |].
  intros n Hn. rewrite kept_bits by lia.
  pose proof (tracked_range LOK). pose proof (finalized_range LOK).
  destruct (Z.eqb_spec TRACKED_BIT n); [lia|].
  destruct (Z.eqb_spec FINALIZED_BIT n); [lia|]. apply andb_false_r.
Qed.

Lemma kept_tracked (x : Z) :
  (Z.land (Z.land x (Z.lor GC_TRACKED_MASK GC_FINALIZED_MASK)) _PyGC_PREV_MASK_TRACKED =? 0)
  = (Z.land x _PyGC_PREV_MASK_TRACKED =? 0).
Proof.
  pose proof (tracked_range LOK). unfold _PyGC_PREV_MASK_TRACKED.
  rewrite !land_pow2_testbit, kept_bits by lia.
  rewrite Z.eqb_refl. simpl. rewrite andb_true_r. reflexivity.
Qed.

Lemma kept_finalized (x : Z) :
  (Z.land (Z.land x (Z.lor GC_TRACKED_MASK GC_FINALIZED_MASK)) _PyGC_PREV_MASK_FINALIZED =? 0)
  = (Z.land x _PyGC_PREV_MASK_FINALIZED =? 0).
Proof.
  pose proof (finalized_range LOK). unfold _PyGC_PREV_MASK_FINALIZED.
  rewrite !land_pow2_testbit, kept_bits by lia.
  rewrite Z.eqb_refl, orb_true_r, andb_true_r. reflexivity.
Qed.

Lemma kept_unreachable (x : Z) :
  Z.land (Z.land x (Z.lor GC_TRACKED_MASK GC_FINALIZED_MASK)) _PyGC_PREV_MASK_UNREACHABLE = 0.
Proof.
  pose proof (unreachable_range LOK). unfold _PyGC_PREV_MASK_UNREACHABLE.
  apply Z.eqb_eq. rewrite land_pow2_testbit, kept_bits by lia.
  pose proof (unreachable_tracked LOK). pose proof (finalized_unreachable LOK).
  destruct (Z.eqb_spec TRACKED_BIT UNREACHABLE_BIT); [congruence|].
  destruct (Z.eqb_spec FINALIZED_BIT UNREACHABLE_BIT); [congruence|].
  simpl. rewrite andb_false_r. reflexivity.
Qed.

Lemma low_word_refs (x : Z) :
  0 <= x < 2 ^ _PyGC_PREV_SHIFT ->
  Z.shiftr (signed64 x) _PyGC_PREV_SHIFT = 0 /\ Z.land x _PyGC_PREV_MASK = 0.
Proof.
  intros Hx. pose proof (prev_shift_range LOK) as HS.
  assert (Hlt : 2 ^ _PyGC_PREV_SHIFT < 2 ^ 63) by (apply Z.pow_lt_mono_r; lia).
  split.
  - unfold signed64. destruct (Z.ltb_spec x (2 ^ 63)); [|lia].
    rewrite Z.shiftr_div_pow2 by lia. apply Z.div_small. lia.
  - apply Z.bits_inj'. intros n Hn.
    rewrite Z.land_spec, Z.bits_0, prev_mask_bits by lia.
    destruct (Z.leb_spec _PyGC_PREV_SHIFT n); simpl; [|apply andb_false_r].
    rewrite (low_bits_bound _PyGC_PREV_SHIFT) by lia. reflexivity.
Qed.

End HeaderTheorems.

(** ** [gc_list_clear] *)
Section ListClearTheorems.
Import GC.
Context {L : Layout}.
Hypothesis LOK : layout_ok.

Lemma chain_from_frame (h h' : gmap Z PyGC_Head) (l : list Z) :
  forall gc e,
  (forall y, y ∈ l -> GC_NEXT h' y = GC_NEXT h y) ->
  chain_from h gc l e -> chain_from h' gc l e.
Proof.
  induction l as [|x l IH]; intros gc e Hsame Hc; simpl in *; [exact Hc|].
  destruct Hc as [-> Hc]. split; [reflexivity|].
  rewrite Hsame by (left). apply IH; [|exact Hc].
  intros y Hy. apply Hsame. right. exact Hy.
Qed.

Lemma gc_list_clear_loop_spec (keep : Z -> Z) (head : Z) (l : list Z) :
  forall (gc : Z) (h : gmap Z PyGC_Head),
  chain_from h gc l head -> NoDup (head :: l) ->
  exists h',
    gc_list_clear_loop (S (length l)) keep head gc h = Done h'
    /\ head_at h' head = {| _gc_next := head; _gc_prev := head |}
    /\ (forall g, g ∈ l ->
          head_at h' g = {| _gc_next := 0; _gc_prev := keep (_gc_prev (head_at h g)) |})
    /\ (forall a, a ∉ head :: l -> h' !! a = h !! a).
Proof.
  induction l as [|x l IH]; intros gc h Hc Hnd.
  - simpl in Hc. subst gc. simpl. rewrite Z.eqb_refl.
    eexists. split; [reflexivity|]. split; [|split].
    + unfold gc_list_init. apply head_at_insert_eq.
    + intros g Hg. inversion Hg.
    + intros a Ha. unfold gc_list_init. apply lookup_insert_ne.
      intros ->. apply Ha. left.
  - simpl in Hc. destruct Hc as [-> Hc].
    apply NoDup_cons in Hnd as [Hhead Hnd].
    apply NoDup_cons in Hnd as [Hx Hnd].
    assert (Hxh : x <> head) by (intros ->; apply Hhead; left).
    assert (Hnd' : NoDup (head :: l)).
    { apply NoDup_cons. split; [|exact Hnd]. intros Hin. apply Hhead. right. exact Hin. }
    set (h1 := <[x := {| _gc_next := 0; _gc_prev := keep (_gc_prev (head_at h x)) |}]> h).
    assert (Hc1 : chain_from h1 (GC_NEXT h x) l head).
    { apply (chain_from_frame h); [|exact Hc].
      intros y Hy. unfold GC_NEXT, h1. rewrite head_at_insert_ne; [reflexivity|].
      intros ->. contradiction. }
    destruct (IH (GC_NEXT h x) h1 Hc1 Hnd') as (h' & Hrun & Hhd & Hnodes & Hrest).
    exists h'. split; [|split; [|split]].
    + change (gc_list_clear_loop (S (length (x :: l))) keep head x h)
        with (if x =? head then Done (gc_list_init head h)
              else gc_list_clear_loop (S (length l)) keep head (GC_NEXT h x) h1).
      destruct (Z.eqb_spec x head); [contradiction | exact Hrun].
    + exact Hhd.
    + intros g Hg. apply elem_of_cons in Hg as [->|Hg].
      * unfold head_at at 1. rewrite Hrest.
        -- unfold h1. rewrite lookup_insert_eq. reflexivity.
        -- intros Hin. apply elem_of_cons in Hin as [?|?]; contradiction.
      * rewrite (Hnodes g Hg). unfold h1. rewrite head_at_insert_ne; [reflexivity|].
        intros ->. contradiction.
    + intros a Ha. rewrite Hrest.
      * unfold h1. apply lookup_insert_ne. intros ->. apply Ha. right. left.
      * intros Hin. apply Ha. apply elem_of_cons in Hin as [->|Hin]; [left|].
        right. right. exact Hin.
Qed.

(** [gc_list_clear], the body that stands last in the file, returns on
    every well-formed list, leaves the list empty, and on each node that
    was on it: [_gc_next] is 0 and [_gc_prev] keeps its TRACKED and
    FINALIZED bits and nothing else -- UNREACHABLE is clear and the
    [gc_refs] counter, alias back pointer, is zero.  Headers off the list
    are untouched.  This is how [collect] lets go of [young] and of
    [finalizers]. *)
Theorem gc_list_clear_spec (h : gmap Z PyGC_Head) (head : Z) (l : list Z) :
  is_gc_list h head l ->
  exists h',
    gc_list_clear (S (length l)) head h = Done h'
    /\ gc_list_is_empty h' head = true
    /\ (forall g, g ∈ l ->
          _gc_next (head_at h' g) = 0
          /\ _gc_prev (head_at h' g)
             = Z.land (_gc_prev (head_at h g)) (Z.lor GC_TRACKED_MASK GC_FINALIZED_MASK)
          /\ gc_is_unreachable h' g = false
          /\ gc_get_refs h' g = 0
          /\ GC_PREV h' g = 0
          /\ _PyGC_TRACKED h' g = _PyGC_TRACKED h g
          /\ _PyGCHead_FINALIZED h' g = _PyGCHead_FINALIZED h g)
    /\ (forall a, a ∉ head :: l -> h' !! a = h !! a).
Proof.
  intros [Hc Hnd].
  destruct (gc_list_clear_loop_spec
              (fun p => Z.land p (Z.lor GC_TRACKED_MASK GC_FINALIZED_MASK))
              head l (GC_NEXT h head) h Hc Hnd) as (h' & Hrun & Hhd & Hnodes & Hrest).
  exists h'. split; [exact Hrun|]. split; [|split; [|exact Hrest]].
  - unfold gc_list_is_empty. rewrite Hhd. simpl. apply Z.eqb_refl.
  - intros g Hg. pose proof (Hnodes g Hg) as Hg'.
    destruct (low_word_refs LOK _ (kept_range LOK (_gc_prev (head_at h g)))) as [Hr Hp].
    unfold gc_is_unreachable, gc_get_refs, GC_PREV, _PyGC_TRACKED, _PyGCHead_FINALIZED.
    rewrite Hg'. simpl.
    rewrite (kept_unreachable LOK), Hr, Hp, (kept_tracked LOK), (kept_finalized LOK).
    repeat split; reflexivity.
Qed.

(** The first body of [gc_list_clear] differs from the second on the low
    bits only: it keeps all of them, UNREACHABLE included. *)
Lemma gc_list_clear_first_spec (h : gmap Z PyGC_Head) (head : Z) (l : list Z) :
  is_gc_list h head l ->
  exists h',
    gc_list_clear_first (S (length l)) head h = Done h'
    /\ (forall g, g ∈ l ->
          _gc_next (head_at h' g) = 0
          /\ _gc_prev (head_at h' g) = Z.ldiff (_gc_prev (head_at h g)) _PyGC_PREV_MASK).
Proof.
  intros [Hc Hnd].
  destruct (gc_list_clear_loop_spec (fun p => Z.ldiff p _PyGC_PREV_MASK)
              head l (GC_NEXT h head) h Hc Hnd) as (h' & Hrun & Hhd & Hnodes & Hrest).
  exists h'. split; [exact Hrun|].
  intros g Hg. rewrite (Hnodes g Hg). split; reflexivity.
Qed.

End ListClearTheorems.

(** A list of two nodes at 4096 and 8192 under the head at 256: the first
    is tracked, finalized and still carries a back pointer, the second is
    tracked, flagged UNREACHABLE and carries a count of 5. *)
Lemma gc_list_clear_spec_witness :
  let h : gmap Z GC.PyGC_Head :=
    <[256 := {| GC._gc_next := 4096; GC._gc_prev := 8192 |}]>
    (<[4096 := {| GC._gc_next := 8192; GC._gc_prev := 256 + 5 |}]>
    (<[8192 := {| GC._gc_next := 256; GC._gc_prev := 5 * 8 + 6 |}]> ∅)) in
  exists h',
    @GC.gc_list_clear GC.example_layout 3 256 h = Done h'
    /\ GC.head_at h' 4096 = {| GC._gc_next := 0; GC._gc_prev := 5 |}
    /\ GC.head_at h' 8192 = {| GC._gc_next := 0; GC._gc_prev := 4 |}.
Proof.
  intros h.
  destruct (@gc_list_clear_spec GC.example_layout example_layout_ok h 256 [4096; 8192])
    as (h' & Hrun & _ & Hnodes & _).
  - split; [vm_compute; auto|].
    apply (bool_decide_unpack _). vm_compute. exact I.
  - exists h'. split; [exact Hrun|].
    assert (H1 : 4096 ∈ [4096; 8192]) by (apply (bool_decide_unpack _); vm_compute; exact I).
    assert (H2 : 8192 ∈ [4096; 8192]) by (apply (bool_decide_unpack _); vm_compute; exact I).
    pose proof (Hnodes 4096 H1) as (Hn1 & Hp1 & _).
    pose proof (Hnodes 8192 H2) as (Hn2 & Hp2 & _).
    split.
    + destruct (GC.head_at h' 4096) as [n p]; simpl in *. subst. reflexivity.
    + destruct (GC.head_at h' 8192) as [n p]; simpl in *. subst. reflexivity.
Defined.

(** ** [finalize_garbage] *)
Section FinalizerTheorems.
Import GC.
Context {L : Layout}.
Hypothesis LOK : layout_ok.
Variable objs : gmap Z PyObject.
Variable run_finalizer : Z -> gmap Z PyGC_Head -> gmap Z PyGC_Head.

Lemma AS_GC_FROM_GC (g : Z) : AS_GC (FROM_GC g) = g.
Proof. unfold AS_GC, FROM_GC. lia. Qed.

Lemma FROM_GC_AS_GC (op : Z) : FROM_GC (AS_GC op) = op.
Proof. unfold AS_GC, FROM_GC. lia. Qed.

Lemma set_finalized_eq (h : gmap Z PyGC_Head) (g : Z) :
  _PyGCHead_FINALIZED (_PyGCHead_SET_FINALIZED g h) g = true.
Proof.
  unfold _PyGCHead_FINALIZED, _PyGCHead_SET_FINALIZED, store_prev.
  rewrite head_at_insert_eq. simpl. rewrite land_lor_same.
  pose proof (pow_bit_range _ _ (finalized_range LOK)) as HF.
  unfold _PyGC_PREV_MASK_FINALIZED.
  destruct (Z.eqb_spec (2 ^ FINALIZED_BIT) 0); [lia | reflexivity].
Qed.

Lemma set_finalized_mono (h : gmap Z PyGC_Head) (g g' : Z) :
  _PyGCHead_FINALIZED h g' = true ->
  _PyGCHead_FINALIZED (_PyGCHead_SET_FINALIZED g h) g' = true.
Proof.
  intros Hf. destruct (Z.eq_dec g g') as [->|Hne]; [apply set_finalized_eq|].
  unfold _PyGCHead_FINALIZED, _PyGCHead_SET_FINALIZED, store_prev in *.
  rewrite head_at_insert_ne by exact Hne. exact Hf.
Qed.

Lemma set_finalized_next (h : gmap Z PyGC_Head) (g g' : Z) :
  GC_NEXT (_PyGCHead_SET_FINALIZED g h) g' = GC_NEXT h g'.
Proof.
  unfold GC_NEXT, _PyGCHead_SET_FINALIZED, store_prev.
  destruct (Z.eq_dec g g') as [->|Hne].
  - rewrite head_at_insert_eq. reflexivity.
  - rewrite head_at_insert_ne by exact Hne. reflexivity.
Qed.

Hypothesis finalizers_keep : forall op, keeps_finalized objs (run_finalizer op).

Lemma finalize_one_skips (gc : Z) (s : fin_state) :
  _PyGCHead_FINALIZED (fin_heads s) gc = true ->
  finalize_one objs run_finalizer gc s = s.
Proof. intros Hf. unfold finalize_one. rewrite Hf. reflexivity. Qed.

Lemma finalize_one_once (gc : Z) (s : fin_state) :
  finalized_once objs s -> finalized_once objs (finalize_one objs run_finalizer gc s).
Proof.
  intros [Hnd Hall]. unfold finalize_one.
  destruct (_PyGCHead_FINALIZED (fin_heads s) gc) eqn:Hfin; simpl; [split; assumption|].
  destruct (tp_finalize (object_at objs (FROM_GC gc))) eqn:Htp; simpl; [|split; assumption].
  split; simpl.
  - rewrite map_app. simpl. apply NoDup_app. split; [exact Hnd|]. split.
    + intros op Hin Hop. apply list_elem_of_singleton in Hop. subst op.
      apply list_elem_of_fmap in Hin as [[op b] [Hop Hin]]. simpl in Hop. subst op.
      rewrite Forall_forall in Hall. destruct (Hall _ Hin) as (_ & _ & Hset).
      simpl in Hset. rewrite AS_GC_FROM_GC in Hset. congruence.
    + apply NoDup_singleton.
  - apply Forall_app. split.
    + eapply Forall_impl; [exact Hall|]. intros [op b] (Hb & Ht & Hset). simpl in *.
      split; [exact Hb|]. split; [exact Ht|].
      apply finalizers_keep; [rewrite FROM_GC_AS_GC; exact Ht|].
      apply set_finalized_mono. exact Hset.
    + constructor; [|constructor]. simpl. rewrite AS_GC_FROM_GC.
      split; [apply set_finalized_eq|]. split; [exact Htp|].
      apply finalizers_keep; [exact Htp | apply set_finalized_eq].
Qed.

Lemma finalize_garbage_loop_once (fuel : nat) :
  forall (collectable gc : Z) (s s' : fin_state),
  finalized_once objs s ->
  finalize_garbage_loop objs run_finalizer fuel collectable gc s = Done s' ->
  finalized_once objs s'.
Proof.
  induction fuel as [|fuel IH]; intros collectable gc s s' Hs Hrun; simpl in Hrun.
  - discriminate.
  - destruct (gc =? collectable).
    + inversion Hrun; subst. exact Hs.
    + eapply IH; [|exact Hrun]. apply finalize_one_once. exact Hs.
Qed.

Lemma run_activities_once (acts : list activity) :
  forall s s' : fin_state,
  Forall (activity_keeps_finalized objs) acts ->
  finalized_once objs s ->
  run_activities objs run_finalizer acts s = Done s' ->
  finalized_once objs s'.
Proof.
  induction acts as [|a acts IH]; intros s s' Hacts Hs Hrun; simpl in Hrun.
  - inversion Hrun; subst. exact Hs.
  - inversion Hacts as [|? ? Ha Hacts']; subst.
    destruct a as [fuel collectable | f].
    + destruct (finalize_garbage objs run_finalizer fuel collectable s) as [s1| | |] eqn:E;
        simpl in Hrun; try discriminate.
      eapply IH; [exact Hacts' | | exact Hrun].
      eapply finalize_garbage_loop_once; [exact Hs | exact E].
    + eapply IH; [exact Hacts' | | exact Hrun].
      destruct Hs as [Hnd Hall]. split; [exact Hnd|]. simpl.
      eapply Forall_impl; [exact Hall|]. intros [op b] (Hb & Ht & Hset). simpl in *.
      split; [exact Hb|]. split; [exact Ht|].
      apply Ha; [rewrite FROM_GC_AS_GC; exact Ht | exact Hset].
Qed.

(** The walk of [finalize_garbage] comes to its end when the finalizers
    leave the links of the list alone. *)
Lemma finalize_garbage_loop_returns (collectable : Z) (l : list Z) :
  (forall op h g, GC_NEXT (run_finalizer op h) g = GC_NEXT h g) ->
  forall (gc : Z) (s : fin_state),
  chain_from (fin_heads s) gc l collectable -> collectable ∉ l ->
  exists s', finalize_garbage_loop objs run_finalizer (S (length l)) collectable gc s
             = Done s'.
Proof.
  intros Hlinks. induction l as [|x l IH]; intros gc s Hc Hnot; simpl in Hc.
  - subst gc. simpl. rewrite Z.eqb_refl. eauto.
  - destruct Hc as [-> Hc].
    assert (Hxc : x <> collectable) by (intros ->; apply Hnot; left).
    change (finalize_garbage_loop objs run_finalizer (S (length (x :: l))) collectable x s)
      with (if x =? collectable then Done s
            else finalize_garbage_loop objs run_finalizer (S (length l)) collectable
                   (GC_NEXT (fin_heads (finalize_one objs run_finalizer x s)) x)
                   (finalize_one objs run_finalizer x s)).
    destruct (Z.eqb_spec x collectable); [contradiction|].
    assert (Hsame : forall g, GC_NEXT (fin_heads (finalize_one objs run_finalizer x s)) g
                              = GC_NEXT (fin_heads s) g).
    { intros g. unfold finalize_one.
      destruct (negb (_PyGCHead_FINALIZED (fin_heads s) x)
                && tp_finalize (object_at objs (FROM_GC x))); [|reflexivity].
      simpl. rewrite Hlinks. apply set_finalized_next. }
    apply IH.
    + rewrite Hsame. apply (chain_from_frame (fin_heads s)); [|exact Hc].
      intros y _. apply Hsame.
    + intros Hin. apply Hnot. right. exact Hin.
Qed.

(** C5: [finalize_garbage] calls an object's [tp_finalize] only when its
    FINALIZED bit is clear, and the finalizer is entered with the bit
    already set.  Consequently, over any sequence of runs of
    [finalize_garbage] and of other activity that does not clear the
    FINALIZED bit of an object with a finalizer -- the resurrection phase,
    later collections --, no object's finalizer is called twice. *)
Theorem C5_finalizer_called_once (acts : list activity) (h0 : gmap Z PyGC_Head)
    (s : fin_state) :
  Forall (activity_keeps_finalized objs) acts ->
  run_activities objs run_finalizer acts {| fin_heads := h0; fin_calls := [] |} = Done s ->
  NoDup (map fst (fin_calls s))
  /\ Forall (fun c => snd c = true) (fin_calls s)
  /\ (forall gc s0, _PyGCHead_FINALIZED (fin_heads s0) gc = true ->
        finalize_one objs run_finalizer gc s0 = s0).
Proof.
  intros Hacts Hrun.
  assert (H0 : finalized_once objs {| fin_heads := h0; fin_calls := [] |}).
  { split; simpl; constructor. }
  destruct (run_activities_once acts _ s Hacts H0 Hrun) as [Hnd Hall].
  split; [exact Hnd|]. split.
  - eapply Forall_impl; [exact Hall|]. intros c (Hb & _). exact Hb.
  - intros gc s0. apply finalize_one_skips.
Qed.

End FinalizerTheorems.

(** The finalizer of the object runs in a first collection; the object is
    resurrected, stays on a list, and a second collection walks over it
    again. *)
Lemma C5_finalizer_called_once_witness :
  let acts := [GC.RunFinalizers 2 256; GC.Elsewhere (fun h => h);
               GC.RunFinalizers 2 256] in
  exists s,
    @GC.run_activities GC.example_layout GC.one_finalizable (fun _ h => h) acts
      {| GC.fin_heads := GC.one_on_list; GC.fin_calls := [] |} = Done s
    /\ GC.fin_calls s = [(4112, true)]
    /\ NoDup (map fst (GC.fin_calls s)).
Proof.
  intros acts. eexists. split; [vm_compute; reflexivity|]. split; [reflexivity|].
  refine (proj1 (@C5_finalizer_called_once GC.example_layout example_layout_ok
                   GC.one_finalizable (fun _ h => h) _ acts GC.one_on_list _ _ _)).
  - intros op h g _ Hf. exact Hf.
  - repeat constructor. intros h g _ Hf. exact Hf.
  - vm_compute. reflexivity.
Defined.

(** ** The mark phase *)

Section Words.
Import GC.
Context {L : Layout}.
Hypothesis LOK : layout_ok.

Local Abbreviation SH := _PyGC_PREV_SHIFT.


Lemma SH64 : 0 < SH < 64.
Proof. pose proof (prev_shift_range LOK). lia. Qed.

Lemma pow_SH_pos : 0 < 2 ^ SH.
Proof. apply Z.pow_pos_nonneg; pose proof SH64; lia. Qed.

Lemma pow_63_split : 2 ^ 63 = 2 ^ (63 - SH) * 2 ^ SH.
Proof. rewrite <- Z.pow_add_r by (pose proof SH64; lia). f_equal. lia. Qed.

Lemma pow_64_split : 2 ^ 64 = 2 ^ (64 - SH) * 2 ^ SH.
Proof. rewrite <- Z.pow_add_r by (pose proof SH64; lia). f_equal. lia. Qed.

(** Every valid word is a packed pair. *)
Lemma word_decompose (x : Z) :
  valid_word x ->
  x = pack 64 SH (word_refs x) (x mod 2 ^ SH)
  /\ - 2 ^ (63 - SH) <= word_refs x < 2 ^ (63 - SH)
  /\ 0 <= x mod 2 ^ SH < 2 ^ SH.
Proof.
  intros Hx. pose proof (pack_decompose 64 SH SH64 x Hx) as Hd.
  replace (64 - 1 - SH) with (63 - SH) in Hd by lia. exact Hd.
Qed.

Lemma pack_valid (c f : Z) : valid_word (pack 64 SH c f).
Proof. apply (pack_range 64 SH). pose proof SH64; lia. Qed.

Lemma pack_refs (c f : Z) :
  - 2 ^ (63 - SH) <= c < 2 ^ (63 - SH) -> 0 <= f < 2 ^ SH ->
  word_refs (pack 64 SH c f) = c.
Proof.
  intros Hc Hf. unfold word_refs. rewrite signed64_signedW.
  apply (pack_count 64 SH SH64); [|exact Hf].
  replace (64 - 1 - SH) with (63 - SH) by lia. exact Hc.
Qed.

Lemma pack_flag (b c f : Z) :
  0 <= b < SH -> 0 <= f < 2 ^ SH ->
  Z.testbit (pack 64 SH c f) b = Z.testbit f b.
Proof.
  intros Hb Hf. rewrite (pack_unfold 64 SH SH64) by exact Hf.
  rewrite (testbit_hi_lo 64 SH SH64) by lia.
  destruct (Z.ltb_spec b SH); [reflexivity | lia].
Qed.

Lemma pack_high_bits (c f n : Z) :
  0 <= f < 2 ^ SH -> 64 <= n -> Z.testbit (pack 64 SH c f) n = false.
Proof.
  intros Hf Hn. pose proof (pack_valid c f) as [H0 H1].
  destruct (Z.eq_dec (pack 64 SH c f) 0) as [->|Hne]; [apply Z.bits_0|].
  apply Z.bits_above_log2; [lia|].
  apply Z.lt_le_trans with 64; [|lia]. apply Z.log2_lt_pow2; lia.
Qed.

Lemma pack_ldiff_mask (c f : Z) :
  0 <= f < 2 ^ SH -> Z.ldiff (pack 64 SH c f) _PyGC_PREV_MASK = f.
Proof.
  intros Hf. apply Z.bits_inj'. intros n Hn.
  rewrite Z.ldiff_spec, (prev_mask_bits LOK) by lia.
  destruct (Z.leb_spec SH n); simpl.
  - rewrite (low_bits_bound SH f n) by lia.
    destruct (Z.ltb_spec n 64); simpl; [apply andb_false_r|].
    rewrite pack_high_bits by lia. reflexivity.
  - rewrite andb_true_r. apply pack_flag; lia.
Qed.

Lemma pack_land_mask (c f : Z) :
  0 <= f < 2 ^ SH -> Z.land (pack 64 SH c f) _PyGC_PREV_MASK = pack 64 SH c 0.
Proof.
  intros Hf. pose proof pow_SH_pos as HpS. apply Z.bits_inj'. intros n Hn.
  rewrite Z.land_spec, (prev_mask_bits LOK) by lia.
  rewrite !(pack_unfold 64 SH SH64) by lia.
  rewrite !(testbit_hi_lo 64 SH SH64) by lia.
  destruct (Z.ltb_spec n SH); destruct (Z.leb_spec SH n); try lia; simpl.
  - rewrite Z.bits_0. apply andb_false_r.
  - destruct (Z.ltb_spec n 64); simpl; [apply andb_true_r|].
    rewrite andb_false_r. symmetry.
    assert (Hc : 0 <= c mod 2 ^ (64 - SH) < 2 ^ (64 - SH)).
    { apply Z.mod_pos_bound. apply Z.pow_pos_nonneg; pose proof SH64; lia. }
    apply (low_bits_bound (64 - SH)); lia.
Qed.

Lemma address_pack (p f : Z) :
  aligned_address p -> 0 <= f < 2 ^ SH ->
  pack 64 SH (p / 2 ^ SH) f = p + f
  /\ 0 < p / 2 ^ SH < 2 ^ (63 - SH).
Proof.
  intros [Hp Hal] Hf. pose proof pow_SH_pos as HpS. pose proof SH64 as HS.
  pose proof pow_63_split as H63.
  assert (Hpe : p = p / 2 ^ SH * 2 ^ SH).
  { assert (Hne : 2 ^ SH <> 0) by lia. pose proof (Z.div_mod p (2 ^ SH) Hne). lia. }
  assert (Hq : 0 < p / 2 ^ SH < 2 ^ (63 - SH)).
  { split.
    - apply Z.div_str_pos. split; [lia|]. 
      destruct (Z_lt_le_dec p (2 ^ SH)); [|lia].
      rewrite Z.mod_small in Hal by lia. lia.
    - apply Z.div_lt_upper_bound; [lia|]. lia. }
  split; [|exact Hq].
  unfold pack. rewrite <- Hpe. apply Z.mod_small.
  assert (2 ^ 63 < 2 ^ 64) by (apply Z.pow_lt_mono_r; lia).
  assert (2 ^ SH <= 2 ^ 63) by (apply Z.pow_le_mono_r; lia).
  split; [lia|].
  (* p + f < 2^64: p <= 2^63 - 2^SH since aligned *)
  nia.
Qed.

Lemma lor_address (p f : Z) :
  aligned_address p -> 0 <= f < 2 ^ SH ->
  Z.lor f p = pack 64 SH (p / 2 ^ SH) f.
Proof.
  intros Hp Hf. destruct (address_pack p 0 Hp ltac:(pose proof pow_SH_pos; lia)) as [Hp0 Hq].
  rewrite Z.add_0_r in Hp0. rewrite <- Hp0 at 1.
  rewrite Z.lor_comm. rewrite (pack_lor 64 SH SH64) by (pose proof pow_SH_pos; lia).
  rewrite Z.lor_0_l. reflexivity.
Qed.

Lemma shifted_refs (r : Z) :
  wrap64 (Z.shiftl (wrap64 r) SH) = pack 64 SH r 0.
Proof.
  pose proof SH64 as HS. pose proof pow_SH_pos as HpS.
  unfold wrap64, pack. rewrite Z.shiftl_mul_pow2 by lia. rewrite Z.add_0_r.
  rewrite Zmult_mod_idemp_l. reflexivity.
Qed.

(** The words the header operations write. *)
Lemma set_prev_word (x p : Z) :
  valid_word x -> aligned_address p ->
  Z.lor (Z.ldiff x _PyGC_PREV_MASK) p = pack 64 SH (p / 2 ^ SH) (x mod 2 ^ SH).
Proof.
  intros Hx Hp. destruct (word_decompose x Hx) as (Hd & Hc & Hf).
  rewrite Hd at 1. rewrite pack_ldiff_mask by exact Hf.
  apply lor_address; assumption.
Qed.

Lemma set_refs_word (x r : Z) :
  valid_word x ->
  Z.lor (Z.ldiff x _PyGC_PREV_MASK) (wrap64 (Z.shiftl (wrap64 r) SH))
  = pack 64 SH r (x mod 2 ^ SH).
Proof.
  intros Hx. destruct (word_decompose x Hx) as (Hd & Hc & Hf).
  rewrite Hd at 1. rewrite pack_ldiff_mask by exact Hf.
  rewrite shifted_refs, Z.lor_comm.
  rewrite (pack_lor 64 SH SH64) by (pose proof pow_SH_pos; lia).
  rewrite Z.lor_0_l. reflexivity.
Qed.

Lemma add_refs_word (x r : Z) :
  valid_word x ->
  wrap64 (x + Z.shiftl r SH) = pack 64 SH (word_refs x + r) (x mod 2 ^ SH).
Proof.
  intros Hx. destruct (word_decompose x Hx) as (Hd & Hc & Hf).
  rewrite Hd at 1. unfold wrap64. rewrite Z.shiftl_mul_pow2 by (pose proof SH64; lia).
  apply pack_add.
Qed.

Lemma decref_word (x : Z) :
  valid_word x ->
  wrap64 (x - Z.shiftl 1 SH) = pack 64 SH (word_refs x - 1) (x mod 2 ^ SH).
Proof.
  intros Hx. replace (x - Z.shiftl 1 SH) with (x + Z.shiftl (-1) SH).
  - rewrite add_refs_word by exact Hx. f_equal.
  - rewrite !Z.shiftl_mul_pow2 by (pose proof SH64; lia). ring.
Qed.

Lemma mod_pack (c f : Z) : 0 <= f < 2 ^ SH -> pack 64 SH c f mod 2 ^ SH = f.
Proof. apply (pack_low 64 SH SH64). Qed.

Lemma flag_mod (x b : Z) : 0 <= b < SH -> Z.testbit (x mod 2 ^ SH) b = Z.testbit x b.
Proof. intros Hb. apply Z.mod_pow2_bits_low. lia. Qed.

Lemma mod_range (x : Z) : 0 <= x mod 2 ^ SH < 2 ^ SH.
Proof. apply Z.mod_pos_bound. apply pow_SH_pos. Qed.

End Words.

Section Stores.
Import GC.

Lemma next_store_next (h : gmap Z PyGC_Head) (g x a : Z) :
  _gc_next (head_at (store_next g x h) a)
  = if decide (a = g) then x else _gc_next (head_at h a).
Proof.
  unfold store_next. case_decide as E.
  - subst. rewrite head_at_insert_eq. reflexivity.
  - rewrite head_at_insert_ne by congruence. reflexivity.
Qed.

Lemma prev_store_next (h : gmap Z PyGC_Head) (g x a : Z) :
  _gc_prev (head_at (store_next g x h) a) = _gc_prev (head_at h a).
Proof.
  unfold store_next. destruct (decide (a = g)) as [->|E].
  - rewrite head_at_insert_eq. reflexivity.
  - rewrite head_at_insert_ne by congruence. reflexivity.
Qed.

Lemma next_store_prev (h : gmap Z PyGC_Head) (g x a : Z) :
  _gc_next (head_at (store_prev g x h) a) = _gc_next (head_at h a).
Proof.
  unfold store_prev. destruct (decide (a = g)) as [->|E].
  - rewrite head_at_insert_eq. reflexivity.
  - rewrite head_at_insert_ne by congruence. reflexivity.
Qed.

Lemma prev_store_prev (h : gmap Z PyGC_Head) (g x a : Z) :
  _gc_prev (head_at (store_prev g x h) a)
  = if decide (a = g) then x else _gc_prev (head_at h a).
Proof.
  unfold store_prev. case_decide as E.
  - subst. rewrite head_at_insert_eq. reflexivity.
  - rewrite head_at_insert_ne by congruence. reflexivity.
Qed.

End Stores.

Section Lists.
Import GC.
Context {L : Layout}.


Lemma links_app (h : gmap Z PyGC_Head) (l1 l2 : list Z) (e : Z) :
  links h (l1 ++ l2) e <-> links h l1 (hd e l2) /\ links h l2 e.
Proof.
  induction l1 as [|x l1 IH]; simpl; [naive_solver|].
  rewrite IH. destruct l1; simpl; naive_solver.
Qed.

Lemma links_frame (h h' : gmap Z PyGC_Head) (l : list Z) (e : Z) :
  (forall x, x ∈ l -> _gc_next (head_at h' x) = _gc_next (head_at h x)) ->
  links h l e -> links h' l e.
Proof.
  induction l as [|x l IH]; simpl; [auto|]. intros Hs [Hx Hl]. split.
  - rewrite Hs by left. exact Hx.
  - apply IH; [|exact Hl]. intros y Hy. apply Hs. right. exact Hy.
Qed.

Lemma last_default_irrelevant (l : list Z) (a b : Z) :
  l <> [] -> List.last l a = List.last l b.
Proof.
  induction l as [|x l IH]; [congruence|]. intros _.
  destruct l as [|y l]; [reflexivity|]. apply IH. discriminate.
Qed.

Lemma last_cons (x : Z) (l : list Z) (a : Z) : List.last (x :: l) a = List.last l x.
Proof.
  destruct l as [|y l]; [reflexivity|].
  change (List.last (x :: y :: l) a) with (List.last (y :: l) a).
  apply last_default_irrelevant. discriminate.
Qed.

Lemma plinks_app (h : gmap Z PyGC_Head) (p : Z) (l1 l2 : list Z) :
  plinks h p (l1 ++ l2) <-> plinks h p l1 /\ plinks h (List.last l1 p) l2.
Proof.
  revert p. induction l1 as [|x l1 IH]; intros p.
  - simpl. split; [auto | intros [_ ?]; assumption].
  - rewrite last_cons. simpl. rewrite IH. split.
    + intros (? & ? & ?). auto.
    + intros ((? & ?) & ?). auto.
Qed.

Lemma plinks_frame (h h' : gmap Z PyGC_Head) (p : Z) (l : list Z) :
  (forall x, x ∈ l -> GC_PREV h' x = GC_PREV h x) ->
  plinks h p l -> plinks h' p l.
Proof.
  revert p. induction l as [|x l IH]; intros p; simpl; [auto|]. intros Hs [Hx Hl]. split.
  - rewrite Hs by left. exact Hx.
  - apply IH; [|exact Hl]. intros y Hy. apply Hs. right. exact Hy.
Qed.

Lemma last_nonempty_in (l : list Z) (a : Z) : l <> [] -> List.last l a ∈ l.
Proof.
  induction l as [|x l IH]; [congruence|]. intros _.
  destruct l as [|y l]; [left|]. right. apply IH. discriminate.
Qed.

Lemma last_cons_in (l : list Z) (a : Z) : List.last l a ∈ a :: l.
Proof.
  destruct l as [|x l]; [left|]. right. apply last_nonempty_in. discriminate.
Qed.

Lemma last_app_single (l : list Z) (x a : Z) : List.last (l ++ [x]) a = x.
Proof. apply last_last. Qed.

Lemma last_app_r (l1 l2 : list Z) (a : Z) :
  l2 <> [] -> List.last (l1 ++ l2) a = List.last l2 a.
Proof.
  intros Hne. induction l1 as [|x l1 IH]; [reflexivity|].
  simpl app. rewrite last_cons. rewrite <- IH.
  destruct (l1 ++ l2) eqn:E.
  - apply app_eq_nil in E as [_ ?]. contradiction.
  - rewrite <- E. apply last_default_irrelevant. rewrite E. discriminate.
Qed.

(** Redirecting the last node of a chain. *)
Lemma links_set_last (h : gmap Z PyGC_Head) (l : list Z) :
  forall (a e x : Z),
  NoDup (a :: l) ->
  links h (a :: l) e ->
  links (store_next (List.last l a) x h) (a :: l) x.
Proof.
  induction l as [|y l IH]; intros a e x Hnd Hl.
  - simpl. split; [|exact I]. rewrite next_store_next. case_decide; congruence.
  - apply NoDup_cons in Hnd as [Ha Hnd]. destruct Hl as [Ha' Hl].
    rewrite last_cons. split.
    + rewrite next_store_next. case_decide as E; [|exact Ha'].
      exfalso. apply Ha. rewrite E. apply last_cons_in.
    + apply (IH y e x); assumption.
Qed.

End Lists.

Section Ops.
Import GC.
Context {L : Layout}.
Hypothesis LOK : layout_ok.

Local Abbreviation SH := _PyGC_PREV_SHIFT.
Local Abbreviation pw h a := (_gc_prev (head_at h a)).
Local Abbreviation nx h a := (_gc_next (head_at h a)).

Lemma unreachable_testbit (h : gmap Z PyGC_Head) (a : Z) :
  gc_is_unreachable h a = Z.testbit (pw h a) UNREACHABLE_BIT.
Proof.
  unfold gc_is_unreachable, _PyGC_PREV_MASK_UNREACHABLE.
  rewrite land_pow2_testbit by (pose proof (unreachable_range LOK); lia).
  apply negb_involutive.
Qed.

Lemma address_land_mask (p f : Z) :
  aligned_address p -> 0 <= f < 2 ^ SH ->
  Z.land (pack 64 SH (p / 2 ^ SH) f) _PyGC_PREV_MASK = p.
Proof.
  intros Hp Hf. rewrite (pack_land_mask LOK) by exact Hf.
  destruct (address_pack LOK p 0 Hp ltac:(pose proof (pow_SH_pos LOK); lia)) as [E _].
  rewrite E. lia.
Qed.

Lemma address_raw_mask (p : Z) :
  aligned_address p -> Z.land p _PyGC_PREV_MASK = p.
Proof.
  intros Hp. pose proof (pow_SH_pos LOK).
  destruct (address_pack LOK p 0 Hp ltac:(lia)) as [E _].
  rewrite Z.add_0_r in E. rewrite <- E at 1. apply address_land_mask; [exact Hp | lia].
Qed.

Lemma address_valid (p : Z) : aligned_address p -> valid_word p.
Proof. intros [Hp _]. unfold valid_word. lia. Qed.

Lemma address_low (p : Z) : aligned_address p -> p mod 2 ^ SH = 0.
Proof. intros [_ Hp]. exact Hp. Qed.

Lemma address_refs (p f : Z) :
  aligned_address p -> 0 <= f < 2 ^ SH ->
  0 < word_refs (pack 64 SH (p / 2 ^ SH) f).
Proof.
  intros Hp Hf. destruct (address_pack LOK p f Hp Hf) as [_ Hq].
  rewrite (pack_refs LOK) by lia. lia.
Qed.

(** A valid word whose pointer part is an address has a positive count. *)
Lemma pointer_word_refs (x p : Z) :
  valid_word x -> aligned_address p -> Z.land x _PyGC_PREV_MASK = p ->
  0 < word_refs x.
Proof.
  intros Hx Hp Hl. destruct (word_decompose LOK x Hx) as (Hd & Hc & Hf).
  rewrite Hd, (pack_land_mask LOK) in Hl by exact Hf.
  destruct (Z_lt_le_dec 0 (word_refs x)) as [|Hle]; [assumption|exfalso].
  pose proof (pow_SH_pos LOK) as HpS. pose proof (SH64 LOK) as HS.
  destruct Hp as [Hp Hal].
  rewrite (pack_unfold 64 SH HS) in Hl by lia.
  pose proof (pow_63_split LOK) as H63.
  assert (H64 : 2 ^ (64 - SH) = 2 * 2 ^ (63 - SH)).
  { rewrite <- Z.pow_succ_r by lia. f_equal. lia. }
  assert (H63p : 0 < 2 ^ (63 - SH)) by (apply Z.pow_pos_nonneg; lia).
  destruct (Z.eq_dec (word_refs x) 0) as [E0|Hne].
  - rewrite E0, Z.mod_0_l in Hl by lia. lia.
  - assert (Hm : word_refs x mod 2 ^ (64 - SH) = word_refs x + 2 ^ (64 - SH)).
    { rewrite <- (Z.mod_add _ 1) by lia. rewrite Z.mul_1_l. apply Z.mod_small. lia. }
    rewrite Hm in Hl. nia.
Qed.

End Ops.

(** Membership goals are solved from the membership facts alone. *)
Ltac keep_membership :=
  repeat match goal with
  | H : ?T |- _ =>
      lazymatch T with
      | context [GC.head_at] => clear H
      | context [List.last] => clear H
      | context [hd] => clear H
      | _ ∈ _ => fail
      | _ ∉ _ => fail
      | (forall x, x ∈ _ -> x ∉ _) => fail
      | @eq Z _ _ => fail
      | not (@eq Z _ _) => fail
      | _ => clear H
      end
  end.
Ltac ss := keep_membership; set_solver.

Section Steps.
Import GC.
Context {L : Layout}.
Hypothesis LOK : layout_ok.
Variable objs : gmap Z PyObject.
Variables young unreachable : Z.
Variable W : list Z.
Hypothesis PL : placed objs young unreachable W.

Local Abbreviation SH := _PyGC_PREV_SHIFT.
Local Abbreviation pw h a := (_gc_prev (head_at h a)).
Local Abbreviation nx h a := (_gc_next (head_at h a)).
Local Abbreviation mu_lists := (mu_lists objs young unreachable W).

Lemma nodes_nodup sc td un h :
  mu_lists sc td un h -> NoDup (young :: unreachable :: sc ++ td ++ un).
Proof.
  intros M. pose proof (pl_nodup _ _ _ _ PL) as Hnd.
  rewrite <- (ml_perm _ _ _ _ _ _ _ _ M) in Hnd. exact Hnd.
Qed.

Lemma node_in_W sc td un h a :
  mu_lists sc td un h -> a ∈ sc ++ td ++ un -> a ∈ W.
Proof. intros M Ha. rewrite <- (ml_perm _ _ _ _ _ _ _ _ M). exact Ha. Qed.

Lemma node_addr sc td un h a :
  mu_lists sc td un h -> a ∈ young :: unreachable :: sc ++ td ++ un -> aligned_address a.
Proof.
  intros M Ha. apply (pl_addr _ _ _ _ PL).
  rewrite <- (ml_perm _ _ _ _ _ _ _ _ M). exact Ha.
Qed.

(** Move the node at the cursor, whose count is zero, to [unreachable]. *)
Lemma step_to_unreachable sc gc rest un h :
  mu_lists sc (gc :: rest) un h ->
  let prev := List.last sc young in
  let h1 := store_next prev (nx h gc) h in
  let last := GC_PREV h1 unreachable in
  let h2 := store_next last gc h1 in
  let h3 := _PyGCHead_SET_PREV gc last h2 in
  let h4 := store_next gc unreachable h3 in
  let h5 := store_prev unreachable gc h4 in
  let h6 := gc_set_unreachable gc h5 in
  mu_lists sc rest (un ++ [gc]) h6
  /\ nx h6 prev = hd young rest
  /\ (forall a, a ∈ sc ++ rest -> gc_get_refs h6 a = gc_get_refs h a).
Proof.
  intros M prev h1 last h2 h3 h4 h5 h6.
  pose proof (nodes_nodup _ _ _ _ M) as Hnd.
  apply NoDup_cons in Hnd as [Hy Hnd]. apply NoDup_cons in Hnd as [Hu Hnd].
  apply NoDup_app in Hnd as (Hndsc & Hsc_d & Hnd).
  apply NoDup_app in Hnd as (Hndtd & Htd_d & Hndun).
  apply NoDup_cons in Hndtd as [Hgc_rest Hndrest].
  pose proof (fun a => node_in_W _ _ _ _ a M) as HinW.
  pose proof (fun a => node_addr _ _ _ _ a M) as Haddr.
  assert (Hprev_in : prev ∈ young :: sc) by apply last_cons_in.
  assert (Hlast_eq : last = List.last un unreachable).
  { unfold last, GC_PREV, h1. rewrite prev_store_next.
    rewrite (ml_unreach_last _ _ _ _ _ _ _ _ M).
    apply (address_raw_mask LOK). apply Haddr.
    pose proof (last_cons_in un unreachable) as Hin. revert Hin.
    generalize (List.last un unreachable). intros z Hin. set_solver + Hin. }
  assert (Hlast_in : last ∈ unreachable :: un) by (rewrite Hlast_eq; apply last_cons_in).
  assert (Hprev_eq : prev = List.last sc young) by reflexivity.
  clearbody prev last.
  assert (Hgc_addr : aligned_address gc) by (apply Haddr; ss).
  assert (Hlast_addr : aligned_address last) by (apply Haddr; ss).
  assert (Hgc_W : gc ∈ W) by (apply HinW; ss).
  pose proof (ml_words _ _ _ _ _ _ _ _ M gc Hgc_W) as Hgc_valid.
  (* the heap after the six stores *)
  assert (Hnx : forall a, nx h6 a = if decide (a = gc) then unreachable
                                    else if decide (a = last) then gc
                                    else if decide (a = prev) then nx h gc
                                    else nx h a).
  { intros a. unfold h6, gc_set_unreachable. rewrite next_store_prev.
    unfold h5. rewrite next_store_prev. unfold h4. rewrite next_store_next.
    case_decide; [reflexivity|].
    unfold h3, _PyGCHead_SET_PREV. rewrite next_store_prev.
    unfold h2. rewrite next_store_next. case_decide; [reflexivity|].
    unfold h1. rewrite next_store_next. reflexivity. }
  assert (Hpw3 : pw h3 gc = pack 64 SH (last / 2 ^ SH) (pw h gc mod 2 ^ SH)).
  { unfold h3, _PyGCHead_SET_PREV. rewrite prev_store_prev. rewrite decide_True by reflexivity.
    unfold h2, h1. rewrite !prev_store_next.
    apply (set_prev_word LOK); assumption. }
  assert (Hpw : forall a, pw h6 a = if decide (a = gc) then
                                      pack 64 SH (last / 2 ^ SH)
                                        (Z.lor (pw h gc mod 2 ^ SH) _PyGC_PREV_MASK_UNREACHABLE)
                                    else if decide (a = unreachable) then gc
                                    else pw h a).
  { intros a. unfold h6, gc_set_unreachable. rewrite prev_store_prev.
    case_decide as Ea.
    - unfold h5. rewrite prev_store_prev. rewrite decide_False by ss.
      unfold h4. rewrite prev_store_next. rewrite Hpw3.
      apply (pack_lor 64 SH (SH64 LOK)); [apply (mod_range LOK)|].
      pose proof (pow_bit_range _ _ (unreachable_range LOK)).
      unfold _PyGC_PREV_MASK_UNREACHABLE. lia.
    - unfold h5. rewrite prev_store_prev. case_decide; [reflexivity|].
      unfold h4. rewrite prev_store_next. unfold h3, _PyGCHead_SET_PREV.
      rewrite prev_store_prev. rewrite decide_False by exact Ea.
      unfold h2, h1. rewrite !prev_store_next. reflexivity. }
  clearbody h6. clear h1 h2 h3 h4 h5 Hpw3.
  assert (Hlowr : 0 <= Z.lor (pw h gc mod 2 ^ SH) _PyGC_PREV_MASK_UNREACHABLE < 2 ^ SH).
  { apply (lor_low_range 64 SH (SH64 LOK)); [apply (mod_range LOK)|].
    pose proof (pow_bit_range _ _ (unreachable_range LOK)).
    unfold _PyGC_PREV_MASK_UNREACHABLE. lia. }
  (* the chains *)
  pose proof (ml_young _ _ _ _ _ _ _ _ M) as Hyl.
  change (young :: sc ++ gc :: rest) with ((young :: sc) ++ [gc] ++ rest) in Hyl.
  apply links_app in Hyl as [Hyl1 Hyl2]. apply links_app in Hyl2 as [Hyl2 Hyl3].
  simpl in Hyl2. destruct Hyl2 as [Hgc_next _].
  pose proof (ml_unreach _ _ _ _ _ _ _ _ M) as Hul.
  split; [|split].
  - constructor.
    + rewrite <- (ml_perm _ _ _ _ _ _ _ _ M).
      apply Permutation_app_head. simpl. rewrite app_assoc. symmetry.
      apply Permutation_cons_append.
    + change (young :: sc ++ rest) with ((young :: sc) ++ rest).
      apply links_app. split.
      * apply (links_frame (store_next prev (hd young rest) h)).
        -- intros x Hx. rewrite Hnx, next_store_next.
           rewrite decide_False by ss.
           rewrite decide_False by ss.
           rewrite Hgc_next. reflexivity.
        -- rewrite Hprev_eq. apply (links_set_last h sc young gc).
           ++ apply NoDup_cons. split; [ss | exact Hndsc].
           ++ exact Hyl1.
      * apply (links_frame h); [|exact Hyl3].
        intros x Hx. rewrite Hnx.
        rewrite !decide_False by ss. reflexivity.
    + change (unreachable :: un ++ [gc]) with ((unreachable :: un) ++ [gc]).
      apply links_app. split.
      * simpl hd. apply (links_frame (store_next last gc h)).
        -- intros x Hx. rewrite Hnx, next_store_next.
           rewrite decide_False by ss.
           destruct (decide (x = last)); [reflexivity|].
           rewrite decide_False by ss. reflexivity.
        -- rewrite Hlast_eq. apply (links_set_last h un unreachable unreachable).
           ++ apply NoDup_cons. split; [ss | exact Hndun].
           ++ exact Hul.
      * simpl. split; [|exact I]. rewrite Hnx. rewrite decide_True by reflexivity. reflexivity.
    + apply (plinks_frame h); [|exact (ml_scanned_prev _ _ _ _ _ _ _ _ M)].
      intros x Hx. unfold GC_PREV. rewrite Hpw.
      rewrite !decide_False by ss. reflexivity.
    + apply plinks_app. split.
      * apply (plinks_frame h); [|exact (ml_unreach_prev _ _ _ _ _ _ _ _ M)].
        intros x Hx. unfold GC_PREV. rewrite Hpw.
        rewrite !decide_False by ss. reflexivity.
      * simpl. split; [|exact I]. unfold GC_PREV. rewrite Hpw.
        rewrite decide_True by reflexivity. rewrite <- Hlast_eq.
        apply (address_land_mask LOK); assumption.
    + rewrite Hpw. rewrite decide_False by ss. rewrite decide_True by reflexivity.
      symmetry. apply last_last.
    + intros Hrest. rewrite Hpw.
      rewrite !decide_False by ss.
      rewrite (ml_young_last _ _ _ _ _ _ _ _ M) by discriminate.
      destruct rest as [|r rest']; [congruence|].
      rewrite !last_app_r by discriminate. reflexivity.
    + intros a Ha. rewrite Hpw. case_decide; [apply (pack_valid LOK)|].
      rewrite decide_False; [apply (ml_words _ _ _ _ _ _ _ _ M a Ha)|].
      intros ->. apply Hu. rewrite (ml_perm _ _ _ _ _ _ _ _ M). exact Ha.
    + intros a Ha. rewrite (unreachable_testbit LOK), Hpw.
      rewrite !decide_False by ss.
      rewrite <- (unreachable_testbit LOK).
      apply (ml_young_flag _ _ _ _ _ _ _ _ M). ss.
    + intros a Ha. rewrite (unreachable_testbit LOK), Hpw.
      apply elem_of_app in Ha as [Ha|Ha].
      * rewrite !decide_False by ss.
        rewrite <- (unreachable_testbit LOK).
        apply (ml_unreach_flag _ _ _ _ _ _ _ _ M). exact Ha.
      * apply list_elem_of_singleton in Ha. subst a. rewrite decide_True by reflexivity.
        rewrite (pack_flag LOK) by (try exact Hlowr; exact (unreachable_range LOK)).
        rewrite Z.lor_spec. unfold _PyGC_PREV_MASK_UNREACHABLE.
        rewrite Z.pow2_bits_true by (pose proof (unreachable_range LOK); lia).
        apply orb_true_r.
    + intros a Ha. unfold gc_get_refs. rewrite Hpw.
      rewrite !decide_False by ss.
      apply (ml_todo_refs _ _ _ _ _ _ _ _ M). right. exact Ha.
    + intros op Hop Hout. rewrite Hnx.
      destruct (pl_heads _ _ _ _ PL op Hop) as [Hopy Hopu].
      assert (HoutN : AS_GC op ∉ sc ++ (gc :: rest) ++ un).
      { intros Hin. apply Hout. apply HinW. exact Hin. }
      rewrite !decide_False by ss.
      apply (ml_outside _ _ _ _ _ _ _ _ M op Hop Hout).
  - rewrite Hnx. rewrite decide_False by ss.
    rewrite decide_False by ss. rewrite decide_True by reflexivity.
    exact Hgc_next.
  - intros a Ha. unfold gc_get_refs. rewrite Hpw.
    rewrite !decide_False by ss. reflexivity.
Qed.

Lemma flag_kept (x c : Z) :
  Z.testbit (pack 64 SH c (x mod 2 ^ SH)) UNREACHABLE_BIT = Z.testbit x UNREACHABLE_BIT.
Proof.
  rewrite (pack_flag LOK) by (try apply (mod_range LOK); exact (unreachable_range LOK)).
  apply flag_mod. exact (unreachable_range LOK).
Qed.

(** The node at the cursor has been traversed: its back pointer is
    restored and the cursor moves on. *)
Lemma step_scanned sc gc rest un h :
  mu_lists sc (gc :: rest) un h ->
  let prev := List.last sc young in
  let h1 := _PyGCHead_SET_PREV gc prev h in
  mu_lists (sc ++ [gc]) rest un h1
  /\ nx h1 gc = hd young rest
  /\ (forall a, a ∈ rest -> gc_get_refs h1 a = gc_get_refs h a).
Proof.
  intros M prev h1.
  pose proof (nodes_nodup _ _ _ _ M) as Hnd.
  apply NoDup_cons in Hnd as [Hy Hnd]. apply NoDup_cons in Hnd as [Hu Hnd].
  apply NoDup_app in Hnd as (Hndsc & Hsc_d & Hnd).
  apply NoDup_app in Hnd as (Hndtd & Htd_d & Hndun).
  apply NoDup_cons in Hndtd as [Hgc_rest Hndrest].
  pose proof (fun a => node_in_W _ _ _ _ a M) as HinW.
  pose proof (fun a => node_addr _ _ _ _ a M) as Haddr.
  assert (Hprev_in : prev ∈ young :: sc) by apply last_cons_in.
  assert (Hprev_eq : prev = List.last sc young) by reflexivity.
  clearbody prev.
  assert (Hgc_W : gc ∈ W) by (apply HinW; ss).
  assert (Hprev_addr : aligned_address prev) by (apply Haddr; ss).
  pose proof (ml_words _ _ _ _ _ _ _ _ M gc Hgc_W) as Hgc_valid.
  assert (Hnx : forall a, nx h1 a = nx h a).
  { intros a. unfold h1, _PyGCHead_SET_PREV. apply next_store_prev. }
  assert (Hpw : forall a, pw h1 a = if decide (a = gc) then
                                      pack 64 SH (prev / 2 ^ SH) (pw h gc mod 2 ^ SH)
                                    else pw h a).
  { intros a. unfold h1, _PyGCHead_SET_PREV. rewrite prev_store_prev.
    case_decide; [|reflexivity]. apply (set_prev_word LOK); assumption. }
  clearbody h1.
  pose proof (ml_young _ _ _ _ _ _ _ _ M) as Hyl.
  split; [|split].
  - constructor.
    + rewrite <- (ml_perm _ _ _ _ _ _ _ _ M). rewrite <- app_assoc. reflexivity.
    + rewrite <- app_assoc. apply (links_frame h); [|exact Hyl].
      intros x _. apply Hnx.
    + apply (links_frame h); [|exact (ml_unreach _ _ _ _ _ _ _ _ M)].
      intros x _. apply Hnx.
    + apply plinks_app. split.
      * apply (plinks_frame h); [|exact (ml_scanned_prev _ _ _ _ _ _ _ _ M)].
        intros x Hx. unfold GC_PREV. rewrite Hpw.
        rewrite decide_False by ss. reflexivity.
      * simpl. split; [|exact I]. unfold GC_PREV. rewrite Hpw.
        rewrite decide_True by reflexivity. rewrite <- Hprev_eq.
        apply (address_land_mask LOK); [assumption | apply (mod_range LOK)].
    + apply (plinks_frame h); [|exact (ml_unreach_prev _ _ _ _ _ _ _ _ M)].
      intros x Hx. unfold GC_PREV. rewrite Hpw.
      rewrite decide_False by ss. reflexivity.
    + rewrite Hpw. rewrite decide_False by ss.
      apply (ml_unreach_last _ _ _ _ _ _ _ _ M).
    + intros Hrest. rewrite Hpw. rewrite decide_False by ss.
      rewrite (ml_young_last _ _ _ _ _ _ _ _ M) by discriminate.
      rewrite <- app_assoc. reflexivity.
    + intros a Ha. rewrite Hpw. case_decide; [apply (pack_valid LOK)|].
      apply (ml_words _ _ _ _ _ _ _ _ M a Ha).
    + intros a Ha. rewrite (unreachable_testbit LOK), Hpw.
      case_decide as E.
      * rewrite flag_kept. rewrite <- (unreachable_testbit LOK).
        apply (ml_young_flag _ _ _ _ _ _ _ _ M). ss.
      * rewrite <- (unreachable_testbit LOK).
        apply (ml_young_flag _ _ _ _ _ _ _ _ M). ss.
    + intros a Ha. rewrite (unreachable_testbit LOK), Hpw.
      rewrite decide_False by ss. rewrite <- (unreachable_testbit LOK).
      apply (ml_unreach_flag _ _ _ _ _ _ _ _ M). exact Ha.
    + intros a Ha. unfold gc_get_refs. rewrite Hpw.
      rewrite decide_False by ss.
      apply (ml_todo_refs _ _ _ _ _ _ _ _ M). right. exact Ha.
    + intros op Hop Hout. rewrite Hnx.
      apply (ml_outside _ _ _ _ _ _ _ _ M op Hop Hout).
  - rewrite Hnx.
    change (young :: sc ++ gc :: rest) with ((young :: sc) ++ [gc] ++ rest) in Hyl.
    apply links_app in Hyl as [_ Hyl2]. apply links_app in Hyl2 as [Hyl2 _].
    simpl in Hyl2. destruct Hyl2 as [Hgc_next _]. exact Hgc_next.
  - intros a Ha. unfold gc_get_refs. rewrite Hpw.
    rewrite decide_False by ss. reflexivity.
Qed.

(** [gc_set_refs(gc, 1)] on a node of [todo] whose count is zero. *)
Lemma step_mark sc td un t h :
  mu_lists sc td un h -> t ∈ td ->
  let h1 := gc_set_refs t 1 h in
  mu_lists sc td un h1
  /\ gc_get_refs h1 t = 1
  /\ (forall a, a <> t -> gc_get_refs h1 a = gc_get_refs h a).
Proof.
  intros M Ht h1.
  pose proof (nodes_nodup _ _ _ _ M) as Hnd.
  apply NoDup_cons in Hnd as [Hy Hnd]. apply NoDup_cons in Hnd as [Hu Hnd].
  apply NoDup_app in Hnd as (Hndsc & Hsc_d & Hnd).
  apply NoDup_app in Hnd as (Hndtd & Htd_d & Hndun).
  pose proof (fun a => node_in_W _ _ _ _ a M) as HinW.
  assert (Ht_W : t ∈ W) by (apply HinW; ss).
  pose proof (ml_words _ _ _ _ _ _ _ _ M t Ht_W) as Ht_valid.
  assert (Hnx : forall a, nx h1 a = nx h a).
  { intros a. unfold h1, gc_set_refs. apply next_store_prev. }
  assert (Hpw : forall a, pw h1 a = if decide (a = t) then
                                      pack 64 SH 1 (pw h t mod 2 ^ SH)
                                    else pw h a).
  { intros a. unfold h1, gc_set_refs. rewrite prev_store_prev.
    case_decide; [|reflexivity]. apply (set_refs_word LOK); assumption. }
  clearbody h1.
  assert (Hone : - 2 ^ (63 - SH) <= 1 < 2 ^ (63 - SH)).
  { pose proof (SH64 LOK). pose proof (prev_shift_range LOK).
    assert (2 ^ 1 <= 2 ^ (63 - SH)) by (apply Z.pow_le_mono_r; lia).
    change (2 ^ 1) with 2 in *. lia. }
  assert (Hrefs_t : gc_get_refs h1 t = 1).
  { unfold gc_get_refs. rewrite Hpw, decide_True by reflexivity.
    apply (pack_refs LOK); [exact Hone | apply (mod_range LOK)]. }
  split; [|split].
  - constructor.
    + exact (ml_perm _ _ _ _ _ _ _ _ M).
    + apply (links_frame h); [|exact (ml_young _ _ _ _ _ _ _ _ M)]. intros x _. apply Hnx.
    + apply (links_frame h); [|exact (ml_unreach _ _ _ _ _ _ _ _ M)]. intros x _. apply Hnx.
    + apply (plinks_frame h); [|exact (ml_scanned_prev _ _ _ _ _ _ _ _ M)].
      intros x Hx. unfold GC_PREV. rewrite Hpw. rewrite decide_False by ss. reflexivity.
    + apply (plinks_frame h); [|exact (ml_unreach_prev _ _ _ _ _ _ _ _ M)].
      intros x Hx. unfold GC_PREV. rewrite Hpw. rewrite decide_False by ss. reflexivity.
    + rewrite Hpw. rewrite decide_False by ss. apply (ml_unreach_last _ _ _ _ _ _ _ _ M).
    + intros Htd. rewrite Hpw. rewrite decide_False by ss.
      apply (ml_young_last _ _ _ _ _ _ _ _ M Htd).
    + intros a Ha. rewrite Hpw. case_decide; [apply (pack_valid LOK)|].
      apply (ml_words _ _ _ _ _ _ _ _ M a Ha).
    + intros a Ha. rewrite (unreachable_testbit LOK), Hpw.
      case_decide as E.
      * rewrite flag_kept. rewrite <- (unreachable_testbit LOK).
        apply (ml_young_flag _ _ _ _ _ _ _ _ M). ss.
      * rewrite <- (unreachable_testbit LOK).
        apply (ml_young_flag _ _ _ _ _ _ _ _ M). exact Ha.
    + intros a Ha. rewrite (unreachable_testbit LOK), Hpw.
      rewrite decide_False by ss. rewrite <- (unreachable_testbit LOK).
      apply (ml_unreach_flag _ _ _ _ _ _ _ _ M). exact Ha.
    + intros a Ha. destruct (decide (a = t)) as [->|E]; [rewrite Hrefs_t; lia|].
      unfold gc_get_refs. rewrite Hpw. rewrite decide_False by exact E.
      apply (ml_todo_refs _ _ _ _ _ _ _ _ M). exact Ha.
    + intros op Hop Hout. rewrite Hnx.
      apply (ml_outside _ _ _ _ _ _ _ _ M op Hop Hout).
  - exact Hrefs_t.
  - intros a Ha. unfold gc_get_refs. rewrite Hpw.
    rewrite decide_False by exact Ha. reflexivity.
Qed.

(** [visit_reachable] on a node of [unreachable]: it is unlinked there,
    appended to [young] and given the count 1. *)
Lemma step_resurrect sc td l1 u l2 h :
  mu_lists sc td (l1 ++ u :: l2) h -> td <> [] ->
  let pu := GC_PREV h u in
  let nu := nx h u in
  let h1 := store_next pu (nx h u) h in
  let h2 := _PyGCHead_SET_PREV nu pu h1 in
  let h3 := gc_list_append u young h2 in
  let h4 := gc_set_refs u 1 h3 in
  let h5 := gc_clear_unreachable u h4 in
  mu_lists sc (td ++ [u]) (l1 ++ l2) h5
  /\ gc_get_refs h5 u = 1
  /\ (forall a, a ∈ sc ++ td -> gc_get_refs h5 a = gc_get_refs h a).
Proof.
  intros M Htd pu nu h1 h2 h3 h4 h5.
  pose proof (nodes_nodup _ _ _ _ M) as Hnd.
  apply NoDup_cons in Hnd as [Hy Hnd]. apply NoDup_cons in Hnd as [Hu Hnd].
  apply NoDup_app in Hnd as (Hndsc & Hsc_d & Hnd).
  apply NoDup_app in Hnd as (Hndtd & Htd_d & Hndun).
  apply NoDup_app in Hndun as (Hndl1 & Hl1_d & Hndul2).
  apply NoDup_cons in Hndul2 as [Hu_l2 Hndl2].
  pose proof (fun a => node_in_W _ _ _ _ a M) as HinW.
  pose proof (fun a => node_addr _ _ _ _ a M) as Haddr.
  (* the neighbours of u *)
  pose proof (ml_unreach_prev _ _ _ _ _ _ _ _ M) as Hup.
  apply plinks_app in Hup as [Hup1 Hup2]. destruct Hup2 as [Hpu_eq Hup2].
  fold pu in Hpu_eq.
  pose proof (ml_unreach _ _ _ _ _ _ _ _ M) as Hul.
  change (unreachable :: l1 ++ u :: l2) with ((unreachable :: l1) ++ [u] ++ l2) in Hul.
  apply links_app in Hul as [Hul1 Hul2]. apply links_app in Hul2 as [Hul2 Hul3].
  simpl in Hul2. destruct Hul2 as [Hnu_eq _]. fold nu in Hnu_eq.
  assert (Hpu_in : pu ∈ unreachable :: l1) by (rewrite Hpu_eq; apply last_cons_in).
  assert (Hnu_in : nu ∈ unreachable :: l2).
  { rewrite Hnu_eq. destruct l2; [left | right; left]. }
  set (lst := List.last (sc ++ td) young).
  assert (Hlst_eq : lst = List.last (sc ++ td) young) by reflexivity.
  assert (Hlst_in : lst ∈ sc ++ td).
  { apply last_nonempty_in. intros E. apply app_eq_nil in E as [_ ?]. contradiction. }
  assert (Hnu_case : (nu = unreachable /\ l2 = []) \/ (nu ∈ l2 /\ l2 <> [])).
  { rewrite Hnu_eq. destruct l2; [left; split; reflexivity | right; split; [left | discriminate]]. }
  assert (Hnu_def : nu = nx h u) by reflexivity.
  clearbody pu nu lst.
  assert (Hu_W : u ∈ W) by (apply HinW; set_solver +).
  assert (Hu_addr : aligned_address u) by (apply Haddr; set_solver +).
  assert (Hpu_addr : aligned_address pu) by (apply Haddr; set_solver + Hpu_in).
  assert (Hlst_addr : aligned_address lst) by (apply Haddr; set_solver + Hlst_in).
  pose proof (ml_words _ _ _ _ _ _ _ _ M u Hu_W) as Hu_valid.
  assert (Hnu_valid : valid_word (pw h nu)).
  { destruct Hnu_case as [[-> ->] | [Hin _]].
    - rewrite (ml_unreach_last _ _ _ _ _ _ _ _ M). rewrite last_last.
      apply address_valid. exact Hu_addr.
    - apply (ml_words _ _ _ _ _ _ _ _ M). apply HinW. set_solver + Hin. }
  pose proof (ml_young_last _ _ _ _ _ _ _ _ M Htd) as Hyoung_last.
  rewrite <- Hlst_eq in Hyoung_last.
  (* the heap after the stores *)
  assert (Hlast2 : pw h2 young = lst).
  { unfold h2, _PyGCHead_SET_PREV. rewrite prev_store_prev.
    rewrite decide_False by ss. unfold h1. rewrite prev_store_next. exact Hyoung_last. }
  assert (Hnx : forall a, nx h5 a = if decide (a = u) then young
                                    else if decide (a = lst) then u
                                    else if decide (a = pu) then nu
                                    else nx h a).
  { intros a. unfold h5, gc_clear_unreachable. rewrite next_store_prev.
    unfold h4, gc_set_refs. rewrite next_store_prev.
    unfold h3, gc_list_append. rewrite next_store_prev.
    unfold _PyGCHead_SET_NEXT. rewrite next_store_next.
    case_decide; [reflexivity|].
    rewrite next_store_next. rewrite Hlast2. case_decide; [reflexivity|].
    unfold _PyGCHead_SET_PREV at 1. rewrite next_store_prev.
    unfold h2, _PyGCHead_SET_PREV. rewrite next_store_prev.
    unfold h1. rewrite next_store_next. case_decide; [|reflexivity].
    symmetry. exact Hnu_def. }
  assert (Hpw2 : forall a, pw h2 a = if decide (a = nu) then
                                      pack 64 SH (pu / 2 ^ SH) (pw h nu mod 2 ^ SH)
                                     else pw h a).
  { intros a. unfold h2, _PyGCHead_SET_PREV. rewrite prev_store_prev.
    unfold h1. rewrite !prev_store_next.
    case_decide; [|reflexivity]. apply (set_prev_word LOK); assumption. }
  assert (Hpw3 : forall a, pw h3 a = if decide (a = young) then u
                                     else if decide (a = u) then
                                       pack 64 SH (lst / 2 ^ SH) (pw h u mod 2 ^ SH)
                                     else pw h2 a).
  { intros a. unfold h3, gc_list_append. rewrite prev_store_prev.
    case_decide; [reflexivity|].
    unfold _PyGCHead_SET_NEXT. rewrite !prev_store_next.
    unfold _PyGCHead_SET_PREV. rewrite prev_store_prev.
    case_decide; [|reflexivity].
    rewrite Hlast2. rewrite (Hpw2 u). rewrite decide_False by ss.
    apply (set_prev_word LOK); assumption. }
  assert (Hlow : 0 <= Z.ldiff (pw h u mod 2 ^ SH) _PyGC_PREV_MASK_UNREACHABLE < 2 ^ SH).
  { apply (ldiff_low_range 64 SH (SH64 LOK)). apply (mod_range LOK). }
  assert (Hpw : forall a, pw h5 a = if decide (a = u) then
                                      pack 64 SH 1
                                        (Z.ldiff (pw h u mod 2 ^ SH) _PyGC_PREV_MASK_UNREACHABLE)
                                    else if decide (a = young) then u
                                    else if decide (a = nu) then
                                      pack 64 SH (pu / 2 ^ SH) (pw h nu mod 2 ^ SH)
                                    else pw h a).
  { intros a. unfold h5, gc_clear_unreachable. rewrite prev_store_prev.
    case_decide as Ea.
    - unfold h4, gc_set_refs. rewrite prev_store_prev, decide_True by reflexivity.
      rewrite (Hpw3 u). rewrite decide_False by ss. rewrite decide_True by reflexivity.
      rewrite (set_refs_word LOK) by apply (pack_valid LOK).
      rewrite (mod_pack LOK) by apply (mod_range LOK).
      apply (pack_ldiff 64 SH (SH64 LOK)); [apply (mod_range LOK)|].
      pose proof (pow_bit_range _ _ (unreachable_range LOK)).
      unfold _PyGC_PREV_MASK_UNREACHABLE. lia.
    - unfold h4, gc_set_refs. rewrite prev_store_prev, decide_False by exact Ea.
      rewrite Hpw3. case_decide; [reflexivity|].
      rewrite decide_False by exact Ea. apply Hpw2. }
  clearbody h5. clear h1 h2 h3 h4 Hlast2 Hpw2 Hpw3.
  assert (Hone : - 2 ^ (63 - SH) <= 1 < 2 ^ (63 - SH)).
  { pose proof (SH64 LOK). pose proof (prev_shift_range LOK).
    assert (2 ^ 1 <= 2 ^ (63 - SH)) by (apply Z.pow_le_mono_r; lia).
    change (2 ^ 1) with 2 in *. lia. }
  assert (Hrefs_u : gc_get_refs h5 u = 1).
  { unfold gc_get_refs. rewrite Hpw, decide_True by reflexivity.
    apply (pack_refs LOK); [exact Hone | exact Hlow]. }
  pose proof (ml_young _ _ _ _ _ _ _ _ M) as Hyl.
  split; [|split].
  - constructor.
    + rewrite <- (ml_perm _ _ _ _ _ _ _ _ M).
      apply Permutation_app_head. rewrite <- app_assoc.
      apply Permutation_app_head. simpl. rewrite Permutation_middle. reflexivity.
    + rewrite app_assoc.
      change (young :: (sc ++ td) ++ [u]) with ((young :: sc ++ td) ++ [u]).
      apply links_app. split.
      * simpl hd. apply (links_frame (store_next lst u h)).
        -- intros x Hx. rewrite Hnx, next_store_next.
           rewrite decide_False by ss.
           destruct (decide (x = lst)); [reflexivity|].
           rewrite decide_False by ss. reflexivity.
        -- rewrite Hlst_eq. apply (links_set_last h (sc ++ td) young young).
           ++ apply NoDup_cons. split; [ss|].
              apply NoDup_app. split; [exact Hndsc|]. split; [|exact Hndtd]. ss.
           ++ exact Hyl.
      * simpl. split; [|exact I]. rewrite Hnx, decide_True by reflexivity. reflexivity.
    + change (unreachable :: l1 ++ l2) with ((unreachable :: l1) ++ l2).
      apply links_app. split.
      * rewrite <- Hnu_eq. apply (links_frame (store_next pu nu h)).
        -- intros x Hx. rewrite Hnx, next_store_next.
           rewrite decide_False by ss. rewrite decide_False by ss. reflexivity.
        -- rewrite Hpu_eq. eapply (links_set_last h l1 unreachable).
           ++ apply NoDup_cons. split; [ss | exact Hndl1].
           ++ exact Hul1.
      * apply (links_frame h); [|exact Hul3].
        intros x Hx. rewrite Hnx. rewrite !decide_False by ss. reflexivity.
    + apply (plinks_frame h); [|exact (ml_scanned_prev _ _ _ _ _ _ _ _ M)].
      intros x Hx. unfold GC_PREV. rewrite Hpw. rewrite !decide_False by ss. reflexivity.
    + apply plinks_app. split.
      * apply (plinks_frame h); [|exact Hup1].
        intros x Hx. unfold GC_PREV. rewrite Hpw. rewrite !decide_False by ss. reflexivity.
      * rewrite <- Hpu_eq. destruct l2 as [|x l2']; [exact I|].
        simpl in Hnu_eq. subst x. simpl in Hup2. destruct Hup2 as [_ Hup2].
        apply NoDup_cons in Hndl2 as [Hnu_l2 Hndl2].
        split.
        -- unfold GC_PREV. rewrite Hpw. do 2 (rewrite decide_False by ss).
           rewrite decide_True by reflexivity.
           apply (address_land_mask LOK); [assumption | apply (mod_range LOK)].
        -- apply (plinks_frame h); [|exact Hup2].
           intros y Hy'. unfold GC_PREV. rewrite Hpw. rewrite !decide_False by ss. reflexivity.
    + rewrite Hpw. do 2 (rewrite decide_False by ss).
      destruct Hnu_case as [[-> ->] | [Hin Hne]].
      * rewrite decide_True by reflexivity. rewrite app_nil_r.
        rewrite (ml_unreach_last _ _ _ _ _ _ _ _ M), last_last.
        rewrite address_low by exact Hu_addr.
        destruct (address_pack LOK pu 0 Hpu_addr) as [E _];
          [pose proof (pow_SH_pos LOK); lia|].
        rewrite E, Z.add_0_r. exact Hpu_eq.
      * rewrite decide_False by ss.
        rewrite (ml_unreach_last _ _ _ _ _ _ _ _ M).
        rewrite !last_app_r by (try discriminate; exact Hne).
        rewrite last_cons. symmetry. apply last_default_irrelevant. exact Hne.
    + intros _. rewrite Hpw. rewrite decide_False by ss. rewrite decide_True by reflexivity.
      rewrite app_assoc. symmetry. apply last_last.
    + intros a Ha. rewrite Hpw. case_decide; [apply (pack_valid LOK)|].
      rewrite decide_False.
      2:{ intros ->. apply Hy. right. rewrite (ml_perm _ _ _ _ _ _ _ _ M). exact Ha. }
      case_decide; [apply (pack_valid LOK)|].
      apply (ml_words _ _ _ _ _ _ _ _ M a Ha).
    + intros a Ha. rewrite (unreachable_testbit LOK), Hpw.
      case_decide as E.
      * rewrite (pack_flag LOK) by (try exact Hlow; exact (unreachable_range LOK)).
        rewrite Z.ldiff_spec. unfold _PyGC_PREV_MASK_UNREACHABLE.
        rewrite Z.pow2_bits_true by (pose proof (unreachable_range LOK); lia).
        apply andb_false_r.
      * rewrite !decide_False by ss.
        rewrite <- (unreachable_testbit LOK).
        apply (ml_young_flag _ _ _ _ _ _ _ _ M). ss.
    + intros a Ha. rewrite (unreachable_testbit LOK), Hpw.
      do 2 (rewrite decide_False by ss).
      case_decide as E.
      * rewrite flag_kept. rewrite <- (unreachable_testbit LOK).
        apply (ml_unreach_flag _ _ _ _ _ _ _ _ M). ss.
      * rewrite <- (unreachable_testbit LOK).
        apply (ml_unreach_flag _ _ _ _ _ _ _ _ M). ss.
    + intros a Ha. destruct (decide (a = u)) as [->|E]; [rewrite Hrefs_u; lia|].
      unfold gc_get_refs. rewrite Hpw. rewrite !decide_False by ss.
      apply (ml_todo_refs _ _ _ _ _ _ _ _ M). ss.
    + intros op Hop Hout. rewrite Hnx.
      destruct (pl_heads _ _ _ _ PL op Hop) as [Hopy Hopu].
      assert (HoutN : AS_GC op ∉ sc ++ td ++ l1 ++ u :: l2).
      { intros Hin. apply Hout. apply HinW. exact Hin. }
      rewrite !decide_False by ss.
      apply (ml_outside _ _ _ _ _ _ _ _ M op Hop Hout).
  - exact Hrefs_u.
  - intros a Ha. unfold gc_get_refs. rewrite Hpw.
    rewrite !decide_False by ss. reflexivity.
Qed.

End Steps.

Section Visit.
Import GC.
Context {L : Layout}.
Hypothesis LOK : layout_ok.
Variable objs : gmap Z PyObject.
Variables young unreachable : Z.
Variable W : list Z.
Hypothesis PL : placed objs young unreachable W.

Local Abbreviation SH := _PyGC_PREV_SHIFT.
Local Abbreviation pw h a := (_gc_prev (head_at h a)).
Local Abbreviation nx h a := (_gc_next (head_at h a)).
Local Abbreviation mu_lists := (mu_lists objs young unreachable W).
Local Abbreviation visit_post := (visit_post objs young unreachable W).

Lemma links_next_in (h : gmap Z PyGC_Head) (l : list Z) (e a : Z) :
  links h l e -> a ∈ l -> nx h a ∈ e :: l.
Proof.
  induction l as [|x l IH]; intros Hl Ha; [inversion Ha|].
  destruct Hl as [Hx Hl]. apply elem_of_cons in Ha as [->|Ha].
  - rewrite Hx. destruct l; simpl; [left | right; right; left].
  - specialize (IH Hl Ha). apply elem_of_cons in IH as [->|IH]; [left|right; right; exact IH].
Qed.

Lemma plinks_prev_in (h : gmap Z PyGC_Head) (l : list Z) :
  forall p a, plinks h p l -> a ∈ l -> GC_PREV h a ∈ p :: l.
Proof.
  induction l as [|x l IH]; intros p a Hl Ha; [inversion Ha|].
  destruct Hl as [Hx Hl]. apply elem_of_cons in Ha as [->|Ha].
  - rewrite Hx. left.
  - right. apply (IH x a Hl Ha).
Qed.

Lemma node_next_nonzero sc td un h a :
  mu_lists sc td un h -> a ∈ sc ++ td ++ un -> nx h a <> 0.
Proof.
  intros M Ha.
  assert (Hin : nx h a ∈ young :: unreachable :: sc ++ td ++ un).
  { apply elem_of_app in Ha as [Ha|Ha].
    - pose proof (links_next_in h _ _ a (ml_young _ _ _ _ _ _ _ _ M)
                    ltac:(right; apply elem_of_app; left; exact Ha)) as Hn.
      set_solver + Hn.
    - apply elem_of_app in Ha as [Ha|Ha].
      + pose proof (links_next_in h _ _ a (ml_young _ _ _ _ _ _ _ _ M)
                      ltac:(right; apply elem_of_app; right; exact Ha)) as Hn.
        set_solver + Hn.
      + pose proof (links_next_in h _ _ a (ml_unreach _ _ _ _ _ _ _ _ M)
                      ltac:(right; exact Ha)) as Hn.
        set_solver + Hn. }
  destruct (node_addr objs young unreachable W PL _ _ _ _ _ M Hin) as [Hpos _]. lia.
Qed.

Lemma scanned_refs_pos sc td un h a :
  mu_lists sc td un h -> a ∈ sc -> 0 < gc_get_refs h a.
Proof.
  intros M Ha.
  pose proof (plinks_prev_in h sc young a (ml_scanned_prev _ _ _ _ _ _ _ _ M) Ha) as Hp.
  apply (pointer_word_refs LOK _ (GC_PREV h a)).
  - apply (ml_words _ _ _ _ _ _ _ _ M). apply (node_in_W objs young unreachable W _ _ _ h _ M).
    set_solver + Ha.
  - apply (node_addr objs young unreachable W PL _ _ _ _ _ M). set_solver + Hp.
  - reflexivity.
Qed.

Lemma unreach_refs_pos sc td un h a :
  mu_lists sc td un h -> a ∈ un -> 0 < gc_get_refs h a.
Proof.
  intros M Ha.
  pose proof (plinks_prev_in h un unreachable a (ml_unreach_prev _ _ _ _ _ _ _ _ M) Ha) as Hp.
  apply (pointer_word_refs LOK _ (GC_PREV h a)).
  - apply (ml_words _ _ _ _ _ _ _ _ M). apply (node_in_W objs young unreachable W _ _ _ h _ M).
    set_solver + Ha.
  - apply (node_addr objs young unreachable W PL _ _ _ _ _ M). set_solver + Hp.
  - reflexivity.
Qed.


Lemma zero_count_ext (h h' : gmap Z PyGC_Head) (td : list Z) :
  (forall a, a ∈ td -> gc_get_refs h' a = gc_get_refs h a) ->
  zero_count h' td = zero_count h td.
Proof.
  unfold zero_count. induction td as [|x td IH]; intros He; [reflexivity|].
  rewrite !filter_cons. rewrite (He x) by left.
  assert (IH' := IH (fun a Ha => He a ltac:(right; exact Ha))).
  destruct (decide (gc_get_refs h x = 0)); simpl; lia.
Qed.

Lemma zero_count_le (h h' : gmap Z PyGC_Head) (td : list Z) :
  (forall a, a ∈ td -> gc_get_refs h a <> 0 -> gc_get_refs h' a <> 0) ->
  (zero_count h' td <= zero_count h td)%nat.
Proof.
  unfold zero_count. induction td as [|x td IH]; intros He; [reflexivity|].
  rewrite !filter_cons.
  assert (IH' := IH (fun a Ha => He a ltac:(right; exact Ha))).
  pose proof (He x ltac:(left)) as Hx.
  destruct (decide (gc_get_refs h x = 0)), (decide (gc_get_refs h' x = 0)); simpl; lia.
Qed.

Lemma zero_count_app (h : gmap Z PyGC_Head) (l1 l2 : list Z) :
  zero_count h (l1 ++ l2) = (zero_count h l1 + zero_count h l2)%nat.
Proof. unfold zero_count. rewrite filter_app, length_app. reflexivity. Qed.

Lemma zero_count_cons (h : gmap Z PyGC_Head) (x : Z) (l : list Z) :
  zero_count h (x :: l) =
  ((if decide (gc_get_refs h x = 0%Z) then 1 else 0) + zero_count h l)%nat.
Proof.
  unfold zero_count. rewrite filter_cons.
  destruct (decide (gc_get_refs h x = 0)); reflexivity.
Qed.

Lemma visit_reachable_spec sc td un h op :
  mu_lists sc td un h -> td <> [] ->
  exists td' un' h',
    visit_reachable objs young op h = Done h'
    /\ visit_post sc td un h [op] td' un' h'
    /\ (ob_is_gc (object_at objs op) = true -> AS_GC op ∈ W ->
        settled sc td' h' (AS_GC op)).
Proof.
  intros M Htd. unfold visit_reachable, _PyObject_IS_GC.
  assert (Hsame : visit_post sc td un h [op] td un h).
  { split; [exact M|]. split; [exists []; rewrite app_nil_r; reflexivity|].
    split; [tauto|]. split; [|lia]. intros a Ha Hr. left. split; assumption. }
  destruct (ob_is_gc (object_at objs op)) eqn:Hgc; simpl.
  2:{ exists td, un, h. split; [reflexivity|]. split; [exact Hsame|]. discriminate. }
  destruct (Z.eqb_spec (nx h (AS_GC op)) 0) as [Hz|Hnz].
  { exists td, un, h. split; [reflexivity|]. split; [exact Hsame|].
    intros _ HW. exfalso.
    rewrite <- (ml_perm _ _ _ _ _ _ _ _ M) in HW.
    exact (node_next_nonzero _ _ _ _ _ M HW Hz). }
  assert (HW : AS_GC op ∈ W).
  { destruct (decide (AS_GC op ∈ W)) as [Hin|Hout]; [exact Hin|].
    exfalso. apply Hnz. apply (ml_outside _ _ _ _ _ _ _ _ M op Hgc Hout). }
  set (g := AS_GC op) in *.
  assert (Hop : FROM_GC g = op) by apply FROM_GC_AS_GC.
  pose proof HW as Hnode. rewrite <- (ml_perm _ _ _ _ _ _ _ _ M) in Hnode.
  assert (Hnn : 0 <= gc_get_refs h g).
  { apply elem_of_app in Hnode as [Hs|Hnode].
    - pose proof (scanned_refs_pos _ _ _ _ _ M Hs). lia.
    - apply elem_of_app in Hnode as [Ht|Hu].
      + apply (ml_todo_refs _ _ _ _ _ _ _ _ M _ Ht).
      + pose proof (unreach_refs_pos _ _ _ _ _ M Hu). lia. }
  destruct (Z.ltb_spec (gc_get_refs h g) 0) as [Hneg|_]; [lia|].
  destruct (gc_is_unreachable h g) eqn:Hflag.
  - (* back from unreachable to the end of young *)
    assert (Hu : g ∈ un).
    { apply elem_of_app in Hnode as [Hs|Hnode].
      - rewrite (ml_young_flag _ _ _ _ _ _ _ _ M g) in Hflag; [discriminate|].
        apply elem_of_app; left; exact Hs.
      - apply elem_of_app in Hnode as [Ht|Hu]; [|exact Hu].
        rewrite (ml_young_flag _ _ _ _ _ _ _ _ M g) in Hflag; [discriminate|].
        apply elem_of_app; right; exact Ht. }
    apply list_elem_of_split in Hu as (l1 & l2 & ->).
    destruct (step_resurrect LOK objs young unreachable W PL sc td l1 g l2 h M Htd)
      as (M' & Hone & Hkeep).
    eexists (td ++ [g]), (l1 ++ l2), _. split; [reflexivity|].
    assert (Hg : settled sc (td ++ [g])
                   (gc_clear_unreachable g (gc_set_refs g 1 (gc_list_append g young
                      (_PyGCHead_SET_PREV (nx h g) (GC_PREV h g)
                         (store_next (GC_PREV h g) (nx h g) h))))) g).
    { right. split; [apply elem_of_app; right; left|]. rewrite Hone. lia. }
    split; [|intros _ _; exact Hg].
    split; [exact M'|]. split; [exists [g]; reflexivity|].
    split.
    { intros a [Ha|[Ha Hr]]; [left; exact Ha|]. right. split.
      - apply elem_of_app; left; exact Ha.
      - rewrite Hkeep; [exact Hr|]. apply elem_of_app; right; exact Ha. }
    split.
    { intros a Ha Hr. apply elem_of_app in Ha as [Ha|Ha].
      - left. split; [exact Ha|]. rewrite Hkeep in Hr; [exact Hr|].
        apply elem_of_app; right; exact Ha.
      - apply list_elem_of_singleton in Ha. subst a. right. rewrite Hop. left. }
    unfold mu_measure. rewrite zero_count_app, !length_app. simpl.
    rewrite (zero_count_ext h _ td).
    2:{ intros a Ha. apply Hkeep. apply elem_of_app; right; exact Ha. }
    rewrite zero_count_cons. rewrite Hone.
    destruct (decide (1 = 0)) as [Habs|_]; [lia|].
    change (zero_count _ []) with 0%nat. lia.
  - destruct (Z.eqb_spec (gc_get_refs h g) 0) as [Hzero|Hpos].
    + (* a waiting node is marked reachable *)
      assert (Ht : g ∈ td).
      { apply elem_of_app in Hnode as [Hs|Hnode].
        - pose proof (scanned_refs_pos _ _ _ _ _ M Hs). lia.
        - apply elem_of_app in Hnode as [Ht|Hu]; [exact Ht|].
          rewrite (ml_unreach_flag _ _ _ _ _ _ _ _ M g Hu) in Hflag. discriminate. }
      destruct (step_mark LOK objs young unreachable W PL sc td un g h M Ht)
        as (M' & Hone & Hkeep).
      exists td, un, (gc_set_refs g 1 h). split; [reflexivity|].
      assert (Hg : settled sc td (gc_set_refs g 1 h) g).
      { right. split; [exact Ht|]. rewrite Hone. lia. }
      split; [|intros _ _; exact Hg].
      split; [exact M'|]. split; [exists []; rewrite app_nil_r; reflexivity|].
      split.
      { intros a [Ha|[Ha Hr]]; [left; exact Ha|]. right. split; [exact Ha|].
        rewrite Hkeep; [exact Hr|]. intros ->. lia. }
      split.
      { intros a Ha Hr. destruct (decide (a = g)) as [->|Hne].
        - right. rewrite Hop. left.
        - left. split; [exact Ha|]. rewrite Hkeep in Hr; assumption. }
      unfold mu_measure.
      pose proof (zero_count_le h (gc_set_refs g 1 h) td) as Hle.
      assert ((zero_count (gc_set_refs g 1 h) td <= zero_count h td)%nat); [|lia].
      apply Hle. intros a Ha Hr. destruct (decide (a = g)) as [->|Hne].
      * rewrite Hone. lia.
      * rewrite Hkeep; assumption.
    + exists td, un, h. split; [reflexivity|]. split; [exact Hsame|].
      intros _ _. apply elem_of_app in Hnode as [Hs|Hnode]; [left; exact Hs|].
      apply elem_of_app in Hnode as [Ht|Hu].
      * right. split; [exact Ht|]. lia.
      * rewrite (ml_unreach_flag _ _ _ _ _ _ _ _ M g Hu) in Hflag. discriminate.
Qed.

End Visit.

Section Loop.
Import GC.
Context {L : Layout}.
Hypothesis LOK : layout_ok.
Variable objs : gmap Z PyObject.
Variables young unreachable : Z.
Variable W : list Z.
Hypothesis PL : placed objs young unreachable W.
Variable h0 : gmap Z PyGC_Head.

Local Abbreviation SH := _PyGC_PREV_SHIFT.
Local Abbreviation pw h a := (_gc_prev (head_at h a)).
Local Abbreviation nx h a := (_gc_next (head_at h a)).
Local Abbreviation mu_lists := (mu_lists objs young unreachable W).
Local Abbreviation visit_post := (visit_post objs young unreachable W).
Local Abbreviation mu_graph := (mu_graph objs W h0).
Local Abbreviation reach := (reachable_from_outside objs W h0).

Lemma visit_post_trans sc td un h r rs td1 un1 h1 td2 un2 h2 :
  visit_post sc td un h [r] td1 un1 h1 ->
  visit_post sc td1 un1 h1 rs td2 un2 h2 ->
  visit_post sc td un h (r :: rs) td2 un2 h2.
Proof.
  intros (M1 & [l1 E1] & S1 & N1 & Le1) (M2 & [l2 E2] & S2 & N2 & Le2).
  split; [exact M2|]. split.
  { exists (l1 ++ l2). rewrite E2, E1, app_assoc. reflexivity. }
  split; [intros a Ha; apply S2, S1, Ha|]. split; [|lia].
  intros a Ha Hr. destruct (N2 a Ha Hr) as [[Ha1 Hr1]|Hin].
  - destruct (N1 a Ha1 Hr1) as [Hold|Hin]; [left; exact Hold|].
    right. apply list_elem_of_singleton in Hin. rewrite Hin. left.
  - right. right. exact Hin.
Qed.

Lemma traverse_spec sc rs :
  forall td un h,
  mu_lists sc td un h -> td <> [] ->
  exists td' un' h',
    fold_left (fun o r => and_then o (visit_reachable objs young r)) rs (Done h)
      = Done h'
    /\ visit_post sc td un h rs td' un' h'
    /\ (forall op, op ∈ rs -> ob_is_gc (object_at objs op) = true ->
          AS_GC op ∈ W -> settled sc td' h' (AS_GC op)).
Proof.
  induction rs as [|r rs IH]; intros td un h M Htd.
  - exists td, un, h. split; [reflexivity|]. split.
    + split; [exact M|]. split; [exists []; rewrite app_nil_r; reflexivity|].
      split; [tauto|]. split; [|lia]. intros a Ha Hr. left. split; assumption.
    + intros op Hop. inversion Hop.
  - destruct (visit_reachable_spec LOK objs young unreachable W PL sc td un h r M Htd)
      as (td1 & un1 & h1 & E1 & P1 & G1).
    assert (Htd1 : td1 <> []).
    { destruct P1 as (_ & [l ->] & _). destruct td; [congruence|discriminate]. }
    destruct (IH td1 un1 h1 (proj1 P1) Htd1) as (td2 & un2 & h2 & E2 & P2 & G2).
    exists td2, un2, h2. split.
    { simpl. rewrite E1. exact E2. }
    split; [exact (visit_post_trans _ _ _ _ _ _ _ _ _ _ _ _ P1 P2)|].
    intros op Hop Hgc HW. apply elem_of_cons in Hop as [->|Hop].
    + destruct P2 as (_ & _ & S2 & _). apply S2, G1; assumption.
    + apply G2; assumption.
Qed.


Lemma links_chain (h : gmap Z PyGC_Head) (l : list Z) :
  forall x e, links h (x :: l) e -> chain_from h (GC_NEXT h x) l e.
Proof.
  induction l as [|y l IH]; intros x e [Hx Hl].
  - exact Hx.
  - split; [exact Hx|]. apply IH. exact Hl.
Qed.

Lemma reach_step a b :
  reach a -> a ∈ W -> b ∈ W -> points_to objs a b -> reach b.
Proof.
  intros (r & Hr & Hpos & Hpath) Ha Hb Hab. exists r. split; [exact Hr|].
  split; [exact Hpos|]. eapply rtc_r; [exact Hpath|]. auto.
Qed.

Lemma graph_scanned sc gc rest l un un' h h1 h2 :
  mu_graph sc (gc :: rest) h ->
  0 < gc_get_refs h gc -> gc ∈ W -> (forall a, a ∈ rest ++ l -> a ∈ W) ->
  visit_post sc (gc :: rest) un h (ob_referents (object_at objs (FROM_GC gc)))
    ((gc :: rest) ++ l) un' h1 ->
  (forall op, op ∈ ob_referents (object_at objs (FROM_GC gc)) ->
     ob_is_gc (object_at objs op) = true -> AS_GC op ∈ W ->
     settled sc ((gc :: rest) ++ l) h1 (AS_GC op)) ->
  (forall a, a ∈ rest ++ l -> gc_get_refs h2 a = gc_get_refs h1 a) ->
  mu_graph (sc ++ [gc]) (rest ++ l) h2.
Proof.
  intros G Hpos HgcW HinW (_ & _ & S1 & N1 & _) C K.
  assert (T : forall b, settled sc ((gc :: rest) ++ l) h1 b ->
                        settled (sc ++ [gc]) (rest ++ l) h2 b).
  { intros b [Hb|[Hb Hr]]; [left; apply elem_of_app; left; exact Hb|].
    simpl in Hb. apply elem_of_cons in Hb as [->|Hb].
    - left. apply elem_of_app; right; left.
    - right. split; [exact Hb|]. rewrite K; assumption. }
  assert (Rgc : reach gc) by (apply (mg_todo _ _ _ _ _ _ G); [left|exact Hpos]).
  split.
  - intros a Ha. apply elem_of_app in Ha as [Ha|Ha].
    + apply (mg_scanned _ _ _ _ _ _ G a Ha).
    + apply list_elem_of_singleton in Ha. subst a. exact Rgc.
  - intros a Ha Hr. rewrite K in Hr by exact Ha.
    destruct (N1 a ltac:(simpl; right; exact Ha) Hr) as [[Hold Hr0]|Hnew].
    + apply (mg_todo _ _ _ _ _ _ G a Hold Hr0).
    + apply (reach_step gc a Rgc HgcW (HinW a Ha)). exact Hnew.
  - intros a b Ha Hb Hab. apply T. apply elem_of_app in Ha as [Ha|Ha].
    + apply S1. apply (mg_closed _ _ _ _ _ _ G a b Ha Hb Hab).
    + apply list_elem_of_singleton in Ha. subst a.
      rewrite <- (AS_GC_FROM_GC b). apply C.
      * exact Hab.
      * apply (pl_gc _ _ _ _ PL b Hb).
      * rewrite AS_GC_FROM_GC. exact Hb.
  - intros r Hr Hpos0. apply T, S1. apply (mg_roots _ _ _ _ _ _ G r Hr Hpos0).
Qed.

Lemma graph_unreachable sc gc rest h h6 :
  mu_graph sc (gc :: rest) h ->
  gc_get_refs h gc = 0 ->
  (forall a, a ∈ sc ++ rest -> gc_get_refs h6 a = gc_get_refs h a) ->
  mu_graph sc rest h6.
Proof.
  intros G Hz K.
  assert (T : forall b, settled sc (gc :: rest) h b -> settled sc rest h6 b).
  { intros b [Hb|[Hb Hr]]; [left; exact Hb|].
    apply elem_of_cons in Hb as [->|Hb]; [lia|].
    right. split; [exact Hb|]. rewrite K; [exact Hr|]. apply elem_of_app; right; exact Hb. }
  split.
  - apply (mg_scanned _ _ _ _ _ _ G).
  - intros a Ha Hr. rewrite K in Hr by (apply elem_of_app; right; exact Ha).
    apply (mg_todo _ _ _ _ _ _ G a); [right; exact Ha|exact Hr].
  - intros a b Ha Hb Hab. apply T. apply (mg_closed _ _ _ _ _ _ G a b Ha Hb Hab).
  - intros r Hr Hpos0. apply T. apply (mg_roots _ _ _ _ _ _ G r Hr Hpos0).
Qed.

Lemma reach_scanned sc h a :
  mu_graph sc [] h -> reach a -> a ∈ sc.
Proof.
  intros G (r & Hr & Hpos & Hpath).
  assert (Hrs : r ∈ sc).
  { destruct (mg_roots _ _ _ _ _ _ G r Hr Hpos) as [Hs|[Hn _]]; [exact Hs|inversion Hn]. }
  clear Hr Hpos.
  induction Hpath as [x|x y z (Hx & Hy & Hxy) _ IH]; [exact Hrs|].
  apply IH.
  destruct (mg_closed _ _ _ _ _ _ G x y Hrs Hy Hxy) as [Hs|[Hn _]]; [exact Hs|inversion Hn].
Qed.


Lemma loop_exit sc un h :
  mu_lists sc [] un h -> mu_graph sc [] h ->
  mu_final objs young unreachable W h0 (store_prev young (List.last sc young) h).
Proof.
  intros M G. pose proof (nodes_nodup objs young unreachable W PL _ _ _ _ M) as Hnd.
  simpl in Hnd.
  set (h' := store_prev young (List.last sc young) h).
  assert (Hnx : forall x, nx h' x = nx h x) by (intros x; apply next_store_prev).
  assert (Hpw : forall x, x <> young -> pw h' x = pw h x).
  { intros x Hx. unfold h'. rewrite prev_store_prev. rewrite decide_False by exact Hx.
    reflexivity. }
  assert (Hsc : forall x, x ∈ sc -> x <> young).
  { intros x Hx ->. apply NoDup_cons in Hnd as [Hy _]. apply Hy.
    right. apply elem_of_app; left; exact Hx. }
  assert (Hun : forall x, x ∈ un -> x <> young).
  { intros x Hx ->. apply NoDup_cons in Hnd as [Hy _]. apply Hy.
    right. apply elem_of_app; right; exact Hx. }
  exists sc, un. split; [|split; [|split; [|split; [|split; [|split]]]]].
  - split.
    + apply links_chain. apply (links_frame h); [intros x _; apply Hnx|].
      pose proof (ml_young _ _ _ _ _ _ _ _ M) as Hl. rewrite app_nil_r in Hl. exact Hl.
    + apply NoDup_cons in Hnd as [Hy Hnd]. apply NoDup_cons in Hnd as [_ Hnd].
      apply NoDup_app in Hnd as (Hs & _ & _). apply NoDup_cons. split; [|exact Hs].
      intros Hin. apply Hy. right. apply elem_of_app; left; exact Hin.
  - split.
    + apply links_chain. apply (links_frame h); [intros x _; apply Hnx|].
      apply (ml_unreach _ _ _ _ _ _ _ _ M).
    + apply NoDup_cons in Hnd as [_ Hnd]. apply NoDup_cons in Hnd as [Hu Hnd].
      apply NoDup_app in Hnd as (_ & _ & Hs). apply NoDup_cons. split; [|exact Hs].
      intros Hin. apply Hu. apply elem_of_app; right; exact Hin.
  - exact (ml_perm _ _ _ _ _ _ _ _ M).
  - apply (plinks_frame h); [|apply (ml_scanned_prev _ _ _ _ _ _ _ _ M)].
    intros x Hx. unfold GC_PREV. rewrite Hpw by (apply Hsc; exact Hx). reflexivity.
  - unfold GC_PREV, h'. rewrite prev_store_prev, decide_True by reflexivity.
    apply (address_raw_mask LOK).
    apply (node_addr objs young unreachable W PL _ _ _ _ _ M).
    pose proof (last_cons_in sc young) as Hlast.
    apply elem_of_cons in Hlast as [->|Hlast]; [left|].
    right. right. apply elem_of_app; left; exact Hlast.
  - intros a Ha. split; [apply (mg_scanned _ _ _ _ _ _ G a Ha)|].
    unfold gc_is_unreachable. rewrite Hpw by (apply Hsc; exact Ha).
    apply (ml_young_flag _ _ _ _ _ _ _ _ M a). rewrite app_nil_r. exact Ha.
  - intros a Ha. split.
    + intros Hr. pose proof (reach_scanned sc h a G Hr) as Hs.
      apply NoDup_cons in Hnd as [_ Hnd]. apply NoDup_cons in Hnd as [_ Hnd].
      apply NoDup_app in Hnd as (_ & Hdis & _). exact (Hdis a Hs Ha).
    + unfold gc_is_unreachable. rewrite Hpw by (apply Hun; exact Ha).
      apply (ml_unreach_flag _ _ _ _ _ _ _ _ M a Ha).
Qed.


Lemma move_unreachable_loop_spec (fuel : nat) :
  forall sc td un h,
  mu_lists sc td un h -> mu_graph sc td h ->
  (mu_measure td un h < fuel)%nat ->
  exists h',
    move_unreachable_loop objs fuel young unreachable
      (List.last sc young) (hd young td) h = Done h'
    /\ mu_final objs young unreachable W h0 h'.
Proof.
  induction fuel as [|fuel IH]; intros sc td un h M G Hfuel; [lia|].
  destruct td as [|gc rest].
  - exists (store_prev young (List.last sc young) h). split.
    + simpl. rewrite Z.eqb_refl. reflexivity.
    + apply (loop_exit sc un h M G).
  - pose proof (nodes_nodup objs young unreachable W PL _ _ _ _ M) as Hnd.
    assert (Hgy : gc <> young).
    { intros ->. apply NoDup_cons in Hnd as [Hy _]. apply Hy.
      right. apply elem_of_app; right. apply elem_of_app; left; left. }
    assert (HgcW : gc ∈ W).
    { apply (node_in_W objs young unreachable W _ _ _ h _ M).
      apply elem_of_app; right. apply elem_of_app; left; left. }
    pose proof (ml_todo_refs _ _ _ _ _ _ _ _ M gc ltac:(left)) as Hnn.
    change (hd young (gc :: rest)) with gc.
    cbn [move_unreachable_loop].
    destruct (Z.eqb_spec gc young) as [|_]; [contradiction|].
    destruct (Z.ltb_spec (gc_get_refs h gc) 0) as [|_]; [lia|].
    destruct (Z.eqb_spec (gc_get_refs h gc) 0) as [Hz|Hnz]; cbn [negb].
    + (* the count is zero: to unreachable *)
      pose proof (step_to_unreachable LOK objs young unreachable W PL sc gc rest un h M) as St.
      cbv zeta in St. destruct St as (M' & Hn & Hk).
      rewrite Hn. apply (IH sc rest (un ++ [gc]) _ M').
      * apply (graph_unreachable sc gc rest h _ G Hz Hk).
      * unfold mu_measure. rewrite length_app. simpl length.
        match goal with |- context [zero_count ?x rest] =>
          rewrite (zero_count_ext h x rest)
        end.
        2:{ intros a Ha. apply Hk. apply elem_of_app; right; exact Ha. }
        revert Hfuel. unfold mu_measure. simpl length. rewrite zero_count_cons.
        destruct (decide (gc_get_refs h gc = 0)) as [_|Hc]; [|contradiction].
        lia.
    + (* the count is positive: scan the referents *)
      unfold tp_traverse_checked.
      destruct (traverse_spec sc (ob_referents (object_at objs (FROM_GC gc)))
                  (gc :: rest) un h M ltac:(discriminate))
        as (td' & un' & h1 & E1 & P1 & C1).
      rewrite E1. cbn [and_then].
      pose proof P1 as (M1 & [l El] & S1 & N1 & Le1). subst td'.
      pose proof (step_scanned LOK objs young unreachable W PL sc gc (rest ++ l) un' h1 M1) as St.
      cbv zeta in St. destruct St as (M2 & Hn & Hk).
      rewrite Hn.
      assert (R : forall A B, exists h',
                 move_unreachable_loop objs fuel young unreachable
                   (List.last (sc ++ [gc]) young) (hd young (rest ++ l)) _ = Done h'
                 /\ mu_final objs young unreachable W h0 h')
        by (intros A B; exact (IH (sc ++ [gc]) (rest ++ l) un' _ M2 A B)).
      rewrite last_app_single in R. apply R.
      * apply (graph_scanned sc gc rest l un un' h h1 _ G); try assumption; [lia|].
        intros a Ha. apply (node_in_W objs young unreachable W _ _ _ _ _ M1).
        apply elem_of_app; right. apply elem_of_app; left. right. exact Ha.
      * assert (Hpos1 : gc_get_refs h1 gc <> 0).
        { destruct (S1 gc) as [Hs|[_ Hr]]; [right; split; [left|lia]| |lia].
          exfalso. apply NoDup_cons in Hnd as [_ Hnd]. apply NoDup_cons in Hnd as [_ Hnd].
          apply NoDup_app in Hnd as (_ & Hdis & _). apply (Hdis gc Hs).
          apply elem_of_app; left; left. }
        unfold mu_measure.
        match goal with |- context [zero_count ?x (rest ++ l)] =>
          rewrite (zero_count_ext h1 x (rest ++ l)) by exact Hk
        end.
        revert Hfuel Le1. unfold mu_measure. simpl app. simpl length.
        rewrite (zero_count_cons h1 gc).
        destruct (decide (gc_get_refs h1 gc = 0)) as [Hc|_]; [contradiction|].
        lia.
Qed.

End Loop.

Section Pass.
Import GC.
Context {L : Layout}.
Hypothesis LOK : layout_ok.
Variable objs : gmap Z PyObject.
Variable wants_untrack : Z -> gmap Z PyGC_Head -> bool.

Local Abbreviation SH := _PyGC_PREV_SHIFT.
Local Abbreviation pw h a := (_gc_prev (head_at h a)).
Local Abbreviation nx h a := (_gc_next (head_at h a)).

Lemma tracked_testbit (h : gmap Z PyGC_Head) (a : Z) :
  _PyGC_TRACKED h a = Z.testbit (pw h a) TRACKED_BIT.
Proof.
  unfold _PyGC_TRACKED, _PyGC_PREV_MASK_TRACKED.
  rewrite land_pow2_testbit by (pose proof (tracked_range LOK); lia).
  apply negb_involutive.
Qed.

Lemma references_from_app (l1 l2 : list Z) (g : Z) :
  references_from objs (l1 ++ l2) g = references_from objs l1 g + references_from objs l2 g.
Proof.
  unfold references_from. induction l1 as [|x l1 IH]; simpl; [reflexivity|].
  rewrite IH. lia.
Qed.

Lemma bump_word (c f k : Z) :
  wrap64 (pack 64 SH c f + Z.shiftl k SH) = pack 64 SH (c + k) f.
Proof.
  pose proof (SH64 LOK) as HS. rewrite Z.shiftl_mul_pow2 by lia.
  apply (pack_add 64 SH).
Qed.

Lemma decref_pack (c f : Z) :
  wrap64 (pack 64 SH c f - Z.shiftl 1 SH) = pack 64 SH (c - 1) f.
Proof.
  pose proof (SH64 LOK) as HS. rewrite Z.shiftl_mul_pow2 by lia.
  replace (pack 64 SH c f - 1 * 2 ^ SH) with (pack 64 SH c f + (-1) * 2 ^ SH) by lia.
  unfold wrap64. rewrite (pack_add 64 SH). f_equal.
Qed.

(** One traversal with [visit_decref]: the links stay, and the counter of
    a tracked collectable object goes down by the number of times it is
    visited. *)
Lemma decref_fold (rs : list Z) :
  forall (h : gmap Z PyGC_Head),
  let h' := fold_left (fun h r => visit_decref objs r h) rs h in
  (forall a, nx h' a = nx h a)
  /\ (forall a c f, 0 <= f < 2 ^ SH -> pw h a = pack 64 SH c f ->
        pw h' a = pack 64 SH
          (c - (if ob_is_gc (object_at objs (FROM_GC a)) && Z.testbit f TRACKED_BIT
                then Z.of_nat (count_occ Z.eq_dec rs (FROM_GC a)) else 0)) f).
Proof.
  induction rs as [|r rs IH]; intros h; simpl.
  - split; [reflexivity|]. intros a c f Hf E. rewrite E. f_equal.
    destruct (_ && _); lia.
  - destruct (IH (visit_decref objs r h)) as [IHn IHp]. split.
    + intros a. rewrite IHn. unfold visit_decref, _PyObject_IS_GC.
      destruct (ob_is_gc (object_at objs r)); [|reflexivity].
      destruct (_PyGC_TRACKED h (AS_GC r)); [|reflexivity].
      unfold gc_decref. apply next_store_prev.
    + intros a c f Hf E.
      pose proof (tracked_range LOK) as HT.
      destruct (Z.eq_dec r (FROM_GC a)) as [->|Hne].
      * unfold visit_decref, _PyObject_IS_GC in IHp |- *.
        rewrite AS_GC_FROM_GC in IHp |- *.
        rewrite tracked_testbit in IHp |- *. rewrite E in IHp |- *.
        rewrite (pack_flag LOK) in IHp |- * by lia.
        destruct (ob_is_gc (object_at objs (FROM_GC a))) eqn:Hgc; simpl andb in *.
        2:{ apply (IHp a c f Hf) in E. rewrite Hgc in E. simpl in E. exact E. }
        destruct (Z.testbit f TRACKED_BIT) eqn:Ht.
        2:{ apply (IHp a c f Hf) in E. rewrite Hgc, Ht in E. simpl in E. exact E. }
        assert (E' : pw (gc_decref a h) a = pack 64 SH (c - 1) f).
        { unfold gc_decref. rewrite prev_store_prev, decide_True by reflexivity.
          rewrite E. apply decref_pack. }
        apply (IHp a (c - 1) f Hf) in E'. rewrite Hgc, Ht in E'. simpl in E'.
        rewrite E'. f_equal. lia.
      * assert (E' : pw (visit_decref objs r h) a = pack 64 SH c f).
        { unfold visit_decref, _PyObject_IS_GC.
          destruct (ob_is_gc (object_at objs r)); [|exact E].
          destruct (_PyGC_TRACKED h (AS_GC r)); [|exact E].
          unfold gc_decref. rewrite prev_store_prev, decide_False; [exact E|].
          intros ->. apply Hne. symmetry. apply FROM_GC_AS_GC. }
        apply (IHp a c f Hf) in E'. rewrite E'. reflexivity.
Qed.


(** ... and the headers it does not decrement are left alone. *)
Lemma decref_frame (rs : list Z) :
  forall (h : gmap Z PyGC_Head) (a : Z),
  ob_is_gc (object_at objs (FROM_GC a)) = false \/ _PyGC_TRACKED h a = false ->
  head_at (fold_left (fun h r => visit_decref objs r h) rs h) a = head_at h a.
Proof.
  induction rs as [|r rs IH]; intros h a Ha; simpl; [reflexivity|].
  assert (E : head_at (visit_decref objs r h) a = head_at h a).
  { unfold visit_decref, _PyObject_IS_GC.
    destruct (ob_is_gc (object_at objs r)) eqn:Hgc; [|reflexivity].
    destruct (_PyGC_TRACKED h (AS_GC r)) eqn:Htr; [|reflexivity].
    unfold gc_decref, store_prev. apply head_at_insert_ne. intros <-.
    rewrite FROM_GC_AS_GC in Ha. destruct Ha; congruence. }
  rewrite IH; [exact E|].
  destruct Ha as [Ha|Ha]; [left; exact Ha|right].
  unfold _PyGC_TRACKED in *. rewrite E. exact Ha.
Qed.

End Pass.

Section PassSteps.
Import GC.
Context {L : Layout}.
Hypothesis LOK : layout_ok.
Variable objs : gmap Z PyObject.
Variable wants_untrack : Z -> gmap Z PyGC_Head -> bool.
Variable blocks : list Z.
Variables young unreachable : Z.
Variable h0 : gmap Z PyGC_Head.
Hypothesis REST : heap_at_rest objs blocks young unreachable h0.

Local Abbreviation SH := _PyGC_PREV_SHIFT.
Local Abbreviation pw h a := (_gc_prev (head_at h a)).
Local Abbreviation nx h a := (_gc_next (head_at h a)).
Local Abbreviation pass_inv := (pass_inv objs blocks young h0).

Lemma block_not_young b : b ∈ blocks -> b <> young.
Proof.
  intros Hb ->. pose proof (hr_nodup _ _ _ _ _ REST) as Hnd.
  apply NoDup_cons in Hnd as [Hy _]. apply Hy. right. exact Hb.
Qed.

Lemma pass_start : pass_inv [] (gc_list_init young h0).
Proof.
  assert (Hhead : forall a, a <> young -> head_at (gc_list_init young h0) a = head_at h0 a).
  { intros a Ha. unfold gc_list_init. apply head_at_insert_ne. congruence. }
  split.
  - simpl. split; [|exact I]. unfold gc_list_init. rewrite head_at_insert_eq. reflexivity.
  - unfold gc_list_init. rewrite head_at_insert_eq. reflexivity.
  - intros a Ha. inversion Ha.
  - constructor.
  - intros op Hgc _. rewrite Hhead by (apply (hr_heads _ _ _ _ _ REST op Hgc)).
    apply (hr_next _ _ _ _ _ REST op Hgc).
  - intros b Hb _. rewrite Hhead by (apply block_not_young; exact Hb).
    destruct (decide (b ∈ [])) as [Hin|_]; [inversion Hin|].
    unfold references_from. simpl.
    destruct (word_decompose LOK _ (hr_words _ _ _ _ _ REST b Hb)) as (Hd & _ & _).
    replace (gc_get_refs h0 b + 0 - 0) with (word_refs (pw h0 b))
      by (unfold gc_get_refs, word_refs; lia).
    exact Hd.
  - intros b Hb. inversion Hb.
Qed.

(** [update_refs] returns early: only the header of [b] has changed, and
    [b] is not tracked any more. *)
Lemma step_untracked Wd h h' b :
  pass_inv Wd h -> b ∈ blocks -> b ∉ Wd ->
  (forall a, a <> b -> head_at h' a = head_at h a) ->
  nx h' b = nx h b -> _PyGC_TRACKED h' b = false ->
  pass_inv Wd h'.
Proof.
  intros I Hb HbW Hframe Hnb Hun.
  assert (Hnx : forall a, nx h' a = nx h a).
  { intros a. destruct (Z.eq_dec a b) as [->|Hne]; [exact Hnb|]. rewrite Hframe; auto. }
  split.
  - apply (links_frame h); [intros x _; apply Hnx|]. apply (pi_links _ _ _ _ _ _ I).
  - rewrite Hframe by (intros E; apply (block_not_young b Hb); auto).
    apply (pi_last _ _ _ _ _ _ I).
  - apply (pi_sub _ _ _ _ _ _ I).
  - apply (pi_nodup _ _ _ _ _ _ I).
  - intros op Hgc Hout. rewrite Hnx. apply (pi_next _ _ _ _ _ _ I op Hgc Hout).
  - intros t Ht Htr. assert (Hne : t <> b) by (intros ->; congruence).
    unfold _PyGC_TRACKED in Htr. rewrite Hframe in Htr |- * by exact Hne.
    apply (pi_count _ _ _ _ _ _ I t Ht Htr).
  - intros t Ht. assert (Hne : t <> b) by (intros ->; contradiction).
    unfold _PyGC_TRACKED. rewrite Hframe by exact Hne.
    apply (pi_tracked _ _ _ _ _ _ I t Ht).
Qed.


(** [update_refs] goes on: the count of [b] is added, the referents are
    decremented, [b] is appended to [young]. *)
Lemma step_append Wd h b :
  pass_inv Wd h -> b ∈ blocks -> b ∉ Wd -> _PyGC_TRACKED h b = true ->
  let refcount := _Py_GC_REFCNT (object_at objs (FROM_GC b)) in
  let h1 := gc_add_refs b refcount h in
  let h2 := tp_traverse objs (FROM_GC b) (visit_decref objs) h1 in
  let prev := pw h2 young in
  let h3 := store_next prev b h2 in
  let h4 := store_next b young h3 in
  let h5 := store_prev young b h4 in
  pass_inv (Wd ++ [b]) h5.
Proof.
  intros I Hb HbW Htb refcount h1 h2 prev h3 h4 h5.
  pose proof (block_not_young b Hb) as Hby.
  pose proof (hr_nodup _ _ _ _ _ REST) as Hnd.
  pose proof (tracked_range LOK) as HT.
  destruct (decref_fold LOK objs (ob_referents (object_at objs (FROM_GC b))) h1)
    as [Hn2 Hp2].
  pose proof (decref_frame objs (ob_referents (object_at objs (FROM_GC b))) h1) as Hf2.
  fold (tp_traverse objs (FROM_GC b) (visit_decref objs) h1) in Hn2, Hp2, Hf2.
  fold h2 in Hn2, Hp2, Hf2.
  assert (Hn1 : forall a, nx h1 a = nx h a) by (intros a; apply next_store_prev).
  assert (Hp1 : forall a, a <> b -> head_at h1 a = head_at h a).
  { intros a Ha. unfold h1, gc_add_refs, store_prev. apply head_at_insert_ne. congruence. }
  assert (Hyoung_gc : ob_is_gc (object_at objs (FROM_GC young)) = false).
  { destruct (ob_is_gc (object_at objs (FROM_GC young))) eqn:E; [|reflexivity].
    destruct (hr_heads _ _ _ _ _ REST _ E) as [Hy _]. rewrite AS_GC_FROM_GC in Hy.
    congruence. }
  assert (Hprev : prev = List.last Wd young).
  { unfold prev. rewrite Hf2 by (left; exact Hyoung_gc). rewrite Hp1 by congruence.
    apply (pi_last _ _ _ _ _ _ I). }
  assert (HndW : NoDup (young :: Wd)).
  { apply NoDup_cons. split; [|apply (pi_nodup _ _ _ _ _ _ I)].
    intros Hin. apply (block_not_young young); [|reflexivity].
    apply (pi_sub _ _ _ _ _ _ I). exact Hin. }
  assert (Hpw5 : forall t, t <> young -> pw h5 t = pw h2 t).
  { intros t Ht. unfold h5. rewrite prev_store_prev, decide_False by exact Ht.
    unfold h4. rewrite prev_store_next. unfold h3. apply prev_store_next. }
  assert (Hn5 : forall t, nx h5 t = nx h4 t) by (intros t; apply next_store_prev).
  assert (Hcount : forall t, t ∈ blocks -> _PyGC_TRACKED h t = true ->
            pw h5 t = pack 64 SH
                 (gc_get_refs h0 t
                  + (if decide (t ∈ Wd ++ [b])
                     then _Py_GC_REFCNT (object_at objs (FROM_GC t)) else 0)
                  - references_from objs (Wd ++ [b]) t)
                 (pw h0 t mod 2 ^ SH)
            /\ _PyGC_TRACKED h5 t = true).
  { intros t Ht Htr. pose proof (pi_count _ _ _ _ _ _ I t Ht Htr) as Hw.
    pose proof (mod_range LOK (pw h0 t)) as Hfr.
    assert (Hbit : Z.testbit (pw h0 t mod 2 ^ SH) TRACKED_BIT = true).
    { rewrite (tracked_testbit LOK), Hw, (pack_flag LOK) in Htr by lia. exact Htr. }
    set (c := gc_get_refs h0 t
              + (if decide (t ∈ Wd)
                 then _Py_GC_REFCNT (object_at objs (FROM_GC t)) else 0)
              - references_from objs Wd t) in Hw.
    assert (Hw1 : pw h1 t = pack 64 SH (c + (if decide (t = b) then refcount else 0))
                              (pw h0 t mod 2 ^ SH)).
    { destruct (decide (t = b)) as [->|Hne].
      - unfold h1, gc_add_refs. rewrite prev_store_prev, decide_True by reflexivity.
        rewrite Hw. apply (bump_word LOK).
      - rewrite Hp1 by exact Hne. rewrite Hw. f_equal. lia. }
    apply (Hp2 t _ _ Hfr) in Hw1.
    rewrite (hr_gc _ _ _ _ _ REST t Ht), Hbit in Hw1. simpl andb in Hw1. cbv iota in Hw1.
    assert (Hty : t <> young) by (apply block_not_young; exact Ht).
    assert (E5 : pw h5 t = pack 64 SH
                 (gc_get_refs h0 t
                  + (if decide (t ∈ Wd ++ [b])
                     then _Py_GC_REFCNT (object_at objs (FROM_GC t)) else 0)
                  - references_from objs (Wd ++ [b]) t)
                 (pw h0 t mod 2 ^ SH)).
    { rewrite Hpw5 by exact Hty. rewrite Hw1. f_equal.
      rewrite (references_from_app objs). unfold c.
      change (references_from objs [b] t) with (references_to objs (FROM_GC t) b + 0).
      unfold references_to.
      destruct (decide (t = b)) as [->|Hne].
      - rewrite (decide_False (P := b ∈ Wd)) by exact HbW.
        rewrite (decide_True (P := b ∈ Wd ++ [b])) by (apply elem_of_app; right; left).
        unfold refcount. lia.
      - destruct (decide (t ∈ Wd)) as [Hin|Hout].
        + rewrite (decide_True (P := t ∈ Wd ++ [b])) by (apply elem_of_app; left; exact Hin).
          lia.
        + rewrite (decide_False (P := t ∈ Wd ++ [b])).
          * lia.
          * intros Hin. apply elem_of_app in Hin as [Hin|Hin]; [contradiction|].
            apply list_elem_of_singleton in Hin. contradiction. }
    split; [exact E5|].
    rewrite (tracked_testbit LOK), E5, (pack_flag LOK) by lia. exact Hbit. }
  split.
  - assert (Hl2 : links h2 (young :: Wd) young).
    { apply (links_frame h); [|apply (pi_links _ _ _ _ _ _ I)].
      intros x _. rewrite Hn2. apply Hn1. }
    pose proof (links_set_last h2 Wd young young b HndW Hl2) as Hl3.
    rewrite <- Hprev in Hl3. fold h3 in Hl3.
    apply (links_frame h4); [intros x _; apply Hn5|].
    change (young :: Wd ++ [b]) with ((young :: Wd) ++ [b]).
    apply links_app. split.
    + simpl hd. apply (links_frame h3); [|exact Hl3].
      intros x Hx. unfold h4. rewrite next_store_next.
      rewrite decide_False; [reflexivity|].
      intros ->. apply elem_of_cons in Hx as [Hx|Hx]; [congruence|contradiction].
    + simpl. split; [|trivial]. unfold h4. rewrite next_store_next.
      rewrite decide_True by reflexivity. reflexivity.
  - unfold h5. rewrite prev_store_prev, decide_True by reflexivity.
    symmetry. apply last_app_single.
  - intros a Ha. apply elem_of_app in Ha as [Ha|Ha].
    + apply (pi_sub _ _ _ _ _ _ I a Ha).
    + apply list_elem_of_singleton in Ha. subst a. exact Hb.
  - apply NoDup_app. split; [apply (pi_nodup _ _ _ _ _ _ I)|]. split.
    + intros x Hx Hx'. apply list_elem_of_singleton in Hx'. subst x. contradiction.
    + apply NoDup_singleton.
  - intros op Hgc Hout.
    assert (HoW : AS_GC op ∉ Wd) by (intros Hin; apply Hout, elem_of_app; left; exact Hin).
    assert (Hob : AS_GC op <> b).
    { intros E. apply Hout, elem_of_app. right. rewrite E. left. }
    rewrite Hn5. unfold h4. rewrite next_store_next, decide_False by exact Hob.
    unfold h3. rewrite next_store_next. rewrite decide_False.
    + rewrite Hn2, Hn1. apply (pi_next _ _ _ _ _ _ I op Hgc HoW).
    + rewrite Hprev. intros E.
      pose proof (last_cons_in Wd young) as Hlast. rewrite <- E in Hlast.
      apply elem_of_cons in Hlast as [Hy|Hin]; [|contradiction].
      destruct (hr_heads _ _ _ _ _ REST op Hgc) as [Hne _]. contradiction.
  - intros t Ht Htr5.
    destruct (_PyGC_TRACKED h t) eqn:Htr; [apply (Hcount t Ht Htr)|exfalso].
    assert (Hne : t <> b) by (intros ->; congruence).
    assert (Hty : t <> young) by (apply block_not_young; exact Ht).
    assert (Htr1 : _PyGC_TRACKED h1 t = false).
    { unfold _PyGC_TRACKED. rewrite Hp1 by exact Hne. exact Htr. }
    unfold _PyGC_TRACKED in Htr5. rewrite Hpw5 in Htr5 by exact Hty.
    rewrite Hf2 in Htr5 by (right; exact Htr1).
    unfold _PyGC_TRACKED in Htr1. congruence.
  - intros t Ht. apply elem_of_app in Ht as [Ht|Ht].
    + apply (Hcount t (pi_sub _ _ _ _ _ _ I t Ht) (pi_tracked _ _ _ _ _ _ I t Ht)).
    + apply list_elem_of_singleton in Ht. subst t. apply (Hcount b Hb Htb).
Qed.


Lemma update_refs_step Wd h b :
  pass_inv Wd h -> b ∈ blocks -> b ∉ Wd -> _PyGC_TRACKED h b = true ->
  pass_inv (Wd ++ (if update_refs_keeps objs wants_untrack b h then [b] else []))
           (update_refs objs wants_untrack b young h).
Proof.
  intros Inv Hb HbW Htb. pose proof (tracked_range LOK) as HT.
  unfold update_refs, update_refs_keeps.
  destruct (ob_exact_container (object_at objs (FROM_GC b))) eqn:Hex.
  - unfold maybe_untrack. destruct (wants_untrack (FROM_GC b) h) eqn:Hw.
    + assert (Hun : _PyGC_TRACKED (_PyObject_GC_UNTRACK (FROM_GC b) h) b = false).
      { rewrite (tracked_testbit LOK). unfold _PyObject_GC_UNTRACK.
        rewrite AS_GC_FROM_GC. rewrite prev_store_prev, decide_True by reflexivity.
        unfold _PyGC_PREV_MASK_TRACKED. rewrite Z.ldiff_spec.
        rewrite Z.pow2_bits_true by lia. apply andb_false_r. }
      rewrite Hun. simpl. rewrite app_nil_r.
      apply (step_untracked Wd h _ b Inv Hb HbW).
      * intros a Ha. unfold store_prev. rewrite head_at_insert_ne by congruence.
        unfold _PyObject_GC_UNTRACK, store_prev. rewrite AS_GC_FROM_GC.
        apply head_at_insert_ne. congruence.
      * rewrite next_store_prev. unfold _PyObject_GC_UNTRACK. apply next_store_prev.
      * rewrite (tracked_testbit LOK). rewrite prev_store_prev, decide_True by reflexivity.
        rewrite Z.ldiff_spec. rewrite <- (tracked_testbit LOK), Hun. reflexivity.
    + rewrite Htb. simpl. apply (step_append Wd h b Inv Hb HbW Htb).
  - simpl. apply (step_append Wd h b Inv Hb HbW Htb).
Qed.

(** The whole walk. *)
Lemma visit_heap_spec (bs : list Z) :
  forall Wd h,
  pass_inv Wd h -> NoDup bs -> (forall b, b ∈ bs -> b ∈ blocks /\ b ∉ Wd) ->
  pass_inv (Wd ++ working_set objs wants_untrack bs young h)
           (visit_heap (fun gc h => update_refs objs wants_untrack gc young h) bs h).
Proof.
  induction bs as [|b bs IH]; intros Wd h Inv Hnd Hbs.
  - simpl. rewrite app_nil_r. exact Inv.
  - apply NoDup_cons in Hnd as [Hb Hnd].
    destruct (Hbs b ltac:(left)) as [Hbb HbW].
    unfold visit_heap. simpl fold_left. simpl working_set.
    destruct (_PyGC_TRACKED h b) eqn:Htb.
    + rewrite app_assoc. apply IH; [|exact Hnd|].
      * apply (update_refs_step Wd h b Inv Hbb HbW Htb).
      * intros x Hx. destruct (Hbs x ltac:(right; exact Hx)) as [Hxb HxW].
        split; [exact Hxb|]. intros Hin. apply elem_of_app in Hin as [Hin|Hin]; [contradiction|].
        destruct (update_refs_keeps objs wants_untrack b h); [|inversion Hin].
        apply list_elem_of_singleton in Hin. subst x. contradiction.
    + apply IH; [exact Inv|exact Hnd|].
      intros x Hx. apply Hbs. right. exact Hx.
Qed.

Lemma seed_young_spec :
  pass_inv (working_set objs wants_untrack blocks young (gc_list_init young h0))
           (seed_young objs wants_untrack blocks young h0).
Proof.
  unfold seed_young.
  apply (visit_heap_spec blocks [] (gc_list_init young h0) pass_start).
  - pose proof (hr_nodup _ _ _ _ _ REST) as Hnd.
    apply NoDup_cons in Hnd as [_ Hnd]. apply NoDup_cons in Hnd as [_ Hnd]. exact Hnd.
  - intros b Hb. split; [exact Hb|]. intros Hin. inversion Hin.
Qed.

End PassSteps.

Section MarkPhase.
Import GC.
Context {L : Layout}.
Hypothesis LOK : layout_ok.
Variable objs : gmap Z PyObject.
Variable wants_untrack : Z -> gmap Z PyGC_Head -> bool.
Variable blocks : list Z.
Variables young unreachable : Z.
Variable h0 : gmap Z PyGC_Head.
Hypothesis REST : heap_at_rest objs blocks young unreachable h0.

Local Abbreviation SH := _PyGC_PREV_SHIFT.
Local Abbreviation pw h a := (_gc_prev (head_at h a)).
Local Abbreviation nx h a := (_gc_next (head_at h a)).
Local Abbreviation W := (working_set objs wants_untrack blocks young (gc_list_init young h0)).
Local Abbreviation h1 := (seed_young objs wants_untrack blocks young h0).

Hypothesis CC : counts_consistent objs h0 W.

Lemma working_set_placed : placed objs young unreachable W.
Proof.
  pose proof (seed_young_spec LOK objs wants_untrack blocks young unreachable h0 REST) as Inv.
  pose proof (hr_nodup _ _ _ _ _ REST) as Hnd.
  apply NoDup_cons in Hnd as [Hy Hnd]. apply NoDup_cons in Hnd as [Hu Hnd].
  split.
  - apply NoDup_cons. split.
    + intros Hin. apply Hy. apply elem_of_cons in Hin as [->|Hin]; [left|right].
      apply (pi_sub _ _ _ _ _ _ Inv). exact Hin.
    + apply NoDup_cons. split; [|apply (pi_nodup _ _ _ _ _ _ Inv)].
      intros Hin. apply Hu. apply (pi_sub _ _ _ _ _ _ Inv). exact Hin.
  - intros a Ha. apply (hr_addr _ _ _ _ _ REST).
    apply elem_of_cons in Ha as [->|Ha]; [left|right].
    apply elem_of_cons in Ha as [->|Ha]; [left|right].
    apply (pi_sub _ _ _ _ _ _ Inv). exact Ha.
  - intros g Hg. apply (hr_gc _ _ _ _ _ REST). apply (pi_sub _ _ _ _ _ _ Inv). exact Hg.
  - apply (hr_heads _ _ _ _ _ REST).
Qed.

(** The header of a node of the working set after the walk. *)
Lemma subtracted_word g :
  g ∈ W ->
  pw h1 g = pack 64 SH (outside_references objs h0 W g) (pw h0 g mod 2 ^ SH)
  /\ _PyGC_TRACKED h1 g = true
  /\ gc_get_refs h1 g = outside_references objs h0 W g
  /\ gc_is_unreachable h1 g = false.
Proof.
  intros Hg.
  pose proof (seed_young_spec LOK objs wants_untrack blocks young unreachable h0 REST) as Inv.
  pose proof (pi_sub _ _ _ _ _ _ Inv g Hg) as Hb.
  pose proof (pi_tracked _ _ _ _ _ _ Inv g Hg) as Htr.
  pose proof (pi_count _ _ _ _ _ _ Inv g Hb Htr) as Hw.
  rewrite decide_True in Hw by exact Hg.
  fold (outside_references objs h0 W g) in Hw.
  pose proof (mod_range LOK (pw h0 g)) as Hfr.
  pose proof (tracked_range LOK) as HT. pose proof (unreachable_range LOK) as HU.
  pose proof (CC g Hg) as Hc.
  assert (H63 : 0 < 2 ^ (63 - SH)) by (apply Z.pow_pos_nonneg; pose proof (SH64 LOK); lia).
  split; [exact Hw|]. split; [exact Htr|]. split.
  - unfold gc_get_refs. fold (word_refs (pw h1 g)). rewrite Hw.
    apply (pack_refs LOK); lia.
  - rewrite (unreachable_testbit LOK), Hw, (pack_flag LOK), flag_mod by lia.
    rewrite <- (unreachable_testbit LOK). apply (hr_flags _ _ _ _ _ REST g Hb).
    rewrite (tracked_testbit LOK). rewrite <- (flag_mod (pw h0 g)) by lia.
    rewrite <- (pack_flag LOK TRACKED_BIT (outside_references objs h0 W g)) by lia.
    rewrite <- Hw. rewrite <- (tracked_testbit LOK). exact Htr.
Qed.

Lemma move_ready :
  mu_lists objs young unreachable W [] W [] (gc_list_init unreachable h1)
  /\ mu_graph objs W h1 [] W (gc_list_init unreachable h1).
Proof.
  pose proof (seed_young_spec LOK objs wants_untrack blocks young unreachable h0 REST) as Inv.
  pose proof working_set_placed as PL.
  pose proof (pl_nodup _ _ _ _ PL) as Hnd.
  apply NoDup_cons in Hnd as [Hy Hnd]. apply NoDup_cons in Hnd as [Hu _].
  assert (Hyu : young <> unreachable) by (intros E; apply Hy; rewrite E; left).
  assert (HWu : forall a, a ∈ W -> a <> unreachable) by (intros a Ha ->; contradiction).
  assert (Hhead : forall a, a <> unreachable ->
                    head_at (gc_list_init unreachable h1) a = head_at h1 a).
  { intros a Ha. unfold gc_list_init. apply head_at_insert_ne. congruence. }
  assert (Hrefs : forall a, a ∈ W ->
            gc_get_refs (gc_list_init unreachable h1) a = gc_get_refs h1 a).
  { intros a Ha. unfold gc_get_refs. rewrite Hhead by (apply HWu; exact Ha). reflexivity. }
  split.
  - split.
    + simpl. rewrite app_nil_r. reflexivity.
    + simpl app. apply (links_frame h1); [|apply (pi_links _ _ _ _ _ _ Inv)].
      intros x Hx. rewrite Hhead; [reflexivity|].
      apply elem_of_cons in Hx as [->|Hx]; [exact Hyu|apply HWu; exact Hx].
    + simpl. split; [|trivial]. unfold gc_list_init. rewrite head_at_insert_eq. reflexivity.
    + exact Logic.I.
    + exact Logic.I.
    + unfold gc_list_init. rewrite head_at_insert_eq. reflexivity.
    + intros _. simpl app. rewrite Hhead by exact Hyu. apply (pi_last _ _ _ _ _ _ Inv).
    + intros a Ha. rewrite Hhead by (apply HWu; exact Ha).
      destruct (subtracted_word a Ha) as (Hw & _). rewrite Hw. apply (pack_valid LOK).
    + intros a Ha. simpl in Ha. unfold gc_is_unreachable.
      rewrite Hhead by (apply HWu; exact Ha).
      apply (subtracted_word a Ha).
    + intros a Ha. inversion Ha.
    + intros a Ha. rewrite Hrefs by exact Ha.
      destruct (subtracted_word a Ha) as (_ & _ & -> & _). apply (CC a Ha).
    + intros op Hgc Hout. rewrite Hhead by (apply (hr_heads _ _ _ _ _ REST op Hgc)).
      apply (pi_next _ _ _ _ _ _ Inv op Hgc Hout).
  - split.
    + intros a Ha. inversion Ha.
    + intros a Ha Hr. rewrite Hrefs in Hr by exact Ha.
      exists a. split; [exact Ha|]. split; [exact Hr|]. apply rtc_refl.
    + intros a b Ha. inversion Ha.
    + intros r Hr Hpos. right. split; [exact Hr|]. rewrite Hrefs by exact Hr. exact Hpos.
Qed.

Lemma zero_count_length h l : (zero_count h l <= length l)%nat.
Proof. unfold zero_count. apply length_filter. Qed.

(** C1: the mark phase of [collect] on a heap at rest whose reference
    counts cover the references held inside the working set [W] (the
    blocks the heap walk appends to [young]).
    - After the subtraction pass ([visit_heap(update_refs, &young)]),
      [young] is the list of the nodes of [W], each still tracked, and the
      [gc_refs] of each is the number of references to it that the objects
      of [W] do not hold: it is positive exactly when the object is
      referenced from outside the working set.
    - With more than [3 * |W|] steps of fuel [deduce_unreachable] returns:
      the walk of [move_unreachable], with the re-appending of the nodes
      found reachable, terminates.
    - When it returns, [young] and [unreachable] partition [W]; every node
      left in [young] can be reached from a node of positive [gc_refs] (a
      node referenced from outside) and has UNREACHABLE clear, every node
      of [unreachable] cannot and has UNREACHABLE set; the back pointers
      of [young] are restored. *)
Theorem C1_mark_phase (fuel : nat) :
  (3 * length W < fuel)%nat ->
  is_gc_list h1 young W
  /\ (forall g, g ∈ W ->
        _PyGC_TRACKED h1 g = true
        /\ gc_get_refs h1 g = outside_references objs h0 W g
        /\ (0 < gc_get_refs h1 g <-> 0 < outside_references objs h0 W g))
  /\ exists h2,
       deduce_unreachable objs fuel young unreachable h1 = Done h2
       /\ mu_final objs young unreachable W h1 h2.
Proof.
  intros Hfuel.
  pose proof (seed_young_spec LOK objs wants_untrack blocks young unreachable h0 REST) as Inv.
  pose proof working_set_placed as PL.
  destruct move_ready as [M G].
  split; [|split].
  - split.
    + apply links_chain. apply (pi_links _ _ _ _ _ _ Inv).
    + pose proof (pl_nodup _ _ _ _ PL) as Hnd.
      apply NoDup_cons in Hnd as [Hy Hnd]. apply NoDup_cons in Hnd as [_ Hnd].
      apply NoDup_cons. split; [|exact Hnd]. intros Hin. apply Hy. right. exact Hin.
  - intros g Hg. destruct (subtracted_word g Hg) as (_ & Htr & Hr & _).
    split; [exact Htr|]. split; [exact Hr|]. rewrite Hr. reflexivity.
  - unfold deduce_unreachable, move_unreachable.
    destruct (move_unreachable_loop_spec LOK objs young unreachable W PL h1 fuel
                [] W [] _ M G) as (h2 & E & F).
    { unfold mu_measure. pose proof (zero_count_length (gc_list_init unreachable h1) W).
      simpl length. lia. }
    exists h2. split; [|exact F].
    rewrite <- E. simpl List.last. f_equal.
    pose proof (ml_young _ _ _ _ _ _ _ _ M) as [Hn _]. exact Hn.
Qed.

End MarkPhase.

Ltac each_element :=
  apply Forall_forall; repeat first [apply List.Forall_nil | apply List.Forall_cons].

Section ExampleFacts.
Import GC.

Lemma four_objects_gc (op : Z) :
  ob_is_gc (object_at four_objects op) = true -> op ∈ [4112; 4144; 4176; 4208].
Proof.
  unfold object_at, four_objects. intros Hgc.
  destruct (decide (op = 4112)) as [->|H1]; [set_solver +|].
  destruct (decide (op = 4144)) as [->|H2]; [set_solver +|].
  destruct (decide (op = 4176)) as [->|H3]; [set_solver +|].
  destruct (decide (op = 4208)) as [->|H4]; [set_solver +|].
  rewrite !lookup_insert_ne, lookup_empty in Hgc by congruence. discriminate.
Qed.

Lemma four_at_rest :
  @heap_at_rest example_layout four_objects four_blocks 1000 2000 four_heads.
Proof.
  split.
  - apply (bool_decide_unpack _). vm_compute. exact I.
  - each_element; (split; [split|]); reflexivity.
  - each_element; reflexivity.
  - intros op Hgc. apply four_objects_gc in Hgc.
    revert op Hgc. each_element; split; discriminate.
  - intros op Hgc. apply four_objects_gc in Hgc.
    revert op Hgc. each_element; reflexivity.
  - each_element; (split; [discriminate|reflexivity]).
  - intros b Hb _. revert b Hb. each_element; reflexivity.
Qed.

Lemma four_consistent :
  @counts_consistent example_layout four_objects four_heads
    (@working_set example_layout four_objects never_untrack four_blocks 1000
       (gc_list_init 1000 four_heads)).
Proof.
  unfold counts_consistent.
  change (working_set _ _ _ _ _) with [4096; 4128; 4160; 4192].
  each_element; (split; [discriminate|reflexivity]).
Qed.

End ExampleFacts.

(** On the four objects: B is moved to [unreachable] and comes back when
    A is scanned; C and D stay there. *)
Lemma C1_mark_phase_witness :
  let h1 := @GC.seed_young GC.example_layout GC.four_objects GC.never_untrack
              GC.four_blocks 1000 GC.four_heads in
  @GC.is_gc_list h1 1000 [4096; 4128; 4160; 4192]
  /\ (exists h2,
        @GC.deduce_unreachable GC.example_layout GC.four_objects 13 1000 2000 h1
          = Done h2
        /\ @GC.mu_final GC.example_layout GC.four_objects 1000 2000
             [4096; 4128; 4160; 4192] h1 h2)
  /\ @GC.deduce_unreachable GC.example_layout GC.four_objects 13 1000 2000 h1
     = Done (<[1000 := {| GC._gc_next := 4128; GC._gc_prev := 4096 |}]>
             (<[2000 := {| GC._gc_next := 4160; GC._gc_prev := 4192 |}]>
             (<[4096 := {| GC._gc_next := 1000; GC._gc_prev := 4132 |}]>
             (<[4128 := {| GC._gc_next := 4096; GC._gc_prev := 1004 |}]>
             (<[4160 := {| GC._gc_next := 4192; GC._gc_prev := 2006 |}]>
             (<[4192 := {| GC._gc_next := 2000; GC._gc_prev := 4166 |}]> ∅)))))).
Proof.
  intros h1.
  pose proof (@C1_mark_phase GC.example_layout example_layout_ok GC.four_objects
                GC.never_untrack GC.four_blocks 1000 2000 GC.four_heads
                four_at_rest four_consistent 13%nat) as R.
  change (GC.working_set _ _ _ _ _) with [4096; 4128; 4160; 4192] in R.
  destruct R as (Hl & _ & Hm); [simpl; lia|].
  split; [exact Hl|]. split; [exact Hm|]. vm_compute. reflexivity.
Defined.

(** ** The other slow paths of Python/lock.c *)

Section SyncTheorems.
Import Lock Sync.

Lemma testbit_one (n : Z) : 0 <= n -> Z.testbit 1 n = (n =? 0).
Proof.
  intros Hn. destruct (Z.eqb_spec n 0) as [->|Hne]; [reflexivity|].
  change 1 with (2 ^ 0). apply Z.pow2_bits_false. lia.
Qed.

Lemma bit0_of_land (x : Z) : Z.testbit x 0 = negb (Z.land x 1 =? 0).
Proof.
  destruct (Z.eqb_spec (Z.land x 1) 0) as [E|E]; cbv [negb].
  - assert (Hl : Z.testbit (Z.land x 1) 0 = false) by (rewrite E; apply Z.bits_0).
    rewrite Z.land_spec in Hl. change (Z.testbit 1 0) with true in Hl.
    rewrite andb_true_r in Hl. exact Hl.
  - destruct (Z.testbit x 0) eqn:Hb; [reflexivity|]. exfalso. apply E.
    apply Z.bits_inj'. intros n Hn. rewrite Z.land_spec, Z.bits_0, testbit_one by lia.
    destruct (Z.eqb_spec n 0) as [->|_]; [rewrite Hb; reflexivity|apply andb_false_r].
Qed.

Lemma lor_locked_bit (x : Z) : Z.land (Z.lor x LOCKED) 1 = LOCKED.
Proof.
  unfold LOCKED. apply Z.bits_inj'. intros n Hn.
  rewrite Z.land_spec, Z.lor_spec, testbit_one by lia.
  destruct (n =? 0), (Z.testbit x n); reflexivity.
Qed.

Lemma even_word_split (x : Z) :
  Z.land x 1 = 0 -> Z.land (Z.lor x LOCKED) (Z.lnot 1) = x.
Proof.
  intros Hx. pose proof (bit0_of_land x) as Hb. rewrite Hx in Hb.
  change (negb (0 =? 0)) with false in Hb.
  unfold LOCKED. apply Z.bits_inj'. intros n Hn.
  rewrite Z.land_spec, Z.lor_spec, Z.lnot_spec, testbit_one by lia.
  destruct (Z.eqb_spec n 0) as [->|_]; [rewrite Hb; reflexivity|].
  destruct (Z.testbit x n); reflexivity.
Qed.

Lemma clear_bit0_even (x : Z) : Z.land (Z.land x (Z.lnot 1)) 1 = 0.
Proof.
  apply Z.bits_inj'. intros n Hn.
  rewrite !Z.land_spec, Z.lnot_spec, Z.bits_0, testbit_one by lia.
  destruct (n =? 0), (Z.testbit x n); reflexivity.
Qed.

Lemma locked_word_restored (x : Z) :
  Z.land x 1 = LOCKED -> Z.lor (Z.land x (Z.lnot 1)) LOCKED = x.
Proof.
  intros Hx. pose proof (bit0_of_land x) as Hb. rewrite Hx in Hb.
  change (negb (LOCKED =? 0)) with true in Hb.
  unfold LOCKED. apply Z.bits_inj'. intros n Hn.
  rewrite Z.lor_spec, Z.land_spec, Z.lnot_spec, testbit_one by lia.
  destruct (Z.eqb_spec n 0) as [->|_]; [rewrite Hb; reflexivity|].
  destruct (Z.testbit x n); reflexivity.
Qed.

(** [_PyRawMutex_lock_slow] never aborts.  It returns only from the
    compare-exchange that sets LOCKED on the word it loaded last -- the
    word it was called on, or one that another thread stored meanwhile --
    and that word had LOCKED clear: the result is that word with LOCKED
    set, so the waiter list in the other bits is kept; nothing is
    signalled and no other thread's [next_waiter] is written.  When the
    first load finds LOCKED clear and no store intervenes, it returns at
    once with LOCKED set on the word it was called on. *)
Theorem raw_lock_returns_locked (env : list raw_round) (tstate : Z) :
  forall m : prim,
  match _PyRawMutex_lock_slow env tstate m with
  | Done m' =>
      exists v1,
        (v1 = v m
         \/ exists e, e ∈ env
              /\ (raw_interfere e = Some v1 \/ raw_wake e = Some v1))
        /\ Z.land v1 1 = UNLOCKED
        /\ v m' = Z.lor v1 LOCKED
        /\ Z.land (v m') (Z.lnot 1) = v1
        /\ events m' = events m
        /\ (forall t, t <> tstate -> next_waiter m' t = next_waiter m t)
  | Fatal _ _ => False
  | _ => True
  end
  /\ (forall (e : raw_round) (rest : list raw_round),
        env = e :: rest ->
        Z.land (v m) 1 = UNLOCKED -> raw_interfere e = None ->
        _PyRawMutex_lock_slow env tstate m
        = Done (set_v (Z.lor (v m) LOCKED) m)).
Proof.
  intros m. split.
  - revert m. induction env as [|e env IH]; intros m; [exact I|].
    assert (Hstep : forall m1 : prim,
              (v m1 = v m
               \/ raw_interfere e = Some (v m1) \/ raw_wake e = Some (v m1)) ->
              events m1 = events m ->
              (forall t, t <> tstate -> next_waiter m1 t = next_waiter m t) ->
              match _PyRawMutex_lock_slow env tstate m1 with
              | Done m' =>
                  exists v1,
                    (v1 = v m
                     \/ exists e0, e0 ∈ e :: env
                          /\ (raw_interfere e0 = Some v1 \/ raw_wake e0 = Some v1))
                    /\ Z.land v1 1 = UNLOCKED
                    /\ v m' = Z.lor v1 LOCKED
                    /\ Z.land (v m') (Z.lnot 1) = v1
                    /\ events m' = events m
                    /\ (forall t, t <> tstate -> next_waiter m' t = next_waiter m t)
              | Fatal _ _ => False
              | _ => True
              end).
    { intros m1 Hv He Hw. pose proof (IH m1) as H1.
      destruct (_PyRawMutex_lock_slow env tstate m1) as [m'| | |]; try exact H1.
      destruct H1 as (v1 & Hfrom & Hu & Hv' & Hk & He' & Hw').
      exists v1. split; [|split; [exact Hu|split; [exact Hv'|split; [exact Hk|split]]]].
      - destruct Hfrom as [->|(e0 & Hin & Hor)].
        + destruct Hv as [->|Hor]; [left; reflexivity|].
          right. exists e. split; [apply elem_of_cons; left; reflexivity|exact Hor].
        + right. exists e0. split; [apply elem_of_cons; right; exact Hin|exact Hor].
      - rewrite He'. exact He.
      - intros t Ht. rewrite (Hw' t Ht). apply Hw. exact Ht. }
    assert (Hcur : default (v m) (raw_interfere e) = v m
                   \/ raw_interfere e = Some (default (v m) (raw_interfere e))).
    { destruct (raw_interfere e); [right|left]; reflexivity. }
    assert (Hnw : forall x t, t <> tstate ->
                    next_waiter (set_next_waiter tstate x m) t = next_waiter m t).
    { intros x t Ht. simpl. destruct (Z.eqb_spec t tstate); [contradiction|reflexivity]. }
    simpl. destruct (Z.eqb_spec (Z.land (v m) 1) UNLOCKED) as [Hu|Hl].
    + destruct (Z.eqb_spec (default (v m) (raw_interfere e)) (v m)) as [Ec|Nc].
      * exists (v m). simpl. split; [left; reflexivity|]. split; [exact Hu|].
        split; [reflexivity|]. split; [apply even_word_split; exact Hu|].
        split; [reflexivity|]. intros t _. reflexivity.
      * apply Hstep; [|reflexivity|intros t _; reflexivity].
        destruct Hcur as [E|E]; [contradiction|]. right. left. exact E.
    + destruct (Z.eqb_spec (default (v m) (raw_interfere e)) (v m)) as [Ec|Nc].
      * destruct (raw_wake e) as [w|] eqn:Ew; [|exact I].
        apply Hstep; [right; right; reflexivity|reflexivity|].
        intros t Ht. apply (Hnw _ t Ht).
      * apply Hstep; [|reflexivity|intros t Ht; apply (Hnw _ t Ht)].
        destruct Hcur as [E|E]; [contradiction|]. right. left. exact E.
  - intros e rest -> Hu Hnone. simpl. rewrite Hnone. simpl.
    destruct (Z.eqb_spec (Z.land (v m) 1) UNLOCKED) as [_|N]; [|contradiction].
    rewrite Z.eqb_refl. reflexivity.
Qed.

(** A thread that finds the mutex locked pushes itself in front of the
    waiter list; the owner's unlock then signals that thread, the last to
    arrive, and leaves the older waiters in the word with LOCKED clear;
    the woken thread takes the mutex and the word is as it was. *)
Theorem raw_unlock_wakes_last_waiter (tstate : Z) (m : prim) :
  tstate <> 0 -> Z.land tstate 1 = 0 -> Z.land (v m) 1 = LOCKED ->
  let older := Z.land (v m) (Z.lnot 1) in
  _PyRawMutex_unlock_slow [] (raw_enqueue tstate m)
  = Done (emit (SemaphoreSignal tstate)
               (set_v older (set_next_waiter tstate older m)))
  /\ _PyRawMutex_lock_slow
       [ {| raw_interfere := None; raw_wake := Some older |};
         {| raw_interfere := None; raw_wake := None |} ] tstate m
     = Done (set_v (v m) (set_next_waiter tstate older m)).
Proof.
  intros Hnz Heven Hlocked older. split.
  - unfold raw_enqueue. simpl. rewrite lor_locked_bit.
    change (LOCKED =? UNLOCKED) with false. cbv iota.
    rewrite (even_word_split tstate Heven).
    destruct (Z.eqb_spec tstate 0) as [|_]; [contradiction|]. simpl.
    rewrite Z.eqb_refl. reflexivity.
  - simpl. rewrite Hlocked. change (LOCKED =? UNLOCKED) with false. cbv iota.
    rewrite Z.eqb_refl.
    replace (Z.land older 1) with 0 by (symmetry; apply clear_bit0_even).
    change (0 =? UNLOCKED) with true. cbv iota.
    rewrite Z.eqb_refl. unfold set_v, raw_enqueue, set_next_waiter. simpl.
    fold older. f_equal. f_equal. apply (locked_word_restored (v m) Hlocked).
Qed.

(** [_PyRawEvent_TimedWait] returns 0 only after it has registered the
    caller and taken it out again, leaving the event unset; it returns 1
    only when its wait was ended by a signal or the word says LOCKED
    (notified). *)
Theorem raw_event_wait_sound (e : wait_env) (tstate : Z) (o o' : prim) (r : Z) :
  _PyRawEvent_TimedWait e tstate o = Returned r o' ->
  (r = 0 /\ v o = UNLOCKED /\ v o' = UNLOCKED
         /\ sem_first e <> Some PY_PARK_OK)
  \/ (r = 1 /\ (sem_first e = Some PY_PARK_OK \/ v o' = LOCKED)).
Proof.
  unfold _PyRawEvent_TimedWait.
  destruct (Z.eqb_spec (v o) UNLOCKED) as [Hu|Hn].
  - destruct (sem_first e) as [[| | |]|]; try discriminate;
      try (intros [= <- <-]; right; split; [reflexivity|left; reflexivity]);
      (destruct (v (store_by_other (stored_meanwhile e) (set_v tstate o)) =? tstate);
       [intros [= <- <-]; left; repeat split; [exact Hu|discriminate]|];
       destruct (Z.eqb_spec
                   (v (store_by_other (stored_late e)
                         (store_by_other (stored_meanwhile e) (set_v tstate o))))
                   LOCKED) as [Hl|_]; [|discriminate];
       destruct (existsb is_park_ok (sem_later e)); [|discriminate];
       intros [= <- <-]; right; split; [reflexivity|right; exact Hl]).
  - destruct (Z.eqb_spec (v (store_by_other (stored_meanwhile e) o)) LOCKED)
      as [Hl|_]; [|discriminate].
    intros [= <- <-]. right. split; [reflexivity|right; exact Hl].
Qed.

(** A wait on an unset event that times out leaves the event exactly as it
    found it and returns 0.  If the notification arrives just as the wait
    times out, it is not lost: the call waits for the signal and returns
    1 with the event set. *)
Theorem raw_event_timeout (e : wait_env) (tstate : Z) (o : prim) :
  v o = UNLOCKED -> tstate <> LOCKED ->
  sem_first e = Some PY_PARK_TIMEOUT -> stored_late e = None ->
  (stored_meanwhile e = None ->
     _PyRawEvent_TimedWait e tstate o = Returned 0 o)
  /\ (stored_meanwhile e = Some LOCKED ->
      existsb is_park_ok (sem_later e) = true ->
     _PyRawEvent_TimedWait e tstate o = Returned 1 (set_v LOCKED o)).
Proof.
  intros Hu Hts Hfirst Hlate. unfold _PyRawEvent_TimedWait.
  rewrite Hu, Hfirst, Hlate. change (UNLOCKED =? UNLOCKED) with true. cbv iota.
  split.
  - intros ->. cbn [store_by_other set_v v]. rewrite Z.eqb_refl. f_equal.
    destruct o as [vo nw ev]. cbn in Hu. subst vo. reflexivity.
  - intros -> Hok. cbn [store_by_other set_v v].
    destruct (Z.eqb_spec LOCKED tstate) as [E|_]; [congruence|].
    rewrite Z.eqb_refl, Hok. reflexivity.
Qed.

(** Once an event has been notified, a wait returns 1 at once and changes
    nothing; a wait on an event that another thread is waiting on aborts. *)
Theorem raw_event_wait_after_notify (e : wait_env) (tstate : Z) (o o' : prim) :
  stored_meanwhile e = None ->
  (_PyRawEvent_Notify o = Done o' ->
     _PyRawEvent_TimedWait e tstate o' = Returned 1 o')
  /\ (v o <> UNLOCKED -> v o <> LOCKED ->
     _PyRawEvent_TimedWait e tstate o
     = Aborted "_PyRawEvent: duplicate waiter" o).
Proof.
  intros Hnone. split.
  - intros Hnot.
    assert (Hv : v o' = LOCKED).
    { unfold _PyRawEvent_Notify in Hnot.
      destruct (v o =? UNLOCKED); [injection Hnot as <-; reflexivity|].
      destruct (v o =? LOCKED); [discriminate|].
      injection Hnot as <-. reflexivity. }
    unfold _PyRawEvent_TimedWait. rewrite Hv, Hnone. simpl. rewrite Hv. reflexivity.
  - intros Hu Hl. unfold _PyRawEvent_TimedWait. rewrite Hnone. simpl.
    destruct (Z.eqb_spec (v o) UNLOCKED) as [|_]; [contradiction|].
    destruct (Z.eqb_spec (v o) LOCKED) as [|_]; [contradiction|]. reflexivity.
Qed.

(** The thread that waits on an unset event is recorded in the word, so
    that the next notify signals exactly that thread. *)
Theorem raw_event_notify_signals_waiter (e : wait_env) (tstate : Z) (o o1 : prim) :
  tstate <> UNLOCKED -> tstate <> LOCKED ->
  v o = UNLOCKED -> stored_meanwhile e = None ->
  _PyRawEvent_TimedWait e tstate o = Hangs o1 ->
  v o1 = tstate
  /\ _PyRawEvent_Notify o1
     = Done (emit (SemaphoreSignal tstate) (set_v LOCKED o1)).
Proof.
  intros Hu Hl Hv Hnone. unfold _PyRawEvent_TimedWait. rewrite Hv, Hnone. simpl.
  destruct (sem_first e) as [[| | |]|]; try discriminate;
    try (rewrite Z.eqb_refl; discriminate).
  intros [= <-]. split; [reflexivity|].
  unfold _PyRawEvent_Notify. simpl.
  destruct (Z.eqb_spec tstate UNLOCKED) as [|_]; [contradiction|].
  destruct (Z.eqb_spec tstate LOCKED) as [|_]; [contradiction|]. reflexivity.
Qed.

Lemma event_timed_wait_result (e : park_env) (ns : Z) (o o' : prim) (r : Z) :
  _PyEvent_TimedWait e ns o = Returned r o' ->
  (r = 1 /\ v o' = LOCKED) \/ (r = 0 /\ v o' <> LOCKED).
Proof.
  unfold _PyEvent_TimedWait.
  destruct (Z.eqb_spec (v o) LOCKED) as [Hl|Hn].
  - intros [= <- <-]. left. split; [reflexivity|exact Hl].
  - set (o1 := emit _ _).
    destruct (Z.eqb_spec (v o1) HAS_PARKED) as [Hp|Hp].
    + destruct (park_wake e) as [x|].
      * intros [= <- <-]. cbn [set_v v].
        destruct (Z.eqb_spec x LOCKED) as [Hx|Hx]; [left|right];
          (split; [reflexivity|exact Hx]).
      * destruct (ns <? 0); [discriminate|]. intros [= <- <-].
        right. split; [reflexivity|]. rewrite Hp. discriminate.
    + destruct (Z.eqb_spec (v o1) LOCKED) as [Hx|Hx]; intros [= <- <-];
        [left|right]; (split; [reflexivity|exact Hx]).
Qed.

(** [_PyEvent_Wait] never aborts and returns only with the event set,
    however often its park is ended without a notification; on an event
    that is already set it returns at once and changes nothing; and when
    it parks on an event that is not set and the park is ended with the
    event set, it returns then. *)
Theorem event_wait_returns_set (env : list park_env) (o : prim) :
  match _PyEvent_Wait env o with
  | Done o' => v o' = LOCKED
  | Fatal _ _ => False
  | _ => True
  end
  /\ (forall e : park_env,
        v o = LOCKED -> _PyEvent_Wait (e :: env) o = Done o)
  /\ (forall e : park_env,
        v o = UNLOCKED \/ v o = HAS_PARKED ->
        before_cas e = None -> before_park e = None ->
        park_wake e = Some LOCKED ->
        _PyEvent_Wait (e :: env) o
        = Done (set_v LOCKED (emit (Park HAS_PARKED) (set_v HAS_PARKED o)))).
Proof.
  split; [|split].
  - revert o. induction env as [|e env IH]; intros o; simpl; [exact I|].
    destruct (_PyEvent_TimedWait e (-1) o) as [r o1| | |] eqn:E.
    + destruct (Z.eqb_spec r 0) as [->|Hr]; [apply IH|].
      destruct (event_timed_wait_result _ _ _ _ _ E) as [[_ Hv]|[Hr0 _]];
        [exact Hv|contradiction].
    + revert E. unfold _PyEvent_TimedWait.
      destruct (v o =? LOCKED); [discriminate|].
      match goal with
      | |- context [v ?x =? HAS_PARKED] => destruct (v x =? HAS_PARKED)
      end; [|discriminate].
      destruct (park_wake e); [discriminate|]. discriminate.
    + exact I.
    + exact I.
  - intros e Hl. simpl. unfold _PyEvent_TimedWait. rewrite Hl. reflexivity.
  - intros e Hv Hc Hp Hw. simpl. unfold _PyEvent_TimedWait.
    rewrite Hc, Hp, Hw. simpl.
    destruct Hv as [Hv|Hv]; rewrite Hv; cbn; rewrite ?Hv; reflexivity.
Qed.

(** A wait on an event parks only with the word at HAS_PARKED, so that a
    notify finds the mark, sets the event and unparks the waiters. *)
Theorem event_parked_waiter_is_unparked (e : park_env) (ns : Z) (o o1 : prim) :
  _PyEvent_TimedWait e ns o = Hangs o1 ->
  v o1 = HAS_PARKED
  /\ _PyEvent_Notify o1 = Done (emit (UnparkAll HAS_PARKED) (set_v LOCKED o1)).
Proof.
  unfold _PyEvent_TimedWait.
  destruct (v o =? LOCKED); [discriminate|].
  set (o2 := emit _ _).
  destruct (Z.eqb_spec (v o2) HAS_PARKED) as [Hp|Hp].
  - destruct (park_wake e); [discriminate|].
    destruct (ns <? 0); [|discriminate]. intros [= <-].
    split; [exact Hp|]. unfold _PyEvent_Notify. rewrite Hp. reflexivity.
  - destruct (v o2 =? LOCKED); discriminate.
Qed.

Section OnceTheorems.
Variable ONCE_INITIALIZED : Z.
Hypothesis initialized_not_unlocked : ONCE_INITIALIZED <> UNLOCKED.
Hypothesis initialized_not_locked : ONCE_INITIALIZED <> LOCKED.

Local Abbreviation begin_once := (_PyBeginOnce_slow ONCE_INITIALIZED).
Local Abbreviation end_once := (_PyEndOnce ONCE_INITIALIZED).

(** The first caller of [_PyBeginOnce_slow] gets 1 and holds the flag.
    After its [_PyEndOnce] every later call gets 0, whatever else happens;
    after its [_PyEndOnceFailed] the flag is as it was and the next caller
    gets 1 again. *)
Theorem once_flag_protocol (e1 : once_round) (env1 : list once_round) (o : prim) :
  v o = UNLOCKED -> once_cas1 e1 = None ->
  begin_once (e1 :: env1) o = Returned 1 (set_v LOCKED o)
  /\ (forall e2 env2,
        begin_once (e2 :: env2) (end_once (set_v LOCKED o))
        = Returned 0 (store_by_other (once_cas1 e2) (set_v ONCE_INITIALIZED o)))
  /\ _PyEndOnceFailed (set_v LOCKED o) = o
  /\ (forall e2 env2, once_cas1 e2 = None ->
        begin_once (e2 :: env2) (_PyEndOnceFailed (set_v LOCKED o))
        = Returned 1 (set_v LOCKED o)).
Proof.
  intros Hu Hnone.
  assert (Hfirst : forall e env, once_cas1 e = None ->
            begin_once (e :: env) o = Returned 1 (set_v LOCKED o)).
  { intros e env He. cbn [_PyBeginOnce_slow]. rewrite He. cbn [store_by_other].
    rewrite Hu. reflexivity. }
  assert (Hfail : _PyEndOnceFailed (set_v LOCKED o) = o).
  { unfold _PyEndOnceFailed. cbn.
    destruct o as [vo nw ev]. cbn in Hu. subst vo. reflexivity. }
  split; [apply Hfirst; exact Hnone|]. split; [|split; [exact Hfail|]].
  - intros e2 env2. unfold _PyEndOnce. cbn [set_v v].
    change (Z.land LOCKED HAS_PARKED =? 0) with true. cbn [negb].
    cbn [_PyBeginOnce_slow set_v v].
    destruct (Z.eqb_spec ONCE_INITIALIZED UNLOCKED) as [|_]; [contradiction|].
    cbn [andb]. rewrite Z.eqb_refl. reflexivity.
  - intros e2 env2 He. rewrite Hfail. apply Hfirst. exact He.
Qed.

(** A caller of [_PyBeginOnce_slow] parks only with the word at
    LOCKED|HAS_PARKED, so that both [_PyEndOnce] and [_PyEndOnceFailed]
    unpark it; woken after [_PyEndOnce] it returns 0. *)
Theorem once_waiters_unparked (env : list once_round) :
  (forall o o1, begin_once env o = Hangs o1 ->
     v o1 = Z.lor LOCKED HAS_PARKED
     /\ events (end_once o1) = events o1 ++ [UnparkAll (v o1)]
     /\ events (_PyEndOnceFailed o1) = events o1 ++ [UnparkAll (v o1)])
  /\ (forall o e2, v o = LOCKED ->
        begin_once ({| once_cas1 := None; once_cas2 := None;
                       once_wake := Some ONCE_INITIALIZED |} :: e2 :: env) o
        = Returned 0 (store_by_other (once_cas1 e2)
                        (set_v ONCE_INITIALIZED
                           (emit (Park (Z.lor LOCKED HAS_PARKED)) o)))).
Proof.
  split.
  - induction env as [|e env IH]; intros o o1; cbn [_PyBeginOnce_slow]; [discriminate|].
    destruct ((v o =? UNLOCKED) && _); [discriminate|].
    destruct (v o =? ONCE_INITIALIZED); [discriminate|].
    destruct (v _ =? v o).
    + destruct (once_wake e) as [w|]; [apply IH|].
      intros [= <-]. cbn. repeat split; reflexivity.
    + apply IH.
  - intros o e2 Hl. cbn [_PyBeginOnce_slow store_by_other once_cas1 once_cas2 once_wake].
    rewrite Hl. change (LOCKED =? UNLOCKED) with false. cbn [andb].
    destruct (Z.eqb_spec LOCKED ONCE_INITIALIZED) as [E|_]; [congruence|].
    rewrite Z.eqb_refl. cbn [set_v emit v].
    destruct (Z.eqb_spec ONCE_INITIALIZED UNLOCKED) as [|_]; [contradiction|].
    cbn [andb]. rewrite Z.eqb_refl. reflexivity.
Qed.

(** The value loaded at the top of the loop is used again after a failed
    compare-exchange.  If the flag was taken at the first compare-exchange
    and has been given back by [_PyEndOnceFailed] at the second, the
    caller writes LOCKED|HAS_PARKED over UNLOCKED and parks, although no
    thread holds the flag. *)
Theorem once_parks_on_free_flag (e : once_round) (env : list once_round)
    (o : prim) (x : Z) :
  v o = UNLOCKED ->
  once_cas1 e = Some x -> x <> UNLOCKED ->
  once_cas2 e = Some UNLOCKED -> once_wake e = None ->
  begin_once (e :: env) o
  = Hangs (emit (Park (Z.lor LOCKED HAS_PARKED))
                (set_v (Z.lor LOCKED HAS_PARKED) o)).
Proof.
  intros Hu H1 Hx H2 Hw. cbn [_PyBeginOnce_slow].
  rewrite H1, H2, Hw. cbn [store_by_other]. rewrite Hu. cbn [set_v v].
  destruct (Z.eqb_spec x UNLOCKED) as [|_]; [contradiction|].
  rewrite andb_false_r.
  destruct (Z.eqb_spec UNLOCKED ONCE_INITIALIZED) as [E|_]; [congruence|].
  rewrite Z.eqb_refl. reflexivity.
Qed.

End OnceTheorems.

Section RecursiveUnlockTheorems.

Lemma testbit_small (c n : Z) : 0 <= c < 4 -> 2 <= n -> Z.testbit c n = false.
Proof.
  intros Hc Hn. destruct (Z.eq_dec c 0) as [->|Hne]; [apply Z.bits_0|].
  apply Z.bits_above_log2; [lia|].
  apply Z.lt_le_trans with 2; [|exact Hn]. apply Z.log2_lt_pow2; lia.
Qed.

Lemma low_two_bits_clear (x n : Z) :
  Z.land x 3 = 0 -> 0 <= n < 2 -> Z.testbit x n = false.
Proof.
  intros Hx Hn.
  assert (Hl : Z.testbit (Z.land x 3) n = false) by (rewrite Hx; apply Z.bits_0).
  rewrite Z.land_spec in Hl.
  assert (H3 : Z.testbit 3 n = true).
  { assert (n = 0 \/ n = 1) as [->| ->] by lia; reflexivity. }
  rewrite H3, andb_true_r in Hl. exact Hl.
Qed.

Lemma handoff_word_owner (id : Z) (more : bool) :
  Z.land id 3 = 0 ->
  let x := Z.lor (Z.lor 0 id) LOCKED in
  let w := if more then Z.lor x HAS_PARKED else x in
  Z.land w (Z.lnot 3) = id /\ Z.land w 1 = LOCKED.
Proof.
  intros Hid x w. unfold w, x, LOCKED, HAS_PARKED. split.
  - apply Z.bits_inj'. intros n Hn.
    destruct (Z_lt_le_dec n 2) as [Hlt|Hge].
    + rewrite (low_two_bits_clear id n Hid) by lia.
      rewrite Z.land_spec, Z.lnot_spec by lia.
      assert (H3 : Z.testbit 3 n = true).
      { assert (n = 0 \/ n = 1) as [->| ->] by lia; reflexivity. }
      rewrite H3. apply andb_false_r.
    + rewrite Z.land_spec, Z.lnot_spec, (testbit_small 3 n) by lia.
      destruct more; rewrite ?Z.lor_spec, ?(testbit_small 1 n), ?(testbit_small 2 n),
        ?Z.bits_0 by lia; cbn; destruct (Z.testbit id n); reflexivity.
  - destruct more; [|apply lor_locked_bit].
    apply Z.bits_inj'. intros n Hn.
    rewrite Z.land_spec, !Z.lor_spec, !testbit_one by lia.
    destruct (Z.eqb_spec n 0) as [->|Hne].
    + rewrite orb_true_r. reflexivity.
    + apply andb_false_r.
Qed.

(** Taking the recursive mutex again as its owner (or as the finalizing
    thread) and releasing it once leaves the mutex exactly as it was: the
    word is not touched and nobody is woken. *)
Theorem rmutex_recursive_round_trip (env : list round) (env' : list Z)
    (u : unpark_env) (t : thread) (m : rmutex) :
  Z.land (rm_v m) (Z.lnot 3) = thread_id t \/ finalizing t = tstate t ->
  0 <= recursions m < 2 ^ 64 - 1 ->
  exists m1,
    _PyRecursiveMutex_lock_slow env t m = Done m1
    /\ _PyRecursiveMutex_unlock_slow env' u m1
       = Done {| u_mutex := m; u_woken := None |}.
Proof.
  intros Hown Hr. exists (rm_recurse m). split.
  - unfold _PyRecursiveMutex_lock_slow.
    destruct (Z.eqb_spec (Z.land (rm_v m) (Z.lnot 3)) (thread_id t)) as [_|Hne];
      [reflexivity|].
    destruct Hown as [Ho|Hf]; [contradiction|]. rewrite Hf, Z.eqb_refl. reflexivity.
  - unfold _PyRecursiveMutex_unlock_slow, rm_recurse, rm_unlock_recursion. cbn.
    unfold wrap64. rewrite Z.mod_small by lia.
    destruct (Z.ltb_spec 0 (recursions m + 1)) as [_|]; [|lia].
    f_equal. f_equal. destruct m as [vm rm em]. cbn. f_equal. lia.
Qed.

(** With no recursion left, [_PyRecursiveMutex_unlock_slow] aborts exactly
    when the word it loads first has LOCKED clear, as long as the other
    threads only store words with LOCKED set. *)
Theorem rmutex_unlock_fatal_iff_unlocked (env : list Z) (u : unpark_env) :
  forall m : rmutex,
  recursions m <= 0 ->
  Forall (fun cur => Z.land cur 1 = LOCKED) env ->
  (is_fatal (_PyRecursiveMutex_unlock_slow env u m) = true
   <-> Z.land (rm_v m) 1 = UNLOCKED).
Proof.
  intros m Hr. unfold _PyRecursiveMutex_unlock_slow.
  destruct (Z.ltb_spec 0 (recursions m)) as [|_]; [lia|]. clear Hr.
  revert m. induction env as [|cur env IH]; intros m Henv.
  - cbn. destruct (Z.eqb_spec (Z.land (rm_v m) 1) UNLOCKED) as [E|E].
    + split; [intros _; exact E|reflexivity].
    + destruct (Z.land (rm_v m) 2 =? HAS_PARKED); cbn; split; congruence.
  - inversion Henv as [|? ? Hcur Henv']; subst. cbn.
    destruct (Z.eqb_spec (Z.land (rm_v m) 1) UNLOCKED) as [E|E].
    + split; [intros _; exact E|reflexivity].
    + destruct (Z.land (rm_v m) 2 =? HAS_PARKED); [cbn; split; congruence|].
      destruct (cur =? rm_v m); [cbn; split; congruence|].
      rewrite (IH (rm_set_v cur m) Henv'). cbn. rewrite Hcur.
      unfold LOCKED, UNLOCKED. split; [discriminate|contradiction].
Qed.

(** Fair handoff: when waiters are parked and the parking lot asks for
    fairness, the unlock writes the woken thread's id and LOCKED into the
    word (with HAS_PARKED if more threads wait), so the mutex is never
    free in between; the woken thread returns from its park in
    [_PyRecursiveMutex_lock_slow] as the owner, without writing the word. *)
Theorem rmutex_fair_handoff (env : list Z) (env2 : list round) (u : unpark_env)
    (p : parked) (m : rmutex) :
  recursions m <= 0 ->
  Z.land (rm_v m) 1 = LOCKED -> Z.land (rm_v m) 2 = HAS_PARKED ->
  Z.land (rm_v m) (Z.lnot 3) <> p_fast_thread_id p ->
  first_parked u = Some p -> should_be_fair u = true ->
  Z.land (p_fast_thread_id p) 3 = 0 ->
  let x := Z.lor (Z.lor 0 (p_fast_thread_id p)) LOCKED in
  let w := if more_waiters u then Z.lor x HAS_PARKED else x in
  _PyRecursiveMutex_unlock_slow env u m
  = Done {| u_mutex := rm_set_v w m; u_woken := Some (p_tstate p, true) |}
  /\ Z.land w (Z.lnot 3) = p_fast_thread_id p
  /\ Z.land w 1 = LOCKED
  /\ forall t, thread_id t = p_fast_thread_id p -> finalizing t <> tstate t ->
       _PyRecursiveMutex_lock_slow
         ({| interfere := None; park_ret := PY_PARK_OK;
             handoff_elem := true; wake_v := w |} :: env2) t m
       = Done (rm_set_v w (rm_emit (Park (rm_v m)) m)).
Proof.
  intros Hr Hl Hp Hother Hfirst Hfair Hid x w.
  destruct (handoff_word_owner (p_fast_thread_id p) (more_waiters u) Hid) as [Hown Hlock].
  fold x in Hown, Hlock. fold w in Hown, Hlock.
  split; [|split; [exact Hown|split; [exact Hlock|]]].
  - unfold _PyRecursiveMutex_unlock_slow.
    destruct (Z.ltb_spec 0 (recursions m)) as [|_]; [lia|].
    destruct env as [|cur env]; cbn; rewrite Hl, Hp, Hfirst, Hfair; reflexivity.
  - intros t Ht Hfin. unfold _PyRecursiveMutex_lock_slow. rewrite Ht.
    destruct (Z.eqb_spec (Z.land (rm_v m) (Z.lnot 3)) (p_fast_thread_id p)) as [|_];
      [contradiction|].
    destruct (Z.eqb_spec (finalizing t) (tstate t)) as [|_]; [contradiction|].
    cbn [lock_loop]. rewrite Hl. change (LOCKED =? UNLOCKED) with false. cbv iota.
    change (Z.land (rm_v m) HAS_PARKED) with (Z.land (rm_v m) 2).
    rewrite Hp. change (HAS_PARKED =? 0) with false. cbv iota.
    unfold park_then. cbn. reflexivity.
Qed.

End RecursiveUnlockTheorems.

End SyncTheorems.

Lemma raw_unlock_wakes_last_waiter_witness :
  let m := {| Lock.v := 1; Lock.next_waiter := fun _ => 0; Lock.events := [] |} in
  Lock._PyRawMutex_unlock_slow [] (Sync.raw_enqueue 4096 m)
  = Done (Lock.emit (Lock.SemaphoreSignal 4096)
            (Lock.set_v 0 (Sync.set_next_waiter 4096 0 m))).
Proof.
  intros m.
  exact (proj1 (raw_unlock_wakes_last_waiter 4096 m ltac:(discriminate)
                  ltac:(reflexivity) ltac:(reflexivity))).
Defined.

Lemma raw_event_wait_sound_witness :
  let o := Sync.idle_prim in
  let e := {| Sync.sem_first := Some Lock.PY_PARK_TIMEOUT;
              Sync.stored_meanwhile := None; Sync.stored_late := None;
              Sync.sem_later := [] |} in
  Sync._PyRawEvent_TimedWait e 4096 o = Sync.Returned 0 o
  /\ ((0 = 0 /\ Lock.v o = Lock.UNLOCKED /\ Lock.v o = Lock.UNLOCKED
       /\ Sync.sem_first e <> Some Lock.PY_PARK_OK)
      \/ (0 = 1 /\ (Sync.sem_first e = Some Lock.PY_PARK_OK \/ Lock.v o = Lock.LOCKED))).
Proof.
  intros o e. split; [reflexivity|].
  exact (raw_event_wait_sound e 4096 o o 0 eq_refl).
Defined.

Lemma raw_event_timeout_witness :
  let o := Sync.idle_prim in
  Sync._PyRawEvent_TimedWait
    {| Sync.sem_first := Some Lock.PY_PARK_TIMEOUT;
       Sync.stored_meanwhile := Some Lock.LOCKED; Sync.stored_late := None;
       Sync.sem_later := [Lock.PY_PARK_INTR; Lock.PY_PARK_OK] |} 4096 o
  = Sync.Returned 1 (Lock.set_v Lock.LOCKED o).
Proof.
  intros o.
  exact (proj2 (raw_event_timeout
                  {| Sync.sem_first := Some Lock.PY_PARK_TIMEOUT;
                     Sync.stored_meanwhile := Some Lock.LOCKED;
                     Sync.stored_late := None;
                     Sync.sem_later := [Lock.PY_PARK_INTR; Lock.PY_PARK_OK] |}
                  4096 o eq_refl ltac:(discriminate) eq_refl eq_refl)
               eq_refl eq_refl).
Defined.

Lemma raw_event_wait_after_notify_witness :
  let o := Sync.idle_prim in
  let e := {| Sync.sem_first := None; Sync.stored_meanwhile := None;
              Sync.stored_late := None; Sync.sem_later := [] |} in
  Lock._PyRawEvent_Notify o = Done (Lock.set_v Lock.LOCKED o)
  /\ Sync._PyRawEvent_TimedWait e 4096 (Lock.set_v Lock.LOCKED o)
     = Sync.Returned 1 (Lock.set_v Lock.LOCKED o).
Proof.
  intros o e. split; [reflexivity|].
  exact (proj1 (raw_event_wait_after_notify e 4096 o (Lock.set_v Lock.LOCKED o) eq_refl)
               eq_refl).
Defined.

Lemma raw_event_notify_signals_waiter_witness :
  let o := Sync.idle_prim in
  let e := {| Sync.sem_first := None; Sync.stored_meanwhile := None;
              Sync.stored_late := None; Sync.sem_later := [] |} in
  Sync._PyRawEvent_TimedWait e 4096 o = Sync.Hangs (Lock.set_v 4096 o)
  /\ Lock.v (Lock.set_v 4096 o) = 4096
  /\ Lock._PyRawEvent_Notify (Lock.set_v 4096 o)
     = Done (Lock.emit (Lock.SemaphoreSignal 4096)
               (Lock.set_v Lock.LOCKED (Lock.set_v 4096 o))).
Proof.
  intros o e. split; [reflexivity|].
  exact (raw_event_notify_signals_waiter e 4096 o (Lock.set_v 4096 o)
           ltac:(discriminate) ltac:(discriminate) eq_refl eq_refl eq_refl).
Defined.

Lemma raw_lock_returns_locked_witness :
  let m := Lock.set_v 4096 Sync.idle_prim in
  let quiet := {| Sync.raw_interfere := None; Sync.raw_wake := None |} in
  Sync._PyRawMutex_lock_slow [quiet] 8192 m = Done (Lock.set_v 4097 m).
Proof.
  intros m quiet.
  apply (proj2 (raw_lock_returns_locked [quiet] 8192 m) quiet []);
    reflexivity.
Defined.

Lemma event_wait_returns_set_witness :
  let o := Sync.idle_prim in
  let spurious := {| Sync.before_cas := None; Sync.before_park := None;
                     Sync.park_wake := Some Lock.HAS_PARKED |} in
  let notified := {| Sync.before_cas := None; Sync.before_park := None;
                     Sync.park_wake := Some Lock.LOCKED |} in
  let o1 := Lock.set_v Lock.LOCKED
              (Lock.emit (Lock.Park Lock.HAS_PARKED)
                 (Lock.set_v Lock.HAS_PARKED o)) in
  Sync._PyEvent_Wait [notified] o = Done o1
  /\ Sync._PyEvent_Wait [spurious] o1 = Done o1
  /\ match Sync._PyEvent_Wait [spurious; notified] o with
     | Done o' => Lock.v o' = Lock.LOCKED
     | Fatal _ _ => False
     | _ => True
     end.
Proof.
  intros o spurious notified o1.
  split; [|split].
  - apply (proj2 (proj2 (event_wait_returns_set [] o)) notified);
      [left; reflexivity|reflexivity|reflexivity|reflexivity].
  - apply (proj1 (proj2 (event_wait_returns_set [] o1)) spurious). reflexivity.
  - exact (proj1 (event_wait_returns_set [spurious; notified] o)).
Defined.

Lemma event_parked_waiter_is_unparked_witness :
  let o := Sync.idle_prim in
  let e := {| Sync.before_cas := None; Sync.before_park := None;
              Sync.park_wake := None |} in
  let o1 := Lock.emit (Lock.Park Lock.HAS_PARKED) (Lock.set_v Lock.HAS_PARKED o) in
  Sync._PyEvent_TimedWait e (-1) o = Sync.Hangs o1
  /\ Lock.v o1 = Lock.HAS_PARKED
  /\ Lock._PyEvent_Notify o1
     = Done (Lock.emit (Lock.UnparkAll Lock.HAS_PARKED) (Lock.set_v Lock.LOCKED o1)).
Proof.
  intros o e o1. split; [reflexivity|].
  exact (event_parked_waiter_is_unparked e (-1) o o1 eq_refl).
Defined.

Lemma once_flag_protocol_witness :
  let o := Sync.idle_prim in
  let quiet := {| Sync.once_cas1 := None; Sync.once_cas2 := None;
                  Sync.once_wake := None |} in
  Sync._PyBeginOnce_slow 4 [quiet] o = Sync.Returned 1 (Lock.set_v Lock.LOCKED o)
  /\ Sync._PyBeginOnce_slow 4 [quiet] (Sync._PyEndOnce 4 (Lock.set_v Lock.LOCKED o))
     = Sync.Returned 0 (Lock.set_v 4 o)
  /\ Sync._PyBeginOnce_slow 4 [quiet] (Sync._PyEndOnceFailed (Lock.set_v Lock.LOCKED o))
     = Sync.Returned 1 (Lock.set_v Lock.LOCKED o).
Proof.
  intros o quiet.
  destruct (once_flag_protocol 4 ltac:(discriminate) quiet [] o eq_refl eq_refl)
    as (Hfirst & Hdone & _ & Hagain).
  split; [exact Hfirst|]. split; [exact (Hdone quiet [])|exact (Hagain quiet [] eq_refl)].
Defined.

Lemma once_waiters_unparked_witness :
  let o := Lock.set_v Lock.LOCKED Sync.idle_prim in
  let quiet := {| Sync.once_cas1 := None; Sync.once_cas2 := None;
                  Sync.once_wake := None |} in
  let o1 := Lock.emit (Lock.Park 3) (Lock.set_v 3 o) in
  Sync._PyBeginOnce_slow 4 [quiet] o = Sync.Hangs o1
  /\ Lock.events (Sync._PyEndOnce 4 o1) = [Lock.Park 3; Lock.UnparkAll 3]
  /\ Lock.events (Sync._PyEndOnceFailed o1) = [Lock.Park 3; Lock.UnparkAll 3].
Proof.
  intros o quiet o1. split; [reflexivity|].
  exact (proj2 (proj1 (once_waiters_unparked 4 ltac:(discriminate) ltac:(discriminate)
                         [quiet]) o o1 eq_refl)).
Defined.

Lemma once_parks_on_free_flag_witness :
  let o := Sync.idle_prim in
  Sync._PyBeginOnce_slow 4
    [ {| Sync.once_cas1 := Some Lock.LOCKED; Sync.once_cas2 := Some Lock.UNLOCKED;
         Sync.once_wake := None |} ] o
  = Sync.Hangs (Lock.emit (Lock.Park 3) (Lock.set_v 3 o)).
Proof.
  intros o.
  exact (once_parks_on_free_flag 4 ltac:(discriminate)
           {| Sync.once_cas1 := Some Lock.LOCKED; Sync.once_cas2 := Some Lock.UNLOCKED;
              Sync.once_wake := None |} [] o Lock.LOCKED
           eq_refl eq_refl ltac:(discriminate) eq_refl eq_refl).
Defined.

Lemma rmutex_recursive_round_trip_witness :
  let m := {| Lock.rm_v := 4097; Lock.recursions := 0; Lock.rm_events := [] |} in
  let t := {| Lock.thread_id := 4096; Lock.tstate := 77; Lock.finalizing := 0 |} in
  let u := {| Sync.first_parked := None; Sync.more_waiters := false;
              Sync.should_be_fair := false |} in
  exists m1,
    Lock._PyRecursiveMutex_lock_slow [] t m = Done m1
    /\ Sync._PyRecursiveMutex_unlock_slow [] u m1
       = Done {| Sync.u_mutex := m; Sync.u_woken := None |}.
Proof.
  intros m t u.
  exact (rmutex_recursive_round_trip [] [] u t m (or_introl eq_refl)
           ltac:(simpl; lia)).
Defined.

Lemma rmutex_unlock_fatal_iff_unlocked_witness :
  let free := {| Lock.rm_v := 0; Lock.recursions := 0; Lock.rm_events := [] |} in
  let u := {| Sync.first_parked := None; Sync.more_waiters := false;
              Sync.should_be_fair := false |} in
  is_fatal (Sync._PyRecursiveMutex_unlock_slow [4097] u free) = true
  <-> Z.land (Lock.rm_v free) 1 = Lock.UNLOCKED.
Proof.
  intros free u.
  exact (rmutex_unlock_fatal_iff_unlocked [4097] u free ltac:(simpl; lia)
           ltac:(repeat constructor)).
Defined.

Lemma rmutex_fair_handoff_witness :
  let m := {| Lock.rm_v := 4099; Lock.recursions := 0; Lock.rm_events := [] |} in
  let p := {| Sync.p_tstate := 99; Sync.p_fast_thread_id := 8192 |} in
  let u := {| Sync.first_parked := Some p; Sync.more_waiters := true;
              Sync.should_be_fair := true |} in
  let t := {| Lock.thread_id := 8192; Lock.tstate := 99; Lock.finalizing := 0 |} in
  Sync._PyRecursiveMutex_unlock_slow [] u m
  = Done {| Sync.u_mutex := Lock.rm_set_v 8195 m; Sync.u_woken := Some (99, true) |}
  /\ Lock._PyRecursiveMutex_lock_slow
       [ {| Lock.interfere := None; Lock.park_ret := Lock.PY_PARK_OK;
            Lock.handoff_elem := true; Lock.wake_v := 8195 |} ] t m
     = Done (Lock.rm_set_v 8195 (Lock.rm_emit (Lock.Park 4099) m)).
Proof.
  intros m p u t.
  destruct (rmutex_fair_handoff [] [] u p m ltac:(simpl; lia) eq_refl eq_refl
              ltac:(discriminate) eq_refl eq_refl eq_refl)
    as (Hunlock & _ & _ & Hlock).
  split; [exact Hunlock|]. exact (Hlock t eq_refl ltac:(discriminate)).
Defined.

(** ** Lists after the mark phase *)

Section ListTheorems.
Import GC Lists.
Context {L : Layout}.
Hypothesis LOK : layout_ok.

Local Abbreviation SH := _PyGC_PREV_SHIFT.
Local Abbreviation pw h a := (_gc_prev (head_at h a)).
Local Abbreviation nx h a := (_gc_next (head_at h a)).

Lemma gc_list_size_loop_spec (h : gmap Z PyGC_Head) (head : Z) (l : list Z) :
  forall gc n fuel,
  chain_from h gc l head -> head ∉ l -> (length l < fuel)%nat ->
  gc_list_size_loop fuel head gc h n = Done (n + Z.of_nat (length l)).
Proof.
  induction l as [|x l IH]; intros gc n fuel Hc Hh Hf; (destruct fuel as [|fuel]; [simpl in Hf; lia|]).
  - simpl in Hc. subst gc. simpl. rewrite Z.eqb_refl. f_equal. lia.
  - destruct Hc as [-> Hc]. simpl gc_list_size_loop.
    destruct (Z.eqb_spec x head) as [E|_].
    + exfalso. apply Hh. rewrite E. left.
    + rewrite (IH _ (n + 1) fuel Hc); [f_equal; simpl length; lia| |simpl in Hf; lia].
      intros Hin. apply Hh. right. exact Hin.
Qed.

(** [gc_list_size] counts the nodes of a list and [gc_list_is_empty] says
    whether there are none; the walk ends after as many steps as the list
    has nodes. *)
Theorem gc_list_size_length (h : gmap Z PyGC_Head) (head : Z) (l : list Z)
    (fuel : nat) :
  is_gc_list h head l -> (length l < fuel)%nat ->
  gc_list_size fuel head h = Done (Z.of_nat (length l))
  /\ (gc_list_is_empty h head = true <-> l = []).
Proof.
  intros [Hc Hnd] Hf. apply NoDup_cons in Hnd as [Hh _]. split.
  - unfold gc_list_size. rewrite (gc_list_size_loop_spec h head l _ 0 fuel Hc Hh Hf).
    reflexivity.
  - unfold gc_list_is_empty. destruct l as [|x l].
    + simpl in Hc. unfold GC_NEXT in Hc. rewrite Hc, Z.eqb_refl. split; reflexivity.
    + destruct Hc as [Hx _]. unfold GC_NEXT in Hx. rewrite Hx.
      destruct (Z.eqb_spec x head) as [E|_].
      * exfalso. apply Hh. rewrite E. left.
      * split; discriminate.
Qed.


Lemma dlist_frame (h h' : gmap Z PyGC_Head) (head : Z) (l : list Z) :
  (forall a, a ∈ head :: l -> head_at h' a = head_at h a) ->
  dlist h head l -> dlist h' head l.
Proof.
  intros Hf D. split.
  - apply (dl_nodup _ _ _ D).
  - apply (dl_addr _ _ _ D).
  - apply (links_frame h); [|apply (dl_next _ _ _ D)]. intros x Hx. rewrite Hf; auto.
  - apply (plinks_frame h); [|apply (dl_prev _ _ _ D)].
    intros x Hx. unfold GC_PREV. rewrite Hf; [reflexivity|right; exact Hx].
  - rewrite Hf by left. apply (dl_last _ _ _ D).
  - intros a Ha. rewrite Hf by (right; exact Ha). apply (dl_words _ _ _ D a Ha).
Qed.

Lemma dlist_last_addr (h : gmap Z PyGC_Head) (head : Z) (l : list Z) :
  dlist h head l -> aligned_address (List.last l head) /\ List.last l head ∈ head :: l.
Proof.
  intros D. pose proof (last_cons_in l head) as Hin.
  split; [apply (dl_addr _ _ _ D); exact Hin|exact Hin].
Qed.

(** Writing a pointer over the pointer part of a header keeps its flags. *)
Lemma set_prev_pointer (h : gmap Z PyGC_Head) (g p : Z) :
  valid_word (pw h g) -> aligned_address p ->
  let h' := _PyGCHead_SET_PREV g p h in
  GC_PREV h' g = p /\ flags_of h' g = flags_of h g /\ valid_word (pw h' g)
  /\ (forall a, a <> g -> head_at h' a = head_at h a)
  /\ (forall a, nx h' a = nx h a).
Proof.
  intros Hw Hp h'. pose proof (mod_range LOK (pw h g)) as Hf.
  assert (E : pw h' g = pack 64 SH (p / 2 ^ SH) (pw h g mod 2 ^ SH)).
  { unfold h', _PyGCHead_SET_PREV. rewrite prev_store_prev, decide_True by reflexivity.
    apply (set_prev_word LOK); assumption. }
  split; [|split; [|split; [|split]]].
  - unfold GC_PREV. rewrite E. apply (address_land_mask LOK); assumption.
  - unfold flags_of. rewrite E. apply (mod_pack LOK). exact Hf.
  - rewrite E. apply (pack_valid LOK).
  - intros a Ha. unfold h', _PyGCHead_SET_PREV, store_prev.
    apply head_at_insert_ne. congruence.
  - intros a. unfold h', _PyGCHead_SET_PREV. apply next_store_prev.
Qed.

(** On a list head, which has no flags, it writes the pointer itself. *)
Lemma set_prev_head (h : gmap Z PyGC_Head) (g p q : Z) :
  pw h g = q -> aligned_address q -> aligned_address p ->
  pw (_PyGCHead_SET_PREV g p h) g = p.
Proof.
  intros Hq Haq Hp. unfold _PyGCHead_SET_PREV.
  rewrite prev_store_prev, decide_True by reflexivity.
  rewrite (set_prev_word LOK); [|rewrite Hq; apply address_valid; exact Haq|exact Hp].
  rewrite Hq, (address_low q Haq).
  destruct (address_pack LOK p 0 Hp) as [E _]; [pose proof (pow_SH_pos LOK); lia|].
  rewrite E. lia.
Qed.


Lemma gc_list_append_lists (h : gmap Z PyGC_Head) (head node : Z) (l : list Z) :
  dlist h head l -> node ∉ head :: l ->
  aligned_address node -> valid_word (pw h node) ->
  let h' := gc_list_append node head h in
  dlist h' head (l ++ [node])
  /\ flags_of h' node = flags_of h node
  /\ (forall a, a <> node -> a <> head -> pw h' a = pw h a)
  /\ (forall a, a ∉ node :: head :: l -> head_at h' a = head_at h a).
Proof.
  intros D Hnode Han Hw.
  pose proof (dl_nodup _ _ _ D) as Hnd.
  destruct (dlist_last_addr h head l D) as [Hla Hlin].
  assert (Hnh : node <> head) by (intros ->; apply Hnode; left).
  assert (Hnl : forall x, x ∈ head :: l -> x <> node) by (intros x Hx ->; contradiction).
  unfold gc_list_append. cbv zeta. rewrite (dl_last _ _ _ D).
  set (lst := List.last l head) in *.
  destruct (set_prev_pointer h node lst Hw Hla) as (Hgp & Hfl & Hvw & Hfr1 & Hnx1).
  set (h1 := _PyGCHead_SET_PREV node lst h) in *.
  set (h2 := _PyGCHead_SET_NEXT lst node h1) in *.
  set (h3 := _PyGCHead_SET_NEXT node head h2) in *.
  set (h' := store_prev head node h3).
  assert (Hpw' : forall a, a <> head -> pw h' a = pw h1 a).
  { intros a Ha. unfold h'. rewrite prev_store_prev, decide_False by exact Ha.
    unfold h3, h2, _PyGCHead_SET_NEXT. rewrite !prev_store_next. reflexivity. }
  assert (Hnx' : forall a, nx h' a = nx h3 a) by (intros a; apply next_store_prev).
  split; [|split; [|split]].
  - split.
    + apply NoDup_cons in Hnd as [Hh Hl]. apply NoDup_cons. split.
      * intros Hin. apply elem_of_app in Hin as [Hin|Hin]; [contradiction|].
        apply list_elem_of_singleton in Hin. congruence.
      * apply NoDup_app. split; [exact Hl|]. split; [|apply NoDup_singleton].
        intros x Hx Hx'. apply list_elem_of_singleton in Hx'. subst x.
        apply Hnode. right. exact Hx.
    + intros a Ha. apply elem_of_cons in Ha as [->|Ha]; [apply (dl_addr _ _ _ D); left|].
      apply elem_of_app in Ha as [Ha|Ha]; [apply (dl_addr _ _ _ D); right; exact Ha|].
      apply list_elem_of_singleton in Ha. subst a. exact Han.
    + apply (links_frame h3); [intros x _; apply Hnx'|].
      change (head :: l ++ [node]) with ((head :: l) ++ [node]).
      apply links_app. split.
      * simpl hd. apply (links_frame h2).
        { intros x Hx. unfold h3, _PyGCHead_SET_NEXT. rewrite next_store_next.
          rewrite decide_False by (apply Hnl; exact Hx). reflexivity. }
        unfold h2, _PyGCHead_SET_NEXT, lst.
        apply (links_set_last h1 l head head node Hnd).
        apply (links_frame h); [intros x _; apply Hnx1|]. apply (dl_next _ _ _ D).
      * simpl. split; [|trivial]. unfold h3, _PyGCHead_SET_NEXT.
        rewrite next_store_next, decide_True by reflexivity. reflexivity.
    + apply plinks_app. split.
      * apply (plinks_frame h); [|apply (dl_prev _ _ _ D)].
        intros x Hx. unfold GC_PREV.
        assert (Hxh : x <> head).
        { intros ->. apply NoDup_cons in Hnd as [Hh _]. contradiction. }
        rewrite Hpw' by exact Hxh. rewrite Hfr1; [reflexivity|].
        apply Hnl. right. exact Hx.
      * simpl. split; [|trivial]. unfold GC_PREV. rewrite Hpw' by exact Hnh. exact Hgp.
    + unfold h'. rewrite prev_store_prev, decide_True by reflexivity.
      symmetry. apply last_app_single.
    + intros a Ha. assert (Hah : a <> head).
      { intros ->. apply elem_of_app in Ha as [Ha|Ha].
        - apply NoDup_cons in Hnd as [Hh _]. contradiction.
        - apply list_elem_of_singleton in Ha. congruence. }
      rewrite Hpw' by exact Hah.
      apply elem_of_app in Ha as [Ha|Ha].
      * rewrite Hfr1 by (apply Hnl; right; exact Ha). apply (dl_words _ _ _ D a Ha).
      * apply list_elem_of_singleton in Ha. subst a. exact Hvw.
  - unfold flags_of. rewrite Hpw' by exact Hnh. exact Hfl.
  - intros a Han' Hah. rewrite Hpw' by exact Hah. rewrite Hfr1 by exact Han'. reflexivity.
  - intros a Ha.
    assert (Ha1 : a <> node) by (intros ->; apply Ha; left).
    assert (Ha2 : a <> head) by (intros ->; apply Ha; right; left).
    assert (Ha3 : a <> lst).
    { intros ->. apply Ha. right. exact Hlin. }
    unfold h', store_prev. rewrite head_at_insert_ne by congruence.
    unfold h3, _PyGCHead_SET_NEXT, store_next. rewrite head_at_insert_ne by congruence.
    unfold h2, _PyGCHead_SET_NEXT, store_next. rewrite head_at_insert_ne by congruence.
    apply Hfr1. exact Ha1.
Qed.

(** [gc_list_append] puts the node behind the last node of a well-formed
    list: the list stays well formed -- both directions --, the node keeps
    its flags and no header outside the list and the node is written. *)
Theorem gc_list_append_spec (h : gmap Z PyGC_Head) (head node : Z) (l : list Z) :
  dlist h head l -> node ∉ head :: l ->
  aligned_address node -> valid_word (pw h node) ->
  let h' := gc_list_append node head h in
  dlist h' head (l ++ [node])
  /\ flags_of h' node = flags_of h node
  /\ (forall a, a <> node -> a <> head -> pw h' a = pw h a)
  /\ (forall a, a ∉ node :: head :: l -> head_at h' a = head_at h a).
Proof. exact (gc_list_append_lists h head node l). Qed.


Lemma store_next_prev_commute (h : gmap Z PyGC_Head) (a b x y : Z) :
  a <> b ->
  store_next a x (store_prev b y h) = store_prev b y (store_next a x h).
Proof.
  intros Hab. unfold store_next, store_prev.
  rewrite !head_at_insert_ne by congruence.
  apply insert_insert_ne. congruence.
Qed.

(** Taking a node out of a well-formed list. *)
Lemma unlink_spec (h : gmap Z PyGC_Head) (head node : Z) (la lb : list Z) :
  dlist h head (la ++ node :: lb) ->
  let pv := GC_PREV h node in
  let nn := GC_NEXT h node in
  let h2 := _PyGCHead_SET_PREV nn pv (_PyGCHead_SET_NEXT pv nn h) in
  dlist h2 head (la ++ lb)
  /\ head_at h2 node = head_at h node
  /\ (forall a, flags_of h2 a = flags_of h a)
  /\ (forall a, a ∉ head :: la ++ node :: lb -> head_at h2 a = head_at h a).
Proof.
  intros D pv nn h2.
  pose proof (dl_nodup _ _ _ D) as Hnd.
  pose proof (dl_next _ _ _ D) as Hl.
  change (head :: la ++ node :: lb) with ((head :: la) ++ node :: lb) in Hl, Hnd.
  apply links_app in Hl as [Hla Hlb]. simpl hd in Hla.
  destruct Hlb as [Hnn Hlb].
  pose proof (dl_prev _ _ _ D) as Hp. apply plinks_app in Hp as [Hpa Hpb].
  destruct Hpb as [Hpv Hpb].
  assert (Epv : pv = List.last la head) by exact Hpv.
  assert (Enn : nn = hd head lb) by exact Hnn.
  apply NoDup_app in Hnd as (Hnd1 & Hdis & Hnd2).
  apply NoDup_cons in Hnd2 as [Hnlb Hndb].
  assert (Hpv_in : pv ∈ head :: la) by (rewrite Epv; apply last_cons_in).
  assert (Hnn_in : nn ∈ head :: lb).
  { rewrite Enn. destruct lb; simpl; [left|right; left]. }
  assert (Hnode_a : node ∉ head :: la).
  { intros Hin. apply (Hdis node Hin). left. }
  assert (Hnpv : node <> pv) by (intros E; apply Hnode_a; rewrite E; exact Hpv_in).
  assert (Hhead_b : head ∉ lb).
  { intros Hin. apply (Hdis head); [left|right; exact Hin]. }
  assert (Hnnn : node <> nn).
  { intros E. rewrite <- E in Hnn_in. apply elem_of_cons in Hnn_in as [->|Hin].
    - apply Hnode_a. left.
    - contradiction. }
  assert (Haddr : forall a, a ∈ head :: la ++ node :: lb -> aligned_address a)
    by apply (dl_addr _ _ _ D).
  assert (Hapv : aligned_address pv).
  { apply Haddr. apply elem_of_cons in Hpv_in as [->|Hin]; [left|right].
    apply elem_of_app; left; exact Hin. }
  assert (Hanode : aligned_address node).
  { apply Haddr. right. apply elem_of_app; right; left. }
  set (h1 := _PyGCHead_SET_NEXT pv nn h) in *.
  assert (Hh1 : forall a, pw h1 a = pw h a) by (intros a; apply prev_store_next).
  assert (Hn1 : forall a, a <> pv -> nx h1 a = nx h a).
  { intros a Ha. unfold h1, _PyGCHead_SET_NEXT. rewrite next_store_next.
    rewrite decide_False by exact Ha. reflexivity. }
  assert (Hn2 : forall a, nx h2 a = nx h1 a).
  { intros a. unfold h2, _PyGCHead_SET_PREV. apply next_store_prev. }
  assert (Hf2 : forall a, a <> nn -> head_at h2 a = head_at h1 a).
  { intros a Ha. unfold h2, _PyGCHead_SET_PREV, store_prev.
    apply head_at_insert_ne. congruence. }
  assert (Hf1 : forall a, a <> pv -> head_at h1 a = head_at h a).
  { intros a Ha. unfold h1, _PyGCHead_SET_NEXT, store_next.
    apply head_at_insert_ne. congruence. }
  (* the next chain *)
  assert (Hlinks : links h2 (head :: la ++ lb) head).
  { apply (links_frame h1); [intros x _; apply Hn2|].
    change (head :: la ++ lb) with ((head :: la) ++ lb).
    apply links_app. split.
    - rewrite <- Enn. unfold h1, _PyGCHead_SET_NEXT. rewrite Epv.
      apply (links_set_last h la head node nn Hnd1 Hla).
    - apply (links_frame h); [|exact Hlb].
      intros x Hx. apply Hn1. intros ->. apply (Hdis pv Hpv_in). right. exact Hx. }
  (* the word of the node behind *)
  assert (Hnn_word :
    GC_PREV h2 nn = pv /\ flags_of h2 nn = flags_of h nn
    /\ (nn = head -> pw h2 head = pv)
    /\ (nn <> head -> valid_word (pw h2 nn))).
  { destruct lb as [|y lb'].
    - simpl in Enn.
      assert (Eh : pw h1 nn = node).
      { rewrite Hh1, Enn, (dl_last _ _ _ D). apply last_app_single. }
      assert (E2 : pw h2 nn = pv) by (apply (set_prev_head h1 nn pv node Eh Hanode Hapv)).
      split; [unfold GC_PREV; rewrite E2; apply (address_raw_mask LOK); exact Hapv|].
      split; [|split; [intros _; rewrite <- Enn; exact E2|intros Hc; contradiction]].
      unfold flags_of. rewrite E2. rewrite <- Hh1, Eh.
      rewrite (address_low pv Hapv), (address_low node Hanode). reflexivity.
    - simpl in Enn.
      assert (Hw : valid_word (pw h1 nn)).
      { rewrite Hh1. apply (dl_words _ _ _ D). rewrite Enn.
        apply elem_of_app; right; right; left. }
      destruct (set_prev_pointer h1 nn pv Hw Hapv) as (Hg & Hfl & Hv & _ & _).
      fold h2 in Hg, Hfl, Hv.
      split; [exact Hg|]. split; [|split; [|intros _; exact Hv]].
      + rewrite Hfl. unfold flags_of. rewrite Hh1. reflexivity.
      + intros E. exfalso. apply Hhead_b. rewrite <- E, Enn. left. }
  destruct Hnn_word as (Hgnn & Hflnn & Hnnhead & Hnnvalid).
  split; [|split; [|split]].
  - split.
    + change (head :: la ++ lb) with ((head :: la) ++ lb).
      apply NoDup_app. split; [exact Hnd1|]. split; [|exact Hndb].
      intros x Hx Hx'. apply (Hdis x Hx). right. exact Hx'.
    + intros a Ha. apply Haddr. apply elem_of_cons in Ha as [->|Ha]; [left|right].
      apply elem_of_app in Ha as [Ha|Ha]; apply elem_of_app; [left|right; right]; exact Ha.
    + exact Hlinks.
    + apply plinks_app. split.
      * apply (plinks_frame h); [|exact Hpa].
        intros x Hx. unfold GC_PREV. rewrite Hf2, Hh1; [reflexivity|].
        intros ->. apply elem_of_cons in Hnn_in as [E|Hin].
        -- apply NoDup_cons in Hnd1 as [Hh _]. apply Hh. rewrite <- E. exact Hx.
        -- apply (Hdis nn); [right; exact Hx|right; exact Hin].
      * rewrite <- Epv. destruct lb as [|y lb']; [exact I|].
        simpl in Enn. destruct Hpb as [_ Hpb']. simpl. split.
        -- rewrite <- Enn. exact Hgnn.
        -- apply (plinks_frame h); [|exact Hpb'].
           intros x Hx. unfold GC_PREV. rewrite Hf2, Hh1; [reflexivity|].
           intros ->. rewrite Enn in Hx. apply NoDup_cons in Hndb as [Hy _]. contradiction.
    + destruct lb as [|y lb'].
      * simpl in Enn. rewrite app_nil_r. rewrite (Hnnhead Enn). exact Epv.
      * simpl in Enn. rewrite Hf2, Hh1.
        2:{ intros E. apply Hhead_b. rewrite E, Enn. left. }
        rewrite (dl_last _ _ _ D).
        rewrite !last_app_r by discriminate.
        rewrite last_cons. apply last_default_irrelevant. discriminate.
    + intros a Ha. destruct (Z.eq_dec a nn) as [->|Hne].
      * apply Hnnvalid. intros E. apply elem_of_app in Ha as [Ha|Ha].
        -- apply NoDup_cons in Hnd1 as [Hh _]. apply Hh. rewrite <- E. exact Ha.
        -- apply Hhead_b. rewrite <- E. exact Ha.
      * rewrite Hf2, Hh1 by exact Hne. apply (dl_words _ _ _ D).
        apply elem_of_app in Ha as [Ha|Ha]; apply elem_of_app; [left|right; right]; exact Ha.
  - rewrite Hf2 by exact Hnnn. apply Hf1. exact Hnpv.
  - intros a. destruct (Z.eq_dec a nn) as [->|Hne]; [exact Hflnn|].
    unfold flags_of. rewrite Hf2, Hh1 by exact Hne. reflexivity.
  - intros a Ha. rewrite Hf2, Hf1; [reflexivity| |].
    + intros ->. apply Ha. apply elem_of_cons in Hpv_in as [E|Hin]; [rewrite E; left|right].
      apply elem_of_app; left; exact Hin.
    + intros ->. apply Ha. apply elem_of_cons in Hnn_in as [E|Hin]; [rewrite E; left|right].
      apply elem_of_app; right; right; exact Hin.
Qed.


Lemma gc_list_move_unlink_append (h : gmap Z PyGC_Head) (node list : Z) :
  node <> list ->
  gc_list_move node list h
  = gc_list_append node list
      (_PyGCHead_SET_PREV (GC_NEXT h node) (GC_PREV h node)
         (_PyGCHead_SET_NEXT (GC_PREV h node) (GC_NEXT h node) h)).
Proof.
  intros Hne. unfold gc_list_move, gc_list_append. cbv zeta.
  unfold _PyGCHead_SET_NEXT at 1. rewrite store_next_prev_commute by exact Hne.
  reflexivity.
Qed.

Lemma gc_list_move_lists (h : gmap Z PyGC_Head) (from to node : Z)
    (la lb l2 : list Z) :
  dlist h from (la ++ node :: lb) -> dlist h to l2 ->
  NoDup (from :: to :: (la ++ node :: lb) ++ l2) ->
  let h' := gc_list_move node to h in
  dlist h' from (la ++ lb)
  /\ dlist h' to (l2 ++ [node])
  /\ (forall a, flags_of h' a = flags_of h a)
  /\ (forall a, a ∉ from :: to :: (la ++ node :: lb) ++ l2 ->
        head_at h' a = head_at h a).
Proof.
  intros Dfrom Dto Hnd h'.
  assert (Hparts : forall a, a ∈ from :: la ++ node :: lb -> a ∈ to :: l2 -> False).
  { intros a Ha Hb. apply NoDup_cons in Hnd as [Hf Hnd].
    apply NoDup_cons in Hnd as [Ht Hnd]. apply NoDup_app in Hnd as (_ & Hdis & _).
    apply elem_of_cons in Ha as [->|Ha]; apply elem_of_cons in Hb as [E|Hb].
    - apply Hf. rewrite E. left.
    - apply Hf. right. apply elem_of_app; right; exact Hb.
    - subst a. apply Ht. apply elem_of_app; left; exact Ha.
    - exact (Hdis a Ha Hb). }
  assert (Hnode_from : node ∈ from :: la ++ node :: lb).
  { right. apply elem_of_app; right; left. }
  assert (Hnode_to : node ∉ to :: l2) by (intros Hin; exact (Hparts node Hnode_from Hin)).
  assert (Hne : node <> to) by (intros ->; apply Hnode_to; left).
  unfold h'. rewrite (gc_list_move_unlink_append h node to Hne).
  destruct (unlink_spec h from node la lb Dfrom) as (D1 & Hnode & Hfl1 & Hfr1).
  set (h2 := _PyGCHead_SET_PREV _ _ _) in *.
  assert (Dto2 : dlist h2 to l2).
  { apply (dlist_frame h); [|exact Dto]. intros a Ha. apply Hfr1.
    intros Hin. exact (Hparts a Hin Ha). }
  assert (Hw : valid_word (pw h2 node)).
  { rewrite Hnode. apply (dl_words _ _ _ Dfrom). apply elem_of_app; right; left. }
  assert (Han : aligned_address node) by (apply (dl_addr _ _ _ Dfrom); exact Hnode_from).
  destruct (gc_list_append_lists h2 to node l2 Dto2 Hnode_to Han Hw)
    as (D2 & Hfl2 & Hpw2 & Hfr2).
  set (h3 := gc_list_append node to h2) in *.
  assert (Hto_addr : aligned_address to) by (apply (dl_addr _ _ _ Dto); left).
  split; [|split; [exact D2|split]].
  - apply (dlist_frame h2); [|exact D1]. intros a Ha. apply Hfr2.
    intros Hin. apply elem_of_cons in Hin as [->|Hin].
    + pose proof (dl_nodup _ _ _ Dfrom) as Hn.
      change (from :: la ++ node :: lb) with ((from :: la) ++ node :: lb) in Hn.
      apply NoDup_app in Hn as (_ & Hdis & Hn2). apply NoDup_cons in Hn2 as [Hnb _].
      change (from :: la ++ lb) with ((from :: la) ++ lb) in Ha.
      apply elem_of_app in Ha as [Ha|Ha]; [apply (Hdis node Ha); left|contradiction].
    + apply (Hparts a); [|exact Hin].
      apply elem_of_cons in Ha as [->|Ha]; [left|right].
      apply elem_of_app in Ha as [Ha|Ha]; apply elem_of_app; [left|right; right]; exact Ha.
  - intros a. rewrite <- Hfl1.
    destruct (Z.eq_dec a node) as [->|Hn1]; [exact Hfl2|].
    destruct (Z.eq_dec a to) as [->|Hn2].
    + unfold flags_of. rewrite (dl_last _ _ _ D2), (dl_last _ _ _ Dto2).
      rewrite last_app_single.
      rewrite (address_low node Han).
      destruct (dlist_last_addr h2 to l2 Dto2) as [Hal _].
      rewrite (address_low _ Hal). reflexivity.
    + unfold flags_of. rewrite Hpw2 by assumption. reflexivity.
  - intros a Ha. rewrite Hfr2.
    + apply Hfr1. intros Hin. apply Ha.
      apply elem_of_cons in Hin as [->|Hin]; [left|right; right].
      apply elem_of_app; left; exact Hin.
    + intros Hin. apply Ha. apply elem_of_cons in Hin as [->|Hin].
      * right. right. apply elem_of_app; left. apply elem_of_app; right; left.
      * apply elem_of_cons in Hin as [->|Hin]; [right; left|].
        right. right. apply elem_of_app; right; exact Hin.
Qed.

(** [gc_list_move] takes a node out of one well-formed list and puts it at
    the end of another: both lists stay well formed, the order of the
    other nodes is kept, every header keeps its flags, and nothing outside
    the two lists is written. *)
Theorem gc_list_move_spec (h : gmap Z PyGC_Head) (from to node : Z)
    (la lb l2 : list Z) :
  dlist h from (la ++ node :: lb) -> dlist h to l2 ->
  NoDup (from :: to :: (la ++ node :: lb) ++ l2) ->
  let h' := gc_list_move node to h in
  dlist h' from (la ++ lb)
  /\ dlist h' to (l2 ++ [node])
  /\ (forall a, flags_of h' a = flags_of h a)
  /\ (forall a, a ∉ from :: to :: (la ++ node :: lb) ++ l2 ->
        head_at h' a = head_at h a).
Proof. exact (gc_list_move_lists h from to node la lb l2). Qed.


(** [gc->_gc_prev &= ~_PyGC_PREV_MASK_UNREACHABLE] on a header word. *)
Lemma clear_unreachable_word (h : gmap Z PyGC_Head) (g : Z) :
  valid_word (pw h g) ->
  let h' := gc_clear_unreachable g h in
  gc_is_unreachable h' g = false
  /\ GC_PREV h' g = GC_PREV h g
  /\ gc_get_refs h' g = gc_get_refs h g
  /\ flags_of h' g = Z.ldiff (flags_of h g) _PyGC_PREV_MASK_UNREACHABLE
  /\ valid_word (pw h' g)
  /\ (forall a, a <> g -> head_at h' a = head_at h a)
  /\ (forall a, nx h' a = nx h a).
Proof.
  intros Hw h'. destruct (word_decompose LOK _ Hw) as (Hd & Hc & Hf).
  pose proof (unreachable_range LOK) as HU.
  pose proof (pow_bit_range _ _ HU) as Hm.
  pose proof (SH64 LOK) as HS.
  set (c := word_refs (pw h g)) in *. set (f := pw h g mod 2 ^ SH) in *.
  assert (Hf' : 0 <= Z.ldiff f _PyGC_PREV_MASK_UNREACHABLE < 2 ^ SH).
  { apply (ldiff_low_range 64 SH HS). exact Hf. }
  assert (E : pw h' g = pack 64 SH c (Z.ldiff f _PyGC_PREV_MASK_UNREACHABLE)).
  { unfold h', gc_clear_unreachable. rewrite prev_store_prev, decide_True by reflexivity.
    rewrite Hd at 1. apply (pack_ldiff 64 SH HS); [exact Hf|].
    unfold _PyGC_PREV_MASK_UNREACHABLE. lia. }
  split; [|split; [|split; [|split; [|split; [|split]]]]].
  - rewrite (unreachable_testbit LOK), E, (pack_flag LOK) by assumption.
    unfold _PyGC_PREV_MASK_UNREACHABLE. rewrite Z.ldiff_spec, Z.pow2_bits_true by lia.
    apply andb_false_r.
  - unfold GC_PREV. rewrite E, Hd, !(pack_land_mask LOK) by assumption. reflexivity.
  - unfold gc_get_refs. fold (word_refs (pw h' g)). fold (word_refs (pw h g)).
    rewrite E. fold c. apply (pack_refs LOK); assumption.
  - unfold flags_of. rewrite E. apply (mod_pack LOK). exact Hf'.
  - rewrite E. apply (pack_valid LOK).
  - intros a Ha. unfold h', gc_clear_unreachable, store_prev.
    apply head_at_insert_ne. congruence.
  - intros a. unfold h', gc_clear_unreachable. apply next_store_prev.
Qed.

Lemma clear_unreachable_loop_spec (head : Z) (l : list Z) :
  forall (gc : Z) (h : gmap Z PyGC_Head) (fuel : nat),
  chain_from h gc l head -> NoDup (head :: l) ->
  (forall a, a ∈ l -> valid_word (pw h a)) ->
  (length l < fuel)%nat ->
  exists h',
    clear_unreachable_loop fuel head gc h = Done h'
    /\ (forall a, nx h' a = nx h a)
    /\ (forall a, a ∈ l -> head_at h' a = head_at (gc_clear_unreachable a h) a)
    /\ (forall a, a ∉ l -> head_at h' a = head_at h a).
Proof.
  induction l as [|x l IH]; intros gc h fuel Hc Hnd Hw Hf;
    (destruct fuel as [|fuel]; [simpl in Hf; lia|]).
  - simpl in Hc. subst gc. simpl. rewrite Z.eqb_refl.
    exists h. split; [reflexivity|]. split; [reflexivity|].
    split; [intros a Ha; inversion Ha|reflexivity].
  - destruct Hc as [-> Hc].
    apply NoDup_cons in Hnd as [Hhead Hnd]. apply NoDup_cons in Hnd as [Hx Hnd].
    assert (Hxh : x <> head) by (intros ->; apply Hhead; left).
    simpl clear_unreachable_loop. destruct (Z.eqb_spec x head) as [|_]; [contradiction|].
    destruct (clear_unreachable_word h x (Hw x ltac:(left)))
      as (_ & _ & _ & _ & _ & Hfr & Hnx).
    set (h1 := gc_clear_unreachable x h) in *.
    destruct (IH (nx h1 x) h1 fuel) as (h' & Hrun & Hnx' & Hin' & Hout').
    + rewrite Hnx. apply (chain_from_frame h); [|exact Hc].
      intros y _. unfold GC_NEXT. apply Hnx.
    + apply NoDup_cons. split; [|exact Hnd]. intros Hin. apply Hhead. right. exact Hin.
    + intros a Ha. rewrite Hfr by (intros ->; contradiction). apply Hw. right. exact Ha.
    + simpl in Hf. lia.
    + exists h'. split; [exact Hrun|]. split; [|split].
      * intros a. rewrite Hnx'. apply Hnx.
      * intros a Ha. apply elem_of_cons in Ha as [->|Ha].
        -- rewrite Hout' by exact Hx. reflexivity.
        -- rewrite (Hin' a Ha).
           assert (Hax : a <> x) by (intros ->; contradiction).
           unfold gc_clear_unreachable, store_prev. rewrite !head_at_insert_eq.
           rewrite Hfr by exact Hax. reflexivity.
      * intros a Ha. rewrite Hout'.
        -- apply Hfr. intros ->. apply Ha. left.
        -- intros Hin. apply Ha. right. exact Hin.
Qed.

(** [clear_unreachable_mask] walks the whole list and clears UNREACHABLE
    on each node; the links, the pointer or counter above the flags and
    the other flags of the nodes stay, and so does every other header. *)
Theorem clear_unreachable_mask_spec (h : gmap Z PyGC_Head) (head : Z) (l : list Z)
    (fuel : nat) :
  is_gc_list h head l -> (forall a, a ∈ l -> valid_word (pw h a)) ->
  (length l < fuel)%nat ->
  exists h',
    clear_unreachable_mask fuel head h = Done h'
    /\ is_gc_list h' head l
    /\ (forall a, a ∈ l ->
          gc_is_unreachable h' a = false
          /\ GC_PREV h' a = GC_PREV h a
          /\ gc_get_refs h' a = gc_get_refs h a
          /\ flags_of h' a = Z.ldiff (flags_of h a) _PyGC_PREV_MASK_UNREACHABLE)
    /\ (forall a, a ∉ l -> head_at h' a = head_at h a).
Proof.
  intros [Hc Hnd] Hw Hf.
  destruct (clear_unreachable_loop_spec head l (GC_NEXT h head) h fuel Hc Hnd Hw Hf)
    as (h' & Hrun & Hnx & Hin & Hout).
  exists h'. split; [exact Hrun|]. split; [|split; [|exact Hout]].
  - split; [|exact Hnd]. unfold GC_NEXT. rewrite Hnx.
    apply (chain_from_frame h); [|exact Hc]. intros y _. unfold GC_NEXT. apply Hnx.
  - intros a Ha.
    destruct (clear_unreachable_word h a (Hw a Ha)) as (H1 & H2 & H3 & H4 & _).
    pose proof (Hin a Ha) as E.
    unfold gc_is_unreachable, GC_PREV, gc_get_refs, flags_of in *.
    rewrite E. repeat split; assumption.
Qed.


Lemma dlist_clear_unreachable (h : gmap Z PyGC_Head) (head g : Z) (l : list Z) :
  dlist h head l -> g <> head -> valid_word (pw h g) ->
  dlist (gc_clear_unreachable g h) head l.
Proof.
  intros D Hg Hw.
  destruct (clear_unreachable_word h g Hw) as (_ & Hp & _ & _ & Hv & Hfr & Hnx).
  split.
  - apply (dl_nodup _ _ _ D).
  - apply (dl_addr _ _ _ D).
  - apply (links_frame h); [intros x _; apply Hnx|apply (dl_next _ _ _ D)].
  - apply (plinks_frame h); [|apply (dl_prev _ _ _ D)].
    intros x _. destruct (Z.eq_dec x g) as [->|Hne]; [exact Hp|].
    unfold GC_PREV. rewrite Hfr by exact Hne. reflexivity.
  - rewrite Hfr by congruence. apply (dl_last _ _ _ D).
  - intros a Ha. destruct (Z.eq_dec a g) as [->|Hne]; [exact Hv|].
    rewrite Hfr by exact Hne. apply (dl_words _ _ _ D a Ha).
Qed.

Lemma dlist_next (h : gmap Z PyGC_Head) (head x : Z) (la lb : list Z) :
  dlist h head (la ++ x :: lb) -> nx h x = hd head lb.
Proof.
  intros D. pose proof (dl_next _ _ _ D) as Hl.
  change (head :: la ++ x :: lb) with ((head :: la) ++ x :: lb) in Hl.
  apply links_app in Hl as [_ [Hx _]]. exact Hx.
Qed.

Section LegacyFinalizers.
Variable objs : gmap Z PyObject.

Local Abbreviation legacy g := (has_legacy_finalizer objs (FROM_GC g)).
Local Abbreviation moved l := (List.filter (fun g => legacy g) l).
Local Abbreviation stay l := (List.filter (fun g => negb (legacy g)) l).

Lemma move_legacy_finalizers_loop_spec (unreachable finalizers : Z) (rest : list Z) :
  forall (kept F : list Z) (h : gmap Z PyGC_Head) (fuel : nat),
  dlist h unreachable (kept ++ rest) -> dlist h finalizers F ->
  NoDup (unreachable :: finalizers :: (kept ++ rest) ++ F) ->
  (length rest < fuel)%nat ->
  exists h',
    move_legacy_finalizers_loop objs fuel unreachable finalizers
      (hd unreachable rest) h = Done h'
    /\ dlist h' unreachable (kept ++ stay rest)
    /\ dlist h' finalizers (F ++ moved rest)
    /\ (forall a, a ∈ rest -> legacy a = true ->
          flags_of h' a = Z.ldiff (flags_of h a) _PyGC_PREV_MASK_UNREACHABLE)
    /\ (forall a, ~ (a ∈ rest /\ legacy a = true) -> flags_of h' a = flags_of h a)
    /\ (forall a, a ∉ unreachable :: finalizers :: (kept ++ rest) ++ F ->
          head_at h' a = head_at h a).
Proof.
  induction rest as [|x rest IH]; intros kept F h fuel Du Df Hnd Hf;
    (destruct fuel as [|fuel]; [simpl in Hf; lia|]).
  - simpl. rewrite Z.eqb_refl. exists h. rewrite !app_nil_r in *.
    split; [reflexivity|]. split; [exact Du|]. split; [exact Df|].
    split; [intros a Ha; inversion Ha|]. split; reflexivity.
  - simpl hd. simpl move_legacy_finalizers_loop.
    assert (Hxu : x <> unreachable).
    { intros ->. apply NoDup_cons in Hnd as [Hu _]. apply Hu. right.
      apply elem_of_app; left. apply elem_of_app; right; left. }
    destruct (Z.eqb_spec x unreachable) as [|_]; [contradiction|].
    rewrite (dlist_next h unreachable x kept rest Du).
    destruct (legacy x) eqn:Hleg.
    + (* moved to finalizers *)
      destruct (gc_list_move_lists h unreachable finalizers x kept rest F Du Df Hnd)
        as (Du1 & Df1 & Hfl1 & Hfr1).
      set (h1 := gc_list_move x finalizers h) in *.
      assert (Hxf : x <> finalizers).
      { intros ->. apply NoDup_cons in Hnd as [_ Hnd]. apply NoDup_cons in Hnd as [Hfn _].
        apply Hfn. apply elem_of_app; left. apply elem_of_app; right; left. }
      assert (Hw1 : valid_word (pw h1 x)).
      { apply (dl_words _ _ _ Df1). apply elem_of_app; right; left. }
      destruct (clear_unreachable_word h1 x Hw1) as (_ & _ & _ & Hfl2 & _ & Hfr2 & _).
      set (h2 := gc_clear_unreachable x h1) in *.
      assert (Hnd2 : NoDup (unreachable :: finalizers :: (kept ++ rest) ++ F ++ [x])).
      { assert (P : (kept ++ x :: rest) ++ F ≡ₚ x :: (kept ++ rest) ++ F).
        { rewrite <- !app_assoc. simpl. symmetry. apply Permutation_middle. }
        assert (Q : (kept ++ rest) ++ F ++ [x] ≡ₚ x :: (kept ++ rest) ++ F).
        { rewrite app_assoc. rewrite Permutation_app_comm. reflexivity. }
        rewrite Q, <- P. exact Hnd. }
      destruct (IH kept (F ++ [x]) h2 fuel) as (h' & Hrun & Du' & Df' & Hm & Hs & Hfr').
      * apply (dlist_clear_unreachable h1 unreachable x _ Du1 Hxu Hw1).
      * apply (dlist_clear_unreachable h1 finalizers x _ Df1 Hxf Hw1).
      * exact Hnd2.
      * simpl in Hf. lia.
      * assert (Hx_rest : x ∉ rest).
        { apply NoDup_cons in Hnd as [_ Hnd]. apply NoDup_cons in Hnd as [_ Hnd].
          apply NoDup_app in Hnd as (Hn & _ & _). apply NoDup_app in Hn as (_ & _ & Hn).
          apply NoDup_cons in Hn as [Hx _]. exact Hx. }
        assert (Hfl12 : forall a, a <> x -> flags_of h2 a = flags_of h a).
        { intros a Ha. rewrite <- Hfl1. unfold flags_of. rewrite Hfr2 by exact Ha.
          reflexivity. }
        exists h'. split; [exact Hrun|].
        simpl List.filter. rewrite Hleg. simpl negb. cbv iota.
        split; [exact Du'|]. split.
        { rewrite <- app_assoc in Df'. exact Df'. }
        split; [|split].
        -- intros a Ha Hla. apply elem_of_cons in Ha as [->|Ha].
           ++ rewrite Hs by (intros [Hin _]; contradiction).
              rewrite Hfl2, Hfl1. reflexivity.
           ++ rewrite (Hm a Ha Hla). rewrite Hfl12; [reflexivity|].
              intros ->. contradiction.
        -- intros a Ha. rewrite Hs.
           ++ apply Hfl12. intros ->. apply Ha. split; [left|exact Hleg].
           ++ intros [Hin Hla]. apply Ha. split; [right; exact Hin|exact Hla].
        -- intros a Ha.
           assert (Hax : a <> x).
           { intros ->. apply Ha. right. right. apply elem_of_app; left.
             apply elem_of_app; right; left. }
           rewrite Hfr'.
           ++ rewrite Hfr2 by exact Hax. apply Hfr1. exact Ha.
           ++ intros Hin. apply Ha.
              apply elem_of_cons in Hin as [->|Hin]; [left|right].
              apply elem_of_cons in Hin as [->|Hin]; [left|right].
              apply elem_of_app in Hin as [Hin|Hin].
              ** apply elem_of_app; left.
                 apply elem_of_app in Hin as [Hin|Hin]; apply elem_of_app;
                   [left|right; right]; exact Hin.
              ** apply elem_of_app in Hin as [Hin|Hin].
                 --- apply elem_of_app; right; exact Hin.
                 --- apply list_elem_of_singleton in Hin. contradiction.
    + (* stays *)
      destruct (IH (kept ++ [x]) F h fuel) as (h' & Hrun & Du' & Df' & Hm & Hs & Hfr').
      * rewrite <- app_assoc. exact Du.
      * exact Df.
      * rewrite <- (app_assoc kept [x] rest). exact Hnd.
      * simpl in Hf. lia.
      * exists h'. split; [exact Hrun|].
        simpl List.filter. rewrite Hleg. simpl negb. cbv iota.
        split; [rewrite <- app_assoc in Du'; exact Du'|]. split; [exact Df'|].
        split; [|split].
        -- intros a Ha Hla. apply elem_of_cons in Ha as [->|Ha]; [congruence|].
           apply (Hm a Ha Hla).
        -- intros a Ha. apply Hs. intros [Hin Hla]. apply Ha. split; [right|]; assumption.
        -- intros a Ha. apply Hfr'. rewrite <- (app_assoc kept [x] rest). exact Ha.
Qed.

Lemma move_legacy_finalizers_lists (h : gmap Z PyGC_Head)
    (unreachable finalizers : Z) (U F : list Z) (fuel : nat) :
  dlist h unreachable U -> dlist h finalizers F ->
  NoDup (unreachable :: finalizers :: U ++ F) ->
  (length U < fuel)%nat ->
  exists h',
    move_legacy_finalizers objs fuel unreachable finalizers h = Done h'
    /\ dlist h' unreachable (stay U)
    /\ dlist h' finalizers (F ++ moved U)
    /\ (forall a, a ∈ moved U ->
          gc_is_unreachable h' a = false
          /\ flags_of h' a = Z.ldiff (flags_of h a) _PyGC_PREV_MASK_UNREACHABLE)
    /\ (forall a, a ∉ moved U -> flags_of h' a = flags_of h a)
    /\ (forall a, a ∉ unreachable :: finalizers :: U ++ F ->
          head_at h' a = head_at h a).
Proof.
  intros Du Df Hnd Hf.
  destruct (move_legacy_finalizers_loop_spec unreachable finalizers U [] F h fuel
              Du Df Hnd Hf) as (h' & Hrun & Du' & Df' & Hm & Hs & Hfr).
  exists h'. split.
  { unfold move_legacy_finalizers, GC_NEXT.
    pose proof (dl_next _ _ _ Du) as [Hn _]. rewrite Hn. exact Hrun. }
  split; [exact Du'|]. split; [exact Df'|]. split; [|split; [|exact Hfr]].
  - intros a Ha. apply list_elem_of_In, filter_In in Ha as [Hin Hla].
    apply list_elem_of_In in Hin.
    pose proof (Hm a Hin Hla) as E. split; [|exact E].
    pose proof (unreachable_range LOK) as HU.
    rewrite (unreachable_testbit LOK). rewrite <- (flag_mod (pw h' a)) by lia.
    fold (flags_of h' a). rewrite E.
    unfold _PyGC_PREV_MASK_UNREACHABLE. rewrite Z.ldiff_spec, Z.pow2_bits_true by lia.
    apply andb_false_r.
  - intros a Ha. apply Hs. intros [Hin Hla]. apply Ha.
    apply list_elem_of_In, filter_In. split; [apply list_elem_of_In; exact Hin|exact Hla].
Qed.

(** [move_legacy_finalizers] splits [unreachable]: the nodes whose type has
    [tp_del] go to the end of [finalizers], in order, with UNREACHABLE
    cleared; the others stay where they are, in order, flags untouched. *)
Theorem move_legacy_finalizers_spec (h : gmap Z PyGC_Head)
    (unreachable finalizers : Z) (U F : list Z) (fuel : nat) :
  dlist h unreachable U -> dlist h finalizers F ->
  NoDup (unreachable :: finalizers :: U ++ F) ->
  (length U < fuel)%nat ->
  exists h',
    move_legacy_finalizers objs fuel unreachable finalizers h = Done h'
    /\ dlist h' unreachable (stay U)
    /\ dlist h' finalizers (F ++ moved U)
    /\ (forall a, a ∈ moved U ->
          gc_is_unreachable h' a = false
          /\ flags_of h' a = Z.ldiff (flags_of h a) _PyGC_PREV_MASK_UNREACHABLE)
    /\ (forall a, a ∉ moved U -> flags_of h' a = flags_of h a)
    /\ (forall a, a ∉ unreachable :: finalizers :: U ++ F ->
          head_at h' a = head_at h a).
Proof. exact (move_legacy_finalizers_lists h unreachable finalizers U F fuel). Qed.


Lemma unreachable_by_flags (h : gmap Z PyGC_Head) (a : Z) :
  gc_is_unreachable h a = Z.testbit (flags_of h a) UNREACHABLE_BIT.
Proof.
  pose proof (unreachable_range LOK) as HU.
  rewrite (unreachable_testbit LOK). unfold flags_of.
  rewrite (flag_mod (pw h a)) by lia. reflexivity.
Qed.

Local Abbreviation without U M :=
  (List.filter (fun a => negb (bool_decide (a ∈ M))) U).

Lemma in_without (U M : list Z) (b : Z) : b ∈ without U M <-> b ∈ U /\ b ∉ M.
Proof.
  rewrite list_elem_of_In, filter_In, <- list_elem_of_In.
  destruct (bool_decide_reflect (b ∈ M)); simpl; naive_solver.
Qed.

Lemma without_nil (U : list Z) : without U [] = U.
Proof.
  induction U as [|x U IH]; [reflexivity|]. cbn [List.filter].
  destruct (bool_decide_reflect (x ∈ [])) as [Hx|_]; [inversion Hx|].
  cbn [negb]. rewrite IH. reflexivity.
Qed.

Lemma without_app (U N M : list Z) : without U (N ++ M) = without (without U N) M.
Proof.
  induction U as [|x U IH]; [reflexivity|]. simpl.
  destruct (bool_decide_reflect (x ∈ N)) as [HN|HN]; simpl.
  - rewrite bool_decide_eq_true_2 by (apply elem_of_app; left; exact HN). simpl. exact IH.
  - destruct (bool_decide_reflect (x ∈ M)) as [HM|HM]; simpl.
    + rewrite bool_decide_eq_true_2 by (apply elem_of_app; right; exact HM). simpl. exact IH.
    + rewrite bool_decide_eq_false_2; [simpl; rewrite IH; reflexivity|].
      intros Hx. apply elem_of_app in Hx as [Hx|Hx]; contradiction.
Qed.

Lemma without_absent (U : list Z) (g : Z) : g ∉ U -> without U [g] = U.
Proof.
  induction U as [|x U IH]; intros Hg; [reflexivity|]. simpl.
  rewrite bool_decide_eq_false_2.
  - simpl. rewrite IH; [reflexivity|]. intros Hin. apply Hg. right. exact Hin.
  - intros Hx. apply list_elem_of_singleton in Hx. subst x. apply Hg. left.
Qed.

Lemma without_split (la lb : list Z) (g : Z) :
  NoDup (la ++ g :: lb) -> without (la ++ g :: lb) [g] = la ++ lb.
Proof.
  intros Hnd. apply NoDup_app in Hnd as (_ & Hdis & Hnd).
  apply NoDup_cons in Hnd as [Hg _].
  rewrite List.filter_app. simpl.
  rewrite bool_decide_eq_true_2 by (apply list_elem_of_singleton; reflexivity). simpl.
  rewrite (without_absent lb g Hg). f_equal. apply without_absent.
  intros Hin. apply (Hdis g Hin). left.
Qed.

Lemma visit_move_spec (unreachable finalizers : Z) (U F : list Z)
    (h : gmap Z PyGC_Head) (op : Z) :
  finalizer_lists objs unreachable finalizers U F h ->
  let h' := visit_move objs finalizers op h in
  (h' = h /\ (_PyObject_IS_GC objs op = false \/ AS_GC op ∉ U))
  \/ (AS_GC op ∈ U /\ (length (without U [AS_GC op]) + 1 = length U)%nat
      /\ finalizer_lists objs unreachable finalizers
           (without U [AS_GC op]) (F ++ [AS_GC op]) h').
Proof.
  intros I h'. unfold visit_move in h'.
  destruct (_PyObject_IS_GC objs op) eqn:Hgc; [|left; split; [reflexivity|left; reflexivity]].
  destruct (gc_is_unreachable h (AS_GC op)) eqn:Hun.
  2:{ left. split; [reflexivity|]. right. intros Hin.
      destruct (fl_flagged _ _ _ _ _ _ I _ Hin) as [_ E]. congruence. }
  right. set (gc := AS_GC op) in *.
  assert (Hin : gc ∈ U).
  { apply (fl_only _ _ _ _ _ _ I); [|exact Hun]. unfold gc. rewrite FROM_GC_AS_GC. exact Hgc. }
  split; [exact Hin|].
  destruct (list_elem_of_split _ _ Hin) as (la & lb & HU).
  pose proof (fl_unreachable _ _ _ _ _ _ I) as Du.
  pose proof (fl_finalizers _ _ _ _ _ _ I) as Df.
  pose proof (fl_apart _ _ _ _ _ _ I) as Hnd.
  assert (HndU : NoDup U).
  { apply NoDup_cons in Hnd as [_ Hnd]. apply NoDup_cons in Hnd as [_ Hnd].
    apply NoDup_app in Hnd as [Hn _]. exact Hn. }
  rewrite HU in Du, Hnd, HndU.
  assert (Hw : without U [gc] = la ++ lb) by (rewrite HU; apply without_split; exact HndU).
  rewrite Hw. split; [rewrite HU, !length_app; simpl; lia|].
  destruct (gc_list_move_lists h unreachable finalizers gc la lb F Du Df Hnd)
    as (Du1 & Df1 & Hfl1 & _).
  set (h1 := gc_list_move gc finalizers h) in *.
  assert (Hxu : gc <> unreachable).
  { intros E. apply NoDup_cons in Hnd as [Hu _]. apply Hu. right.
    apply elem_of_app; left. apply elem_of_app; right. rewrite E. left. }
  assert (Hxf : gc <> finalizers).
  { intros E. apply NoDup_cons in Hnd as [_ Hnd]. apply NoDup_cons in Hnd as [Hfn _].
    apply Hfn. apply elem_of_app; left. apply elem_of_app; right. rewrite E. left. }
  assert (Hw1 : valid_word (pw h1 gc)).
  { apply (dl_words _ _ _ Df1). apply elem_of_app; right; left. }
  destruct (clear_unreachable_word h1 gc Hw1) as (Hcl & _ & _ & _ & _ & Hfr2 & _).
  assert (Hother : forall a, a <> gc -> gc_is_unreachable h' a = gc_is_unreachable h a).
  { intros a Ha. rewrite !unreachable_by_flags. rewrite <- Hfl1. unfold flags_of.
    unfold h'. rewrite Hfr2 by exact Ha. reflexivity. }
  assert (Hg_rest : gc ∉ la ++ lb).
  { apply NoDup_app in HndU as (_ & Hdis & Hn). apply NoDup_cons in Hn as [Hg _].
    intros Hx. apply elem_of_app in Hx as [Hx|Hx]; [|contradiction].
    apply (Hdis gc Hx). left. }
  split.
  - apply (dlist_clear_unreachable h1 unreachable gc _ Du1 Hxu Hw1).
  - apply (dlist_clear_unreachable h1 finalizers gc _ Df1 Hxf Hw1).
  - assert (P : (la ++ gc :: lb) ++ F ≡ₚ gc :: (la ++ lb) ++ F).
    { rewrite <- !app_assoc. simpl. symmetry. apply Permutation_middle. }
    assert (Q : (la ++ lb) ++ F ++ [gc] ≡ₚ gc :: (la ++ lb) ++ F).
    { rewrite app_assoc. rewrite Permutation_app_comm. reflexivity. }
    rewrite Q, <- P. exact Hnd.
  - intros a Ha.
    assert (Hne : a <> gc) by (intros ->; contradiction).
    rewrite (Hother a Hne). apply (fl_flagged _ _ _ _ _ _ I). rewrite HU.
    apply elem_of_app in Ha as [Ha|Ha]; apply elem_of_app; [left|right; right]; exact Ha.
  - intros a Ha Hun'.
    destruct (Z.eq_dec a gc) as [->|Hne]; [unfold h' in Hun'; congruence|].
    rewrite (Hother a Hne) in Hun'.
    pose proof (fl_only _ _ _ _ _ _ I a Ha Hun') as Hin'. rewrite HU in Hin'.
    apply elem_of_app in Hin' as [Hx|Hx]; [apply elem_of_app; left; exact Hx|].
    apply elem_of_cons in Hx as [->|Hx]; [contradiction|].
    apply elem_of_app; right; exact Hx.
Qed.

Lemma traverse_move_spec (unreachable finalizers : Z) (rs : list Z) :
  forall (U F : list Z) (h : gmap Z PyGC_Head),
  finalizer_lists objs unreachable finalizers U F h ->
  exists N,
    finalizer_lists objs unreachable finalizers (without U N) (F ++ N)
      (fold_left (fun h r => visit_move objs finalizers r h) rs h)
    /\ (forall b, b ∈ N <-> b ∈ U /\ FROM_GC b ∈ rs)
    /\ (length (without U N) + length N = length U)%nat.
Proof.
  induction rs as [|r rs IH]; intros U F h I.
  - exists []. simpl. rewrite without_nil, app_nil_r. split; [exact I|]. split; [|lia].
    intros b. split; [intros Hb; inversion Hb|intros [_ Hb]; inversion Hb].
  - simpl. destruct (visit_move_spec unreachable finalizers U F h r I)
      as [[E Hno]|(Hin & Hlen & I1)].
    + rewrite E. destruct (IH U F h I) as (N & IN & Hmem & HlenN).
      exists N. split; [exact IN|]. split; [|exact HlenN].
      intros b. rewrite Hmem. split.
      * intros [Hb Hr]. split; [exact Hb|right; exact Hr].
      * intros [Hb Hr]. split; [exact Hb|].
        apply elem_of_cons in Hr as [Hr|Hr]; [|exact Hr]. exfalso.
        destruct (fl_flagged _ _ _ _ _ _ I b Hb) as [Hgc _].
        rewrite Hr in Hgc. subst r. rewrite AS_GC_FROM_GC in Hno.
        destruct Hno as [Hno|Hno]; [congruence|contradiction].
    + destruct (IH _ _ _ I1) as (N & IN & Hmem & HlenN).
      exists (AS_GC r :: N).
      change (AS_GC r :: N) with ([AS_GC r] ++ N). rewrite without_app.
      rewrite <- app_assoc in IN. split; [exact IN|]. split.
      * intros b. rewrite elem_of_app, list_elem_of_singleton, Hmem, in_without.
        rewrite list_elem_of_singleton. split.
        -- intros [->|[[Hb Hne] Hr]].
           ++ split; [exact Hin|]. rewrite FROM_GC_AS_GC. left.
           ++ split; [exact Hb|right; exact Hr].
        -- intros [Hb Hr]. destruct (Z.eq_dec b (AS_GC r)) as [E|Hne]; [left; exact E|].
           right. split; [split; assumption|].
           apply elem_of_cons in Hr as [Hr|Hr]; [|exact Hr].
           exfalso. apply Hne. rewrite <- Hr. symmetry. apply AS_GC_FROM_GC.
      * rewrite length_app. simpl. lia.
Qed.

Lemma refers_into_mono (U U' : list Z) (a b : Z) :
  (forall x, x ∈ U' -> x ∈ U) ->
  rtc (refers_into objs U') a b -> rtc (refers_into objs U) a b.
Proof.
  intros Hsub Hr. induction Hr as [|x y z [Hp Hy] _ IH]; [constructor|].
  apply rtc_l with y; [split; [exact Hp|apply Hsub; exact Hy]|exact IH].
Qed.

Lemma move_legacy_finalizer_reachable_loop_spec (unreachable finalizers : Z)
    (fuel : nat) :
  forall (done todo U : list Z) (h : gmap Z PyGC_Head),
  finalizer_lists objs unreachable finalizers U (done ++ todo) h ->
  (length todo + length U < fuel)%nat ->
  (forall a b, a ∈ done -> b ∈ U -> ~ points_to objs a b) ->
  exists h' M,
    move_legacy_finalizer_reachable_loop objs fuel finalizers
      (hd finalizers todo) h = Done h'
    /\ finalizer_lists objs unreachable finalizers (without U M)
         (done ++ todo ++ M) h'
    /\ (forall a b, a ∈ done ++ todo ++ M -> b ∈ without U M -> ~ points_to objs a b)
    /\ (forall b, b ∈ M ->
          b ∈ U /\ exists a, a ∈ todo /\ rtc (refers_into objs U) a b).
Proof.
  induction fuel as [|fuel IH]; intros done todo U h I Hf Hdone; [lia|].
  destruct todo as [|x rest].
  - simpl. rewrite Z.eqb_refl. exists h, []. rewrite without_nil.
    split; [reflexivity|]. split; [exact I|]. split.
    + intros a b Ha. rewrite !app_nil_r in Ha. apply Hdone. exact Ha.
    + intros b Hb. inversion Hb.
  - simpl hd. simpl move_legacy_finalizer_reachable_loop.
    assert (Hxf : x <> finalizers).
    { intros ->. pose proof (fl_apart _ _ _ _ _ _ I) as Hnd.
      apply NoDup_cons in Hnd as [_ Hnd]. apply NoDup_cons in Hnd as [Hfn _].
      apply Hfn. apply elem_of_app; right. apply elem_of_app; right; left. }
    destruct (Z.eqb_spec x finalizers) as [|_]; [contradiction|].
    destruct (traverse_move_spec unreachable finalizers
                (ob_referents (object_at objs (FROM_GC x))) U _ h I)
      as (N & IN & Hmem & HlenN).
    unfold tp_traverse.
    set (h1 := fold_left _ _ h) in *.
    assert (Hnext : GC_NEXT h1 x = hd finalizers (rest ++ N)).
    { apply (dlist_next h1 finalizers x done (rest ++ N)).
      pose proof (fl_finalizers _ _ _ _ _ _ IN) as D.
      rewrite <- app_assoc in D. exact D. }
    rewrite Hnext.
    destruct (IH (done ++ [x]) (rest ++ N) (without U N) h1) as (h' & M & Hrun & I' & Hcl & Hre).
    + rewrite <- !app_assoc in IN |- *. exact IN.
    + rewrite length_app. simpl in Hf. lia.
    + intros a b Ha Hb. apply in_without in Hb as [HbU HbN].
      apply elem_of_app in Ha as [Ha|Ha]; [apply (Hdone a b Ha HbU)|].
      apply list_elem_of_singleton in Ha. subst a. intros Hp. apply HbN.
      apply Hmem. split; [exact HbU|exact Hp].
    + exists h', (N ++ M). split; [exact Hrun|]. rewrite without_app.
      split; [|split].
      * rewrite <- !app_assoc in I'. simpl in I'. simpl. exact I'.
      * intros a b Ha. apply Hcl. rewrite <- !app_assoc. simpl.
        simpl in Ha. exact Ha.
      * intros b Hb. apply elem_of_app in Hb as [Hb|Hb].
        -- apply Hmem in Hb as [HbU Hp]. split; [exact HbU|].
           exists x. split; [left|]. apply rtc_once. split; assumption.
        -- destruct (Hre b Hb) as (HbU & a & Ha & Hpath).
           apply in_without in HbU as [HbU _]. split; [exact HbU|].
           assert (Hpath' : rtc (refers_into objs U) a b).
           { apply (refers_into_mono U (without U N)); [|exact Hpath].
             intros y Hy. apply in_without in Hy as [Hy _]. exact Hy. }
           apply elem_of_app in Ha as [Ha|Ha].
           ++ exists a. split; [right; exact Ha|exact Hpath'].
           ++ apply Hmem in Ha as [HaU Hp]. exists x. split; [left|].
              apply rtc_l with a; [split; assumption|exact Hpath'].
Qed.

Lemma move_legacy_finalizer_reachable_lists (h : gmap Z PyGC_Head)
    (unreachable finalizers : Z) (U F : list Z) (fuel : nat) :
  finalizer_lists objs unreachable finalizers U F h ->
  (length F + length U < fuel)%nat ->
  exists h' M,
    move_legacy_finalizer_reachable objs fuel finalizers h = Done h'
    /\ finalizer_lists objs unreachable finalizers (without U M) (F ++ M) h'
    /\ (forall b, b ∈ M <->
          b ∈ U /\ exists a, a ∈ F /\ rtc (refers_into objs U) a b)
    /\ (forall b, b ∈ M -> gc_is_unreachable h' b = false)
    /\ (forall b, b ∈ U -> b ∉ M -> gc_is_unreachable h' b = true).
Proof.
  intros I Hf.
  destruct (move_legacy_finalizer_reachable_loop_spec unreachable finalizers fuel
              [] F U h I Hf) as (h' & M & Hrun & I' & Hcl & Hre).
  { intros a b Ha. inversion Ha. }
  simpl in I', Hcl.
  exists h', M. split.
  { unfold move_legacy_finalizer_reachable, GC_NEXT.
    pose proof (dl_next _ _ _ (fl_finalizers _ _ _ _ _ _ I)) as [Hn _].
    rewrite Hn. exact Hrun. }
  split; [exact I'|].
  assert (Hdisj : forall a, a ∈ U -> a ∈ F -> False).
  { intros a Hu Hfa. pose proof (fl_apart _ _ _ _ _ _ I) as Hnd.
    apply NoDup_cons in Hnd as [_ Hnd]. apply NoDup_cons in Hnd as [_ Hnd].
    apply NoDup_app in Hnd as (_ & Hdis & _). apply (Hdis a Hu Hfa). }
  split; [|split].
  - intros b. split; [apply Hre|].
    intros (HbU & a & Ha & Hpath).
    assert (Hall : b ∈ F ++ M).
    { clear HbU. revert b Hpath.
      apply (rtc_ind_r (fun z => z ∈ F ++ M) a).
      - apply elem_of_app; left; exact Ha.
      - intros y z _ [Hp Hz] IHp.
        destruct (decide (z ∈ M)) as [Hm|Hm]; [apply elem_of_app; right; exact Hm|].
        exfalso. apply (Hcl y z IHp); [|exact Hp].
        apply in_without. split; assumption. }
    apply elem_of_app in Hall as [Hb|Hb]; [|exact Hb].
    exfalso. apply (Hdisj b HbU Hb).
  - intros b Hb. destruct (Hre b Hb) as [HbU _].
    destruct (fl_flagged _ _ _ _ _ _ I b HbU) as [Hgc _].
    destruct (gc_is_unreachable h' b) eqn:E; [|reflexivity].
    pose proof (fl_only _ _ _ _ _ _ I' b Hgc E) as Hin.
    apply in_without in Hin as [_ Hn]. contradiction.
  - intros b HbU Hn. apply (fl_flagged _ _ _ _ _ _ I' b).
    apply in_without. split; assumption.
Qed.

(** [move_legacy_finalizer_reachable] moves to the end of [finalizers]
    exactly the nodes of [unreachable] that can be reached from a node of
    [finalizers] through objects of [unreachable], and clears their
    UNREACHABLE flag; the nodes that stay keep their order and their flag,
    and the two lists are well formed as before. *)
Theorem move_legacy_finalizer_reachable_spec (h : gmap Z PyGC_Head)
    (unreachable finalizers : Z) (U F : list Z) (fuel : nat) :
  finalizer_lists objs unreachable finalizers U F h ->
  (length F + length U < fuel)%nat ->
  exists h' M,
    move_legacy_finalizer_reachable objs fuel finalizers h = Done h'
    /\ finalizer_lists objs unreachable finalizers (without U M) (F ++ M) h'
    /\ (forall b, b ∈ M <->
          b ∈ U /\ exists a, a ∈ F /\ rtc (refers_into objs U) a b)
    /\ (forall b, b ∈ M -> gc_is_unreachable h' b = false)
    /\ (forall b, b ∈ U -> b ∉ M -> gc_is_unreachable h' b = true).
Proof. exact (move_legacy_finalizer_reachable_lists h unreachable finalizers U F fuel). Qed.


Lemma gc_list_init_dlist (h : gmap Z PyGC_Head) (head : Z) :
  aligned_address head ->
  dlist (gc_list_init head h) head []
  /\ (forall a, a <> head -> head_at (gc_list_init head h) a = head_at h a).
Proof.
  intros Ha. unfold gc_list_init. split.
  - split.
    + apply NoDup_cons. split; [intros Hin; inversion Hin|apply NoDup_nil; exact Logic.I].
    + intros a Hin. apply list_elem_of_singleton in Hin. subst a. exact Ha.
    + simpl. rewrite head_at_insert_eq. split; [reflexivity|exact Logic.I].
    + exact Logic.I.
    + rewrite head_at_insert_eq. reflexivity.
    + intros a Hin. inversion Hin.
  - intros a Hne. apply head_at_insert_ne. congruence.
Qed.

Lemma moved_stay_length (U : list Z) :
  (length (moved U) + length (stay U) = length U)%nat.
Proof.
  induction U as [|x U IH]; [reflexivity|]. simpl.
  destruct (legacy x); simpl; lia.
Qed.

Lemma without_moved (U : list Z) : without U (moved U) = stay U.
Proof.
  apply List.filter_ext_in. intros x Hx. f_equal.
  destruct (legacy x) eqn:Hl.
  - apply bool_decide_eq_true_2. apply list_elem_of_In, filter_In. split; assumption.
  - apply bool_decide_eq_false_2. intros Hin.
    apply list_elem_of_In, filter_In in Hin as [_ E]. congruence.
Qed.

(** In [collect], the objects moved from [unreachable] to [finalizers] are
    exactly those that have a legacy finalizer or can be reached from one
    that has, through objects of [unreachable]; they lose the UNREACHABLE
    flag, while the others stay on [unreachable], in order and flagged. *)
Theorem collect_finalizers_spec (h : gmap Z PyGC_Head)
    (unreachable finalizers : Z) (U : list Z) (fuel : nat) :
  dlist h unreachable U ->
  aligned_address finalizers -> finalizers ∉ unreachable :: U ->
  (forall a, a ∈ U ->
     _PyObject_IS_GC objs (FROM_GC a) = true /\ gc_is_unreachable h a = true) ->
  (forall a, _PyObject_IS_GC objs (FROM_GC a) = true ->
     gc_is_unreachable h a = true -> a ∈ U) ->
  (length U < fuel)%nat ->
  exists h' K,
    collect_finalizers objs fuel unreachable finalizers h = Done h'
    /\ dlist h' unreachable (without U K)
    /\ dlist h' finalizers K
    /\ (forall b, b ∈ K <->
          b ∈ U /\ exists a, a ∈ U /\ legacy a = true
                              /\ rtc (refers_into objs U) a b)
    /\ (forall b, b ∈ K -> gc_is_unreachable h' b = false)
    /\ (forall b, b ∈ U -> b ∉ K -> gc_is_unreachable h' b = true).
Proof.
  intros Du Hfa Hfn Hflag Honly Hf.
  destruct (gc_list_init_dlist h finalizers Hfa) as [Df0 Hfr0].
  set (h0 := gc_list_init finalizers h) in *.
  assert (Du0 : dlist h0 unreachable U).
  { apply (dlist_frame h); [|exact Du]. intros a Ha. apply Hfr0.
    intros ->. contradiction. }
  assert (Hnd0 : NoDup (unreachable :: finalizers :: U ++ [])).
  { rewrite app_nil_r. pose proof (dl_nodup _ _ _ Du) as Hnd.
    apply NoDup_cons in Hnd as [Hu HndU]. apply NoDup_cons. split.
    - intros Hin. apply elem_of_cons in Hin as [E|Hin]; [|contradiction].
      apply Hfn. rewrite E. left.
    - apply NoDup_cons. split; [|exact HndU]. intros Hin. apply Hfn. right. exact Hin. }
  destruct (move_legacy_finalizers_lists h0 unreachable finalizers U [] fuel
              Du0 Df0 Hnd0 Hf) as (h1 & Hrun1 & Du1 & Df1 & Hm1 & Hs1 & _).
  simpl in Df1.
  assert (Hun0 : forall a, a <> finalizers ->
            gc_is_unreachable h0 a = gc_is_unreachable h a).
  { intros a Ha. unfold gc_is_unreachable. rewrite Hfr0 by exact Ha. reflexivity. }
  assert (Hin_moved : forall a, a ∈ moved U <-> a ∈ U /\ legacy a = true).
  { intros a. rewrite list_elem_of_In, filter_In, <- list_elem_of_In. reflexivity. }
  assert (Hin_stay : forall a, a ∈ stay U <-> a ∈ U /\ legacy a = false).
  { intros a. rewrite list_elem_of_In, filter_In, <- list_elem_of_In.
    rewrite negb_true_iff. reflexivity. }
  assert (Hfin_flag : gc_is_unreachable h1 finalizers = false).
  { rewrite (unreachable_testbit LOK).
    rewrite (dl_last _ _ _ Df1).
    assert (Hal : aligned_address (List.last (moved U) finalizers)).
    { pose proof (last_cons_in (moved U) finalizers) as Hl.
      apply elem_of_cons in Hl as [->|Hl]; [exact Hfa|].
      apply (dl_addr _ _ _ Du). right. apply (proj1 (Hin_moved _)). exact Hl. }
    destruct Hal as [Hr Hmod]. pose proof (unreachable_range LOK) as HU.
    rewrite <- (Z.mod_pow2_bits_low _ SH) by lia. rewrite Hmod. apply Z.bits_0. }
  assert (I1 : finalizer_lists objs unreachable finalizers (stay U) (moved U) h1).
  { split.
    - exact Du1.
    - exact Df1.
    - rewrite app_nil_r in Hnd0.
      assert (P : U ≡ₚ stay U ++ moved U).
      { clear. induction U as [|x U IH]; [reflexivity|]. simpl.
        destruct (legacy x); simpl.
        - rewrite <- Permutation_middle. apply Permutation_skip. exact IH.
        - apply Permutation_skip. exact IH. }
      rewrite <- P. exact Hnd0.
    - intros a Ha. apply Hin_stay in Ha as [HaU Hl].
      split; [apply (Hflag a HaU)|].
      rewrite unreachable_by_flags, Hs1 by (rewrite Hin_moved; intros [_ E]; congruence).
      rewrite <- unreachable_by_flags, Hun0 by (intros ->; apply Hfn; right; exact HaU).
      apply (Hflag a HaU).
    - intros a Hgc Hun1.
      destruct (decide (a ∈ moved U)) as [Hm|Hm].
      { destruct (Hm1 a Hm) as [E _]. congruence. }
      rewrite unreachable_by_flags, Hs1 in Hun1 by exact Hm.
      rewrite <- unreachable_by_flags in Hun1.
      destruct (Z.eq_dec a finalizers) as [->|Hne].
      { exfalso. rewrite unreachable_by_flags, Hs1 in Hfin_flag by exact Hm.
        rewrite <- unreachable_by_flags in Hfin_flag. congruence. }
      rewrite Hun0 in Hun1 by exact Hne.
      pose proof (Honly a Hgc Hun1) as HaU. apply Hin_stay. split; [exact HaU|].
      destruct (legacy a) eqn:Hl; [|reflexivity].
      exfalso. apply Hm. apply Hin_moved. split; assumption. }
  destruct (move_legacy_finalizer_reachable_lists h1 unreachable finalizers
              (stay U) (moved U) fuel I1) as (h2 & M & Hrun2 & I2 & HM & Hcl & Hst).
  { pose proof (moved_stay_length U). lia. }
  exists h2, (moved U ++ M). split.
  { unfold collect_finalizers. fold h0. rewrite Hrun1. simpl. exact Hrun2. }
  rewrite without_app, without_moved.
  split; [exact (fl_unreachable _ _ _ _ _ _ I2)|].
  split; [exact (fl_finalizers _ _ _ _ _ _ I2)|].
  assert (Hsub : forall x, x ∈ stay U -> x ∈ U).
  { intros x Hx. apply Hin_stay in Hx as [Hx _]. exact Hx. }
  split; [|split].
  - intros b. rewrite elem_of_app, HM. split.
    + intros [Hb|(Hb & a & Ha & Hpath)].
      * apply Hin_moved in Hb as [HbU Hl]. split; [exact HbU|].
        exists b. split; [exact HbU|]. split; [exact Hl|constructor].
      * split; [apply Hsub; exact Hb|]. apply Hin_moved in Ha as [HaU Hl].
        exists a. split; [exact HaU|]. split; [exact Hl|].
        apply (refers_into_mono U (stay U)); assumption.
    + intros (HbU & a & HaU & Hl & Hpath).
      assert (Hgoal : b ∈ moved U
                \/ (b ∈ stay U /\ exists a', a' ∈ moved U
                                    /\ rtc (refers_into objs (stay U)) a' b)).
      { clear HbU. revert b Hpath.
        apply (rtc_ind_r (fun z => z ∈ moved U
                \/ (z ∈ stay U /\ exists a', a' ∈ moved U
                                    /\ rtc (refers_into objs (stay U)) a' z)) a).
        - left. apply Hin_moved. split; assumption.
        - intros y z _ [Hp Hz] IHy.
          destruct (legacy z) eqn:Hlz; [left; apply Hin_moved; split; assumption|].
          assert (Hzs : z ∈ stay U) by (apply Hin_stay; split; assumption).
          right. split; [exact Hzs|].
          destruct IHy as [Hy|(Hy & a' & Ha' & Hpath')].
          + exists y. split; [exact Hy|]. apply rtc_once. split; assumption.
          + exists a'. split; [exact Ha'|].
            apply rtc_r with y; [exact Hpath'|split; assumption]. }
      exact Hgoal.
  - intros b Hb. apply elem_of_app in Hb as [Hb|Hb]; [|apply Hcl; exact Hb].
    (* moved in the first pass, not flagged again in the second *)
    destruct (gc_is_unreachable h2 b) eqn:E; [|reflexivity].
    apply Hin_moved in Hb as [HbU Hl].
    destruct (Hflag b HbU) as [Hgc _].
    pose proof (fl_only _ _ _ _ _ _ I2 b Hgc E) as Hin.
    apply in_without in Hin as [Hin _]. apply Hin_stay in Hin as [_ Hl'].
    congruence.
  - intros b HbU Hn. apply Hst.
    + apply Hin_stay. split; [exact HbU|].
      destruct (legacy b) eqn:Hl; [|reflexivity].
      exfalso. apply Hn. apply elem_of_app; left. apply Hin_moved. split; assumption.
    + intros Hm. apply Hn. apply elem_of_app; right. exact Hm.
Qed.

End LegacyFinalizers.

End ListTheorems.

(** ** The list functions on three unreachable objects *)

Ltac listed_elements :=
  apply Forall_forall; repeat first [apply List.Forall_nil | apply List.Forall_cons].
Ltac concrete_dlist :=
  split;
  [ apply (bool_decide_unpack _); vm_compute; exact I
  | listed_elements; (split; [split|]); reflexivity
  | vm_compute; repeat split
  | vm_compute; repeat split
  | reflexivity
  | listed_elements; (split; [discriminate|reflexivity]) ].

Section TrashFacts.
Import GC Lists.

Lemma trash_objects_gc (op : Z) :
  _PyObject_IS_GC trash_objects op = true -> op ∈ [4176; 4208; 4240].
Proof.
  unfold _PyObject_IS_GC, object_at, trash_objects. intros Hgc.
  destruct (decide (op = 4176)) as [->|H1]; [set_solver +|].
  destruct (decide (op = 4208)) as [->|H2]; [set_solver +|].
  destruct (decide (op = 4240)) as [->|H3]; [set_solver +|].
  rewrite !lookup_insert_ne, lookup_empty in Hgc by congruence. discriminate.
Qed.

Lemma trash_headers_gc (a : Z) :
  _PyObject_IS_GC trash_objects (FROM_GC a) = true -> a ∈ [4160; 4192; 4224].
Proof.
  intros Hgc. apply trash_objects_gc in Hgc. unfold FROM_GC in Hgc.
  apply elem_of_cons in Hgc as [E|Hgc];
    [assert (a = 4160) as -> by lia; set_solver +|].
  apply elem_of_cons in Hgc as [E|Hgc];
    [assert (a = 4192) as -> by lia; set_solver +|].
  apply elem_of_cons in Hgc as [E|Hgc];
    [assert (a = 4224) as -> by lia; set_solver +|].
  inversion Hgc.
Qed.

Lemma trash_list : @dlist example_layout trash_heads 2000 [4160; 4192; 4224].
Proof. concrete_dlist. Qed.

Lemma trash_empty_list : @dlist example_layout trash_heads 3000 [].
Proof. concrete_dlist. Qed.

Lemma trash_is_gc_list : is_gc_list trash_heads 2000 [4160; 4192; 4224].
Proof.
  split; [vm_compute; auto|]. apply (bool_decide_unpack _). vm_compute. exact I.
Qed.

Lemma trash_flagged (a : Z) :
  a ∈ [4160; 4192; 4224] ->
  _PyObject_IS_GC trash_objects (FROM_GC a) = true
  /\ @gc_is_unreachable example_layout trash_heads a = true.
Proof. revert a. listed_elements; split; reflexivity. Qed.

Lemma trash_only (a : Z) :
  _PyObject_IS_GC trash_objects (FROM_GC a) = true ->
  @gc_is_unreachable example_layout trash_heads a = true -> a ∈ [4160; 4192; 4224].
Proof. intros Hgc _. apply trash_headers_gc. exact Hgc. Qed.

Lemma split_lists :
  @finalizer_lists example_layout trash_objects 2000 3000 [4192; 4224] [4160]
    split_heads.
Proof.
  split.
  - concrete_dlist.
  - concrete_dlist.
  - apply (bool_decide_unpack _). vm_compute. exact I.
  - listed_elements; split; reflexivity.
  - intros a Hgc Hun. apply trash_headers_gc in Hgc.
    apply elem_of_cons in Hgc as [->|Hgc]; [discriminate Hun|exact Hgc].
Qed.

End TrashFacts.

Lemma gc_list_size_length_witness :
  GC.gc_list_size 4 2000 Lists.trash_heads = Done 3
  /\ (GC.gc_list_is_empty Lists.trash_heads 2000 = true
      <-> [4160; 4192; 4224] = []).
Proof.
  exact (gc_list_size_length Lists.trash_heads 2000 [4160; 4192; 4224] 4
           trash_is_gc_list ltac:(simpl; lia)).
Defined.

Lemma gc_list_append_spec_witness :
  let h' := @GC.gc_list_append GC.example_layout 4256 2000 Lists.trash_heads in
  @Lists.dlist GC.example_layout h' 2000 [4160; 4192; 4224; 4256]
  /\ GC.head_at h' 4256 = {| GC._gc_next := 2000; GC._gc_prev := 4224 |}
  /\ GC.head_at h' 4224 = {| GC._gc_next := 4256; GC._gc_prev := 4192 + 6 |}.
Proof.
  intros h'.
  destruct (@gc_list_append_spec GC.example_layout example_layout_ok
              Lists.trash_heads 2000 4256 [4160; 4192; 4224] trash_list)
    as (Hlist & _).
  - apply (bool_decide_unpack _). vm_compute. exact I.
  - split; [split|]; reflexivity.
  - split; [discriminate|reflexivity].
  - split; [exact Hlist|]. split; reflexivity.
Defined.

Lemma gc_list_move_spec_witness :
  let h' := @GC.gc_list_move GC.example_layout 4192 3000 Lists.trash_heads in
  @Lists.dlist GC.example_layout h' 2000 [4160; 4224]
  /\ @Lists.dlist GC.example_layout h' 3000 [4192]
  /\ @Lists.flags_of GC.example_layout h' 4192 = 6.
Proof.
  intros h'.
  destruct (@gc_list_move_spec GC.example_layout example_layout_ok
              Lists.trash_heads 2000 3000 4192 [4160] [4224] []
              trash_list trash_empty_list) as (Hfrom & Hto & Hflags & _).
  - apply (bool_decide_unpack _). vm_compute. exact I.
  - split; [exact Hfrom|]. split; [exact Hto|].
    fold h' in Hflags. rewrite Hflags. reflexivity.
Defined.

Lemma clear_unreachable_mask_spec_witness :
  exists h',
    @Lists.clear_unreachable_mask GC.example_layout 4 2000 Lists.trash_heads = Done h'
    /\ GC.is_gc_list h' 2000 [4160; 4192; 4224]
    /\ @GC.gc_is_unreachable GC.example_layout h' 4192 = false
    /\ @Lists.flags_of GC.example_layout h' 4192 = 4.
Proof.
  destruct (@clear_unreachable_mask_spec GC.example_layout example_layout_ok
              Lists.trash_heads 2000 [4160; 4192; 4224] 4 trash_is_gc_list)
    as (h' & Hrun & Hlist & Hnodes & _).
  - listed_elements; (split; [discriminate|reflexivity]).
  - simpl. lia.
  - exists h'. split; [exact Hrun|]. split; [exact Hlist|].
    assert (Hin : 4192 ∈ [4160; 4192; 4224])
      by (apply (bool_decide_unpack _); vm_compute; exact I).
    destruct (Hnodes 4192 Hin) as (Hun & _ & _ & Hfl).
    split; [exact Hun|]. rewrite Hfl. reflexivity.
Defined.

Lemma move_legacy_finalizers_spec_witness :
  @Lists.move_legacy_finalizers GC.example_layout Lists.trash_objects 4 2000 3000
     Lists.trash_heads = Done Lists.split_heads
  /\ exists h',
       @Lists.move_legacy_finalizers GC.example_layout Lists.trash_objects 4 2000 3000
         Lists.trash_heads = Done h'
       /\ @Lists.dlist GC.example_layout h' 2000 [4192; 4224]
       /\ @Lists.dlist GC.example_layout h' 3000 [4160].
Proof.
  split; [vm_compute; reflexivity|].
  destruct (@move_legacy_finalizers_spec GC.example_layout example_layout_ok
              Lists.trash_objects Lists.trash_heads 2000 3000
              [4160; 4192; 4224] [] 4 trash_list trash_empty_list)
    as (h' & Hrun & Hu & Hf & _).
  - apply (bool_decide_unpack _). vm_compute. exact I.
  - simpl. lia.
  - exists h'. split; [exact Hrun|]. split; [exact Hu|exact Hf].
Defined.

Lemma move_legacy_finalizer_reachable_spec_witness :
  exists h' M,
    @Lists.move_legacy_finalizer_reachable GC.example_layout Lists.trash_objects
       4 3000 Lists.split_heads = Done h'
    /\ @Lists.finalizer_lists GC.example_layout Lists.trash_objects 2000 3000
         (List.filter (fun a => negb (bool_decide (a ∈ M))) [4192; 4224])
         ([4160] ++ M) h'
    /\ (forall b, b ∈ M <->
          b ∈ [4192; 4224]
          /\ exists a, a ∈ [4160]
               /\ rtc (Lists.refers_into Lists.trash_objects [4192; 4224]) a b).
Proof.
  destruct (@move_legacy_finalizer_reachable_spec GC.example_layout example_layout_ok
              Lists.trash_objects Lists.split_heads 2000 3000 [4192; 4224] [4160] 4
              split_lists ltac:(simpl; lia))
    as (h' & M & Hrun & Hlists & Hmem & _).
  exists h', M. split; [exact Hrun|]. split; [exact Hlists|exact Hmem].
Defined.

Lemma collect_finalizers_spec_witness :
  @Lists.collect_finalizers GC.example_layout Lists.trash_objects 4 2000 3000
     Lists.trash_heads
  = Done (<[2000 := {| GC._gc_next := 4224; GC._gc_prev := 4224 |}]>
         (<[3000 := {| GC._gc_next := 4160; GC._gc_prev := 4192 |}]>
         (<[4160 := {| GC._gc_next := 4192; GC._gc_prev := 3000 + 4 |}]>
         (<[4192 := {| GC._gc_next := 3000; GC._gc_prev := 4160 + 4 |}]>
         (<[4224 := {| GC._gc_next := 2000; GC._gc_prev := 2000 + 6 |}]> ∅)))))
  /\ exists h' K,
       @Lists.collect_finalizers GC.example_layout Lists.trash_objects 4 2000 3000
         Lists.trash_heads = Done h'
       /\ @Lists.dlist GC.example_layout h' 3000 K
       /\ (forall b, b ∈ K <->
             b ∈ [4160; 4192; 4224]
             /\ exists a, a ∈ [4160; 4192; 4224]
                  /\ Lists.has_legacy_finalizer Lists.trash_objects (GC.FROM_GC a) = true
                  /\ rtc (Lists.refers_into Lists.trash_objects [4160; 4192; 4224]) a b).
Proof.
  split; [vm_compute; reflexivity|].
  destruct (@collect_finalizers_spec GC.example_layout example_layout_ok
              Lists.trash_objects Lists.trash_heads 2000 3000 [4160; 4192; 4224] 4
              trash_list)
    as (h' & K & Hrun & _ & Hf & Hmem & _).
  - split; [split|]; reflexivity.
  - apply (bool_decide_unpack _). vm_compute. exact I.
  - exact trash_flagged.
  - exact trash_only.
  - simpl. lia.
  - exists h', K. split; [exact Hrun|]. split; [exact Hf|exact Hmem].
Defined.

(** ** Walks over the whole heap *)

Section HeapTheorems.
Import GC Lists Heap.
Context {L : Layout}.

Lemma find_object_walk (h : gmap Z PyGC_Head) (blocks : list Z) :
  forall args : find_object_args,
  let r := visit_page_arg find_object_visitor h blocks args in
  fo_op r = fo_op args
  /\ (fo_found r = 1 <->
      fo_found args = 1
      \/ (AS_GC (fo_op args) ∈ blocks /\ _PyGC_TRACKED h (AS_GC (fo_op args)) = true))
  /\ (fo_found r = fo_found args \/ fo_found r = 1).
Proof.
  induction blocks as [|gc blocks IH]; intros args; simpl.
  - split; [reflexivity|]. split; [|left; reflexivity].
    split; [intros E; left; exact E|].
    intros [E|[Hin _]]; [exact E|inversion Hin].
  - set (args1 := if _PyGC_TRACKED h gc then _ else args).
    destruct (IH args1) as (Hop & Hfound & Hmono).
    fold (visit_page_arg find_object_visitor h blocks args1).
    assert (Hop1 : fo_op args1 = fo_op args).
    { unfold args1. destruct (_PyGC_TRACKED h gc); [|reflexivity]. simpl.
      destruct (FROM_GC gc =? fo_op args); reflexivity. }
    assert (H1 : fo_found args1 = 1 <->
                 fo_found args = 1
                 \/ (gc = AS_GC (fo_op args) /\ _PyGC_TRACKED h gc = true)).
    { unfold args1. destruct (_PyGC_TRACKED h gc) eqn:Ht; simpl.
      - destruct (Z.eqb_spec (FROM_GC gc) (fo_op args)) as [E|E]; simpl.
        + split; [intros _; right|reflexivity].
          split; [rewrite <- E; symmetry; apply AS_GC_FROM_GC|reflexivity].
        + split; [intros H1; left; exact H1|].
          intros [H1|[-> _]]; [exact H1|]. exfalso. apply E. apply FROM_GC_AS_GC.
      - split; [intros H1; left; exact H1|]. intros [H1|[_ H1]]; [exact H1|discriminate]. }
    rewrite Hop. split; [exact Hop1|]. split.
    + rewrite Hfound, Hop1, H1. rewrite elem_of_cons. split.
      * intros [[E|[-> Ht]]|[Hin Ht]].
        -- left; exact E.
        -- right. split; [left; reflexivity|exact Ht].
        -- right. split; [right; exact Hin|exact Ht].
      * intros [E|[[E|Hin] Ht]].
        -- left; left; exact E.
        -- left; right. split; [symmetry; exact E|rewrite <- E; exact Ht].
        -- right. split; assumption.
    + destruct Hmono as [E|E]; [|right; exact E]. rewrite E.
      unfold args1. destruct (_PyGC_TRACKED h gc); [|left; reflexivity]. simpl.
      destruct (FROM_GC gc =? fo_op args); [right|left]; reflexivity.
Qed.

Lemma find_object_found (blocks : list Z) (h : gmap Z PyGC_Head) (op : Z) :
  (find_object blocks h op = 1 <->
   AS_GC op ∈ blocks /\ _PyGC_TRACKED h (AS_GC op) = true)
  /\ (find_object blocks h op = 0 \/ find_object blocks h op = 1).
Proof.
  unfold find_object, visit_heap_arg. simpl snd.
  destruct (find_object_walk h blocks {| fo_op := op; fo_found := 0 |})
    as (_ & Hfound & Hmono). simpl in Hfound, Hmono.
  split; [|exact Hmono].
  rewrite Hfound. split; [intros [E|E]; [discriminate|exact E]|intros E; right; exact E].
Qed.

(** [find_object] returns 1 exactly for the objects whose header is a
    tracked block of the heap, and 0 for every other address. *)
Theorem find_object_spec (blocks : list Z) (h : gmap Z PyGC_Head) (op : Z) :
  (find_object blocks h op = 1 <->
   AS_GC op ∈ blocks /\ _PyGC_TRACKED h (AS_GC op) = true)
  /\ (find_object blocks h op = 0 \/ find_object blocks h op = 1).
Proof. exact (find_object_found blocks h op). Qed.

Lemma reset_heap_walk (blocks : list Z) :
  forall (h : gmap Z PyGC_Head) (gc : Z),
  head_at (_PyGC_ResetHeap blocks h) gc
  = if decide (gc ∈ blocks /\ _PyGC_TRACKED h gc = true)
    then {| _gc_next := _gc_next (head_at h gc); _gc_prev := 0 |}
    else head_at h gc.
Proof.
  unfold _PyGC_ResetHeap, visit_heap.
  induction blocks as [|x blocks IH]; intros h gc; simpl.
  - destruct (decide (gc ∈ [] /\ _PyGC_TRACKED h gc = true)) as [[Hin _]|_];
      [inversion Hin|reflexivity].
  - set (h1 := if _PyGC_TRACKED h x then reset_heap_visitor x h else h).
    rewrite (IH h1 gc).
    assert (Hreset : forall y, _PyGC_TRACKED (reset_heap_visitor y h) y = false).
    { intros y. unfold _PyGC_TRACKED, reset_heap_visitor, store_prev.
      rewrite head_at_insert_eq. simpl. rewrite ?Z.land_0_l. reflexivity. }
    destruct (Z.eq_dec gc x) as [->|Hne].
    + destruct (_PyGC_TRACKED h x) eqn:Ht; unfold h1.
      * rewrite Hreset.
        destruct (decide (x ∈ blocks /\ false = true)) as [[_ E]|_]; [discriminate|].
        rewrite decide_True by (split; [left|reflexivity]).
        unfold reset_heap_visitor, store_prev. rewrite head_at_insert_eq. reflexivity.
      * rewrite Ht.
        destruct (decide (x ∈ blocks /\ false = true)) as [[_ E]|_]; [discriminate|].
        destruct (decide (x ∈ x :: blocks /\ false = true)) as [[_ E]|_];
          [discriminate|reflexivity].
    + assert (Hsame : head_at h1 gc = head_at h gc).
      { unfold h1. destruct (_PyGC_TRACKED h x); [|reflexivity].
        unfold reset_heap_visitor, store_prev. apply head_at_insert_ne. congruence. }
      assert (Ht : _PyGC_TRACKED h1 gc = _PyGC_TRACKED h gc).
      { unfold _PyGC_TRACKED. rewrite Hsame. reflexivity. }
      rewrite Ht, Hsame.
      destruct (decide (gc ∈ blocks /\ _PyGC_TRACKED h gc = true)) as [[Hin Hg]|Hn].
      * rewrite decide_True by (split; [right; exact Hin|exact Hg]). reflexivity.
      * rewrite decide_False; [reflexivity|].
        intros [Hin Hg]. apply Hn. split; [|exact Hg].
        apply elem_of_cons in Hin as [E|Hin]; [contradiction|exact Hin].
Qed.

(** After [_PyGC_ResetHeap] no block of the heap is tracked and
    [find_object] finds nothing: the tracked blocks have lost all of
    [_gc_prev], also the FINALIZED flag; their [_gc_next] and the blocks
    that were not tracked are as before. *)
Theorem reset_heap_untracks_all (blocks : list Z) (h : gmap Z PyGC_Head) :
  let h' := _PyGC_ResetHeap blocks h in
  (forall gc, gc ∈ blocks -> _PyGC_TRACKED h' gc = false)
  /\ (forall op, find_object blocks h' op = 0)
  /\ (forall gc, gc ∈ blocks -> _PyGC_TRACKED h gc = true ->
        _gc_prev (head_at h' gc) = 0 /\ _PyGCHead_FINALIZED h' gc = false)
  /\ (forall gc, _gc_next (head_at h' gc) = _gc_next (head_at h gc))
  /\ (forall gc, gc ∉ blocks \/ _PyGC_TRACKED h gc = false ->
        head_at h' gc = head_at h gc).
Proof.
  intros h'.
  assert (Hun : forall gc, gc ∈ blocks -> _PyGC_TRACKED h' gc = false).
  { intros gc Hin. unfold _PyGC_TRACKED, h'. rewrite reset_heap_walk.
    destruct (decide (gc ∈ blocks /\ _PyGC_TRACKED h gc = true)) as [_|Hn]; simpl.
    - rewrite ?Z.land_0_l. reflexivity.
    - destruct (_PyGC_TRACKED h gc) eqn:Ht; [exfalso; apply Hn; split; auto|].
      exact Ht. }
  split; [exact Hun|]. split; [|split; [|split]].
  - intros op. destruct (find_object_found blocks h' op) as [Hiff [E|E]]; [exact E|].
    apply Hiff in E as [Hin Ht]. rewrite (Hun _ Hin) in Ht. discriminate.
  - intros gc Hin Ht. unfold _PyGCHead_FINALIZED, h'. rewrite reset_heap_walk.
    rewrite decide_True by (split; assumption). simpl. rewrite ?Z.land_0_l.
    split; reflexivity.
  - intros gc. unfold h'. rewrite reset_heap_walk.
    destruct (decide (gc ∈ blocks /\ _PyGC_TRACKED h gc = true)); reflexivity.
  - intros gc Hgc. unfold h'. rewrite reset_heap_walk.
    rewrite decide_False; [reflexivity|].
    intros [Hin Ht]. destruct Hgc as [Hn|Hf]; [contradiction|congruence].
Qed.

(** *** Walks that collect objects in a list *)

Section Collecting.
Variable env : api_env.

Local Abbreviation collected := (Heap.collected env).

Lemma PyList_eta (l : PyList) (a : Z) (items : list Z) :
  list_at l = a -> ob_item l = items -> l = {| list_at := a; ob_item := items |}.
Proof. destruct l. simpl. intros -> ->. reflexivity. Qed.

Lemma collected_spec (P : Z -> bool) (blocks : list Z) :
  forall l : PyList,
  list_at (collected P blocks l) = list_at l
  /\ exists items,
       ob_item (collected P blocks l) = ob_item l ++ items
       /\ (forall x, x ∈ items -> exists gc, gc ∈ blocks /\ P gc = true /\ x = FROM_GC gc)
       /\ ((forall its, append_ok env its = true) ->
           items = map FROM_GC (List.filter P blocks)).
Proof.
  induction blocks as [|gc blocks IH]; intros l; simpl.
  - split; [reflexivity|]. exists []. rewrite app_nil_r.
    split; [reflexivity|]. split; [intros x Hx; inversion Hx|reflexivity].
  - fold (collected P blocks).
    destruct (P gc) eqn:HP.
    + unfold PyList_Append at 1 2. destruct (append_ok env (ob_item l)) eqn:Hok; simpl.
      * destruct (IH {| list_at := list_at l; ob_item := ob_item l ++ [FROM_GC gc] |})
          as (Hat & items & Hitems & Hsound & Hfull). simpl in Hat, Hitems.
        split; [exact Hat|]. exists (FROM_GC gc :: items).
        split; [rewrite Hitems, <- app_assoc; reflexivity|]. split.
        -- intros x Hx. apply elem_of_cons in Hx as [->|Hx].
           ++ exists gc. split; [left|]. split; [exact HP|reflexivity].
           ++ destruct (Hsound x Hx) as (g & Hg & HPg & E).
              exists g. split; [right; exact Hg|]. split; assumption.
        -- intros Hall. rewrite (Hfull Hall). reflexivity.
      * destruct (IH l) as (Hat & items & Hitems & Hsound & Hfull).
        split; [exact Hat|]. exists items. split; [exact Hitems|]. split.
        -- intros x Hx. destruct (Hsound x Hx) as (g & Hg & HPg & E).
           exists g. split; [right; exact Hg|]. split; assumption.
        -- intros Hall. rewrite Hall in Hok. discriminate.
    + destruct (IH l) as (Hat & items & Hitems & Hsound & Hfull).
      split; [exact Hat|]. exists items. split; [exact Hitems|]. split.
      * intros x Hx. destruct (Hsound x Hx) as (g & Hg & HPg & E).
        exists g. split; [right; exact Hg|]. split; assumption.
      * exact Hfull.
Qed.

Section Referrers.
Variable objs : gmap Z PyObject.

Local Abbreviation refers_to_one_of := (Heap.refers_to_one_of objs).

Lemma referrers_traverse (args : PyTuple) (rs : list Z) :
  fst (tp_traverse_until (fun r a => (referrersvisit r a, a)) rs args)
  = existsb (fun r => referrersvisit r args) rs.
Proof.
  induction rs as [|r rs IH]; [reflexivity|]. simpl.
  destruct (referrersvisit r args); [reflexivity|exact IH].
Qed.

Lemma refers_to_one_of_spec (args : PyTuple) (x : Z) :
  refers_to_one_of args x = true
  <-> exists y, y ∈ tuple_item args /\ y ∈ ob_referents (object_at objs x).
Proof.
  unfold refers_to_one_of, referrersvisit. rewrite existsb_exists. split.
  - intros (r & Hr & Hex). apply existsb_exists in Hex as (it & Hit & E).
    apply Z.eqb_eq in E. subst it. exists r.
    split; apply list_elem_of_In; assumption.
  - intros (y & Hy & Hr). exists y. split; [apply list_elem_of_In; exact Hr|].
    apply existsb_exists. exists y. split; [apply list_elem_of_In; exact Hy|].
    apply Z.eqb_refl.
Qed.

Lemma referrers_walk (h : gmap Z PyGC_Head) (args : PyTuple) (a : Z)
    (blocks : list Z) :
  forall arg : gc_referrers_arg,
  ra_objs arg = args -> list_at (ra_resultlist arg) = a ->
  let r := visit_page_arg (gc_referrers_visitor objs env) h blocks arg in
  ra_resultlist r
  = collected (fun gc => _PyGC_TRACKED h gc
                         && negb ((FROM_GC gc =? tuple_at args) || (FROM_GC gc =? a))
                         && refers_to_one_of args (FROM_GC gc))
              blocks (ra_resultlist arg).
Proof.
  induction blocks as [|gc blocks IH]; intros arg Hargs Hat; [reflexivity|].
  simpl. fold (visit_page_arg (gc_referrers_visitor objs env) h blocks).
  match goal with |- context [collected ?P blocks] => fold (collected P blocks) end.
  destruct (_PyGC_TRACKED h gc); simpl; [|apply IH; assumption].
  unfold gc_referrers_visitor. rewrite Hargs, Hat, referrers_traverse.
  fold (refers_to_one_of args (FROM_GC gc)).
  destruct ((FROM_GC gc =? tuple_at args) || (FROM_GC gc =? a)); simpl;
    [apply IH; assumption|].
  destruct (refers_to_one_of args (FROM_GC gc)); simpl; [|apply IH; assumption].
  destruct (PyList_Append env (ra_resultlist arg) (FROM_GC gc)) as [rc l] eqn:E.
  assert (Hl : list_at l = a).
  { unfold PyList_Append in E. destruct (append_ok env _); injection E as _ <-;
      [simpl|]; exact Hat. }
  destruct (rc <? 0); simpl; rewrite IH by (simpl; auto); reflexivity.
Qed.

(** [gc.get_referrers] returns a list whenever the audit passes and the
    list can be created: a failed append is dropped by the heap walk.
    The list holds only tracked objects of the heap, other than the
    argument tuple and the list itself, that refer to one of the
    arguments; it holds all of them when no append fails. *)
Theorem gc_get_referrers_spec (blocks : list Z) (h : gmap Z PyGC_Head)
    (args : PyTuple) (a : Z) :
  audit_raises env = None -> new_list env = Some a ->
  let referrer x :=
    AS_GC x ∈ blocks /\ _PyGC_TRACKED h (AS_GC x) = true
    /\ x <> tuple_at args /\ x <> a
    /\ exists y, y ∈ tuple_item args /\ y ∈ ob_referents (object_at objs x) in
  exists items,
    gc_get_referrers objs env blocks h args
    = Returns {| list_at := a; ob_item := items |}
    /\ (forall x, x ∈ items -> referrer x)
    /\ ((forall its, append_ok env its = true) -> forall x, referrer x -> x ∈ items).
Proof.
  intros Haudit Hnew referrer. unfold gc_get_referrers. rewrite Haudit, Hnew.
  unfold visit_heap_arg. change (0 <? 0) with false. cbv iota.
  rewrite (referrers_walk h args a) by reflexivity. simpl ra_resultlist.
  match goal with |- context [collected ?P blocks ?l] =>
    destruct (collected_spec P blocks l) as (Hat & items & Hitems & Hsound & Hfull);
    set (P0 := P) in *
  end.
  simpl in Hat, Hitems. exists items. split.
  { f_equal. apply PyList_eta; assumption. }
  assert (Hchar : forall gc, gc ∈ blocks -> P0 gc = true <-> referrer (FROM_GC gc)).
  { intros gc Hin. unfold P0, referrer. rewrite AS_GC_FROM_GC.
    rewrite !andb_true_iff, negb_true_iff, orb_false_iff, !Z.eqb_neq.
    rewrite refers_to_one_of_spec. split.
    - intros [[Ht [H1 H2]] Hr]. repeat split; assumption.
    - intros (_ & Ht & H1 & H2 & Hr). repeat split; assumption. }
  split.
  - intros x Hx. destruct (Hsound x Hx) as (gc & Hin & HP & ->).
    apply (Hchar gc Hin). exact HP.
  - intros Hall x Hx. rewrite (Hfull Hall).
    apply list_elem_of_In, in_map_iff. exists (AS_GC x).
    split; [apply FROM_GC_AS_GC|]. apply filter_In.
    assert (Hin : AS_GC x ∈ blocks) by (destruct Hx as [Hin _]; exact Hin).
    split; [apply list_elem_of_In; exact Hin|].
    apply (Hchar _ Hin). rewrite FROM_GC_AS_GC. exact Hx.
Qed.

End Referrers.

Lemma objects_walk (h : gmap Z PyGC_Head) (a : Z) (blocks : list Z) :
  forall arg : gc_get_objects_arg,
  list_at (oa_py_list arg) = a ->
  oa_py_list (visit_page_arg (gc_get_objects_visitor env) h blocks arg)
  = collected (fun gc => _PyGC_TRACKED h gc && negb (FROM_GC gc =? a))
              blocks (oa_py_list arg).
Proof.
  induction blocks as [|gc blocks IH]; intros arg Hat; [reflexivity|].
  simpl. fold (visit_page_arg (gc_get_objects_visitor env) h blocks).
  match goal with |- context [Heap.collected env ?P blocks] =>
    fold (collected P blocks) end.
  destruct (_PyGC_TRACKED h gc); simpl; [|apply IH; assumption].
  unfold gc_get_objects_visitor. rewrite Hat.
  destruct (FROM_GC gc =? a); simpl; [apply IH; assumption|].
  destruct (PyList_Append env (oa_py_list arg) (FROM_GC gc)) as [rc l] eqn:E.
  assert (Hl : list_at l = a).
  { unfold PyList_Append in E. destruct (append_ok env _); injection E as _ <-;
      [simpl|]; exact Hat. }
  destruct (negb (rc =? 0)); simpl; rewrite IH by (simpl; auto); reflexivity.
Qed.

(** [gc.get_objects] returns a list exactly for
    [-1 <= generation < NUM_GENERATIONS] and raises ValueError otherwise,
    with the text of the source: for a generation that is too large it
    ends with the number of generations in parentheses.
    The list is the same for every such generation: it holds tracked
    objects of the heap other than the list itself, all of them when no
    append fails. *)
Theorem gc_get_objects_spec (NUM_GENERATIONS : Z) (blocks : list Z)
    (h : gmap Z PyGC_Head) (generation a : Z) :
  audit_raises env = None -> new_list env = Some a ->
  let get_objects := gc_get_objects_impl env NUM_GENERATIONS blocks h in
  let listed x := AS_GC x ∈ blocks /\ _PyGC_TRACKED h (AS_GC x) = true /\ x <> a in
  (-1 <= generation < NUM_GENERATIONS ->
     exists items,
       get_objects generation = Returns {| list_at := a; ob_item := items |}
       /\ (forall x, x ∈ items -> listed x)
       /\ ((forall its, append_ok env its = true) -> forall x, listed x -> x ∈ items)
       /\ (forall g, -1 <= g < NUM_GENERATIONS -> get_objects g = get_objects generation))
  /\ (NUM_GENERATIONS <= generation ->
      get_objects generation
      = Raises ("ValueError: generation parameter must be less than the number of available generations ("
                +:+ format_int NUM_GENERATIONS +:+ ")"))
  /\ (generation < -1 -> generation < NUM_GENERATIONS ->
      get_objects generation
      = Raises "ValueError: generation parameter cannot be negative").
Proof.
  intros Haudit Hnew get_objects listed.
  assert (Hvalid : forall g, -1 <= g < NUM_GENERATIONS ->
            get_objects g
            = Returns (collected (fun gc => _PyGC_TRACKED h gc && negb (FROM_GC gc =? a))
                        blocks {| list_at := a; ob_item := [] |})).
  { intros g Hg. unfold get_objects, gc_get_objects_impl. rewrite Haudit, Hnew.
    destruct (Z.leb_spec NUM_GENERATIONS g) as [|_]; [lia|].
    destruct (Z.ltb_spec g (-1)) as [|_]; [lia|].
    unfold visit_heap_arg. change (0 <? 0) with false. cbv iota.
    rewrite (objects_walk h a) by reflexivity. reflexivity. }
  split; [|split].
  - intros Hg.
    match type of Hvalid with context [collected ?P blocks ?l] =>
      destruct (collected_spec P blocks l) as (Hat & items & Hitems & Hsound & Hfull);
      set (P0 := P) in *
    end.
    simpl in Hat, Hitems. exists items. split; [|split; [|split]].
    + rewrite (Hvalid _ Hg). f_equal. apply PyList_eta; assumption.
    + intros x Hx. destruct (Hsound x Hx) as (gc & Hin & HP & ->).
      unfold P0 in HP. apply andb_true_iff in HP as [Ht Hne].
      apply negb_true_iff, Z.eqb_neq in Hne.
      unfold listed. rewrite AS_GC_FROM_GC. repeat split; assumption.
    + intros Hall x (Hin & Ht & Hne). rewrite (Hfull Hall).
      apply list_elem_of_In, in_map_iff. exists (AS_GC x).
      split; [apply FROM_GC_AS_GC|]. apply filter_In.
      split; [apply list_elem_of_In; exact Hin|].
      unfold P0. rewrite Ht, FROM_GC_AS_GC. simpl.
      apply negb_true_iff, Z.eqb_neq. exact Hne.
    + intros g' Hg'. rewrite (Hvalid _ Hg'), (Hvalid _ Hg). reflexivity.
  - intros Hg. unfold get_objects, gc_get_objects_impl. rewrite Haudit, Hnew.
    destruct (Z.leb_spec NUM_GENERATIONS generation) as [_|]; [reflexivity|lia].
  - intros Hg Hn. unfold get_objects, gc_get_objects_impl. rewrite Haudit, Hnew.
    destruct (Z.leb_spec NUM_GENERATIONS generation) as [|_]; [lia|].
    destruct (Z.ltb_spec generation (-1)) as [_|]; [reflexivity|lia].
Qed.

Section Garbage.
Variable objs : gmap Z PyObject.

Lemma garbage_loop_spec (saveall : bool) (finalizers : Z) (h : gmap Z PyGC_Head)
    (F : list Z) :
  forall (gc : Z) (fuel : nat) (l : PyList),
  chain_from h gc F finalizers -> NoDup (finalizers :: F) ->
  (length F < fuel)%nat ->
  let listed := map FROM_GC
    (List.filter (fun gc => saveall || has_legacy_finalizer objs (FROM_GC gc)) F) in
  exists items,
    garbage_loop objs env fuel saveall finalizers gc h l
    = Done {| list_at := list_at l; ob_item := ob_item l ++ items |}
    /\ items `prefix_of` listed
    /\ ((forall its, append_ok env its = true) -> items = listed).
Proof.
  induction F as [|x F IH]; intros gc fuel l Hc Hnd Hf listed;
    (destruct fuel as [|fuel]; [simpl in Hf; lia|]).
  - simpl in Hc. subst gc. simpl. rewrite Z.eqb_refl. exists [].
    rewrite app_nil_r. split; [destruct l; reflexivity|].
    split; [apply prefix_nil|reflexivity].
  - simpl in Hc. destruct Hc as [-> Hc].
    apply NoDup_cons in Hnd as [Hhead Hnd]. apply NoDup_cons in Hnd as [Hx Hnd].
    assert (Hxh : x <> finalizers) by (intros ->; apply Hhead; left).
    assert (Hnd' : NoDup (finalizers :: F)).
    { apply NoDup_cons. split; [|exact Hnd]. intros Hin. apply Hhead. right. exact Hin. }
    simpl garbage_loop. destruct (Z.eqb_spec x finalizers) as [|_]; [contradiction|].
    unfold listed. simpl List.filter.
    destruct (saveall || has_legacy_finalizer objs (FROM_GC x)); simpl map.
    + unfold PyList_Append. destruct (append_ok env (ob_item l)) eqn:Hok.
      * change (0 <? 0) with false. cbv iota.
        destruct (IH (GC_NEXT h x) fuel
                    {| list_at := list_at l; ob_item := ob_item l ++ [FROM_GC x] |}
                    Hc Hnd' ltac:(simpl in Hf; lia))
          as (items & Hrun & Hpre & Hfull).
        exists (FROM_GC x :: items). simpl in Hrun. rewrite Hrun.
        split; [rewrite <- app_assoc; reflexivity|].
        split; [apply prefix_cons; exact Hpre|].
        intros Hall. rewrite (Hfull Hall). reflexivity.
      * change (-1 <? 0) with true. cbv iota. exists []. rewrite app_nil_r.
        split; [destruct l; reflexivity|]. split; [apply prefix_nil|].
        intros Hall. rewrite Hall in Hok. discriminate.
    + apply (IH (GC_NEXT h x) fuel l Hc Hnd'). simpl in Hf. lia.
Qed.

Lemma gc_list_clear_loop_more_fuel (keep : Z -> Z) (list : Z) (fuel : nat) :
  forall (gc : Z) (h h' : gmap Z PyGC_Head) (fuel' : nat),
  gc_list_clear_loop fuel keep list gc h = Done h' -> (fuel <= fuel')%nat ->
  gc_list_clear_loop fuel' keep list gc h = Done h'.
Proof.
  induction fuel as [|fuel IH]; intros gc h h' fuel' Hrun Hle; [discriminate|].
  destruct fuel' as [|fuel']; [lia|]. simpl in Hrun |- *.
  destruct (gc =? list); [exact Hrun|].
  apply IH; [exact Hrun|lia].
Qed.

(** [handle_legacy_finalizers] appends to gc.garbage, in list order, the
    objects of [finalizers] that have a legacy finalizer (all of them
    under DEBUG_SAVEALL) and stops at the first append that fails; in
    either case [finalizers] is empty afterwards and its nodes are
    unlinked. *)
Theorem handle_legacy_finalizers_spec (fuel : nat) (g : GCState) (garbage : PyList)
    (finalizers : Z) (h : gmap Z PyGC_Head) (F : list Z) :
  is_gc_list h finalizers F -> (length F < fuel)%nat ->
  let saveall := negb (Z.land (debug g) DEBUG_SAVEALL =? 0) in
  let listed := map FROM_GC
    (List.filter (fun gc => saveall || has_legacy_finalizer objs (FROM_GC gc)) F) in
  exists items h',
    handle_legacy_finalizers objs env fuel g (Some garbage) finalizers h
    = Done (Some {| list_at := list_at garbage; ob_item := ob_item garbage ++ items |},
            h')
    /\ items `prefix_of` listed
    /\ ((forall its, append_ok env its = true) -> items = listed)
    /\ gc_list_is_empty h' finalizers = true
    /\ (forall gc, gc ∈ F -> _gc_next (head_at h' gc) = 0)
    /\ (forall a, a ∉ finalizers :: F -> head_at h' a = head_at h a).
Proof.
  intros [Hc Hnd] Hf saveall listed.
  destruct (garbage_loop_spec saveall finalizers h F (GC_NEXT h finalizers) fuel
              garbage Hc Hnd Hf) as (items & Hrun & Hpre & Hfull).
  destruct (gc_list_clear_loop_spec
              (fun p => Z.land p (Z.lor GC_TRACKED_MASK GC_FINALIZED_MASK))
              finalizers F (GC_NEXT h finalizers) h Hc Hnd)
    as (h' & Hclear & Hhead & Hnodes & Hframe).
  apply (gc_list_clear_loop_more_fuel _ _ _ _ _ _ fuel) in Hclear; [|lia].
  exists items, h'. split.
  { unfold handle_legacy_finalizers. fold saveall. rewrite Hrun.
    unfold continue_with, gc_list_clear. rewrite Hclear. reflexivity. }
  split; [exact Hpre|]. split; [exact Hfull|]. split; [|split].
  - unfold gc_list_is_empty. rewrite Hhead. simpl. apply Z.eqb_refl.
  - intros gc Hgc. rewrite (Hnodes gc Hgc). reflexivity.
  - intros a Ha. unfold head_at. rewrite (Hframe a Ha). reflexivity.
Qed.

End Garbage.
End Collecting.
End HeapTheorems.

Lemma gc_get_referrers_spec_witness :
  let args := {| Heap.tuple_at := 8000; Heap.tuple_item := [4208] |} in
  @Heap.gc_get_referrers GC.example_layout Lists.trash_objects Heap.plain_env
     [4160; 4192; 4224] Lists.trash_heads args
  = Heap.Returns {| Heap.list_at := 9000; Heap.ob_item := [4176] |}
  /\ exists items,
       @Heap.gc_get_referrers GC.example_layout Lists.trash_objects Heap.plain_env
          [4160; 4192; 4224] Lists.trash_heads args
       = Heap.Returns {| Heap.list_at := 9000; Heap.ob_item := items |}
       /\ (forall x, x ∈ items ->
             GC.AS_GC x ∈ [4160; 4192; 4224]
             /\ @GC._PyGC_TRACKED GC.example_layout Lists.trash_heads (GC.AS_GC x) = true
             /\ x <> 8000 /\ x <> 9000
             /\ exists y, y ∈ [4208]
                  /\ y ∈ GC.ob_referents (GC.object_at Lists.trash_objects x)).
Proof.
  intros args. split; [vm_compute; reflexivity|].
  destruct (@gc_get_referrers_spec GC.example_layout Heap.plain_env Lists.trash_objects
              [4160; 4192; 4224] Lists.trash_heads args 9000 eq_refl eq_refl)
    as (items & Hrun & Hsound & _).
  exists items. split; [exact Hrun|exact Hsound].
Defined.

Lemma gc_get_objects_spec_witness :
  @Heap.gc_get_objects_impl GC.example_layout Heap.plain_env 3
     [4160; 4192; 4224] Lists.trash_heads 2
  = Heap.Returns {| Heap.list_at := 9000; Heap.ob_item := [4176; 4208; 4240] |}
  /\ @Heap.gc_get_objects_impl GC.example_layout Heap.plain_env 3
       [4160; 4192; 4224] Lists.trash_heads (-1)
     = @Heap.gc_get_objects_impl GC.example_layout Heap.plain_env 3
         [4160; 4192; 4224] Lists.trash_heads 2
  /\ @Heap.gc_get_objects_impl GC.example_layout Heap.plain_env 3
       [4160; 4192; 4224] Lists.trash_heads 3
     = Heap.Raises "ValueError: generation parameter must be less than the number of available generations (3)".
Proof.
  split; [vm_compute; reflexivity|].
  destruct (@gc_get_objects_spec GC.example_layout Heap.plain_env 3
              [4160; 4192; 4224] Lists.trash_heads 2 9000 eq_refl eq_refl)
    as (Hvalid & _ & _).
  destruct (Hvalid ltac:(lia)) as (items & _ & _ & _ & Hsame).
  split; [exact (Hsame (-1) ltac:(lia))|].
  destruct (@gc_get_objects_spec GC.example_layout Heap.plain_env 3
              [4160; 4192; 4224] Lists.trash_heads 3 9000 eq_refl eq_refl)
    as (_ & Hhigh & _).
  exact (Hhigh ltac:(lia)).
Defined.

Lemma handle_legacy_finalizers_spec_witness :
  let g := GC.gcstate GC.quiet_world in
  let garbage := {| Heap.list_at := 7000; Heap.ob_item := [] |} in
  exists items h',
    @Heap.handle_legacy_finalizers GC.example_layout Lists.trash_objects
       Heap.plain_env 2 g (Some garbage) 3000 Lists.split_heads
    = Done (Some {| Heap.list_at := 7000; Heap.ob_item := [] ++ items |}, h')
    /\ items = [4176]
    /\ GC.gc_list_is_empty h' 3000 = true
    /\ GC._gc_next (GC.head_at h' 4160) = 0.
Proof.
  intros g garbage.
  destruct (@handle_legacy_finalizers_spec GC.example_layout Heap.plain_env
              Lists.trash_objects 2 g garbage 3000 Lists.split_heads [4160])
    as (items & h' & Hrun & _ & Hfull & Hempty & Hnodes & _).
  - split; [vm_compute; auto|]. apply (bool_decide_unpack _). vm_compute. exact I.
  - simpl. lia.
  - exists items, h'. split; [exact Hrun|]. split; [exact (Hfull (fun _ => eq_refl))|].
    split; [exact Hempty|]. apply Hnodes. left.
Defined.
